(** * Footprint: run-length encoded pixel regions (lsst::afw::detection)

    A shallow embedding of [src/detection/Footprint.cc].  C++ [int]s are
    modelled as [Z]: signed overflow is undefined in C++, so the model
    describes the executions in which no coordinate or area overflows.
    A [std::vector<PTR(Span)>] is a [list Span]; the footprint's mutable
    members become the fields of a record that every method takes and
    returns.  Exceptions and undefined behaviour are explicit outcomes. *)

From Stdlib Require Import ZArith List Bool Lia.
From Stdlib Require Import Sorting.Sorted Sorting.Permutation.
Import ListNotations.
Local Open Scope Z_scope.

Set Implicit Arguments.

#[local] Arguments Z.add _ _ : simpl never.
#[local] Arguments Z.sub _ _ : simpl never.
#[local] Arguments Z.mul _ _ : simpl never.
#[local] Arguments Z.of_nat _ : simpl never.

(* ================================================================== *)
(** * Part I: the model *)
(* ================================================================== *)

(** ** Outcomes of fallible code *)

(** The two exception classes of [lsst::pex::exceptions] thrown in
    Footprint.cc. *)
Inductive Exception : Type :=
| InvalidParameterError
| OutOfRangeError.

(** What a call does: it returns, it throws, or it leaves the defined
    behaviour of C++ (dereferencing a past-the-end iterator, [front()] of
    an empty vector, an iterator moved before [begin()]). *)
Inductive Outcome (A : Type) : Type :=
| Ok (a : A)
| Throw (e : Exception)
| Undefined.

Arguments Ok {A} a.
Arguments Throw {A} e.
Arguments Undefined {A}.

Definition bind {A B : Type} (m : Outcome A) (k : A -> Outcome B) : Outcome B :=
  match m with
  | Ok a => k a
  | Throw e => Throw e
  | Undefined => Undefined
  end.

Notation "x <- m ;; k" := (bind m (fun x => k))
  (at level 61, m at next level, right associativity).

(** ** Geometry: Span and Box2I *)

(** Modelled from the spec: [geom::Span] is declared in Span.h, outside the
    sources at hand.  A span is the row [y] and the inclusive columns
    [x0 .. x1]; the constructor stores its arguments as they are. *)
Record Span : Type := mkSpan { getY : Z; getX0 : Z; getX1 : Z }.

Definition getWidth (s : Span) : Z := getX1 s - getX0 s + 1.

(** Modelled from the spec: [Span::operator<], the order by y, then x0,
    then x1. *)
Definition span_ltb (a b : Span) : bool :=
  if getY a <? getY b then true
  else if getY b <? getY a then false
  else if getX0 a <? getX0 b then true
  else if getX0 b <? getX0 a then false
  else getX1 a <? getX1 b.

(** Modelled from the spec: [Span::contains(x, y)], inclusive at both ends. *)
Definition span_contains (s : Span) (x y : Z) : bool :=
  (getX0 s <=? x) && (x <=? getX1 s) && (y =? getY s).

(** Modelled from the spec: [geom::Box2I] is declared in Box.h, outside the
    sources at hand.  A box is its minimum corner and its dimensions; the
    default box is empty, with minimum (0,0) and dimensions (0,0), so that
    its maximum reads (-1,-1). *)
Record Box2I : Type := mkBox { getMinX : Z; getMinY : Z; getWidthB : Z; getHeightB : Z }.

Definition emptyBox : Box2I := mkBox 0 0 0 0.

Definition getMaxX (b : Box2I) : Z := getMinX b + getWidthB b - 1.
Definition getMaxY (b : Box2I) : Z := getMinY b + getHeightB b - 1.

Definition isEmpty (b : Box2I) : bool := (getWidthB b =? 0) && (getHeightB b =? 0).

(** [Box2I(Point2I minimum, Point2I maximum)] with the default [invert = true]:
    a maximum below the minimum is swapped with it. *)
Definition boxFromCorners (x0 y0 x1 y1 : Z) : Box2I :=
  let lo a b := if b - a <? 0 then b else a in
  let len a b := Z.abs (b - a) + 1 in
  mkBox (lo x0 x1) (lo y0 y1) (len x0 x1) (len y0 y1).

(** [Box2I(Point2I corner, Extent2I dimensions)], as [Image::getBBox] builds
    it from the origin and the (non-negative) size of a raster: a zero
    dimension gives the empty box. *)
Definition boxFromExtent (x0 y0 w h : Z) : Box2I :=
  if (w =? 0) || (h =? 0) then emptyBox else mkBox x0 y0 w h.

Definition box_contains (b : Box2I) (x y : Z) : bool :=
  (getMinX b <=? x) && (getMinY b <=? y) && (x <=? getMaxX b) && (y <=? getMaxY b).

(** [Box2I::include(Point2I)]. *)
Definition box_include (b : Box2I) (x y : Z) : Box2I :=
  if isEmpty b then mkBox x y 1 1
  else
    let minX := if x <? getMinX b then x else getMinX b in
    let maxX := if x <? getMinX b then getMaxX b
                else if getMaxX b <? x then x else getMaxX b in
    let minY := if y <? getMinY b then y else getMinY b in
    let maxY := if y <? getMinY b then getMaxY b
                else if getMaxY b <? y then y else getMaxY b in
    mkBox minX minY (1 + maxX - minX) (1 + maxY - minY).

(** [Box2I::clip(Box2I)]: shrink to the intersection with [other]. *)
Definition box_clip (b other : Box2I) : Box2I :=
  if isEmpty b then b
  else if isEmpty other then emptyBox
  else
    let minX := Z.max (getMinX b) (getMinX other) in
    let minY := Z.max (getMinY b) (getMinY other) in
    let maxX := Z.min (getMaxX b) (getMaxX other) in
    let maxY := Z.min (getMaxY b) (getMaxY other) in
    if (maxX <? minX) || (maxY <? minY) then emptyBox
    else mkBox minX minY (1 + maxX - minX) (1 + maxY - minY).

(** ** Peaks *)

(** Modelled from the spec: the peak catalog is an external collaborator.
    Only what Footprint.cc asks of it is kept: the identity of its schema
    and the ordered records with their integer position (the floating
    point fields play no part in any span computation). *)
Record PeakRecord : Type := mkPeak { getIx : Z; getIy : Z }.

Record PeakCatalog : Type := mkCatalog { getSchema : nat; records : list PeakRecord }.

(** [PeakTable::makeMinimalSchema()]. *)
Definition minimalSchema : nat := 0%nat.

(** ** The Footprint *)

(** The members of [class Footprint].  The identifier [_fid] drawn from the
    global counter is left out: no algorithm reads it. *)
Record Footprint : Type := mkFootprint {
  _spans : list Span;
  _area : Z;
  _bbox : Box2I;
  _peaks : PeakCatalog;
  _region : Box2I;
  _normalized : bool
}.

Definition set_normalized (f : Footprint) (n : bool) : Footprint :=
  mkFootprint (_spans f) (_area f) (_bbox f) (_peaks f) (_region f) n.

Definition set_peaks (f : Footprint) (p : PeakCatalog) : Footprint :=
  mkFootprint (_spans f) (_area f) (_bbox f) p (_region f) (_normalized f).

(** [Footprint::Footprint(int nspan, Box2I region)]. *)
Definition Footprint_new (nspan : Z) (region : Box2I) : Outcome Footprint :=
  if nspan <? 0 then Throw InvalidParameterError
  else Ok (mkFootprint [] 0 emptyBox (mkCatalog minimalSchema []) region true).

(** [Footprint::Footprint(Schema peakSchema, int nspan, Box2I region)]. *)
Definition Footprint_newSchema (schema : nat) (nspan : Z) (region : Box2I)
  : Outcome Footprint :=
  if nspan <? 0 then Throw InvalidParameterError
  else Ok (mkFootprint [] 0 emptyBox (mkCatalog schema []) region true).

(** The footprint [Footprint()] with every argument defaulted. *)
Definition Footprint_default : Footprint :=
  mkFootprint [] 0 emptyBox (mkCatalog minimalSchema []) emptyBox true.

(** [Footprint::addSpan(y, x0, x1)]: the recursion on swapped arguments is
    unfolded once (the second call never swaps again). *)
Definition addSpan (f : Footprint) (y x0 x1 : Z) : Footprint :=
  let '(x0, x1) := if x1 <? x0 then (x1, x0) else (x0, x1) in
  let sp := mkSpan y x0 x1 in
  mkFootprint (_spans f ++ [sp])
              (_area f + getWidth sp)
              (box_include (box_include (_bbox f) x0 y) x1 y)
              (_peaks f) (_region f) false.

(** [Footprint::addSpanInSeries(y, x0, x1)]. *)
Definition addSpanInSeries (f : Footprint) (y x0 x1 : Z) : Outcome Footprint :=
  let '(x0, x1) := if x1 <? x0 then (x1, x0) else (x0, x1) in
  match rev (_spans f) with
  | [] => Ok (set_normalized (addSpan f y x0 x1) true)
  | lastspan :: before =>
      if (y =? getY lastspan) && (x0 =? getX1 lastspan + 1) then
        (* contiguous: the last span is extended in place *)
        Ok (mkFootprint (rev before ++ [mkSpan (getY lastspan) (getX0 lastspan) x1])
                        (_area f + (1 + x1 - x0))
                        (box_include (_bbox f) x1 y)
                        (_peaks f) (_region f) (_normalized f))
      else if negb ((getY lastspan <? y) || (getX1 lastspan + 1 <? x0)) then
        Throw InvalidParameterError
      else Ok (set_normalized (addSpan f y x0 x1) true)
  end.

(** [Footprint::Footprint(Box2I bbox, Box2I region)]: the rectangle.  The
    rows [y0 .. y1] are visited in increasing order. *)
Fixpoint addRows (f : Footprint) (y x0 x1 : Z) (n : nat) : Footprint :=
  match n with
  | O => f
  | S n' => addRows (addSpan f y x0 x1) (y + 1) x0 x1 n'
  end.

Definition Footprint_rect (bbox region : Box2I) : Footprint :=
  let f0 := mkFootprint [] 0 bbox (mkCatalog minimalSchema []) region true in
  let x0 := getMinX bbox in
  let y0 := getMinY bbox in
  let x1 := getMaxX bbox in
  let y1 := getMaxY bbox in
  set_normalized (addRows f0 y0 x0 x1 (Z.to_nat (y1 - y0 + 1))) true.

(** [Footprint::Footprint(Footprint const&)]: the bounding box starts as
    the one of [other], every span goes through [addSpan], and the area and
    the flag are then taken from [other]. *)
Definition Footprint_copy (other : Footprint) : Footprint :=
  let f0 := mkFootprint [] 0 (_bbox other) (_peaks other) (_region other) true in
  let f1 := fold_left (fun f s => addSpan f (getY s) (getX0 s) (getX1 s))
                      (_spans other) f0 in
  mkFootprint (_spans f1) (_area other) (_bbox f1) (_peaks f1) (_region f1)
              (_normalized other).

(** [Footprint::contains(Point2I)]. *)
Definition contains (f : Footprint) (x y : Z) : bool :=
  if box_contains (_bbox f) x y
  then existsb (fun s => span_contains s x y) (_spans f)
  else false.

(** ** normalize *)

(** [std::sort(_spans.begin(), _spans.end(), compareSpanByYX())].  The
    comparator is a strict total order on the triples (y, x0, x1), so every
    sorting algorithm yields the same list; insertion sort stands for it. *)
Fixpoint insertSpan (s : Span) (l : list Span) : list Span :=
  match l with
  | [] => [s]
  | h :: t => if span_ltb s h then s :: l else h :: insertSpan s t
  end.

Definition sortSpans (l : list Span) : list Span := fold_right insertSpan [] l.

(** The locals of the sweep in [Footprint::normalize].  [sw_done] holds the
    spans before [lspan] that stay in the vector; [sw_lspan] is the span
    [lspan] points to, with the end it has been given so far. *)
Record Sweep : Type := mkSweep {
  sw_done : list Span;
  sw_lspan : Span;
  sw_y : Z;
  sw_x1 : Z;
  sw_area : Z;
  sw_minX : Z;
  sw_maxX : Z
}.

(** One turn of the [for (; ptr != end; ++ptr)] loop, on the span [rspan]
    under [ptr].  Erasing [rspan] and stepping back is: [rspan] is not kept
    and [lspan] stays. *)
Definition sweep_step (st : Sweep) (rspan : Span) : Sweep :=
  let move (area maxX : Z) :=
    let x1 := getX1 rspan in
    mkSweep (sw_done st ++ [sw_lspan st]) rspan (getY rspan) x1 area
            (if getX0 rspan <? sw_minX st then getX0 rspan else sw_minX st)
            (if maxX <? x1 then x1 else maxX) in
  if getY rspan =? sw_y st then
    if getX0 rspan <=? sw_x1 st + 1 then
      if sw_x1 st <? getX1 rspan then
        let x1 := getX1 rspan in
        mkSweep (sw_done st)
                (mkSpan (getY (sw_lspan st)) (getX0 (sw_lspan st)) x1)
                (sw_y st) x1
                (sw_area st + (getX1 rspan - sw_x1 st))
                (sw_minX st)
                (if sw_maxX st <? x1 then x1 else sw_maxX st)
      else st
    else
      move (sw_area st + getWidth rspan)
           (if sw_maxX st <? getX1 rspan then getX1 rspan else sw_maxX st)
  else
    move (sw_area st + getWidth rspan) (sw_maxX st).

Definition sweep (st : Sweep) (rest : list Span) : Sweep :=
  fold_left sweep_step rest st.

(** [Footprint::normalize()]. *)
Definition normalize (f : Footprint) : Footprint :=
  if _normalized f then f
  else
    match sortSpans (_spans f) with
    | [] => mkFootprint [] 0 emptyBox (_peaks f) (_region f) true
    | lspan :: rest =>
        let y := getY lspan in
        let x1 := getX1 lspan in
        let st := sweep (mkSweep [] lspan y x1 (getWidth lspan) (getX0 lspan) x1) rest in
        mkFootprint (sw_done st ++ [sw_lspan st])
                    (sw_area st)
                    (boxFromCorners (sw_minX st) y (sw_maxX st) (sw_y st))
                    (_peaks f) (_region f) true
    end.

(** ** What the specification calls a normalized footprint *)

(** A span holds at least one pixel. *)
Definition span_wf (s : Span) : Prop := getX0 s <= getX1 s.

(** The pixel (x, y) lies in some span of the list. *)
Definition covers (l : list Span) (x y : Z) : Prop :=
  exists s, In s l /\ span_contains s x y = true.

(** Sorted by (y, x0, x1): no span is followed, anywhere later in the list,
    by one that [operator<] puts before it. *)
Definition sorted_yx (l : list Span) : Prop :=
  StronglySorted (fun a b => span_ltb b a = false) l.

(** For every pair of adjacent spans on one row,
    [nextSpan.x0 > prevSpan.x1 + 1]. *)
Definition no_touch (l : list Span) : Prop :=
  forall (i : nat) (prev next : Span),
    nth_error l i = Some prev ->
    nth_error l (S i) = Some next ->
    getY prev = getY next ->
    getX0 next > getX1 prev + 1.

(** The sum of the span widths. *)
Definition sum_widths (l : list Span) : Z :=
  fold_right (fun s acc => getWidth s + acc) 0 l.

(** [b] is the minimal box enclosing the spans: empty for no span, and
    otherwise a box that holds every span and is reached by a span on each
    of its four sides. *)
Definition tight_bbox (b : Box2I) (l : list Span) : Prop :=
  match l with
  | [] => b = emptyBox
  | _ :: _ =>
      0 < getWidthB b /\ 0 < getHeightB b /\
      (forall s, In s l ->
         getMinX b <= getX0 s /\ getX1 s <= getMaxX b /\
         getMinY b <= getY s <= getMaxY b) /\
      (exists s, In s l /\ getX0 s = getMinX b) /\
      (exists s, In s l /\ getX1 s = getMaxX b) /\
      (exists s, In s l /\ getY s = getMinY b) /\
      (exists s, In s l /\ getY s = getMaxY b)
  end.

(** The invariant the flag [_normalized] stands for. *)
Record normalized_inv (f : Footprint) : Prop := mkNormalizedInv {
  ni_wf : Forall span_wf (_spans f);
  ni_sorted : sorted_yx (_spans f);
  ni_no_touch : no_touch (_spans f);
  ni_area : _area f = sum_widths (_spans f);
  ni_bbox : tight_bbox (_bbox f) (_spans f)
}.

(** ** Rasters *)

(** Modelled from the spec: [image::Image<PixelT>] and [image::Mask<MaskT>]
    are external collaborators.  A raster is its origin in the parent
    frame, its size, and its pixels read by column and row counted from
    (0,0) as [x_at] does; only the pixels with [0 <= col < width] and
    [0 <= row < height] belong to it. *)
Record Raster : Type := mkRaster {
  img_x0 : Z;
  img_y0 : Z;
  img_width : Z;
  img_height : Z;
  img_pix : Z -> Z -> Z
}.

(** A raster has a non-negative size. *)
Definition raster_wf (r : Raster) : Prop := 0 <= img_width r /\ 0 <= img_height r.

(** [Image::getBBox()]. *)
Definition getBBox (r : Raster) : Box2I :=
  boxFromExtent (img_x0 r) (img_y0 r) (img_width r) (img_height r).

Definition in_raster (r : Raster) (col row : Z) : bool :=
  (0 <=? col) && (col <? img_width r) && (0 <=? row) && (row <? img_height r).

(** The pixel of the raster at the parent-frame position (x, y). *)
Definition pixel_at (r : Raster) (x y : Z) : Z :=
  img_pix r (x - img_x0 r) (y - img_y0 r).

(** Storing [v] at (col, row); a store outside the raster is undefined. *)
Definition raster_store (r : Raster) (col row v : Z) : Outcome Raster :=
  if in_raster r col row then
    Ok (mkRaster (img_x0 r) (img_y0 r) (img_width r) (img_height r)
                 (fun c w => if (c =? col) && (w =? row) then v else img_pix r c w))
  else Undefined.

(** The columns [x, x+1, ..., x+n-1] an [x_iterator] walks through. *)
Fixpoint columns (x : Z) (n : nat) : list Z :=
  match n with
  | O => []
  | S n' => x :: columns (x + 1) n'
  end.

(** ** intersectMask *)

(** The leading scan
    [while ( ( *s )->getY() < maskBBox.getMinY() && s != _spans.end()) ++s;]
    on the spans from [s] on.  The span under [s] is read before [s] is
    compared with the end, so reaching the end is a read past it. *)
Fixpoint leading_scan (l : list Span) (minY : Z) : Outcome (list Span) :=
  match l with
  | [] => Undefined
  | s :: l' => if getY s <? minY then leading_scan l' minY else Ok l
  end.

(** The locals of the pixel loop: the start [x0] of the run being built,
    the spans emitted so far and their area. *)
Record Slice : Type := mkSlice {
  sl_x0 : Z;
  sl_spans : list Span;
  sl_area : Z
}.

Definition emit (st : Slice) (y x0 x1 : Z) : list Span * Z :=
  let maskedSpan := mkSpan y x0 x1 in
  (sl_spans st ++ [maskedSpan], sl_area st + getWidth maskedSpan).

(** One turn of [for (int x = x0; x <= x1; ++x, ++mIter)]; [pixel] is
    [*mIter]. *)
Definition slice_step (bitmask y : Z) (pixel : Z -> Z) (st : Slice) (x : Z) : Slice :=
  if negb (Z.land (pixel x) bitmask =? 0) then
    let '(spans, area) := if sl_x0 st <? x then emit st y (sl_x0 st) (x - 1)
                          else (sl_spans st, sl_area st) in
    mkSlice (x + 1) spans area
  else st.

(** The body of [for ( ; s != _spans.end(); ++s)] for one span that is not
    past the last row of the mask. *)
Definition slice_span (mask : Raster) (maskBBox : Box2I) (bitmask : Z)
    (s : Span) (maskedSpans : list Span) (maskedArea : Z) : list Span * Z :=
  let y := getY s in
  let x0 := getX0 s in
  let x1 := getX1 s in
  if (x1 <? getMinX maskBBox) || (getMaxX maskBBox <? x0) then (maskedSpans, maskedArea)
  else
    let x0 := if x0 <? getMinX maskBBox then getMinX maskBBox else x0 in
    let x1 := if getMaxX maskBBox <? x1 then getMaxX maskBBox else x1 in
    let pixel x := img_pix mask (x - getMinX maskBBox) (y - getMinY maskBBox) in
    let st := fold_left (slice_step bitmask y pixel)
                        (columns x0 (Z.to_nat (x1 - x0 + 1)))
                        (mkSlice x0 maskedSpans maskedArea) in
    if sl_x0 st <=? x1 then emit st y (sl_x0 st) x1
    else (sl_spans st, sl_area st).

Fixpoint slice_spans (mask : Raster) (maskBBox : Box2I) (bitmask : Z)
    (l : list Span) (maskedSpans : list Span) (maskedArea : Z) : list Span * Z :=
  match l with
  | [] => (maskedSpans, maskedArea)
  | s :: l' =>
      if getMaxY maskBBox <? getY s then (maskedSpans, maskedArea)
      else
        let '(spans, area) := slice_span mask maskBBox bitmask s maskedSpans maskedArea in
        slice_spans mask maskBBox bitmask l' spans area
  end.

(** [Footprint::intersectMask(mask, bitmask)]. *)
Definition intersectMask (f : Footprint) (mask : Raster) (bitmask : Z)
  : Outcome Footprint :=
  let maskBBox := getBBox mask in
  let f := normalize f in
  s <- leading_scan (_spans f) (getMinY maskBBox) ;;
  let '(maskedSpans, maskedArea) := slice_spans mask maskBBox bitmask s [] 0 in
  Ok (mkFootprint maskedSpans maskedArea (box_clip (_bbox f) maskBBox)
                  (_peaks f) (_region f) (_normalized f)).

(** The pixel (x, y) lies in the mask and none of the bits of [bitmask] is
    set there: it is kept by [intersectMask]. *)
Definition keptb (mask : Raster) (bitmask x y : Z) : bool :=
  box_contains (getBBox mask) x y && (Z.land (pixel_at mask x y) bitmask =? 0).

(** The number of kept pixels of one span, and of a list of spans. *)
Definition kept_in_span (mask : Raster) (bitmask : Z) (s : Span) : Z :=
  Z.of_nat (length (filter (fun x => keptb mask bitmask x (getY s))
                           (columns (getX0 s) (Z.to_nat (getWidth s))))).

Definition kept_pixels (mask : Raster) (bitmask : Z) (l : list Span) : Z :=
  fold_right (fun s acc => kept_in_span mask bitmask s + acc) 0 l.

(** A box as [Box2I] keeps it: the empty box, or positive in both
    dimensions. *)
Definition box_wf (b : Box2I) : Prop :=
  b = emptyBox \/ (0 < getWidthB b /\ 0 < getHeightB b).

(** ** setMaskFromFootprint *)

(** The clamp [(x < 0) ? 0 : (x >= width ? width - 1 : x)] applied to both
    ends of a span. *)
Definition clampColumn (width x : Z) : Z :=
  if x <? 0 then 0 else if width <=? x then width - 1 else x.

(** [for (ptr = mask->x_at(x0, y), end = mask->x_at(x1 + 1, y); ptr != end; ++ptr)
      *ptr |= bitmask;]
    on the columns [cols] of the row [y]. *)
Fixpoint or_columns (mask : Raster) (y bitmask : Z) (cols : list Z) : Outcome Raster :=
  match cols with
  | [] => Ok mask
  | c :: cols' =>
      m <- raster_store mask c y (Z.lor (img_pix mask c y) bitmask) ;;
      or_columns m y bitmask cols'
  end.

(** The body of the loop over the spans, for one span.  When [x1 + 1] is
    left of [x0] the iterator never meets [end]. *)
Definition setMask_span (mask : Raster) (bitmask : Z) (span : Span) : Outcome Raster :=
  let width := img_width mask in
  let height := img_height mask in
  let y := getY span - img_y0 mask in
  if (y <? 0) || (height <=? y) then Ok mask
  else
    let x0 := clampColumn width (getX0 span - img_x0 mask) in
    let x1 := clampColumn width (getX1 span - img_x0 mask) in
    if x1 + 1 <? x0 then Undefined
    else or_columns mask y bitmask (columns x0 (Z.to_nat (x1 + 1 - x0))).

Fixpoint setMask_spans (mask : Raster) (bitmask : Z) (l : list Span) : Outcome Raster :=
  match l with
  | [] => Ok mask
  | span :: l' => m <- setMask_span mask bitmask span ;; setMask_spans m bitmask l'
  end.

(** [setMaskFromFootprint(mask, foot, bitmask)]: the mask as it is left, and
    the value returned. *)
Definition setMaskFromFootprint (mask : Raster) (foot : Footprint) (bitmask : Z)
  : Outcome (Raster * Z) :=
  m <- setMask_spans mask bitmask (_spans foot) ;; Ok (m, bitmask).

(** ** insertIntoImage *)

(** Modelled from the spec: the pixel type [PixelT] of the target image, by
    [std::numeric_limits<PixelT>::max()] and the conversion a value goes
    through when it is stored in a pixel. *)
Record PixelType : Type := mkPixelType { pix_max : Z; pix_store : Z -> Z }.

Definition uint16_t : PixelType := mkPixelType 65535 (fun v => v mod 65536).
Definition uint64_t : PixelType :=
  mkPixelType 18446744073709551615 (fun v => v mod 18446744073709551616).
Definition int32_t : PixelType :=
  mkPixelType 2147483647 (fun v => (v + 2147483648) mod 4294967296 - 2147483648).

(** [oldIds->insert(pos, val)] on a [std::set<uint64_t>], kept as a sorted
    list without repetition. *)
Fixpoint set_insert (v : Z) (l : list Z) : list Z :=
  match l with
  | [] => [v]
  | h :: t => if v <? h then v :: l else if v =? h then l else h :: set_insert v t
  end.

(** The pixel loop of [doInsertIntoImage] on the columns [cols] of the row
    [sy0]. *)
Fixpoint insert_columns (T : PixelType) (overwriteId : bool) (idImage : Raster)
    (id mask : Z) (oldIds : option (list Z)) (sy0 : Z) (cols : list Z)
  : Outcome (Raster * option (list Z)) :=
  match cols with
  | [] => Ok (idImage, oldIds)
  | c :: cols' =>
      let p := img_pix idImage c sy0 in
      if overwriteId then
        let val := Z.land p (Z.lnot mask) in
        let oldIds' := match oldIds with
                       | Some ids => if negb (val =? 0) then Some (set_insert val ids)
                                     else oldIds
                       | None => None
                       end in
        im <- raster_store idImage c sy0 (pix_store T (Z.land p mask + id)) ;;
        insert_columns T overwriteId im id mask oldIds' sy0 cols'
      else
        im <- raster_store idImage c sy0 (pix_store T (p + id)) ;;
        insert_columns T overwriteId im id mask oldIds sy0 cols'
  end.

Fixpoint insert_spans (T : PixelType) (overwriteId : bool) (idImage : Raster)
    (id mask : Z) (oldIds : option (list Z)) (width height x0 y0 : Z) (l : list Span)
  : Outcome (Raster * option (list Z)) :=
  match l with
  | [] => Ok (idImage, oldIds)
  | span :: l' =>
      let sy0 := getY span - y0 in
      if (sy0 <? 0) || (height <=? sy0) then
        insert_spans T overwriteId idImage id mask oldIds width height x0 y0 l'
      else
        let sx0 := getX0 span - x0 in
        let sx0 := if sx0 <? 0 then 0 else sx0 in
        let sx1 := getX1 span - x0 in
        let swidth := if width <=? sx1 then width - sx0 else sx1 - sx0 + 1 in
        if swidth <? 0 then Undefined
        else
          r <- insert_columns T overwriteId idImage id mask oldIds sy0
                 (columns sx0 (Z.to_nat swidth)) ;;
          insert_spans T overwriteId (fst r) id mask (snd r) width height x0 y0 l'
  end.

(** [doInsertIntoImage<overwriteId>(_region, _spans, idImage, id, region, mask, oldIds)].
    [id] is a [uint64_t], so [id & mask] only sees the low 64 bits of the
    [long] mask; for [0 <= id < 2^64] that is [Z.land id mask]. *)
Definition doInsertIntoImage (T : PixelType) (overwriteId : bool)
    (_region : Box2I) (_spans : list Span) (idImage : Raster) (id : Z)
    (region : Box2I) (mask : Z) (oldIds : option (list Z))
  : Outcome (Raster * option (list Z)) :=
  let r := if negb (isEmpty region) then region else _region in
  let height := getHeightB r in
  let width := getWidthB r in
  let x0 := getMinX r in
  let y0 := getMinY r in
  if negb (width =? img_width idImage) || negb (height =? img_height idImage) then
    Throw InvalidParameterError
  else if negb (Z.land id mask =? 0) then Throw InvalidParameterError
  else insert_spans T overwriteId idImage id mask oldIds width height x0 y0 _spans.

(** [Footprint::insertIntoImage(idImage, id, region)], the overload of three
    arguments. *)
Definition insertIntoImage3 (T : PixelType) (f : Footprint) (idImage : Raster)
    (id : Z) (region : Box2I) : Outcome Raster :=
  r <- doInsertIntoImage T false (_region f) (_spans f) idImage id region 0 None ;;
  Ok (fst r).

(** [Footprint::insertIntoImage(idImage, id, overwriteId, mask, oldIds, region)],
    the overload of six arguments. *)
Definition insertIntoImage6 (T : PixelType) (f : Footprint) (idImage : Raster)
    (id : Z) (overwriteId : bool) (mask : Z) (oldIds : option (list Z))
    (region : Box2I) : Outcome (Raster * option (list Z)) :=
  if pix_max T <? id then Throw OutOfRangeError
  else doInsertIntoImage T overwriteId (_region f) (_spans f) idImage id region mask oldIds.

(** ** findEdgePixels *)

(** A loop whose body may throw or run into undefined behaviour. *)
Fixpoint foldM {A B : Type} (step : A -> B -> Outcome A) (l : list B) (a : A)
  : Outcome A :=
  match l with
  | [] => Ok a
  | b :: l' => a' <- step a b ;; foldM step l' a'
  end.

(** [row[i]] on a [std::vector<bool>]: reading outside the vector is
    undefined. *)
Definition row_get (row : list bool) (i : Z) : Outcome bool :=
  if i <? 0 then Undefined
  else match nth_error row (Z.to_nat i) with
       | Some b => Ok b
       | None => Undefined
       end.

Fixpoint fill_from (row : list bool) (i a b : Z) : list bool :=
  match row with
  | [] => []
  | v :: row' => (if (a <=? i) && (i <? b) then true else v) :: fill_from row' (i + 1) a b
  end.

(** [std::fill(row.begin() + a, row.begin() + b, true)]: the range has to
    lie in the vector. *)
Definition fill (row : list bool) (a b : Z) : Outcome (list bool) :=
  if (0 <=? a) && (a <=? b) && (b <=? Z.of_nat (length row))
  then Ok (fill_from row 0 a b)
  else Undefined.

(** [for (; readAhead != end && ( *readAhead )->getY() == y; ++readAhead)
      std::fill(row.begin() + x0 - xStart, row.begin() + x1 + 1 - xStart, true);] *)
Fixpoint load_row (readAhead : list Span) (row : list bool) (y xStart : Z)
  : Outcome (list Span * list bool) :=
  match readAhead with
  | [] => Ok ([], row)
  | s :: rest =>
      if getY s =? y then
        row' <- fill row (getX0 s - xStart) (getX1 s + 1 - xStart) ;;
        load_row rest row' y xStart
      else Ok (readAhead, row)
  end.

(** [for (; readAhead != end && ( *readAhead )->getY() <= y; ++readAhead) {}] *)
Fixpoint skip_rows (readAhead : list Span) (y : Z) : list Span :=
  match readAhead with
  | [] => []
  | s :: rest => if getY s <=? y then skip_rows rest y else readAhead
  end.

(** The three row bitmaps, the read-ahead iterator, [yLast] and the
    footprint of edges built so far. *)
Record EdgeScan : Type := mkEdgeScan {
  es_rowBefore : list bool;
  es_rowNow : list bool;
  es_rowAfter : list bool;
  es_readAhead : list Span;
  es_yLast : Z;
  es_edges : Footprint
}.

(** The locals of the scan of one span: [onEdge], the start [x0] of the
    edge run, and the footprint of edges. *)
Record EdgeRun : Type := mkEdgeRun {
  er_onEdge : bool;
  er_x0 : Z;
  er_edges : Footprint
}.

(** One turn of
    [for (int x = x0 + 1, i = x0 + 1 - xStart; x < x1; ++x, ++i)].
    Both bitmaps have the width of the bounding box, so [rowAfter[i]] is in
    range exactly when [rowBefore[i]] is. *)
Definition edge_step (y xStart : Z) (rowBefore rowAfter : list bool)
    (st : EdgeRun) (x : Z) : Outcome EdgeRun :=
  let i := x - xStart in
  before <- row_get rowBefore i ;;
  after <- row_get rowAfter i ;;
  if er_onEdge st then
    if before && after then
      e <- addSpanInSeries (er_edges st) y (er_x0 st) (x - 1) ;;
      Ok (mkEdgeRun false (er_x0 st) e)
    else Ok st
  else if negb before || negb after then Ok (mkEdgeRun true x (er_edges st))
  else Ok st.

(** The body of the loop over the spans of [findEdgePixels]. *)
Definition edge_span (xStart yStart yEnd : Z) (st : EdgeScan) (ss : Span)
  : Outcome EdgeScan :=
  let y := getY ss in
  if (y =? yStart) || (y =? yEnd) then
    e <- addSpanInSeries (es_edges st) y (getX0 ss) (getX1 ss) ;;
    Ok (mkEdgeScan (es_rowBefore st) (es_rowNow st) (es_rowAfter st)
                   (es_readAhead st) (es_yLast st) e)
  else
    st1 <- (if negb (y =? es_yLast st) then
              let rowBefore := es_rowNow st in
              let rowNow := es_rowAfter st in
              let rowAfter := map (fun _ => false) (es_rowAfter st) in
              let readAhead := skip_rows (es_readAhead st) y in
              r <- load_row readAhead rowAfter (y + 1) xStart ;;
              Ok (mkEdgeScan rowBefore rowNow (snd r) (fst r) y (es_edges st))
            else Ok st) ;;
    let x0 := getX0 ss in
    let x1 := getX1 ss in
    run <- foldM (edge_step y xStart (es_rowBefore st1) (es_rowAfter st1))
                 (columns (x0 + 1) (Z.to_nat (x1 - x0 - 1)))
                 (mkEdgeRun true x0 (es_edges st1)) ;;
    e <- (if er_onEdge run then addSpanInSeries (er_edges run) y (er_x0 run) x1
          else addSpanInSeries (er_edges run) y x1 x1) ;;
    Ok (mkEdgeScan (es_rowBefore st1) (es_rowNow st1) (es_rowAfter st1)
                   (es_readAhead st1) (es_yLast st1) e).

(** [Footprint::findEdgePixels()]. *)
Definition findEdgePixels (f : Footprint) : Outcome Footprint :=
  if negb (_normalized f) then Throw InvalidParameterError
  else
    let width := getWidthB (_bbox f) in
    let height := getHeightB (_bbox f) in
    if (height <=? 2) || (Z.of_nat (length (_spans f)) <=? 2) then Ok (Footprint_copy f)
    else
      edges <- Footprint_newSchema (getSchema (_peaks f)) 0 emptyBox ;;
      let xStart := getMinX (_bbox f) in
      let yStart := getMinY (_bbox f) in
      let blank := repeat false (Z.to_nat width) in
      match rev (_spans f) with
      | [] => Undefined
      | back :: _ =>
          let yEnd := getY back in
          now <- load_row (_spans f) blank yStart xStart ;;
          after <- load_row (fst now) blank (yStart + 1) xStart ;;
          st <- foldM (edge_span xStart yStart yEnd) (_spans f)
                      (mkEdgeScan blank (snd now) (snd after) (fst after) yStart edges) ;;
          Ok (normalize (es_edges st))
      end.

(** The pixel (x, y) is on the perimeter of the box. *)
Definition on_perimeter (b : Box2I) (x y : Z) : Prop :=
  box_contains b x y = true /\
  (x = getMinX b \/ x = getMaxX b \/ y = getMinY b \/ y = getMaxY b).

(** The rows of a solid rectangle, from row [y] on. *)
Fixpoint rect_rows (x0 x1 y : Z) (n : nat) : list Span :=
  match n with
  | O => []
  | S n' => mkSpan y x0 x1 :: rect_rows x0 x1 (y + 1) n'
  end.

(** The spans of the perimeter of the rectangle with columns [x0 .. x1] and
    rows [yStart .. yEnd], from row [y] on: the whole first and last row,
    and the two end pixels of every row between them. *)
Fixpoint edge_rows (x0 x1 yStart yEnd y : Z) (n : nat) : list Span :=
  match n with
  | O => []
  | S n' =>
      (if (y =? yStart) || (y =? yEnd) then [mkSpan y x0 x1]
       else if x1 - x0 <=? 1 then [mkSpan y x0 x1]
       else [mkSpan y x0 x0; mkSpan y x1 x1])
      ++ edge_rows x0 x1 yStart yEnd (y + 1) n'
  end.

(** Appending a span and setting the flag, as [addSpanInSeries] does for a
    span that comes after the last one. *)
Definition push (e : Footprint) (s : Span) : Footprint :=
  set_normalized (addSpan e (getY s) (getX0 s) (getX1 s)) true.

(** ** mergeFootprints *)

(** The peaks of the merged footprint: those of the side that has any, both
    in turn when the schemas agree, and an exception when they do not.
    [fresh] is the catalog of the footprint just created. *)
Definition merge_peaks (fresh aPeak bPeak : PeakCatalog) : Outcome PeakCatalog :=
  match records aPeak, records bPeak with
  | [], [] => Ok fresh
  | [], _ :: _ => Ok (mkCatalog (getSchema bPeak) (records bPeak))
  | _ :: _, [] => Ok (mkCatalog (getSchema aPeak) (records aPeak))
  | _ :: _, _ :: _ =>
      if Nat.eqb (getSchema aPeak) (getSchema bPeak)
      then Ok (mkCatalog (getSchema aPeak) (records aPeak ++ records bPeak))
      else Throw InvalidParameterError
  end.

(** The span under the iterator continues the run that ends at [x1] on row
    [y]: [(it != end) && (( *it )->getY() == y) && (( *it )->getX0() <= (x1+1))]. *)
Definition continues (y x1 : Z) (l : list Span) : bool :=
  match l with
  | [] => false
  | s :: _ => (getY s =? y) && (getX0 s <=? x1 + 1)
  end.

(** The inner [while (true)] of [_mergeFootprints]: it takes spans from
    either side as long as one continues the run, and yields the end of the
    run with the two iterators.  Each turn moves one iterator, so [fuel]
    beyond the number of spans left is never used up; [None] stands for
    having run out of it. *)
Fixpoint absorb (fuel : nat) (y x1 : Z) (aSpan bSpan : list Span)
  : option (Z * list Span * list Span) :=
  match fuel with
  | O => None
  | S fuel' =>
      if continues y x1 aSpan then
        match aSpan with
        | s :: aSpan' => absorb fuel' y (Z.max x1 (getX1 s)) aSpan' bSpan
        | [] => None
        end
      else if continues y x1 bSpan then
        match bSpan with
        | s :: bSpan' => absorb fuel' y (Z.max x1 (getX1 s)) aSpan bSpan'
        | [] => None
        end
      else Some (x1, aSpan, bSpan)
  end.

(** [foot->addSpanInSeries(s.getY(), s.getX0(), s.getX1())] for each span of
    a list in turn: the two loops that add what is left of A, then of B. *)
Definition addAllInSeries (foot : Footprint) (l : list Span) : Outcome Footprint :=
  foldM (fun f s => addSpanInSeries f (getY s) (getX0 s) (getX1 s)) l foot.

(** The main [while ((aSpan != aEnd) && (bSpan != bEnd))] of
    [_mergeFootprints], followed by the two loops over the rest.  Each turn
    moves at least one iterator. *)
Fixpoint merge_loop (fuel : nat) (aSpan bSpan : list Span) (foot : Footprint)
  : option (Outcome Footprint) :=
  match fuel with
  | O => None
  | S fuel' =>
      match aSpan, bSpan with
      | sa :: aSpan', sb :: bSpan' =>
          let y := getY sa in
          let x0 := getX0 sa in
          let x1 := getX1 sa in
          let yb := getY sb in
          let xb0 := getX0 sb in
          let xb1 := getX1 sb in
          if (y <? yb) || ((y =? yb) && (x1 <? xb0 - 1)) then
            (* A is earlier *)
            match addSpanInSeries foot y x0 x1 with
            | Ok foot' => merge_loop fuel' aSpan' bSpan foot'
            | Throw e => Some (Throw e)
            | Undefined => Some Undefined
            end
          else if (yb <? y) || ((y =? yb) && (xb1 <? x0 - 1)) then
            (* B is earlier *)
            match addSpanInSeries foot yb xb0 xb1 with
            | Ok foot' => merge_loop fuel' aSpan bSpan' foot'
            | Throw e => Some (Throw e)
            | Undefined => Some Undefined
            end
          else
            (* overlap: union all connected spans *)
            let x0 := Z.min x0 xb0 in
            let x1 := Z.max x1 xb1 in
            match absorb (S (length aSpan' + length bSpan')) y x1 aSpan' bSpan' with
            | None => None
            | Some (x1, aRest, bRest) =>
                match addSpanInSeries foot y x0 x1 with
                | Ok foot' => merge_loop fuel' aRest bRest foot'
                | Throw e => Some (Throw e)
                | Undefined => Some Undefined
                end
            end
      | _, _ =>
          Some (foot' <- addAllInSeries foot aSpan ;; addAllInSeries foot' bSpan)
      end
  end.

(** [_mergeFootprints(aFoot, bFoot)].  The loop is given more fuel than
    there are spans, which it cannot use up (lemma [merge_loop_fuel]). *)
Definition _mergeFootprints (aFoot bFoot : Footprint) : Outcome Footprint :=
  let foot := Footprint_default in
  peaks <- merge_peaks (_peaks foot) (_peaks aFoot) (_peaks bFoot) ;;
  match merge_loop (S (length (_spans aFoot) + length (_spans bFoot)))
                   (_spans aFoot) (_spans bFoot) (set_peaks foot peaks) with
  | Some r => r
  | None => Undefined
  end.

(** [mergeFootprints(Footprint& foot1, Footprint& foot2)]: both arguments
    are normalized in place first. *)
Definition mergeFootprints (foot1 foot2 : Footprint) : Outcome Footprint :=
  _mergeFootprints (normalize foot1) (normalize foot2).

(** [mergeFootprints(Footprint const& foot1, Footprint const& foot2)]. *)
Definition mergeFootprints_const (foot1 foot2 : Footprint) : Outcome Footprint :=
  if negb (_normalized foot1) || negb (_normalized foot2)
  then Throw InvalidParameterError
  else _mergeFootprints foot1 foot2.

(** The span [s] starts at or after column [x0] of row [y], in reading
    order. *)
Definition later (y x0 : Z) (s : Span) : Prop :=
  y < getY s \/ (getY s = y /\ x0 <= getX0 s).

(** ** Structuring elements *)

Inductive Shape : Type := CIRCLE | DIAMOND.

(** [class StructuringElement]: one span per row of the element, and the
    number of rows. *)
Record StructuringElement : Type := mkElement {
  _widths : list Span;
  _yRange : Z
}.

(** [StructuringElement::StructuringElement(Shape shape, int radius)]: the
    rows [dy = -radius .. radius] in increasing order.  For the circle the
    source truncates [sqrt] of a [double]; on the integers at hand that is
    the integer square root. *)
Definition element_row (shape : Shape) (radius dy : Z) : Span :=
  let dx := match shape with
            | CIRCLE => Z.sqrt (radius * radius - dy * dy)
            | DIAMOND => radius - Z.abs dy
            end in
  mkSpan dy (- dx) dx.

Definition StructuringElement_shape (shape : Shape) (radius : Z) : StructuringElement :=
  mkElement (map (element_row shape radius)
                 (columns (- radius) (Z.to_nat (radius - (- radius) + 1))))
            (2 * radius + 1).

(** ** growFootprintImpl *)

(** The order of [std::pair<int, int>]. *)
Definition pair_ltb (p q : Z * Z) : bool :=
  (fst p <? fst q) || ((fst p =? fst q) && (snd p <? snd q)).

(** [std::set<std::pair<int, int>>::insert] on the sorted list of the
    elements of the set. *)
Fixpoint pset_insert (p : Z * Z) (l : list (Z * Z)) : list (Z * Z) :=
  match l with
  | [] => [p]
  | q :: l' =>
      if pair_ltb p q then p :: l
      else if pair_ltb q p then q :: pset_insert p l'
      else l
  end.

(** The [std::map<int, std::set<...>>] as the list of its entries in
    increasing order of the key; [spans[yval]] of a missing key is the
    empty set. *)
Fixpoint map_get (m : list (Z * list (Z * Z))) (y : Z) : list (Z * Z) :=
  match m with
  | [] => []
  | (k, v) :: m' => if k =? y then v else map_get m' y
  end.

Fixpoint map_set (m : list (Z * list (Z * Z))) (y : Z) (v : list (Z * Z))
  : list (Z * list (Z * Z)) :=
  match m with
  | [] => [(y, v)]
  | (k, w) :: m' =>
      if y <? k then (y, v) :: m
      else if k =? y then (y, v) :: m'
      else (k, w) :: map_set m' y v
  end.

(** The coalescing loops of [growFootprintImpl], walking the set once.
    [start] and [end_] are the run being built.  A pair under the iterator
    either continues the run ([first <= end + 1]) or closes it and opens
    the next one.  The inner [while] tests the opening pair itself first;
    should the test fail ([first > second + 1]) the iterator is stepped
    back past the pair it stands on, which is outside the defined
    behaviour. *)
Fixpoint coalesce_run (start end_ : Z) (l : list (Z * Z)) (newSpans : list (Z * Z))
  : Outcome (list (Z * Z)) :=
  match l with
  | [] => Ok (pset_insert (start, end_) newSpans)
  | p :: l' =>
      if fst p <=? end_ + 1 then
        coalesce_run start (Z.max end_ (snd p)) l' newSpans
      else if fst p <=? snd p + 1 then
        coalesce_run (fst p) (snd p) l' (pset_insert (start, end_) newSpans)
      else Undefined
  end.

Definition coalesce (l : list (Z * Z)) : Outcome (list (Z * Z)) :=
  match l with
  | [] => Ok []
  | p :: l' =>
      if fst p <=? snd p + 1 then coalesce_run (fst p) (snd p) l' []
      else Undefined
  end.

(** The body of the two nested loops: one span of the footprint against one
    row of the element. *)
Definition grow_step (span : Span) (spans : list (Z * list (Z * Z))) (el : Span)
  : Outcome (list (Z * list (Z * Z))) :=
  let xmin := getX0 span + getX0 el in
  let xmax := getX1 span + getX1 el in
  let yval := getY span + getY el in
  newSpans <- coalesce (pset_insert (xmin, xmax) (map_get spans yval)) ;;
  Ok (map_set spans yval newSpans).

Definition grow_span (element : StructuringElement)
    (spans : list (Z * list (Z * Z))) (span : Span)
  : Outcome (list (Z * list (Z * Z))) :=
  foldM (grow_step span) (_widths element) spans.

(** The spans of the map in the order the two emitting loops visit them. *)
Definition map_spans (spans : list (Z * list (Z * Z))) : list Span :=
  flat_map (fun e => map (fun x => mkSpan (fst e) (fst x) (snd x)) (snd e)) spans.

(** [growFootprintImpl(foot, element)]. *)
Definition growFootprintImpl (foot : Footprint) (element : StructuringElement)
  : Outcome Footprint :=
  grown <- Footprint_new 0 (_region foot) ;;
  spans <- foldM (grow_span element) (_spans foot) [] ;;
  grown <- addAllInSeries grown (map_spans spans) ;;
  Ok (set_peaks grown (_peaks foot)).

(** [growFootprint(foot, nGrow, isotropic)]. *)
Definition growFootprint (foot : Footprint) (nGrow : Z) (isotropic : bool)
  : Outcome Footprint :=
  if (nGrow <=? 0) || (_area foot =? 0) then Ok (Footprint_copy foot)
  else
    let shape := if isotropic then CIRCLE else DIAMOND in
    growFootprintImpl foot (StructuringElement_shape shape nGrow).

(** ** shrinkFootprintImpl *)

(** [struct PrimaryRun { int m, y, xmin, xmax; }]. *)
Record PrimaryRun : Type := mkRun { pr_m : Z; pr_y : Z; pr_xmin : Z; pr_xmax : Z }.

(** [comparePrimaryRun]: by y, then m, then xmin. *)
Definition comparePrimaryRun (first second : PrimaryRun) : bool :=
  if negb (pr_y first =? pr_y second) then pr_y first <? pr_y second
  else if negb (pr_m first =? pr_m second) then pr_m first <? pr_m second
  else pr_xmin first <? pr_xmin second.

(** [std::sort(primaryRuns.begin(), primaryRuns.end(), comparePrimaryRun)].
    Runs that agree on (y, m, xmin) may come out in any order; insertion
    sort picks one of them. *)
Fixpoint insertRun (r : PrimaryRun) (l : list PrimaryRun) : list PrimaryRun :=
  match l with
  | [] => [r]
  | h :: t => if comparePrimaryRun r h then r :: l else h :: insertRun r t
  end.

Definition sortRuns (l : list PrimaryRun) : list PrimaryRun := fold_right insertRun [] l.

(** The primary runs of one span: for the row [it] of the element, counted
    [m] from its top, a run when the row is no wider than the span. *)
Fixpoint span_runs (span : Span) (m : Z) (rows : list Span) : list PrimaryRun :=
  match rows with
  | [] => []
  | it :: rows' =>
      (if getX1 it - getX0 it <=? getX1 span - getX0 span
       then [mkRun m (getY span - getY it) (getX0 span - getX0 it) (getX1 span - getX1 it)]
       else [])
      ++ span_runs span (m + 1) rows'
  end.

(** [std::equal_range] on a sorted range: the runs with the given key. *)
Definition yRange (runs : list PrimaryRun) (y : Z) : list PrimaryRun :=
  filter (fun r => pr_y r =? y) runs.

Definition mRange (runs : list PrimaryRun) (m : Z) : list PrimaryRun :=
  filter (fun r => pr_m r =? m) runs.

(** The consolidation of the runs of one [m]: [start_x] and [end_x] are the
    run being built, [runs] those from [mRange.first + 1] on. *)
Fixpoint consolidate (m y start_x end_x : Z) (runs candidateRuns : list PrimaryRun)
  : list PrimaryRun :=
  match runs with
  | [] => candidateRuns ++ [mkRun m y start_x end_x]
  | run :: runs' =>
      if end_x <? pr_xmin run then
        consolidate m y (pr_xmin run) (pr_xmax run) runs'
                    (candidateRuns ++ [mkRun m y start_x end_x])
      else consolidate m y start_x (pr_xmax run) runs' candidateRuns
  end.

(** The intersection of the good runs with the candidates. *)
Definition intersect_runs (m y : Z) (goodRuns candidateRuns : list PrimaryRun)
  : list PrimaryRun :=
  flat_map (fun good =>
    flat_map (fun cand =>
      let start := Z.max (pr_xmin good) (pr_xmin cand) in
      let end_ := Z.min (pr_xmax good) (pr_xmax cand) in
      if start <=? end_ then [mkRun m y start end_] else []) candidateRuns) goodRuns.

(** One turn of [for (int m = 0; m < element.getYRange(); ++m)]. *)
Definition good_step (y : Z) (rowRuns : list PrimaryRun) (goodRuns : list PrimaryRun)
    (m : Z) : list PrimaryRun :=
  match mRange rowRuns m with
  | [] => []
  | first :: rest =>
      let candidateRuns := consolidate m y (pr_xmin first) (pr_xmax first) rest [] in
      if m =? 0 then candidateRuns else intersect_runs m y goodRuns candidateRuns
  end.

(** One turn of [for (int y = front().y; y <= back().y; ++y)]. *)
Definition shrink_row (element : StructuringElement) (primaryRuns : list PrimaryRun)
    (shrunk : Footprint) (y : Z) : Footprint :=
  let rowRuns := yRange primaryRuns y in
  if Z.of_nat (length rowRuns) <? _yRange element then shrunk
  else
    let goodRuns := fold_left (good_step y rowRuns)
                              (columns 0 (Z.to_nat (_yRange element))) [] in
    fold_left (fun f run => addSpan f (pr_y run) (pr_xmin run) (pr_xmax run))
              goodRuns shrunk.

(** [shrinkFootprintImpl(foot, element)].  [front()] and [back()] of an
    empty vector of runs are undefined. *)
Definition shrinkFootprintImpl (foot : Footprint) (element : StructuringElement)
  : Outcome Footprint :=
  shrunk <- Footprint_new 0 (_region foot) ;;
  let primaryRuns :=
    sortRuns (flat_map (fun span => span_runs span 0 (_widths element)) (_spans foot)) in
  match primaryRuns, rev primaryRuns with
  | front :: _, back :: _ =>
      let shrunk := fold_left (shrink_row element primaryRuns)
                              (columns (pr_y front)
                                       (Z.to_nat (pr_y back - pr_y front + 1)))
                              shrunk in
      let shrunk := normalize shrunk in
      let kept := filter (fun p => contains shrunk (getIx p) (getIy p))
                         (records (_peaks foot)) in
      Ok (set_peaks shrunk (mkCatalog (getSchema (_peaks shrunk)) kept))
  | _, _ => Undefined
  end.

(** [shrinkFootprint(foot, nShrink, isotropic)]. *)
Definition shrinkFootprint (foot : Footprint) (nShrink : Z) (isotropic : bool)
  : Outcome Footprint :=
  let shape := if isotropic then CIRCLE else DIAMOND in
  shrinkFootprintImpl foot (StructuringElement_shape shape nShrink).

(** ** Intervals of one row, as pairs *)

Definition pair_wf (p : Z * Z) : Prop := fst p <= snd p.

(** [q] starts more than one column past the end of [p]. *)
Definition pgap (p q : Z * Z) : Prop := snd p + 1 < fst q.

(** The interval [p] lies inside [q]. *)
Definition sub (p q : Z * Z) : Prop := fst q <= fst p /\ snd p <= snd q.

Definition first_le (p q : Z * Z) : Prop := fst p <= fst q.

(** The rows of the map are in increasing order, and the intervals of each
    row are non-empty and separated by gaps. *)
Definition row_ok (v : list (Z * Z)) : Prop :=
  StronglySorted pgap v /\ Forall pair_wf v.

Definition map_inv (m : list (Z * list (Z * Z))) : Prop :=
  StronglySorted (fun e1 e2 => fst e1 < fst e2) m /\ Forall (fun e => row_ok (snd e)) m.

(** Some interval of row [y] of the map holds the interval [p]. *)
Definition map_has (m : list (Z * list (Z * Z))) (y : Z) (p : Z * Z) : Prop :=
  exists q, In q (map_get m y) /\ sub p q.

(** ** Primary runs *)

(** The primary run of the span [t] against the row [e] of the element
    that is row number [m]. *)
Definition run_of (t : Span) (m : Z) (e : Span) : PrimaryRun :=
  mkRun m (getY t - getY e) (getX0 t - getX0 e) (getX1 t - getX1 e).

(** The order [comparePrimaryRun] sorts by, as a relation on the keys
    (y, m, xmin). *)
Definition run_le (a b : PrimaryRun) : Prop :=
  pr_y a < pr_y b \/
  (pr_y a = pr_y b /\
   (pr_m a < pr_m b \/ (pr_m a = pr_m b /\ pr_xmin a <= pr_xmin b))).

Definition run_wf (r : PrimaryRun) : Prop := pr_xmin r <= pr_xmax r.

(** Two runs span the same interval, or the second starts after the end of
    the first. *)
Definition chain (r1 r2 : PrimaryRun) : Prop :=
  (pr_xmin r1 = pr_xmin r2 /\ pr_xmax r1 = pr_xmax r2) \/ pr_xmax r1 < pr_xmin r2.

(** Some run of the list, on row [y], spans the interval from [lo] to [hi]
    or more. *)
Definition holds (l : list PrimaryRun) (y lo hi : Z) : Prop :=
  exists c, In c l /\ pr_y c = y /\ pr_xmin c <= lo /\ hi <= pr_xmax c.

(* ------------------------------------------------------------------ *)
(** ** Notions the properties are stated with *)

(** The order of [compareSpanByYX], made reflexive: by row, then by first
    column, then by last column. *)
Definition span_le (a b : Span) : Prop :=
  getY a < getY b \/
  (getY a = getY b /\
   (getX0 a < getX0 b \/ (getX0 a = getX0 b /\ getX1 a <= getX1 b))).

(** [a] starts no later than [b] in (y, x0) order. *)
Definition starts_le (a b : Span) : Prop :=
  getY a < getY b \/ (getY a = getY b /\ getX0 a <= getX0 b).

(** [b] comes after [a] with a gap: on a later row, or on the same row and
    more than one column past the end of [a]. *)
Definition gap (a b : Span) : Prop :=
  getY a < getY b \/ (getY a = getY b /\ getX1 a + 1 < getX0 b).

(** Rows never decrease along a sorted span list. *)
Definition rows_sorted (l : list Span) : Prop :=
  StronglySorted (fun a b => getY a <= getY b) l.

(** The spans the vector holds once the sweep has reached its state. *)
Definition sw_out (st : Sweep) : list Span := sw_done st ++ [sw_lspan st].

(** The row of the first span of a list. *)
Definition head_y (l : list Span) : option Z :=
  match l with
  | [] => None
  | s :: _ => Some (getY s)
  end.

(** What the sweep keeps true whatever the spans are: its locals [y] and
    [x1] mirror [lspan], and the spans still to come start no earlier than
    [lspan] and are sorted. *)
Record sweep_pre (st : Sweep) (rest : list Span) : Prop := mkSweepPre {
  sp_y : sw_y st = getY (sw_lspan st);
  sp_x1 : sw_x1 st = getX1 (sw_lspan st);
  sp_starts : Forall (starts_le (sw_lspan st)) rest;
  sp_sorted : StronglySorted span_le rest
}.

(** What the sweep has achieved on the spans it has been through, when
    every span holds a pixel; [y0] is the row of the first span. *)
Record sweep_inv (y0 : Z) (st : Sweep) : Prop := mkSweepInv {
  si_sorted : StronglySorted gap (sw_out st);
  si_wf : Forall span_wf (sw_out st);
  si_area : sw_area st = sum_widths (sw_out st);
  si_minX_lb : Forall (fun s => sw_minX st <= getX0 s) (sw_out st);
  si_minX_in : Exists (fun s => getX0 s = sw_minX st) (sw_out st);
  si_maxX_ub : Forall (fun s => getX1 s <= sw_maxX st) (sw_out st);
  si_maxX_in : Exists (fun s => getX1 s = sw_maxX st) (sw_out st);
  si_head : head_y (sw_out st) = Some y0
}.

(** A pixel of the mask row that passes the test of the pixel loop:
    none of the bits of [bitmask] is set. *)
Definition good (bitmask : Z) (pixel : Z -> Z) (c : Z) : bool :=
  Z.land (pixel c) bitmask =? 0.

(** The number of columns of [l] that pass that test. *)
Definition count_good (bitmask : Z) (pixel : Z -> Z) (l : list Z) : Z :=
  Z.of_nat (length (filter (good bitmask pixel) l)).

(** A span emitted by the pixel loop: on row [y], non-empty, between [lo]
    and [hi], and free of masked pixels. *)
Definition clean_run (bitmask y : Z) (pixel : Z -> Z) (lo hi : Z) (sp : Span) : Prop :=
  getY sp = y /\ lo <= getX0 sp /\ getX0 sp <= getX1 sp /\ getX1 sp < hi /\
  forall c, getX0 sp <= c <= getX1 sp -> good bitmask pixel c = true.

(** The number of columns in [a .. b] that satisfy [f]. *)
Definition cnt (f : Z -> bool) (a b : Z) : Z :=
  Z.of_nat (length (filter f (columns a (Z.to_nat (b - a + 1))))).

(** A span emitted for the span [s]: a non-empty part of [s] made of kept
    pixels only. *)
Definition kept_run (mask : Raster) (bitmask : Z) (s sp : Span) : Prop :=
  getY sp = getY s /\ getX0 s <= getX0 sp /\ getX0 sp <= getX1 sp /\
  getX1 sp <= getX1 s /\
  forall c, getX0 sp <= c <= getX1 sp -> keptb mask bitmask c (getY sp) = true.

(** Every span of the footprint lies on a row before [y]. *)
Definition rows_before (e : Footprint) (y : Z) : Prop :=
  Forall (fun s => getY s < y) (_spans e).

(** The spans a row strictly inside the rectangle of columns [x0 .. x1]
    contributes to its edge. *)
Definition middle_spans (x0 x1 y : Z) : list Span :=
  if x1 - x0 <=? 1 then [mkSpan y x0 x1] else [mkSpan y x0 x0; mkSpan y x1 x1].

(** The last span of the footprint, if any, comes with a gap before every
    span of [l]. *)
Definition precedes (foot : Footprint) (l : list Span) : Prop :=
  forall before last, _spans foot = before ++ [last] -> Forall (gap last) l.

(** ** Inputs of the examples *)

(** A footprint built through the public methods: two spans added out of
    order with [addSpan], then a third with [addSpanInSeries], which sets
    the flag again. *)
Definition flagged_unsorted : Outcome Footprint :=
  addSpanInSeries (addSpan (addSpan Footprint_default 5 0 1) 3 0 1) 7 0 0.

(** A mask of three columns and one row at the origin whose middle pixel
    has bit 1 set. *)
Definition mask_010 : Raster :=
  mkRaster 0 0 3 1 (fun col row => if (col =? 1) && (row =? 0) then 1 else 0).

(** A mask of three columns and one row at the origin, all bits clear. *)
Definition blank_3x1 : Raster := mkRaster 0 0 3 1 (fun _ _ => 0).

(** An image of a single pixel at the origin, and the footprint that covers
    it. *)
Definition one_pixel_image : Raster := mkRaster 0 0 1 1 (fun _ _ => 0).

Definition one_pixel_footprint : Footprint :=
  Footprint_rect (mkBox 0 0 1 1) (mkBox 0 0 1 1).

(* ------------------------------------------------------------------ *)
(** ** More constructors, assignment and persistence *)

(** [Footprint::Footprint(SpanList const& spans, Box2I region)]: the flag
    starts unset and every span goes through [addSpan]. *)
Definition Footprint_fromSpans (spans : list Span) (region : Box2I) : Footprint :=
  fold_left (fun f s => addSpan f (getY s) (getX0 s) (getX1 s)) spans
            (mkFootprint [] 0 emptyBox (mkCatalog minimalSchema []) region false).


(** The loop of [_checkNormalized] over the two span vectors, which have
    the same size when it starts. *)
Fixpoint same_spans (spansa spansb : list Span) : bool :=
  match spansa, spansb with
  | [], _ => true
  | _ :: _, [] => false
  | spa :: spansa', spb :: spansb' =>
      if negb (getY spa =? getY spb) then false
      else if negb (getX0 spa =? getX0 spb) then false
      else if negb (getX1 spa =? getX1 spb) then false
      else same_spans spansa' spansb'
  end.

(** [_checkNormalized(Footprint const& foot)]. *)
Definition _checkNormalized (foot : Footprint) : bool :=
  let copy := normalize (Footprint_copy foot) in
  if negb (_area copy =? _area foot) then false
  else if negb (Nat.eqb (length (_spans copy)) (length (_spans foot))) then false
  else same_spans (_spans foot) (_spans copy).

(** Modelled from the spec: the span catalog of an archive
    ([afw::table::BaseCatalog] with the schema of
    [FootprintPersistenceHelper]) is an external collaborator.  It is kept
    as the list of its records, each with the three integer fields
    [spanY], [spanX0] and [spanX1]. *)
Record SpanRecord : Type := mkSpanRecord { spanY : Z; spanX0 : Z; spanX1 : Z }.

(** The span catalog [Footprint::write] saves: one record per span, in the
    order of the vector. *)
Definition write_spanCat (f : Footprint) : list SpanRecord :=
  map (fun s => mkSpanRecord (getY s) (getX0 s) (getX1 s)) (_spans f).

(** [Footprint::readSpans(spanCat)]. *)
Definition readSpans (f : Footprint) (spanCat : list SpanRecord) : Footprint :=
  fold_left (fun f r => addSpan f (spanY r) (spanX0 r) (spanX1 r)) spanCat f.

(** What [addSpan] keeps whatever the order of the spans: the area is the
    sum of the widths and the bounding box is tight. *)
Record counted (f : Footprint) : Prop := mkCounted {
  ct_area : _area f = sum_widths (_spans f);
  ct_bbox : tight_bbox (_bbox f) (_spans f)
}.

(* ------------------------------------------------------------------ *)
(** ** shift and clipTo *)

(** Modelled from the spec: [Box2I::shift(Extent2I)] is declared in Box.h,
    outside the sources at hand.  It translates the minimum corner and
    leaves the empty box as it is. *)
Definition box_shift (b : Box2I) (dx dy : Z) : Box2I :=
  if isEmpty b then b
  else mkBox (getMinX b + dx) (getMinY b + dy) (getWidthB b) (getHeightB b).

(** [Footprint::shift(dx, dy)]: every span and the bounding box are moved;
    the peaks are not. *)
Definition shift (f : Footprint) (dx dy : Z) : Footprint :=
  mkFootprint (map (fun span => mkSpan (getY span + dy) (getX0 span + dx) (getX1 span + dx))
                   (_spans f))
              (_area f) (box_shift (_bbox f) dx dy) (_peaks f) (_region f)
              (_normalized f).

(** [ClipSpansPredicate]: the span has no pixel in the box. *)
Definition ClipSpansPredicate (bbox : Box2I) (span : Span) : bool :=
  let y := getY span in
  (y <? getMinY bbox) || (getMaxY bbox <? y) ||
  (getMaxX bbox <? getX0 span) || (getX1 span <? getMinX bbox).

(** [ClipPeaksPredicate]: the peak is not in the box. *)
Definition ClipPeaksPredicate (bbox : Box2I) (peak : PeakRecord) : bool :=
  negb (box_contains bbox (getIx peak) (getIy peak)).

(** [Footprint::clipTo(bbox)]: [remove_if] keeps, in order, the elements
    the predicate rejects. *)
Definition clipTo (f : Footprint) (bbox : Box2I) : Footprint :=
  let kept := filter (fun span => negb (ClipSpansPredicate bbox span)) (_spans f) in
  let spans := map (fun span => mkSpan (getY span)
                                       (Z.max (getX0 span) (getMinX bbox))
                                       (Z.min (getX1 span) (getMaxX bbox))) kept in
  let peaks := mkCatalog (getSchema (_peaks f))
                         (filter (fun peak => negb (ClipPeaksPredicate bbox peak))
                                 (records (_peaks f))) in
  match spans with
  | [] => mkFootprint [] 0 emptyBox peaks (_region f) true
  | _ :: _ => normalize (mkFootprint spans (_area f) (_bbox f) peaks (_region f) false)
  end.

(* ------------------------------------------------------------------ *)
(** ** More raster operations *)

(** Reading the pixel at (col, row); a read outside the raster is
    undefined. *)
Definition raster_read (r : Raster) (col row : Z) : Outcome Z :=
  if in_raster r col row then Ok (img_pix r col row) else Undefined.

(** [for (ptr = mask.x_at(x0, y), end = mask.x_at(x1 + 1, y); ptr != end; ++ptr)
      bitmask |= *ptr;]
    on the columns [cols] of the row [y]. *)
Fixpoint or_pixels (mask : Raster) (y : Z) (cols : list Z) (bitmask : Z) : Outcome Z :=
  match cols with
  | [] => Ok bitmask
  | c :: cols' => p <- raster_read mask c y ;; or_pixels mask y cols' (Z.lor bitmask p)
  end.

(** The body of the loop of [overlapsMask] over the spans. *)
Definition overlaps_span (mask : Raster) (bitmask : Z) (span : Span) : Outcome Z :=
  let width := img_width mask in
  let height := img_height mask in
  let y := getY span - img_y0 mask in
  if (y <? 0) || (height <=? y) then Ok bitmask
  else
    let x0 := clampColumn width (getX0 span - img_x0 mask) in
    let x1 := clampColumn width (getX1 span - img_x0 mask) in
    if x1 + 1 <? x0 then Undefined
    else or_pixels mask y (columns x0 (Z.to_nat (x1 + 1 - x0))) bitmask.

(** [Footprint::overlapsMask(mask)]. *)
Definition overlapsMask (f : Footprint) (mask : Raster) : Outcome Z :=
  foldM (overlaps_span mask) (_spans f) 0.

(** [for (ptr = mask->x_at(x0, y), end = mask->x_at(x1 + 1, y); ptr != end; ++ptr)
      *ptr &= ~bitmask;] *)
Fixpoint clear_columns (mask : Raster) (y bitmask : Z) (cols : list Z) : Outcome Raster :=
  match cols with
  | [] => Ok mask
  | c :: cols' =>
      m <- raster_store mask c y (Z.land (img_pix mask c y) (Z.lnot bitmask)) ;;
      clear_columns m y bitmask cols'
  end.

Definition clearMask_span (mask : Raster) (bitmask : Z) (span : Span) : Outcome Raster :=
  let width := img_width mask in
  let height := img_height mask in
  let y := getY span - img_y0 mask in
  if (y <? 0) || (height <=? y) then Ok mask
  else
    let x0 := clampColumn width (getX0 span - img_x0 mask) in
    let x1 := clampColumn width (getX1 span - img_x0 mask) in
    if x1 + 1 <? x0 then Undefined
    else clear_columns mask y bitmask (columns x0 (Z.to_nat (x1 + 1 - x0))).

(** [clearMaskFromFootprint(mask, foot, bitmask)]: the mask as it is left,
    and the value returned. *)
Definition clearMaskFromFootprint (mask : Raster) (foot : Footprint) (bitmask : Z)
  : Outcome (Raster * Z) :=
  m <- foldM (fun m span => clearMask_span m bitmask span) (_spans foot) mask ;;
  Ok (m, bitmask).

(** [setMaskFromFootprintList(mask, footprints, bitmask)]. *)
Definition setMaskFromFootprintList (mask : Raster) (footprints : list Footprint)
    (bitmask : Z) : Outcome (Raster * Z) :=
  m <- foldM (fun m foot => r <- setMaskFromFootprint m foot bitmask ;; Ok (fst r))
             footprints mask ;;
  Ok (m, bitmask).

(** The pixel loop of [copyWithinFootprint]:
    [for (int x = xStart; x <= xStop; ++x, ++initer, ++outiter) *outiter = *initer;] *)
Fixpoint copy_columns (input output : Raster) (yInput yOutput : Z) (xs : list Z)
  : Outcome Raster :=
  match xs with
  | [] => Ok output
  | x :: xs' =>
      v <- raster_read input (x - img_x0 input) yInput ;;
      out <- raster_store output (x - img_x0 output) yOutput v ;;
      copy_columns input out yInput yOutput xs'
  end.

(** The body of the loop of [copyWithinFootprint] over the spans. *)
Definition copy_span (input output : Raster) (sp : Span) : Outcome Raster :=
  let inX0 := img_x0 input in
  let inY0 := img_y0 input in
  let outX0 := img_x0 output in
  let outY0 := img_y0 output in
  let xMin := Z.max inX0 outX0 in
  let xMax := Z.min (img_width input + inX0) (img_width output + outX0) - 1 in
  let y := getY sp in
  let x0 := getX0 sp in
  let x1 := getX1 sp in
  let yInput := y - inY0 in
  let yOutput := y - outY0 in
  if (yInput <? 0) || (img_height input <=? yInput) ||
     (yOutput <? 0) || (img_height output <=? yOutput) then Ok output
  else
    let xStart := Z.max x0 xMin in
    let xStop := Z.min x1 xMax in
    copy_columns input output yInput yOutput
                 (columns xStart (Z.to_nat (xStop - xStart + 1))).

(** [copyWithinFootprint(foot, input, output)], for two distinct images:
    the output image as it is left. *)
Definition copyWithinFootprint (foot : Footprint) (input output : Raster)
  : Outcome Raster :=
  foldM (copy_span input) (_spans foot) output.

(** ** Notions for the raster operations *)

(** Every span that lies on a row of the raster with origin (x0, y0) and
    size w x h reaches into its columns: it is neither wholly to the left
    nor wholly to the right. *)
Definition reaches (x0 y0 w h : Z) (l : list Span) : Prop :=
  Forall (fun s => y0 <= getY s < y0 + h -> getX0 s < x0 + w /\ x0 <= getX1 s) l.

(** A loop that stores [g] of the pixel in each of the columns [cols] of
    the row [y], and the body of the loop over the spans around it, with
    the clamp of [setMaskFromFootprint] and the origin (x0, y0) the spans
    are counted from: the common shape of the loops that change the pixels
    under a footprint. *)
Fixpoint map_columns (g : Z -> Z) (mask : Raster) (y : Z) (cols : list Z) : Outcome Raster :=
  match cols with
  | [] => Ok mask
  | c :: cols' =>
      m <- raster_store mask c y (g (img_pix mask c y)) ;; map_columns g m y cols'
  end.

Definition map_span (g : Z -> Z) (x0 y0 : Z) (mask : Raster) (span : Span)
  : Outcome Raster :=
  let width := img_width mask in
  let height := img_height mask in
  let y := getY span - y0 in
  if (y <? 0) || (height <=? y) then Ok mask
  else
    let cx0 := clampColumn width (getX0 span - x0) in
    let cx1 := clampColumn width (getX1 span - x0) in
    if cx1 + 1 <? cx0 then Undefined
    else map_columns g mask y (columns cx0 (Z.to_nat (cx1 + 1 - cx0))).

(** Two rasters have the same origin and size. *)
Definition same_frame (a b : Raster) : Prop :=
  img_x0 a = img_x0 b /\ img_y0 a = img_y0 b /\
  img_width a = img_width b /\ img_height a = img_height b.

(** The pixel (col, row) of the output image has a pixel of the input
    image at the same position of the parent frame. *)
Definition shared (input output : Raster) (col row : Z) : bool :=
  in_raster output col row &&
  in_raster input (col + img_x0 output - img_x0 input) (row + img_y0 output - img_y0 input).


(** What [doInsertIntoImage] stores in a pixel that holds [p]: the id in
    place of the bits outside the protected mask when it overwrites, the
    sum otherwise. *)
Definition ins (T : PixelType) (overwriteId : bool) (id mask : Z) (p : Z) : Z :=
  if overwriteId then pix_store T (Z.land p mask + id) else pix_store T (p + id).

(** The value [v] is in the set of old ids, when there is one. *)
Definition in_ids (oldIds : option (list Z)) (v : Z) : Prop :=
  match oldIds with
  | Some ids => In v ids
  | None => False
  end.

(** The region [doInsertIntoImage] works in: the one passed when it is not
    empty, the region of the footprint otherwise. *)
Definition host_region (f : Footprint) (region : Box2I) : Box2I :=
  if negb (isEmpty region) then region else _region f.

(* ------------------------------------------------------------------ *)
(** ** Growing in chosen directions *)

(** [StructuringElement::StructuringElement(int left, int right, int up, int down)]:
    the rows above ([dy = 1 .. up]), the rows below ([dy = -1 .. -down]),
    then the row of the footprint itself. *)
Definition StructuringElement_dirs (left right up down : Z) : StructuringElement :=
  mkElement (map (fun dy => mkSpan dy 0 0) (columns 1 (Z.to_nat up)) ++
             map (fun k => mkSpan (- k) 0 0) (columns 1 (Z.to_nat down)) ++
             [mkSpan 0 (- left) right])
            (up + down + 1).

(** [growFootprint(foot, nGrow, left, right, up, down)]. *)
Definition growFootprint_dirs (foot : Footprint) (nGrow : Z) (left right up down : bool)
  : Outcome Footprint :=
  if (nGrow <=? 0) || (_area foot =? 0) then Ok (Footprint_copy foot)
  else
    growFootprintImpl foot
      (StructuringElement_dirs (if left then nGrow else 0) (if right then nGrow else 0)
                               (if up then nGrow else 0) (if down then nGrow else 0)).

(** ** Notions for dilation and erosion *)

(** The pixel (x, y) is a pixel of a span of [l] moved by an offset of the
    element with the rows [rows]. *)
Definition dilated (l rows : list Span) (x y : Z) : Prop :=
  exists span el, In span l /\ In el rows /\ y = getY span + getY el /\
                  getX0 span + getX0 el <= x <= getX1 span + getX1 el.

(** Every pixel of the interval lies in [P]. *)
Definition within (P : Z -> Prop) (p : Z * Z) : Prop :=
  forall x, fst p <= x <= snd p -> P x.

(** Every pixel of every interval of the map lies in [Q]. *)
Definition map_sound (Q : Z -> Z -> Prop) (m : list (Z * list (Z * Z))) : Prop :=
  forall y q, In q (map_get m y) -> within (fun x => Q x y) q.

(** The row [el] of an element, laid with its origin on the pixel (x, y),
    lies within one span of [l]. *)
Definition fits (l : list Span) (el : Span) (x y : Z) : Prop :=
  exists t, In t l /\ getY t = y + getY el /\
            getX0 t <= x + getX0 el /\ x + getX1 el <= getX1 t.

(** The run [g] of row [y] lies, for each [m] below [k], within a primary
    run of that [m]. *)
Definition row_inv (rowRuns : list PrimaryRun) (y k : Z) (g : PrimaryRun) : Prop :=
  pr_y g = y /\ run_wf g /\
  forall m, 0 <= m < k ->
    exists r, In r (mRange rowRuns m) /\ pr_xmin r <= pr_xmin g /\ pr_xmax g <= pr_xmax r.

(* ------------------------------------------------------------------ *)
(** ** clipToNonzero *)

(** [for (leftx = x0; leftx <= x1; ++leftx, ++img_it) if ( *img_it != zero) break;]
    with [n] columns left from [leftx] to [x1]; [row] is counted from the
    first row of the image. *)
Fixpoint scan_left (img : Raster) (row leftx : Z) (n : nat) : Outcome Z :=
  match n with
  | O => Ok leftx
  | S n' =>
      pixel <- raster_read img (leftx - img_x0 img) row ;;
      if negb (pixel =? 0) then Ok leftx else scan_left img row (leftx + 1) n'
  end.

(** [for (rightx = x1; rightx >= leftx; --rightx, --img_it) if ( *img_it != zero) break;]
    with [n] columns left from [rightx] down to [leftx]. *)
Fixpoint scan_right (img : Raster) (row rightx : Z) (n : nat) : Outcome Z :=
  match n with
  | O => Ok rightx
  | S n' =>
      pixel <- raster_read img (rightx - img_x0 img) row ;;
      if negb (pixel =? 0) then Ok rightx else scan_right img row (rightx - 1) n'
  end.

(** The body of the loop of [clipToNonzero] over the old spans. *)
Definition clip_span (img : Raster) (f : Footprint) (s : Span) : Outcome Footprint :=
  let y := getY s in
  let x0 := getX0 s in
  let x1 := getX1 s in
  leftx <- scan_left img (y - img_y0 img) x0 (Z.to_nat (x1 - x0 + 1)) ;;
  if x1 <? leftx then Ok f
  else
    rightx <- scan_right img (y - img_y0 img) x1 (Z.to_nat (x1 - leftx + 1)) ;;
    addSpanInSeries f y leftx rightx.

(** [Footprint::clipToNonzero(img)]. *)
Definition clipToNonzero (f : Footprint) (img : Raster) : Outcome Footprint :=
  let f := normalize f in
  let old := _spans f in
  let f := mkFootprint [] 0 emptyBox (_peaks f) (_region f) (_normalized f) in
  f <- foldM (clip_span img) old f ;;
  Ok (normalize f).

(** Both ends of the span, and so all of it, lie in the image. *)
Definition span_in_raster (img : Raster) (s : Span) : bool :=
  in_raster img (getX0 s - img_x0 img) (getY s - img_y0 img) &&
  in_raster img (getX1 s - img_x0 img) (getY s - img_y0 img).

(** The pixel (x, y) lies on the span [s] between two of its pixels, or on
    one, where the image is not zero. *)
Definition nonzero_between (img : Raster) (s : Span) (x y : Z) : Prop :=
  y = getY s /\
  exists a b, getX0 s <= a <= x /\ x <= b <= getX1 s /\
              pixel_at img a y <> 0 /\ pixel_at img b y <> 0.

(* ================================================================== *)
(** * Part II: properties *)
(* ================================================================== *)

Example normalize_merges_touching :
  _spans (normalize (addSpan (addSpan (addSpan Footprint_default 2 4 6) 1 0 3) 2 0 3))
  = [mkSpan 1 0 3; mkSpan 2 0 6].
Proof. reflexivity. Qed.

(** ** The order of spans *)

Ltac zbool :=
  repeat match goal with
  | H : context [Z.ltb ?a ?b] |- _ => destruct (Z.ltb_spec a b)
  | |- context [Z.ltb ?a ?b] => destruct (Z.ltb_spec a b)
  | H : context [Z.leb ?a ?b] |- _ => destruct (Z.leb_spec a b)
  | |- context [Z.leb ?a ?b] => destruct (Z.leb_spec a b)
  | H : context [Z.eqb ?a ?b] |- _ => destruct (Z.eqb_spec a b)
  | |- context [Z.eqb ?a ?b] => destruct (Z.eqb_spec a b)
  end.

Lemma span_ltb_false (a b : Span) : span_ltb b a = false <-> span_le a b.
Proof.
  unfold span_ltb, span_le. zbool; split; intros; try discriminate; try lia; auto.
Qed.

Lemma span_ltb_true (a b : Span) : span_ltb a b = true -> span_le a b.
Proof.
  unfold span_ltb, span_le. zbool; intros; try discriminate; lia.
Qed.

Lemma span_le_trans (a b c : Span) : span_le a b -> span_le b c -> span_le a c.
Proof. unfold span_le. lia. Qed.

Lemma span_le_starts (a b : Span) : span_le a b -> starts_le a b.
Proof. unfold span_le, starts_le. lia. Qed.

Lemma gap_trans (a b c : Span) : span_wf b -> gap a b -> gap b c -> gap a c.
Proof. unfold span_wf, gap. lia. Qed.

Lemma gap_span_le (a b : Span) : span_wf a -> gap a b -> span_le a b.
Proof. unfold span_wf, gap, span_le. lia. Qed.

Lemma span_contains_iff (s : Span) (x y : Z) :
  span_contains s x y = true <-> getX0 s <= x <= getX1 s /\ y = getY s.
Proof.
  unfold span_contains. rewrite !andb_true_iff, !Z.leb_le, Z.eqb_eq. tauto.
Qed.

(** ** Sorting *)

Lemma insertSpan_perm (s : Span) (l : list Span) :
  Permutation (s :: l) (insertSpan s l).
Proof.
  induction l as [|h t IH]; simpl; [reflexivity|].
  destruct (span_ltb s h); [reflexivity|].
  rewrite perm_swap. now constructor.
Qed.

Lemma sortSpans_perm (l : list Span) : Permutation l (sortSpans l).
Proof.
  induction l as [|h t IH]; simpl; [constructor|].
  rewrite <- insertSpan_perm. now constructor.
Qed.

Lemma insertSpan_sorted (s : Span) (l : list Span) :
  StronglySorted span_le l -> StronglySorted span_le (insertSpan s l).
Proof.
  induction 1 as [|h t Hs IH Hall]; simpl.
  - repeat constructor.
  - destruct (span_ltb s h) eqn:E.
    + constructor; [now constructor|].
      apply span_ltb_true in E. constructor; [assumption|].
      eapply Forall_impl; [|exact Hall]. intros; eapply span_le_trans; eauto.
    + constructor; [assumption|].
      apply span_ltb_false in E.
      eapply Permutation_Forall; [apply insertSpan_perm|].
      now constructor.
Qed.

Lemma sortSpans_sorted (l : list Span) : StronglySorted span_le (sortSpans l).
Proof.
  induction l; simpl; [constructor|now apply insertSpan_sorted].
Qed.

Lemma sorted_yx_span_le (l : list Span) : sorted_yx l <-> StronglySorted span_le l.
Proof.
  unfold sorted_yx. split; intros H; induction H; constructor; auto;
    (eapply Forall_impl; [|eassumption]); intros ? ?; now apply span_ltb_false.
Qed.

(** ** The sweep of normalize *)

Lemma covers_app (l1 l2 : list Span) (x y : Z) :
  covers (l1 ++ l2) x y <-> covers l1 x y \/ covers l2 x y.
Proof.
  unfold covers. split.
  - intros (s & Hin & Hc). apply in_app_or in Hin as [H|H]; [left|right]; eauto.
  - intros [(s & Hin & Hc)|(s & Hin & Hc)]; exists s; split; auto;
      apply in_or_app; auto.
Qed.

Lemma covers_cons (s : Span) (l : list Span) (x y : Z) :
  covers (s :: l) x y <-> span_contains s x y = true \/ covers l x y.
Proof.
  unfold covers. split.
  - intros (t & [<-|Hin] & Hc); eauto.
  - intros [H|(t & Hin & Hc)]; [exists s|exists t]; simpl; auto.
Qed.

Lemma covers_nil (x y : Z) : ~ covers [] x y.
Proof. intros (s & [] & _). Qed.

Lemma covers_perm (l1 l2 : list Span) (x y : Z) :
  Permutation l1 l2 -> covers l1 x y -> covers l2 x y.
Proof.
  intros HP (s & Hin & Hc). exists s. split; [|assumption].
  eapply Permutation_in; eauto.
Qed.

Lemma sweep_pre_step (st : Sweep) (r : Span) (rest : list Span) :
  sweep_pre st (r :: rest) -> sweep_pre (sweep_step st r) rest.
Proof.
  intros [Hy Hx1 Hst Hso].
  inversion Hst as [|? ? Hr Hrest]; subst.
  inversion Hso as [|? ? Hso' Hall]; subst.
  assert (Hmove : Forall (starts_le r) rest).
  { eapply Forall_impl; [|exact Hall]. intros; now apply span_le_starts. }
  unfold sweep_step.
  destruct (getY r =? sw_y st); [destruct (getX0 r <=? sw_x1 st + 1);
    [destruct (sw_x1 st <? getX1 r)|]|]; constructor; simpl; auto.
Qed.

Lemma sweep_covers (rest : list Span) :
  forall st, sweep_pre st rest ->
  forall x y, covers (sw_out (sweep st rest)) x y <-> covers (sw_out st ++ rest) x y.
Proof.
  induction rest as [|r rest IH]; intros st Hpre x y.
  - simpl. now rewrite app_nil_r.
  - simpl. unfold sweep in IH. rewrite (IH _ (sweep_pre_step Hpre)).
    destruct Hpre as [Hy Hx1 Hst _].
    inversion Hst as [|? ? Hr _]; subst.
    rewrite !covers_app, covers_cons.
    unfold sweep_step, sw_out, starts_le in *.
    destruct (sw_lspan st) as [ly lx0 lx1] eqn:El. simpl in *.
    destruct (Z.eqb_spec (getY r) (sw_y st)) as [Ey|Ey];
      [destruct (Z.leb_spec (getX0 r) (sw_x1 st + 1)) as [E0|E0];
       [destruct (Z.ltb_spec (sw_x1 st) (getX1 r)) as [E1|E1]|]|];
      simpl; rewrite ?El, ?covers_app, ?covers_cons, ?span_contains_iff; simpl;
      try tauto.
    all: assert (Hn := @covers_nil x y); intuition (try lia).
Qed.

(** ** normalize keeps the pixels *)

Lemma normalize_covers (f : Footprint) (x y : Z) :
  covers (_spans (normalize f)) x y <-> covers (_spans f) x y.
Proof.
  unfold normalize. destruct (_normalized f); [tauto|].
  assert (HP := sortSpans_perm (_spans f)).
  assert (HS := sortSpans_sorted (_spans f)).
  destruct (sortSpans (_spans f)) as [|s0 rest] eqn:E.
  - apply Permutation_sym, Permutation_nil in HP. rewrite HP. simpl. tauto.
  - simpl. inversion HS as [|? ? HS' Hall]; subst.
    pose (st0 := mkSweep [] s0 (getY s0) (getX1 s0) (getWidth s0) (getX0 s0) (getX1 s0)).
    assert (Hpre : sweep_pre st0 rest).
    { constructor; simpl; auto.
      eapply Forall_impl; [|exact Hall]. intros; now apply span_le_starts. }
    change (covers (sw_out (sweep st0 rest)) x y <-> covers (_spans f) x y).
    rewrite (sweep_covers Hpre). unfold sw_out; simpl.
    split; apply covers_perm; [now apply Permutation_sym|assumption].
Qed.

(** ** normalize establishes the invariant *)

Lemma StronglySorted_snoc (A : Type) (R : A -> A -> Prop) (l : list A) (x : A) :
  StronglySorted R (l ++ [x]) <-> StronglySorted R l /\ Forall (fun s => R s x) l.
Proof.
  induction l as [|h t IH]; simpl.
  - split; [intros _; split; constructor | intros _; repeat constructor].
  - split.
    + intros H. inversion H as [|? ? Hs Hall]; subst.
      apply IH in Hs as [Hs Hx]. apply Forall_app in Hall as [Ht Hhx].
      inversion Hhx; subst. repeat split; try constructor; auto.
    + intros [H Hall]. inversion H as [|? ? Hs Ht]; subst.
      inversion Hall; subst. constructor.
      * apply IH. auto.
      * apply Forall_app. auto.
Qed.

Lemma sum_widths_app (l1 l2 : list Span) :
  sum_widths (l1 ++ l2) = sum_widths l1 + sum_widths l2.
Proof. induction l1; simpl; lia. Qed.

Lemma head_y_snoc (l : list Span) (a b : Span) :
  getY a = getY b -> head_y (l ++ [a]) = head_y (l ++ [b]).
Proof. destruct l; simpl; congruence. Qed.

Lemma head_y_app (l l' : list Span) (y : Z) :
  head_y l = Some y -> head_y (l ++ l') = Some y.
Proof. destruct l; simpl; [discriminate|auto]. Qed.

Lemma Forall_snoc (A : Type) (P : A -> Prop) (l : list A) (x : A) :
  Forall P (l ++ [x]) <-> Forall P l /\ P x.
Proof.
  rewrite Forall_app. split; intros [H1 H2]; split; auto.
  now inversion H2.
Qed.

Lemma Exists_snoc (A : Type) (P : A -> Prop) (l : list A) (x : A) :
  Exists P (l ++ [x]) <-> Exists P l \/ P x.
Proof.
  rewrite Exists_app. split; intros [H|H]; auto.
  inversion H as [|? ? H']; subst; [auto|inversion H'].
Qed.

Lemma Forall_weaken (A : Type) (P Q : A -> Prop) (l : list A) :
  (forall a, P a -> Q a) -> Forall P l -> Forall Q l.
Proof. intros H HF. eapply Forall_impl; eauto. Qed.

Lemma sweep_inv_step (y0 : Z) (st : Sweep) (r : Span) (rest : list Span) :
  sweep_pre st (r :: rest) -> span_wf r ->
  sweep_inv y0 st -> sweep_inv y0 (sweep_step st r).
Proof.
  intros [Hy Hx1 Hst _] Hwr Hinv.
  pose proof Hinv as [Hso Hwf Har Hlb Hin Hub Hux Hhd].
  inversion Hst as [|? ? Hr _]; subst.
  unfold sw_out in Hso, Hwf, Har, Hlb, Hin, Hub, Hux, Hhd.
  apply StronglySorted_snoc in Hso as [Hso Hlast].
  apply Forall_snoc in Hwf as [Hwd Hwl].
  apply Forall_snoc in Hlb as [Hlb1 Hlb2].
  apply Forall_snoc in Hub as [Hub1 Hub2].
  apply Exists_snoc in Hin. apply Exists_snoc in Hux.
  rewrite sum_widths_app in Har. simpl in Har.
  pose proof Hwr as Hwr'. pose proof Hwl as Hwl'.
  unfold span_wf in Hwr', Hwl'. unfold starts_le in Hr. unfold getWidth in Har.
  unfold sweep_step.
  destruct (Z.eqb_spec (getY r) (sw_y st)) as [Ey|Ey];
    [destruct (Z.leb_spec (getX0 r) (sw_x1 st + 1)) as [E0|E0];
     [destruct (Z.ltb_spec (sw_x1 st) (getX1 r)) as [E1|E1]|]|].
  - (* the right span extends the left one *)
    constructor; unfold sw_out; simpl.
    + apply StronglySorted_snoc. split; [assumption|].
      revert Hlast. apply Forall_weaken. unfold gap; simpl; auto.
    + apply Forall_snoc. split; [assumption|]. unfold span_wf; simpl. lia.
    + rewrite sum_widths_app. simpl. unfold getWidth; simpl. lia.
    + apply Forall_snoc. split; [assumption|]. simpl. assumption.
    + apply Exists_snoc. simpl. tauto.
    + apply Forall_snoc. split.
      * revert Hub1. apply Forall_weaken. intros a Ha. zbool; lia.
      * simpl. zbool; lia.
    + apply Exists_snoc. simpl. zbool; [right; reflexivity|].
      destruct Hux as [Hux|Hux]; [left; assumption|lia].
    + rewrite <- Hhd. apply head_y_snoc. reflexivity.
  - (* the right span lies inside the left one *)
    exact Hinv.
  - (* a new span on the same row *)
    assert (Hg : gap (sw_lspan st) r) by (unfold gap; lia).
    constructor; unfold sw_out; simpl.
    + apply StronglySorted_snoc. split.
      * apply StronglySorted_snoc. auto.
      * apply Forall_snoc. split; [|assumption].
        revert Hlast. apply Forall_weaken. intros a Ha.
        eapply gap_trans; eauto.
    + rewrite !Forall_snoc. auto.
    + rewrite !sum_widths_app. simpl. unfold getWidth. lia.
    + rewrite !Forall_snoc. repeat split.
      * revert Hlb1. apply Forall_weaken. intros a Ha. zbool; lia.
      * zbool; lia.
      * zbool; lia.
    + rewrite !Exists_snoc. zbool; [right; reflexivity|tauto].
    + rewrite !Forall_snoc. repeat split.
      * revert Hub1. apply Forall_weaken. intros a Ha. zbool; lia.
      * zbool; lia.
      * zbool; lia.
    + rewrite !Exists_snoc. zbool; try lia; try (right; reflexivity).
      tauto.
    + apply head_y_app. assumption.
  - (* a new row *)
    assert (Hg : gap (sw_lspan st) r) by (unfold gap; lia).
    constructor; unfold sw_out; simpl.
    + apply StronglySorted_snoc. split.
      * apply StronglySorted_snoc. auto.
      * apply Forall_snoc. split; [|assumption].
        revert Hlast. apply Forall_weaken. intros a Ha.
        eapply gap_trans; eauto.
    + rewrite !Forall_snoc. auto.
    + rewrite !sum_widths_app. simpl. unfold getWidth. lia.
    + rewrite !Forall_snoc. repeat split.
      * revert Hlb1. apply Forall_weaken. intros a Ha. zbool; lia.
      * zbool; lia.
      * zbool; lia.
    + rewrite !Exists_snoc. zbool; [right; reflexivity|tauto].
    + rewrite !Forall_snoc. repeat split.
      * revert Hub1. apply Forall_weaken. intros a Ha. zbool; lia.
      * zbool; lia.
      * zbool; lia.
    + rewrite !Exists_snoc. zbool; [right; reflexivity|tauto].
    + apply head_y_app. assumption.
Qed.

Lemma sweep_pre_all (rest : list Span) (st : Sweep) :
  sweep_pre st rest -> sweep_pre (sweep st rest) [].
Proof.
  revert st. induction rest as [|r rest IH]; intros st H; [exact H|].
  apply (IH _ (sweep_pre_step H)).
Qed.

Lemma sweep_inv_all (y0 : Z) (rest : list Span) (st : Sweep) :
  sweep_pre st rest -> Forall span_wf rest ->
  sweep_inv y0 st -> sweep_inv y0 (sweep st rest).
Proof.
  revert st. induction rest as [|r rest IH]; intros st Hpre Hwf Hinv; [exact Hinv|].
  inversion Hwf; subst.
  apply (IH _ (sweep_pre_step Hpre)); [assumption|].
  eapply sweep_inv_step; eauto.
Qed.

Lemma StronglySorted_adjacent (A : Type) (R : A -> A -> Prop) (l : list A) :
  StronglySorted R l ->
  forall (i : nat) (a b : A),
    nth_error l i = Some a -> nth_error l (S i) = Some b -> R a b.
Proof.
  induction 1 as [|h t Hs IH Hall]; intros i a b Ha Hb.
  - destruct i; discriminate.
  - destruct i as [|i]; simpl in Ha, Hb.
    + injection Ha as <-. destruct t as [|b' t']; [discriminate|].
      injection Hb as <-. now inversion Hall.
    + eapply IH; eauto.
Qed.

Lemma gap_sorted_yx (l : list Span) :
  Forall span_wf l -> StronglySorted gap l -> sorted_yx l.
Proof.
  intros Hwf Hs. apply sorted_yx_span_le.
  induction Hs as [|h t Hs IH Hall]; constructor.
  - apply IH. now inversion Hwf.
  - inversion Hwf; subst. revert Hall. apply Forall_weaken.
    intros; now apply gap_span_le.
Qed.

Lemma gap_no_touch (l : list Span) : StronglySorted gap l -> no_touch l.
Proof.
  intros Hs i prev next Hp Hn Hy.
  destruct (StronglySorted_adjacent Hs _ Hp Hn) as [H|[_ H]]; lia.
Qed.

Lemma gap_head_lowest (l : list Span) (y0 : Z) :
  StronglySorted gap l -> head_y l = Some y0 -> Forall (fun s => y0 <= getY s) l.
Proof.
  intros Hs Hh. destruct l as [|h t]; [constructor|].
  simpl in Hh. injection Hh as <-. inversion Hs as [|? ? _ Hall]; subst.
  constructor; [lia|]. revert Hall. apply Forall_weaken. unfold gap. lia.
Qed.

Lemma boxFromCorners_ordered (x0 y0 x1 y1 : Z) :
  x0 <= x1 -> y0 <= y1 ->
  boxFromCorners x0 y0 x1 y1 = mkBox x0 y0 (x1 - x0 + 1) (y1 - y0 + 1).
Proof.
  intros Hx Hy. unfold boxFromCorners.
  destruct (Z.ltb_spec (x1 - x0) 0); [lia|].
  destruct (Z.ltb_spec (y1 - y0) 0); [lia|].
  f_equal; lia.
Qed.

(** The state the sweep starts from satisfies both invariants. *)
Lemma sweep_start (s0 : Span) (rest : list Span) :
  StronglySorted span_le (s0 :: rest) ->
  sweep_pre (mkSweep [] s0 (getY s0) (getX1 s0) (getWidth s0) (getX0 s0) (getX1 s0)) rest.
Proof.
  intros HS. inversion HS as [|? ? HS' Hall]; subst.
  constructor; simpl; auto.
  revert Hall. apply Forall_weaken. intros; now apply span_le_starts.
Qed.

Lemma sweep_start_inv (s0 : Span) :
  span_wf s0 ->
  sweep_inv (getY s0)
    (mkSweep [] s0 (getY s0) (getX1 s0) (getWidth s0) (getX0 s0) (getX1 s0)).
Proof.
  intros Hwf. constructor; unfold sw_out; simpl;
    repeat constructor; try lia; try assumption.
Qed.

Lemma sweep_result_normalized (y0 : Z) (st : Sweep) :
  sweep_pre st [] -> sweep_inv y0 st ->
  Forall span_wf (sw_out st) /\ sorted_yx (sw_out st) /\ no_touch (sw_out st) /\
  sw_area st = sum_widths (sw_out st) /\
  tight_bbox (boxFromCorners (sw_minX st) y0 (sw_maxX st) (sw_y st)) (sw_out st).
Proof.
  intros [Hy _ _ _] [Hso Hwf Har Hlb Hin Hub Hux Hhd].
  repeat split; auto using gap_sorted_yx, gap_no_touch.
  pose proof (gap_head_lowest Hso Hhd) as Hlow.
  assert (Hhi : Forall (fun s => getY s <= sw_y st) (sw_out st)).
  { unfold sw_out in Hso |- *. apply StronglySorted_snoc in Hso as [_ Hl].
    apply Forall_snoc. split; [|lia].
    revert Hl. apply Forall_weaken. unfold gap. lia. }
  assert (Hlast : In (sw_lspan st) (sw_out st)).
  { unfold sw_out. apply in_or_app. right. now left. }
  rewrite Forall_forall in Hwf, Hlb, Hub, Hlow, Hhi.
  apply Exists_exists in Hin as (sa & Hsa & Ea).
  apply Exists_exists in Hux as (sb & Hsb & Eb).
  assert (Hx : sw_minX st <= sw_maxX st).
  { specialize (Hwf _ Hsa). specialize (Hub _ Hsa). unfold span_wf in Hwf. lia. }
  assert (Hyy : y0 <= sw_y st).
  { specialize (Hlow _ Hlast). lia. }
  rewrite (boxFromCorners_ordered Hx Hyy).
  destruct (sw_out st) as [|h t] eqn:E.
  - destruct Hlast.
  - unfold tight_bbox, getMaxX, getMaxY. simpl.
    split; [lia|]. split; [lia|]. split.
    { intros s Hs. specialize (Hlb _ Hs). specialize (Hub _ Hs).
      specialize (Hlow _ Hs). specialize (Hhi _ Hs). simpl in *. lia. }
    repeat split.
    + exists sa. auto.
    + exists sb. split; [assumption|lia].
    + exists h. split; [now left|]. simpl in Hhd. congruence.
    + exists (sw_lspan st). split; [assumption|lia].
Qed.

Lemma normalize_unflagged_inv (f : Footprint) :
  _normalized f = false -> Forall span_wf (_spans f) ->
  normalized_inv (normalize f) /\ _normalized (normalize f) = true.
Proof.
  intros Hflag Hwf. unfold normalize. rewrite Hflag.
  assert (HP := sortSpans_perm (_spans f)).
  assert (HS := sortSpans_sorted (_spans f)).
  assert (Hwf' : Forall span_wf (sortSpans (_spans f))).
  { eapply Permutation_Forall; eauto. }
  destruct (sortSpans (_spans f)) as [|s0 rest] eqn:E.
  - split; [|reflexivity]. constructor; simpl.
    + constructor.
    + constructor.
    + intros [|i] ? ? Hp; discriminate.
    + reflexivity.
    + reflexivity.
  - split; [|reflexivity]. inversion Hwf' as [|? ? Hw0 Hwrest]; subst.
    pose proof (sweep_start HS) as Hpre.
    pose proof (sweep_inv_all Hpre Hwrest (sweep_start_inv Hw0)) as Hinv.
    apply sweep_pre_all in Hpre.
    destruct (sweep_result_normalized Hpre Hinv) as (Hw & Ha & Hb & Hc & Hd).
    constructor; simpl; assumption.
Qed.

(** ** intersectMask: the pixel loop *)

Lemma columns_app (n m : nat) (x : Z) :
  columns x (n + m) = columns x n ++ columns (x + Z.of_nat n) m.
Proof.
  revert x. induction n as [|n IH]; intros x.
  - simpl. now rewrite Z.add_0_r.
  - cbn [Nat.add columns app]. rewrite IH. do 3 f_equal. lia.
Qed.

Lemma in_columns (n : nat) (x c : Z) :
  In c (columns x n) <-> x <= c < x + Z.of_nat n.
Proof.
  revert x. induction n as [|n IH]; intros x.
  - simpl. lia.
  - cbn [columns In]. rewrite IH. lia.
Qed.

Lemma length_columns (n : nat) (x : Z) : length (columns x n) = n.
Proof. revert x. induction n; intros; simpl; auto. Qed.

Section PixelLoop.

Variables (bitmask y : Z) (pixel : Z -> Z).

Lemma clean_run_weaken (lo hi lo' hi' : Z) (sp : Span) :
  lo' <= lo -> hi <= hi' ->
  clean_run bitmask y pixel lo hi sp -> clean_run bitmask y pixel lo' hi' sp.
Proof. unfold clean_run. intuition lia. Qed.

Lemma slice_fold (n : nat) :
  forall (x : Z) (st : Slice),
    sl_x0 st <= x ->
    (forall c, sl_x0 st <= c < x -> good bitmask pixel c = true) ->
    let st' := fold_left (slice_step bitmask y pixel) (columns x n) st in
    sl_x0 st <= sl_x0 st' <= x + Z.of_nat n /\
    (forall c, sl_x0 st' <= c < x + Z.of_nat n -> good bitmask pixel c = true) /\
    exists new,
      sl_spans st' = sl_spans st ++ new /\
      Forall (clean_run bitmask y pixel (sl_x0 st) (sl_x0 st')) new /\
      sl_area st' = sl_area st + sum_widths new /\
      sum_widths new + (x + Z.of_nat n - sl_x0 st')
      = (x - sl_x0 st) + count_good bitmask pixel (columns x n).
Proof.
  induction n as [|n IH]; intros x st Hle Hgood.
  - simpl. split; [lia|]. split; [intros; apply Hgood; lia|].
    exists []. rewrite app_nil_r. unfold count_good. simpl.
    repeat split; auto; lia.
  - cbn [columns fold_left].
    set (st1 := slice_step bitmask y pixel st x).
    assert (H1 : sl_x0 st <= sl_x0 st1 <= x + 1 /\
                 (forall c, sl_x0 st1 <= c < x + 1 -> good bitmask pixel c = true) /\
                 exists new1,
                   sl_spans st1 = sl_spans st ++ new1 /\
                   Forall (clean_run bitmask y pixel (sl_x0 st) (sl_x0 st1)) new1 /\
                   sl_area st1 = sl_area st + sum_widths new1 /\
                   sum_widths new1 + (x + 1 - sl_x0 st1)
                   = (x - sl_x0 st) + count_good bitmask pixel [x]).
    { unfold st1, slice_step, count_good. cbn [filter]. fold (good bitmask pixel x).
      destruct (good bitmask pixel x) eqn:Eg; cbn [negb].
      - split; [lia|]. split.
        + intros c Hc. destruct (Z.eq_dec c x); [subst; assumption|apply Hgood; lia].
        + exists []. rewrite app_nil_r. simpl. repeat split; auto; lia.
      - destruct (Z.ltb_spec (sl_x0 st) x) as [Hlt|Hge]; cbn.
        + split; [lia|]. split; [intros; lia|].
          exists [mkSpan y (sl_x0 st) (x - 1)].
          split; [reflexivity|]. split; [|split; simpl; unfold getWidth; simpl; lia].
          constructor; [|constructor]. unfold clean_run. simpl.
          repeat split; try lia. intros; apply Hgood; lia.
        + split; [lia|]. split; [intros; lia|].
          exists []. rewrite app_nil_r. simpl. repeat split; auto; lia. }
    destruct H1 as (Hr1 & Hg1 & new1 & Es1 & Hc1 & Ea1 & Ec1).
    destruct (IH (x + 1) st1 ltac:(lia) Hg1) as (Hr2 & Hg2 & new2 & Es2 & Hc2 & Ea2 & Ec2).
    replace (x + Z.of_nat (S n)) with (x + 1 + Z.of_nat n) by lia.
    split; [lia|]. split; [assumption|].
    exists (new1 ++ new2). rewrite Es2, Es1, Ea2, Ea1, app_assoc, sum_widths_app.
    repeat split; auto.
    + apply Forall_app. split.
      * revert Hc1. apply Forall_weaken. intros sp. apply clean_run_weaken; lia.
      * revert Hc2. apply Forall_weaken. intros sp. apply clean_run_weaken; lia.
    + lia.
    + change (x :: columns (x + 1) n) with ([x] ++ columns (x + 1) n).
      unfold count_good in *. rewrite filter_app, length_app, Nat2Z.inj_add. lia.
Qed.

End PixelLoop.

(** ** intersectMask: one span, then all of them *)

Lemma cnt_split (f : Z -> bool) (a m b : Z) :
  a <= m -> m <= b + 1 -> cnt f a b = cnt f a (m - 1) + cnt f m b.
Proof.
  intros H1 H2. unfold cnt.
  replace (Z.to_nat (b - a + 1))
    with (Z.to_nat (m - 1 - a + 1) + Z.to_nat (b - m + 1))%nat by lia.
  rewrite columns_app, filter_app, length_app, Nat2Z.inj_add.
  replace (a + Z.of_nat (Z.to_nat (m - 1 - a + 1))) with m by lia.
  reflexivity.
Qed.

Lemma cnt_zero (f : Z -> bool) (a b : Z) :
  (forall c, a <= c <= b -> f c = false) -> cnt f a b = 0.
Proof.
  intros H. unfold cnt.
  rewrite (@filter_ext_in _ f (fun _ => false)).
  - now rewrite filter_false.
  - intros c Hc. apply in_columns in Hc. apply H. lia.
Qed.

Lemma cnt_ext (f g : Z -> bool) (a b : Z) :
  (forall c, a <= c <= b -> f c = g c) -> cnt f a b = cnt g a b.
Proof.
  intros H. unfold cnt. do 2 f_equal. apply filter_ext_in.
  intros c Hc. apply in_columns in Hc. apply H. lia.
Qed.

Lemma cnt_le (f : Z -> bool) (a b : Z) : a <= b + 1 -> cnt f a b <= b - a + 1.
Proof.
  intros H. unfold cnt.
  pose proof (filter_length_le f (columns a (Z.to_nat (b - a + 1)))) as Hl.
  rewrite length_columns in Hl. lia.
Qed.

Lemma cnt_nonneg (f : Z -> bool) (a b : Z) : 0 <= cnt f a b.
Proof. unfold cnt. lia. Qed.

Lemma kept_in_span_cnt (mask : Raster) (bitmask : Z) (s : Span) :
  kept_in_span mask bitmask s
  = cnt (fun x => keptb mask bitmask x (getY s)) (getX0 s) (getX1 s).
Proof. reflexivity. Qed.

Lemma getBBox_row_inside (mask : Raster) (y : Z) :
  raster_wf mask ->
  getMinY (getBBox mask) <= y <= getMaxY (getBBox mask) ->
  getBBox mask = mkBox (img_x0 mask) (img_y0 mask) (img_width mask) (img_height mask)
  /\ 0 < img_width mask /\ 0 < img_height mask.
Proof.
  intros [Hw Hh]. unfold getBBox, boxFromExtent.
  destruct (Z.eqb_spec (img_width mask) 0); destruct (Z.eqb_spec (img_height mask) 0);
    cbn; unfold getMaxY; simpl; intros; try lia.
  repeat split; lia.
Qed.

Lemma kept_run_wf (mask : Raster) (bitmask : Z) (s sp : Span) :
  kept_run mask bitmask s sp -> span_wf sp.
Proof. unfold kept_run, span_wf. tauto. Qed.

Lemma slice_span_spec (mask : Raster) (bitmask : Z) (s : Span)
    (spans : list Span) (area : Z) :
  raster_wf mask -> span_wf s ->
  getMinY (getBBox mask) <= getY s <= getMaxY (getBBox mask) ->
  exists new,
    slice_span mask (getBBox mask) bitmask s spans area
    = (spans ++ new, area + sum_widths new) /\
    Forall (kept_run mask bitmask s) new /\
    sum_widths new = kept_in_span mask bitmask s.
Proof.
  intros Hwf Hs Hrow.
  destruct (getBBox_row_inside Hwf Hrow) as (Eb & Hw & Hh).
  rewrite kept_in_span_cnt. unfold slice_span. rewrite Eb in *.
  unfold getMaxX, getMaxY in *. simpl in *. unfold span_wf in Hs.
  set (maxX := img_x0 mask + img_width mask - 1). set (minX := img_x0 mask).
  assert (Hbox : forall c, box_contains (getBBox mask) c (getY s)
                           = (minX <=? c) && (c <=? maxX)).
  { intros c. rewrite Eb. unfold box_contains, getMaxX, getMaxY. simpl.
    fold minX maxX.
    destruct (Z.leb_spec (img_y0 mask) (getY s)); [|lia].
    destruct (Z.leb_spec (getY s) (img_y0 mask + img_height mask - 1)); [|lia].
    now rewrite !andb_true_r. }
  destruct (Z.ltb_spec (getX1 s) minX) as [Hl|Hl];
    [|destruct (Z.ltb_spec maxX (getX0 s)) as [Hr|Hr]]; cbn [orb].
  - exists []. rewrite app_nil_r, Z.add_0_r. repeat split; [constructor|].
    symmetry. apply cnt_zero. intros c Hc. unfold keptb. rewrite Hbox.
    destruct (Z.leb_spec minX c); [lia|reflexivity].
  - exists []. rewrite app_nil_r, Z.add_0_r. repeat split; [constructor|].
    symmetry. apply cnt_zero. intros c Hc. unfold keptb. rewrite Hbox.
    destruct (Z.leb_spec c maxX); [lia|]. now rewrite andb_false_r.
  - set (cx0 := if getX0 s <? minX then minX else getX0 s).
    set (cx1 := if maxX <? getX1 s then maxX else getX1 s).
    assert (Hcx0 : cx0 = Z.max (getX0 s) minX) by (unfold cx0; zbool; lia).
    assert (Hcx1 : cx1 = Z.min (getX1 s) maxX) by (unfold cx1; zbool; lia).
    set (pixel := fun x => img_pix mask (x - minX) (getY s - img_y0 mask)).
    destruct (@slice_fold bitmask (getY s) pixel (Z.to_nat (cx1 - cx0 + 1)) cx0
                (mkSlice cx0 spans area) ltac:(simpl; lia) ltac:(simpl; intros; lia))
      as (Hr1 & Hg & new & Es & Hc & Ea & Ec).
    simpl in Hr1, Hg, Es, Hc, Ea, Ec.
    set (st := fold_left (slice_step bitmask (getY s) pixel)
                 (columns cx0 (Z.to_nat (cx1 - cx0 + 1))) (mkSlice cx0 spans area)) in *.
    replace (cx0 + Z.of_nat (Z.to_nat (cx1 - cx0 + 1))) with (cx1 + 1) in * by lia.
    assert (Hkept : forall c, cx0 <= c <= cx1 ->
                      keptb mask bitmask c (getY s) = good bitmask pixel c).
    { intros c Hc'. unfold keptb, good, pixel, pixel_at. rewrite Hbox.
      destruct (Z.leb_spec minX c); [|lia]. destruct (Z.leb_spec c maxX); [|lia].
      reflexivity. }
    assert (Hcnt : cnt (fun x => keptb mask bitmask x (getY s)) (getX0 s) (getX1 s)
                   = count_good bitmask pixel (columns cx0 (Z.to_nat (cx1 - cx0 + 1)))).
    { rewrite (@cnt_split _ (getX0 s) cx0 (getX1 s)) by lia.
      rewrite (@cnt_split _ cx0 (cx1 + 1) (getX1 s)) by lia.
      rewrite (@cnt_zero _ (getX0 s) (cx0 - 1)), (@cnt_zero _ (cx1 + 1) (getX1 s)).
      - replace (cx1 + 1 - 1) with cx1 by lia.
        rewrite (cnt_ext _ (good bitmask pixel) Hkept). unfold cnt, count_good. lia.
      - intros c Hc'. unfold keptb. rewrite Hbox.
        destruct (Z.leb_spec c maxX); [lia|]. now rewrite andb_false_r.
      - intros c Hc'. unfold keptb. rewrite Hbox.
        destruct (Z.leb_spec minX c); [lia|reflexivity]. }
    assert (Hruns : Forall (kept_run mask bitmask s) new).
    { revert Hc. apply Forall_weaken. intros sp (Hy & H0 & H01 & H1 & Hgd).
      unfold kept_run. rewrite Hy. repeat split; try lia.
      intros c Hc'. rewrite Hkept by lia. apply Hgd. lia. }
    destruct (Z.leb_spec (sl_x0 st) cx1) as [Hlast|Hlast].
    + exists (new ++ [mkSpan (getY s) (sl_x0 st) cx1]).
      unfold emit. rewrite Es, Ea, app_assoc, sum_widths_app.
      simpl. unfold getWidth; simpl. split; [f_equal; lia|]. split.
      * apply Forall_snoc. split; [assumption|].
        unfold kept_run; simpl. repeat split; try lia.
        intros c Hc'. rewrite Hkept by lia. apply Hg. lia.
      * rewrite Hcnt. lia.
    + exists new. rewrite Es, Ea. split; [reflexivity|]. split; [assumption|].
      rewrite Hcnt. lia.
Qed.

Lemma kept_in_span_outside (mask : Raster) (bitmask : Z) (s : Span) :
  getY s < getMinY (getBBox mask) \/ getMaxY (getBBox mask) < getY s ->
  kept_in_span mask bitmask s = 0.
Proof.
  intros H. rewrite kept_in_span_cnt. apply cnt_zero. intros c _.
  unfold keptb, box_contains.
  destruct (Z.leb_spec (getMinY (getBBox mask)) (getY s));
    destruct (Z.leb_spec (getY s) (getMaxY (getBBox mask))); try lia;
    now rewrite ?andb_false_r.
Qed.

Lemma kept_pixels_app (mask : Raster) (bitmask : Z) (l1 l2 : list Span) :
  kept_pixels mask bitmask (l1 ++ l2)
  = kept_pixels mask bitmask l1 + kept_pixels mask bitmask l2.
Proof. induction l1; simpl; lia. Qed.

Lemma kept_pixels_outside (mask : Raster) (bitmask : Z) (l : list Span) :
  Forall (fun s => getY s < getMinY (getBBox mask) \/ getMaxY (getBBox mask) < getY s) l ->
  kept_pixels mask bitmask l = 0.
Proof.
  induction 1 as [|s l Hs _ IH]; simpl; [reflexivity|].
  rewrite IH, kept_in_span_outside by assumption. reflexivity.
Qed.

Lemma kept_in_span_le (mask : Raster) (bitmask : Z) (s : Span) :
  span_wf s -> 0 <= kept_in_span mask bitmask s <= getWidth s.
Proof.
  intros Hwf. rewrite kept_in_span_cnt. unfold span_wf, getWidth in *.
  split; [apply cnt_nonneg|apply cnt_le; lia].
Qed.

Lemma kept_pixels_le (mask : Raster) (bitmask : Z) (l : list Span) :
  Forall span_wf l -> kept_pixels mask bitmask l <= sum_widths l.
Proof.
  induction 1 as [|s l Hs _ IH]; simpl; [lia|].
  pose proof (@kept_in_span_le mask bitmask s Hs). lia.
Qed.

Lemma slice_spans_spec (mask : Raster) (bitmask : Z) (l : list Span) :
  raster_wf mask -> Forall span_wf l -> rows_sorted l ->
  Forall (fun s => getMinY (getBBox mask) <= getY s) l ->
  forall spans area,
  exists new,
    slice_spans mask (getBBox mask) bitmask l spans area
    = (spans ++ new, area + sum_widths new) /\
    Forall (fun sp => exists s, In s l /\ kept_run mask bitmask s sp) new /\
    sum_widths new = kept_pixels mask bitmask l.
Proof.
  intros Hm Hwf Hsort Hmin. induction l as [|s l IH]; intros spans area.
  - exists []. rewrite app_nil_r. simpl. rewrite Z.add_0_r. repeat split; auto.
  - inversion Hwf as [|? ? Hws Hwl]; subst.
    inversion Hsort as [|? ? Hsl Hall]; subst.
    inversion Hmin as [|? ? Hms Hml]; subst.
    cbn [slice_spans].
    destruct (Z.ltb_spec (getMaxY (getBBox mask)) (getY s)) as [Hbrk|Hin].
    + (* past the last row of the mask: the loop stops *)
      exists []. rewrite app_nil_r. simpl sum_widths. rewrite Z.add_0_r.
      repeat split; auto.
      symmetry. apply kept_pixels_outside. constructor; [lia|].
      revert Hall. apply Forall_weaken. intros; lia.
    + destruct (@slice_span_spec mask bitmask s spans area Hm Hws ltac:(lia))
        as (new1 & E1 & Hk1 & Hc1).
      rewrite E1.
      destruct (IH Hwl Hsl Hml (spans ++ new1) (area + sum_widths new1))
        as (new2 & E2 & Hk2 & Hc2).
      rewrite E2. exists (new1 ++ new2).
      rewrite app_assoc, sum_widths_app. split; [f_equal; lia|]. split.
      * apply Forall_app. split.
        -- revert Hk1. apply Forall_weaken. intros sp H. exists s. split; [now left|assumption].
        -- revert Hk2. apply Forall_weaken. intros sp (s' & Hin' & H).
           exists s'. split; [now right|assumption].
      * simpl. lia.
Qed.

Lemma leading_scan_ok (l l' : list Span) (minY : Z) :
  leading_scan l minY = Ok l' ->
  exists skipped s t,
    l = skipped ++ l' /\ l' = s :: t /\ minY <= getY s /\
    Forall (fun s => getY s < minY) skipped.
Proof.
  induction l as [|h l IH]; simpl; [discriminate|].
  destruct (Z.ltb_spec (getY h) minY) as [Hlt|Hge].
  - intros H. destruct (IH H) as (sk & s & t & -> & E & Hs & Hsk).
    exists (h :: sk), s, t. repeat split; auto.
  - intros H. injection H as <-. exists [], h, l. repeat split; auto.
Qed.

(** The scan runs past the end exactly when no span is at or after the
    first row of the mask; it never throws. *)
Lemma leading_scan_undefined (l : list Span) (minY : Z) :
  leading_scan l minY = Undefined <-> Forall (fun s => getY s < minY) l.
Proof.
  induction l as [|h l IH]; simpl.
  - split; auto.
  - destruct (Z.ltb_spec (getY h) minY) as [Hlt|Hge].
    + rewrite IH. split; [now constructor|now inversion 1].
    + split; [discriminate|]. inversion 1; subst. lia.
Qed.

Lemma leading_scan_total (l : list Span) (minY : Z) :
  Exists (fun s => minY <= getY s) l -> exists l', leading_scan l minY = Ok l'.
Proof.
  induction 1 as [h l Hh|h l _ IH]; simpl.
  - destruct (Z.ltb_spec (getY h) minY); [lia|eauto].
  - destruct (Z.ltb_spec (getY h) minY); eauto.
Qed.

(** ** Normalized span lists *)

Lemma no_touch_tail (s : Span) (l : list Span) : no_touch (s :: l) -> no_touch l.
Proof. intros H i p n Hp Hn. apply (H (S i)); assumption. Qed.

Lemma normalized_gap_sorted (l : list Span) :
  Forall span_wf l -> sorted_yx l -> no_touch l -> StronglySorted gap l.
Proof.
  intros Hwf Hs Hn. apply sorted_yx_span_le in Hs.
  induction l as [|h t IH]; [constructor|].
  inversion Hwf as [|? ? Hwh Hwt]; subst. inversion Hs as [|? ? Hst Hall]; subst.
  specialize (IH Hwt Hst (no_touch_tail Hn)).
  constructor; [assumption|].
  destruct t as [|h2 t2]; [constructor|].
  assert (Hg : gap h h2).
  { inversion Hall as [|? ? Hle _]; subst.
    destruct (Z.eq_dec (getY h) (getY h2)) as [E|E].
    - specialize (Hn 0%nat h h2 eq_refl eq_refl E). unfold gap. lia.
    - unfold span_le in Hle. unfold gap. lia. }
  constructor; [assumption|].
  inversion IH as [|? ? _ Hg2]; subst. inversion Hwt; subst.
  revert Hg2. apply Forall_weaken. intros a Ha. eapply gap_trans; eauto.
Qed.

Lemma gap_rows_sorted (l : list Span) : StronglySorted gap l -> rows_sorted l.
Proof.
  induction 1 as [|h t _ IH Hall]; constructor; [assumption|].
  revert Hall. apply Forall_weaken. unfold gap. lia.
Qed.

Lemma rows_sorted_app_r (l1 l2 : list Span) : rows_sorted (l1 ++ l2) -> rows_sorted l2.
Proof.
  induction l1 as [|h t IH]; simpl; [auto|].
  intros H. inversion H; subst. auto.
Qed.

Lemma rows_sorted_head_lowest (s : Span) (l : list Span) (minY : Z) :
  rows_sorted (s :: l) -> minY <= getY s ->
  Forall (fun s => minY <= getY s) (s :: l).
Proof.
  intros H Hs. inversion H as [|? ? _ Hall]; subst. constructor; [assumption|].
  revert Hall. apply Forall_weaken. intros; lia.
Qed.

(** ** Boxes *)

Lemma box_contains_iff (b : Box2I) (x y : Z) :
  box_contains b x y = true <->
  getMinX b <= x <= getMaxX b /\ getMinY b <= y <= getMaxY b.
Proof.
  unfold box_contains. rewrite !andb_true_iff, !Z.leb_le. tauto.
Qed.

Lemma box_clip_contains (b other : Box2I) (x y : Z) :
  box_wf b -> box_wf other ->
  box_contains (box_clip b other) x y = box_contains b x y && box_contains other x y.
Proof.
  intros Hb Ho. apply eq_true_iff_eq.
  rewrite andb_true_iff, !box_contains_iff. unfold box_clip, isEmpty.
  destruct Hb as [->|[Hbw Hbh]]; [unfold getMaxX, getMaxY; cbn; lia|].
  destruct (Z.eqb_spec (getWidthB b) 0); [lia|]. cbn [andb].
  destruct Ho as [->|[How Hoh]]; [unfold getMaxX, getMaxY; cbn; lia|].
  destruct (Z.eqb_spec (getWidthB other) 0); [lia|]. cbn [andb].
  unfold getMaxX, getMaxY in *.
  match goal with |- context [if ?c then _ else _] => destruct c eqn:E end.
  - apply orb_true_iff in E as [E|E]; apply Z.ltb_lt in E;
      cbn [emptyBox getMinX getMinY getWidthB getHeightB]; lia.
  - apply orb_false_iff in E as [E1 E2]. apply Z.ltb_ge in E1, E2.
    cbn [getMinX getMinY getWidthB getHeightB]. lia.
Qed.

Lemma tight_bbox_wf (b : Box2I) (l : list Span) : tight_bbox b l -> box_wf b.
Proof.
  destruct l; simpl; [now left|]. intros (Hw & Hh & _). now right.
Qed.

Lemma getBBox_wf (mask : Raster) : raster_wf mask -> box_wf (getBBox mask).
Proof.
  intros [Hw Hh]. unfold getBBox, boxFromExtent, box_wf.
  destruct (Z.eqb_spec (img_width mask) 0); destruct (Z.eqb_spec (img_height mask) 0);
    cbn; auto. right. lia.
Qed.

(** ** intersectMask as a whole *)

Lemma keptb_iff (mask : Raster) (bitmask x y : Z) :
  keptb mask bitmask x y = true <->
  box_contains (getBBox mask) x y = true /\ Z.land (pixel_at mask x y) bitmask = 0.
Proof. unfold keptb. now rewrite andb_true_iff, Z.eqb_eq. Qed.

Lemma intersectMask_result (f f' : Footprint) (mask : Raster) (bitmask : Z) :
  normalized_inv f -> _normalized f = true -> raster_wf mask ->
  intersectMask f mask bitmask = Ok f' ->
  Forall (fun sp => exists s, In s (_spans f) /\ kept_run mask bitmask s sp) (_spans f') /\
  _area f' = sum_widths (_spans f') /\
  _area f' = kept_pixels mask bitmask (_spans f) /\
  _bbox f' = box_clip (_bbox f) (getBBox mask).
Proof.
  intros Hinv Hflag Hm. unfold intersectMask, normalize. rewrite Hflag.
  destruct (leading_scan (_spans f) (getMinY (getBBox mask))) as [l'| |] eqn:Escan;
    cbn [bind]; try discriminate.
  destruct (leading_scan_ok _ _ Escan) as (sk & s & t & El & El' & Hs & Hsk).
  pose proof (ni_wf Hinv) as Hwf.
  pose proof (gap_rows_sorted
                (normalized_gap_sorted Hwf (ni_sorted Hinv) (ni_no_touch Hinv))) as Hrows.
  rewrite El in Hwf, Hrows. apply Forall_app in Hwf as [_ Hwf'].
  apply rows_sorted_app_r in Hrows.
  assert (Hmin : Forall (fun s => getMinY (getBBox mask) <= getY s) l').
  { rewrite El' in *. now apply rows_sorted_head_lowest. }
  destruct (@slice_spans_spec mask bitmask l' Hm Hwf' Hrows Hmin [] 0)
    as (new & E & Hk & Hc).
  rewrite E. intros H. injection H as <-. simpl.
  repeat split; auto.
  - revert Hk. apply Forall_weaken. intros sp (s' & Hin & Hr).
    exists s'. split; [|assumption]. rewrite El. apply in_or_app. now right.
  - rewrite Hc, El, kept_pixels_app, (@kept_pixels_outside _ _ sk); [lia|].
    revert Hsk. apply Forall_weaken. intros; lia.
Qed.

Lemma intersectMask_returns (f : Footprint) (mask : Raster) (bitmask : Z) :
  _normalized f = true ->
  Exists (fun s => getMinY (getBBox mask) <= getY s) (_spans f) ->
  exists f', intersectMask f mask bitmask = Ok f'.
Proof.
  intros Hflag Hex. unfold intersectMask, normalize. rewrite Hflag.
  destruct (leading_scan_total Hex) as (l' & ->). cbn [bind].
  destruct (slice_spans mask (getBBox mask) bitmask l' [] 0). eauto.
Qed.

(* ------------------------------------------------------------------ *)
(** ** Claims on normalize *)

(** C1, as stated, fails: on a footprint whose flag is set although its
    spans are out of order, normalize() returns at once and the span list
    stays unsorted. *)
Lemma normalize_flagged_stays_unsorted :
  exists f, flagged_unsorted = Ok f /\ normalize f = f /\ ~ sorted_yx (_spans (normalize f)).
Proof.
  eexists. split; [reflexivity|]. split; [reflexivity|].
  cbn. intros H. inversion H as [|? ? _ Hall]; subst.
  inversion Hall as [|? ? Hlt _]; subst. discriminate Hlt.
Qed.

(** C1 (amended): for every Footprint whose flag [_normalized] is unset and
    whose spans each have [x0 <= x1], after normalize() the span list is
    sorted by (y, x0, x1), adjacent spans of one row satisfy
    [next.x0 > prev.x1 + 1], the area is the sum of the span widths, the
    bounding box is the tight enclosing box of the spans, and the flag is
    set. *)
Theorem normalize_establishes_invariant (f : Footprint) :
  _normalized f = false -> Forall span_wf (_spans f) ->
  sorted_yx (_spans (normalize f)) /\
  no_touch (_spans (normalize f)) /\
  _area (normalize f) = sum_widths (_spans (normalize f)) /\
  tight_bbox (_bbox (normalize f)) (_spans (normalize f)) /\
  _normalized (normalize f) = true.
Proof.
  intros Hflag Hwf.
  destruct (normalize_unflagged_inv f Hflag Hwf) as [[_ Hs Hn Ha Hb] Hf].
  auto.
Qed.

Lemma normalize_establishes_invariant_witness :
  let f := addSpan (addSpan (addSpan Footprint_default 2 4 6) 1 0 3) 2 0 3 in
  sorted_yx (_spans (normalize f)) /\
  no_touch (_spans (normalize f)) /\
  _area (normalize f) = sum_widths (_spans (normalize f)) /\
  tight_bbox (_bbox (normalize f)) (_spans (normalize f)) /\
  _normalized (normalize f) = true.
Proof.
  intros f. apply (@normalize_establishes_invariant f).
  - reflexivity.
  - repeat constructor; unfold span_wf; simpl; lia.
Defined.

(** On a footprint whose flag is set, normalize() does nothing. *)
Lemma normalize_flagged (f : Footprint) :
  _normalized f = true -> normalize f = f.
Proof. intros H. unfold normalize. now rewrite H. Qed.

(** The spans of a footprint have [x0 <= x1]: [addSpan] and
    [addSpanInSeries], through which every span enters the vector, put the
    ends in order. *)
Lemma addSpan_spans_wf (f : Footprint) (y x0 x1 : Z) :
  Forall span_wf (_spans f) -> Forall span_wf (_spans (addSpan f y x0 x1)).
Proof.
  intros H. unfold addSpan.
  destruct (Z.ltb_spec x1 x0); cbn [_spans];
    (apply Forall_snoc; split; [exact H|unfold span_wf; simpl; lia]).
Qed.

Lemma addSpanInSeries_spans_wf (f f' : Footprint) (y x0 x1 : Z) :
  Forall span_wf (_spans f) -> addSpanInSeries f y x0 x1 = Ok f' ->
  Forall span_wf (_spans f').
Proof.
  intros H E. unfold addSpanInSeries in E.
  destruct (if x1 <? x0 then (x1, x0) else (x0, x1)) as [a b] eqn:Eab.
  assert (Hab : a <= b).
  { destruct (Z.ltb_spec x1 x0); injection Eab as <- <-; lia. }
  destruct (rev (_spans f)) as [|lastspan before] eqn:Er.
  - injection E as <-. cbn [set_normalized _spans]. now apply addSpan_spans_wf.
  - assert (Es : _spans f = rev before ++ [lastspan]).
    { rewrite <- (rev_involutive (_spans f)), Er. reflexivity. }
    rewrite Es in H. apply Forall_snoc in H as [Hb Hl].
    destruct ((y =? getY lastspan) && (a =? getX1 lastspan + 1)) eqn:Ec.
    + injection E as <-. cbn [_spans]. apply Forall_snoc. split; [exact Hb|].
      apply andb_true_iff in Ec as [_ Ea]. apply Z.eqb_eq in Ea.
      unfold span_wf in *. simpl. lia.
    + destruct (negb _); [discriminate|]. injection E as <-.
      cbn [set_normalized _spans]. apply addSpan_spans_wf.
      rewrite Es. apply Forall_snoc. split; assumption.
Qed.

(** C9: normalize() never changes the set of pixels a Footprint covers: a
    pixel (x, y) lies in some span before the call if and only if it lies
    in some span after it. *)
Theorem normalize_preserves_pixels (f : Footprint) (x y : Z) :
  covers (_spans f) x y <-> covers (_spans (normalize f)) x y.
Proof. symmetry. apply normalize_covers. Qed.

(* ------------------------------------------------------------------ *)
(** ** Claims on addSpanInSeries *)

Example addSpanInSeries_scenario :
  (f <- addSpanInSeries Footprint_default 5 3 3 ;; addSpanInSeries f 5 0 1)
  = Throw InvalidParameterError.
Proof. reflexivity. Qed.

(** On a non-empty footprint the call throws exactly when the span, with
    its ends put in order, starts neither on a later row nor more than one
    column past the last span, and is not the contiguous extension of the
    last span.  The rows are not compared in the second test, so a span on
    an earlier row that starts far enough to the right is accepted. *)
Lemma addSpanInSeries_throws_iff (f : Footprint) (last : Span) (before : list Span)
    (y x0 x1 : Z) :
  _spans f = before ++ [last] -> x0 <= x1 ->
  (addSpanInSeries f y x0 x1 = Throw InvalidParameterError <->
   ~ (y = getY last /\ x0 = getX1 last + 1) /\
   y <= getY last /\ x0 <= getX1 last + 1).
Proof.
  intros Es Hx. unfold addSpanInSeries.
  destruct (Z.ltb_spec x1 x0); [lia|].
  rewrite Es, rev_app_distr. cbn [rev app].
  destruct (Z.eqb_spec y (getY last)); destruct (Z.eqb_spec x0 (getX1 last + 1));
    destruct (Z.ltb_spec (getY last) y); destruct (Z.ltb_spec (getX1 last + 1) x0);
    cbn; split; intros; try discriminate; try lia; try tauto; auto.
Qed.

(** C5 (the code departs from the claim): after [addSpanInSeries(5, 3, 3)],
    the call [addSpanInSeries(4, 10, 12)] names a span on an earlier row.
    It is neither a contiguous extension nor after the last span, yet the
    code appends it and sets the flag. *)
Theorem addSpanInSeries_accepts_earlier_row :
  (f <- addSpanInSeries Footprint_default 5 3 3 ;; addSpanInSeries f 4 10 12)
  = Ok (mkFootprint [mkSpan 5 3 3; mkSpan 4 10 12] 4 (mkBox 3 4 10 2)
                    (mkCatalog minimalSchema []) emptyBox true).
Proof. reflexivity. Qed.

(* ------------------------------------------------------------------ *)
(** ** Claims on intersectMask *)

(** C2: for every normalized Footprint, mask and bitmask, when
    intersectMask returns, every pixel of every surviving span lies in the
    mask and reads [(pixel & bitmask) == 0] there; the area is the number
    of kept pixels, equals the sum of the new span widths and is at most
    the original area; the bounding box is the original one clipped to the
    mask's.  It returns whenever some span is at or after the first row of
    the mask. *)
Theorem intersectMask_keeps_unmasked_pixels (f : Footprint) (mask : Raster) (bitmask : Z) :
  normalized_inv f -> _normalized f = true -> raster_wf mask ->
  (forall f', intersectMask f mask bitmask = Ok f' ->
     (forall sp x, In sp (_spans f') -> getX0 sp <= x <= getX1 sp ->
        box_contains (getBBox mask) x (getY sp) = true /\
        Z.land (pixel_at mask x (getY sp)) bitmask = 0) /\
     _area f' = kept_pixels mask bitmask (_spans f) /\
     _area f' = sum_widths (_spans f') /\
     _area f' <= _area f /\
     _bbox f' = box_clip (_bbox f) (getBBox mask) /\
     (forall x y, box_contains (_bbox f') x y
                  = box_contains (_bbox f) x y && box_contains (getBBox mask) x y)) /\
  (Exists (fun s => getMinY (getBBox mask) <= getY s) (_spans f) ->
   exists f', intersectMask f mask bitmask = Ok f').
Proof.
  intros Hinv Hflag Hm. split; [|now apply intersectMask_returns].
  intros f' E.
  destruct (@intersectMask_result f f' mask bitmask Hinv Hflag Hm E)
    as (Hk & Ha & Hc & Hb).
  split; [|repeat split; auto].
  - intros sp x Hsp Hx. rewrite Forall_forall in Hk.
    destruct (Hk _ Hsp) as (s & _ & _ & _ & _ & _ & Hg).
    specialize (Hg x Hx). apply keptb_iff in Hg. exact Hg.
  - rewrite Hc, (ni_area Hinv). apply kept_pixels_le, (ni_wf Hinv).
  - intros x y. rewrite Hb. apply box_clip_contains.
    + eapply tight_bbox_wf, (ni_bbox Hinv).
    + now apply getBBox_wf.
Qed.

Lemma intersectMask_keeps_unmasked_pixels_witness :
  exists f',
    intersectMask (normalize (addSpan Footprint_default 0 0 3)) mask_010 1 = Ok f' /\
    _area f' = 2.
Proof.
  pose (f := normalize (addSpan Footprint_default 0 0 3)).
  assert (Hinv : normalized_inv f).
  { apply normalize_unflagged_inv; [reflexivity|].
    repeat constructor; unfold span_wf; simpl; lia. }
  assert (Hm : raster_wf mask_010) by (unfold raster_wf; simpl; lia).
  destruct (@intersectMask_keeps_unmasked_pixels f mask_010 1 Hinv eq_refl Hm)
    as [Hres Hret].
  destruct Hret as [f' E].
  { constructor. simpl. lia. }
  exists f'. split; [exact E|].
  destruct (Hres f' E) as (_ & Ha & _). rewrite Ha. reflexivity.
Defined.

(** C10 (the code departs from the claim): on an empty footprint, and on a
    footprint whose spans all lie before the first row of the mask, the
    leading scan reads the span under the end of the list. *)
Theorem intersectMask_reads_past_the_end :
  intersectMask Footprint_default mask_010 1 = Undefined /\
  intersectMask (normalize (addSpan Footprint_default (-2) 0 3)) mask_010 1 = Undefined.
Proof. split; reflexivity. Qed.

(** The same for every footprint with no span at or after the first row of
    the mask. *)
Lemma intersectMask_undefined (f : Footprint) (mask : Raster) (bitmask : Z) :
  Forall (fun s => getY s < getMinY (getBBox mask)) (_spans (normalize f)) ->
  intersectMask f mask bitmask = Undefined.
Proof.
  intros H. unfold intersectMask.
  apply leading_scan_undefined in H. now rewrite H.
Qed.

(* ------------------------------------------------------------------ *)
(** ** Claims on setMaskFromFootprint *)

(** A span that overlaps the raster is clipped to it. *)
Example setMaskFromFootprint_partial_overlap :
  exists m,
    setMaskFromFootprint blank_3x1 (addSpan Footprint_default 0 (-5) 1) 1 = Ok (m, 1) /\
    map (fun c => img_pix m c 0) [0; 1; 2] = [1; 1; 0].
Proof. eexists. split; reflexivity. Qed.

(** C7 (the code departs from the claim): the span (y=0, x0=-5, x1=-3) lies
    on a row of the 3x1 raster at the origin but wholly to its left.  No
    pixel of the raster is under it, yet both of its ends are clamped to
    column 0 and the bit is set in the pixel (0, 0). *)
Theorem setMaskFromFootprint_marks_uncovered_pixel :
  let foot := addSpan Footprint_default 0 (-5) (-3) in
  ~ covers (_spans foot) 0 0 /\
  pixel_at blank_3x1 0 0 = 0 /\
  exists m, setMaskFromFootprint blank_3x1 foot 1 = Ok (m, 1) /\ pixel_at m 0 0 = 1.
Proof.
  cbn zeta. split; [|split; [reflexivity|eexists; split; reflexivity]].
  intros (s & Hin & Hc). cbn in Hin. destruct Hin as [<-|[]]. discriminate Hc.
Qed.

(** The same on the right: a span wholly past the last column sets the bit
    in the last column. *)
Example setMaskFromFootprint_marks_last_column :
  exists m,
    setMaskFromFootprint blank_3x1 (addSpan Footprint_default 0 7 9) 1 = Ok (m, 1) /\
    map (fun c => img_pix m c 0) [0; 1; 2] = [0; 0; 1].
Proof. eexists. split; reflexivity. Qed.

(* ------------------------------------------------------------------ *)
(** ** Claims on insertIntoImage *)

(** The overload of six arguments checks the id against the pixel type
    first, then the size of the image, then the protected bits, all before
    the first pixel is written. *)
Lemma insertIntoImage6_errors (T : PixelType) (f : Footprint) (idImage : Raster)
    (id : Z) (overwriteId : bool) (mask : Z) (oldIds : option (list Z)) (region : Box2I) :
  (pix_max T < id ->
   insertIntoImage6 T f idImage id overwriteId mask oldIds region = Throw OutOfRangeError) /\
  (id <= pix_max T -> Z.land id mask <> 0 ->
   insertIntoImage6 T f idImage id overwriteId mask oldIds region
   = Throw InvalidParameterError).
Proof.
  unfold insertIntoImage6, doInsertIntoImage. split.
  - intros H. destruct (Z.ltb_spec (pix_max T) id); [reflexivity|lia].
  - intros H Hm. destruct (Z.ltb_spec (pix_max T) id); [lia|].
    destruct (negb _ || negb _); [reflexivity|].
    destruct (Z.eqb_spec (Z.land id mask) 0); [contradiction|reflexivity].
Qed.

(** C8 (the code departs from the claim): the overload of three arguments
    has no range check.  With 16-bit pixels the id 70000 does not fit, yet
    the call returns and the pixel under the footprint holds 70000 cut down
    to 16 bits. *)
Theorem insertIntoImage3_accepts_oversized_id :
  pix_max uint16_t < 70000 /\
  exists im,
    insertIntoImage3 uint16_t one_pixel_footprint one_pixel_image 70000 emptyBox = Ok im /\
    img_pix im 0 0 = 4464.
Proof. split; [reflexivity|]. eexists. split; reflexivity. Qed.

Example insertIntoImage6_rejects_oversized_id :
  insertIntoImage6 uint16_t one_pixel_footprint one_pixel_image 70000 false 0 None emptyBox
  = Throw OutOfRangeError.
Proof. reflexivity. Qed.

(* ------------------------------------------------------------------ *)
(** ** The rectangle footprint *)

Lemma box_include_inside (b : Box2I) (x y : Z) :
  0 < getWidthB b -> 0 < getHeightB b -> box_contains b x y = true ->
  box_include b x y = b.
Proof.
  intros Hw Hh Hc. apply box_contains_iff in Hc. unfold box_include, isEmpty.
  destruct (Z.eqb_spec (getWidthB b) 0); [lia|]. cbn [andb].
  unfold getMaxX, getMaxY in *. destruct b as [mx my w h].
  cbn [getMinX getMinY getWidthB getHeightB] in *.
  zbool; try lia; f_equal; lia.
Qed.

Lemma addRows_spec (x0 x1 : Z) (n : nat) :
  x0 <= x1 ->
  forall (f : Footprint) (y : Z),
    0 < getWidthB (_bbox f) -> 0 < getHeightB (_bbox f) ->
    (forall y', y <= y' < y + Z.of_nat n ->
       box_contains (_bbox f) x0 y' = true /\ box_contains (_bbox f) x1 y' = true) ->
    addRows f y x0 x1 n
    = mkFootprint (_spans f ++ rect_rows x0 x1 y n)
                  (_area f + Z.of_nat n * (x1 - x0 + 1))
                  (_bbox f) (_peaks f) (_region f)
                  (match n with O => _normalized f | S _ => false end).
Proof.
  intros Hx. induction n as [|n IH]; intros f y Hw Hh Hin.
  - simpl. rewrite app_nil_r, Z.add_0_r. now destruct f.
  - cbn [addRows].
    assert (Hb : _bbox (addSpan f y x0 x1) = _bbox f).
    { unfold addSpan. destruct (Z.ltb_spec x1 x0); [lia|]. simpl.
      destruct (Hin y ltac:(lia)) as [H0 H1].
      now rewrite (box_include_inside _ _ _ Hw Hh H0), (box_include_inside _ _ _ Hw Hh H1). }
    rewrite IH; rewrite ?Hb; auto.
    + unfold addSpan. destruct (Z.ltb_spec x1 x0); [lia|]. simpl.
      rewrite <- app_assoc. simpl. unfold getWidth. simpl.
      f_equal; [lia|]. now destruct n.
    + intros y' Hy'. apply Hin. lia.
Qed.

Lemma Footprint_rect_spec (x0 y0 W H : Z) (region : Box2I) :
  0 < W -> 0 < H ->
  Footprint_rect (mkBox x0 y0 W H) region
  = mkFootprint (rect_rows x0 (x0 + W - 1) y0 (Z.to_nat H)) (W * H)
                (mkBox x0 y0 W H) (mkCatalog minimalSchema []) region true.
Proof.
  intros HW HH. unfold Footprint_rect, getMaxX, getMaxY. simpl.
  replace (y0 + H - 1 - y0 + 1) with H by lia.
  rewrite addRows_spec; simpl; try lia.
  - unfold set_normalized. simpl. f_equal. nia.
  - intros y' Hy'. unfold box_contains, getMaxX, getMaxY. simpl.
    split; zbool; try lia; reflexivity.
Qed.

Lemma rect_rows_length (x0 x1 y : Z) (n : nat) : length (rect_rows x0 x1 y n) = n.
Proof. revert y. induction n; intros; simpl; auto. Qed.

Lemma rect_rows_last (x0 x1 y : Z) (n : nat) :
  rev (rect_rows x0 x1 y (S n))
  = mkSpan (y + Z.of_nat n) x0 x1 :: rev (rect_rows x0 x1 y n).
Proof.
  revert y. induction n as [|n IH]; intros y.
  - simpl. now rewrite Z.add_0_r.
  - change (rect_rows x0 x1 y (S (S n)))
      with (mkSpan y x0 x1 :: rect_rows x0 x1 (y + 1) (S n)).
    cbn [rev]. rewrite IH. simpl.
    replace (y + 1 + Z.of_nat n) with (y + Z.of_nat (S n)) by lia. reflexivity.
Qed.

(** ** Row bitmaps *)

Lemma fill_from_all (row : list bool) (i a b : Z) :
  a <= i -> i + Z.of_nat (length row) <= b ->
  fill_from row i a b = repeat true (length row).
Proof.
  revert i. induction row as [|v row IH]; intros i Ha Hb; [reflexivity|].
  cbn [fill_from length repeat]. cbn [length] in Hb.
  destruct (Z.leb_spec a i); [|lia]. destruct (Z.ltb_spec i b); [|lia].
  cbn [andb]. f_equal. apply IH; lia.
Qed.

Lemma fill_whole (W : nat) :
  fill (repeat false W) 0 (Z.of_nat W) = Ok (repeat true W).
Proof.
  unfold fill. rewrite repeat_length.
  change (0 <=? 0) with true.
  destruct (Z.leb_spec 0 (Z.of_nat W)); [|lia].
  rewrite Z.leb_refl. cbn [andb].
  rewrite fill_from_all; rewrite ?repeat_length; try lia. reflexivity.
Qed.

Lemma map_false_repeat (W : nat) (b : bool) :
  map (fun _ : bool => false) (repeat b W) = repeat false W.
Proof. induction W; simpl; congruence. Qed.

Lemma row_get_true (W : nat) (i : Z) :
  0 <= i < Z.of_nat W -> row_get (repeat true W) i = Ok true.
Proof.
  intros Hi. unfold row_get. destruct (Z.ltb_spec i 0); [lia|].
  destruct (nth_error (repeat true W) (Z.to_nat i)) as [b|] eqn:E.
  - apply nth_error_In, repeat_spec in E. now subst.
  - apply nth_error_None in E. rewrite repeat_length in E. lia.
Qed.

Lemma load_row_rect (x0 x1 y : Z) (n : nat) :
  x0 <= x1 ->
  load_row (rect_rows x0 x1 y (S n)) (repeat false (Z.to_nat (x1 - x0 + 1))) y x0
  = Ok (rect_rows x0 x1 (y + 1) n, repeat true (Z.to_nat (x1 - x0 + 1))).
Proof.
  intros Hx. cbn [rect_rows load_row getY getX0 getX1].
  rewrite Z.eqb_refl.
  replace (x0 - x0) with 0 by lia.
  replace (x1 + 1 - x0) with (Z.of_nat (Z.to_nat (x1 - x0 + 1))) by lia.
  rewrite fill_whole. cbn [bind].
  destruct n as [|n]; [reflexivity|].
  cbn [rect_rows load_row getY]. destruct (Z.eqb_spec (y + 1) y); [lia|reflexivity].
Qed.

Lemma skip_rows_rect (x0 x1 y : Z) (n : nat) :
  skip_rows (rect_rows x0 x1 (y + 1) n) y = rect_rows x0 x1 (y + 1) n.
Proof.
  destruct n as [|n]; [reflexivity|].
  cbn [rect_rows skip_rows getY]. destruct (Z.leb_spec (y + 1) y); [lia|reflexivity].
Qed.

(** ** Appending in series *)

Lemma push_spans (e : Footprint) (s : Span) :
  span_wf s -> _spans (push e s) = _spans e ++ [s].
Proof.
  intros Hwf. unfold push, addSpan, span_wf in *.
  destruct (Z.ltb_spec (getX1 s) (getX0 s)); [lia|]. now destruct s.
Qed.

Lemma push_area (e : Footprint) (s : Span) :
  span_wf s -> _area (push e s) = _area e + getWidth s.
Proof.
  intros Hwf. unfold push, addSpan, span_wf in *.
  destruct (Z.ltb_spec (getX1 s) (getX0 s)); [lia|]. now destruct s.
Qed.

Lemma push_normalized (e : Footprint) (s : Span) : _normalized (push e s) = true.
Proof. reflexivity. Qed.

Lemma rev_eq_cons (A : Type) (l t : list A) (h : A) :
  rev l = h :: t -> l = rev t ++ [h].
Proof. intros H. rewrite <- (rev_involutive l), H. reflexivity. Qed.

(** A well-formed span that comes with a gap after the last span of the
    footprint is appended. *)
Lemma addSpanInSeries_after (e : Footprint) (s : Span) :
  span_wf s ->
  (forall before last, _spans e = before ++ [last] -> gap last s) ->
  addSpanInSeries e (getY s) (getX0 s) (getX1 s) = Ok (push e s).
Proof.
  intros Hwf Hgap. unfold addSpanInSeries. unfold span_wf in Hwf.
  destruct (Z.ltb_spec (getX1 s) (getX0 s)); [lia|].
  destruct (rev (_spans e)) as [|last before] eqn:E; [reflexivity|].
  apply rev_eq_cons in E. specialize (Hgap _ _ E). unfold gap in Hgap.
  destruct (Z.eqb_spec (getY s) (getY last));
    destruct (Z.eqb_spec (getX0 s) (getX1 last + 1));
    destruct (Z.ltb_spec (getY last) (getY s));
    destruct (Z.ltb_spec (getX1 last + 1) (getX0 s)); cbn; try lia; reflexivity.
Qed.

Lemma fold_push_spans (l : list Span) (e : Footprint) :
  Forall span_wf l -> _spans (fold_left push l e) = _spans e ++ l.
Proof.
  revert e. induction l as [|s l IH]; intros e Hwf; simpl.
  - now rewrite app_nil_r.
  - inversion Hwf; subst. rewrite IH, push_spans, <- app_assoc; auto.
Qed.

Lemma fold_push_area (l : list Span) (e : Footprint) :
  Forall span_wf l -> _area (fold_left push l e) = _area e + sum_widths l.
Proof.
  revert e. induction l as [|s l IH]; intros e Hwf; simpl.
  - lia.
  - inversion Hwf; subst. rewrite IH, push_area; auto. lia.
Qed.

Lemma fold_push_normalized (l : list Span) (e : Footprint) :
  _normalized e = true -> _normalized (fold_left push l e) = true.
Proof.
  revert e. induction l as [|s l IH]; intros e He; simpl; auto.
Qed.

Lemma rows_before_gap (e : Footprint) (s : Span) :
  rows_before e (getY s) ->
  forall before last, _spans e = before ++ [last] -> gap last s.
Proof.
  intros H before last E. unfold rows_before in H. rewrite E in H.
  apply Forall_snoc in H as [_ H]. left. exact H.
Qed.

Lemma rows_before_push (e : Footprint) (s : Span) (y : Z) :
  span_wf s -> rows_before e y -> getY s < y -> rows_before (push e s) y.
Proof.
  intros Hwf H Hs. unfold rows_before. rewrite push_spans by assumption.
  apply Forall_snoc. auto.
Qed.

Lemma rows_before_weaken (e : Footprint) (y y' : Z) :
  y <= y' -> rows_before e y -> rows_before e y'.
Proof. intros Hy. apply Forall_weaken. intros; lia. Qed.

(** ** findEdgePixels on a rectangle *)

Section EdgeOfRectangle.

Variables (x0 x1 yStart yEnd : Z).
Hypothesis Hx : x0 <= x1.

Let W : nat := Z.to_nat (x1 - x0 + 1).
Let allT : list bool := repeat true W.

Lemma edge_run_interior (y : Z) (n : nat) :
  forall (x xr : Z) (e : Footprint),
    x0 <= x -> x + Z.of_nat n <= x1 + 1 ->
    foldM (edge_step y x0 allT allT) (columns x n) (mkEdgeRun false xr e)
    = Ok (mkEdgeRun false xr e).
Proof.
  induction n as [|n IH]; intros x xr e Hlo Hhi; [reflexivity|].
  cbn [columns foldM]. unfold edge_step at 1. unfold allT.
  rewrite row_get_true by (unfold W; lia). cbn [bind er_onEdge negb orb].
  apply IH; lia.
Qed.

Lemma middle_spans_wf (y : Z) : Forall span_wf (middle_spans x0 x1 y).
Proof.
  unfold middle_spans. destruct (x1 - x0 <=? 1);
    repeat constructor; unfold span_wf; simpl; lia.
Qed.

Lemma middle_spans_rows (y : Z) : Forall (fun s => getY s = y) (middle_spans x0 x1 y).
Proof.
  unfold middle_spans. destruct (x1 - x0 <=? 1); repeat constructor.
Qed.

Lemma edge_run_middle (y : Z) (e : Footprint) :
  rows_before e y ->
  (run <- foldM (edge_step y x0 allT allT)
                (columns (x0 + 1) (Z.to_nat (x1 - x0 - 1)))
                (mkEdgeRun true x0 e) ;;
   if er_onEdge run then addSpanInSeries (er_edges run) y (er_x0 run) x1
   else addSpanInSeries (er_edges run) y x1 x1)
  = Ok (fold_left push (middle_spans x0 x1 y) e).
Proof.
  intros Hrows. unfold middle_spans.
  destruct (Z.leb_spec (x1 - x0) 1) as [Hnarrow|Hwide].
  - replace (Z.to_nat (x1 - x0 - 1)) with 0%nat by lia. cbn.
    apply (@addSpanInSeries_after e (mkSpan y x0 x1)); [exact Hx|].
    now apply rows_before_gap.
  - replace (Z.to_nat (x1 - x0 - 1)) with (S (Z.to_nat (x1 - x0 - 2))) by lia.
    cbn [columns foldM]. unfold edge_step at 1. unfold allT.
    rewrite row_get_true by (unfold W; lia).
    cbn [bind er_onEdge er_edges er_x0 andb].
    replace (x0 + 1 - 1) with x0 by lia.
    assert (Hadd : addSpanInSeries e y x0 x0 = Ok (push e (mkSpan y x0 x0))).
    { apply (@addSpanInSeries_after e (mkSpan y x0 x0));
        [unfold span_wf; simpl; lia|now apply rows_before_gap]. }
    rewrite Hadd. cbn [bind]. fold allT.
    rewrite edge_run_interior by lia. cbn [bind er_onEdge er_edges].
    apply (@addSpanInSeries_after (push e (mkSpan y x0 x0)) (mkSpan y x1 x1)).
    + unfold span_wf; simpl; lia.
    + intros before last E. rewrite push_spans in E by (unfold span_wf; simpl; lia).
      apply app_inj_tail in E as [_ <-]. right. simpl. lia.
Qed.

Lemma edge_rows_middle (y : Z) (n : nat) :
  y <> yStart -> y <> yEnd ->
  edge_rows x0 x1 yStart yEnd y (S n)
  = middle_spans x0 x1 y ++ edge_rows x0 x1 yStart yEnd (y + 1) n.
Proof.
  intros H1 H2. cbn [edge_rows]. unfold middle_spans.
  destruct (Z.eqb_spec y yStart); [contradiction|].
  destruct (Z.eqb_spec y yEnd); [contradiction|]. reflexivity.
Qed.

Lemma edge_rows_border (y : Z) (n : nat) :
  y = yStart \/ y = yEnd ->
  edge_rows x0 x1 yStart yEnd y (S n)
  = mkSpan y x0 x1 :: edge_rows x0 x1 yStart yEnd (y + 1) n.
Proof.
  intros H. cbn [edge_rows].
  destruct (Z.eqb_spec y yStart); destruct (Z.eqb_spec y yEnd); try reflexivity; lia.
Qed.

(** The loop over the spans, from a row after the first one on: the three
    bitmaps stay full, and every row adds its perimeter spans. *)
Lemma edge_scan_rows (n : nat) :
  forall (y : Z) (st : EdgeScan),
    yStart < y -> y + Z.of_nat n = yEnd + 1 ->
    es_rowNow st = allT -> es_rowAfter st = allT ->
    es_readAhead st = rect_rows x0 x1 (y + 1) (pred n) ->
    es_yLast st = y - 1 ->
    rows_before (es_edges st) y ->
    exists st',
      foldM (edge_span x0 yStart yEnd) (rect_rows x0 x1 y n) st = Ok st' /\
      es_edges st' = fold_left push (edge_rows x0 x1 yStart yEnd y n) (es_edges st).
Proof.
  induction n as [|n IH]; intros y st Hy Hn Hnow Hafter Hread Hlast Hrows.
  - exists st. split; reflexivity.
  - cbn [rect_rows foldM]. unfold edge_span at 1. cbn [getY getX0 getX1].
    destruct (Z.eqb_spec y yStart) as [E|_]; [lia|]. cbn [orb].
    destruct (Z.eqb_spec y yEnd) as [E|Hmid].
    + (* the last row *)
      assert (n = 0%nat) by lia. subst n.
      assert (Hadd : addSpanInSeries (es_edges st) y x0 x1
                     = Ok (push (es_edges st) (mkSpan y x0 x1))).
      { apply (@addSpanInSeries_after (es_edges st) (mkSpan y x0 x1)); [exact Hx|].
        now apply rows_before_gap. }
      rewrite Hadd. cbn [bind rect_rows foldM]. eexists. split; [reflexivity|].
      rewrite edge_rows_border by auto. reflexivity.
    + (* a row strictly inside *)
      destruct n as [|n]; [lia|].
      rewrite Hlast. destruct (Z.eqb_spec y (y - 1)); [lia|]. cbn [negb].
      rewrite Hread, Hnow, Hafter. cbn [pred].
      rewrite skip_rows_rect.
      replace (map (fun _ : bool => false) allT)
        with (repeat false (Z.to_nat (x1 - x0 + 1)))
        by (unfold allT, W; now rewrite map_false_repeat).
      rewrite load_row_rect by exact Hx. cbn [bind fst snd].
      change (repeat true (Z.to_nat (x1 - x0 + 1))) with allT.
      cbn [es_rowBefore es_rowAfter es_rowNow es_readAhead es_yLast es_edges].
      pose proof (edge_run_middle Hrows) as Hrun.
      destruct (foldM (edge_step y x0 allT allT)
                  (columns (x0 + 1) (Z.to_nat (x1 - x0 - 1)))
                  (mkEdgeRun true x0 (es_edges st))) as [run| |];
        cbn [bind] in Hrun |- *; try discriminate.
      rewrite Hrun. cbn [bind].
      set (st2 := mkEdgeScan allT allT allT (rect_rows x0 x1 (y + 1 + 1) n) y
                             (fold_left push (middle_spans x0 x1 y) (es_edges st))).
      assert (Hrows2 : rows_before (es_edges st2) (y + 1)).
      { unfold rows_before, st2. cbn [es_edges].
        rewrite fold_push_spans by apply middle_spans_wf.
        apply Forall_app. split.
        - revert Hrows. apply Forall_weaken. intros; lia.
        - pose proof (middle_spans_rows y) as Hr. revert Hr.
          apply Forall_weaken. intros; lia. }
      destruct (IH (y + 1) st2 ltac:(lia) ltac:(lia) eq_refl eq_refl eq_refl
                  ltac:(unfold st2; cbn [es_yLast]; lia) Hrows2)
        as (st' & Hfold & Hedges).
      rewrite Hfold. exists st'. split; [reflexivity|]. rewrite Hedges.
      unfold st2. cbn [es_edges].
      rewrite (@edge_rows_middle y (S n)) by lia. now rewrite fold_left_app.
Qed.

End EdgeOfRectangle.

(** The footprint of edges of a solid rectangle, as the code builds it. *)
Lemma findEdgePixels_rect (x0 y0 W H : Z) (region : Box2I) :
  0 < W -> 2 < H ->
  exists e,
    findEdgePixels (Footprint_rect (mkBox x0 y0 W H) region) = Ok e /\
    _spans e = edge_rows x0 (x0 + W - 1) y0 (y0 + H - 1) y0 (Z.to_nat H) /\
    _area e = sum_widths (edge_rows x0 (x0 + W - 1) y0 (y0 + H - 1) y0 (Z.to_nat H)).
Proof.
  intros HW HH. rewrite Footprint_rect_spec by lia.
  set (x1 := x0 + W - 1). set (yEnd := y0 + H - 1).
  assert (Hx : x0 <= x1) by (unfold x1; lia).
  unfold findEdgePixels.
  cbn [_normalized negb _bbox _spans _peaks getWidthB getHeightB getMinX getMinY getSchema].
  rewrite rect_rows_length.
  destruct (Z.leb_spec H 2); [lia|]. destruct (Z.leb_spec (Z.of_nat (Z.to_nat H)) 2); [lia|].
  cbn [orb]. unfold Footprint_newSchema. change (0 <? 0) with false. cbn [bind].
  destruct (Z.to_nat H) as [|[|[|n]]] eqn:EH; try lia.
  rewrite rect_rows_last. cbn iota.
  replace (y0 + Z.of_nat (S (S n))) with yEnd by (unfold yEnd; lia).
  replace (Z.to_nat W) with (Z.to_nat (x1 - x0 + 1)) by (unfold x1; lia).
  rewrite load_row_rect by exact Hx. cbn [bind fst snd].
  rewrite load_row_rect by exact Hx. cbn [bind fst snd].
  set (e0 := mkFootprint [] 0 emptyBox (mkCatalog minimalSchema []) emptyBox true).
  (* the first row *)
  change (rect_rows x0 x1 y0 (S (S (S n))))
    with (mkSpan y0 x0 x1 :: rect_rows x0 x1 (y0 + 1) (S (S n))).
  cbn [foldM]. unfold edge_span at 1. cbn [getY getX0 getX1].
  rewrite Z.eqb_refl. cbn [orb es_edges].
  assert (Hwf0 : span_wf (mkSpan y0 x0 x1)) by exact Hx.
  assert (Hadd : addSpanInSeries e0 y0 x0 x1 = Ok (push e0 (mkSpan y0 x0 x1))).
  { apply (@addSpanInSeries_after e0 (mkSpan y0 x0 x1) Hwf0).
    intros [|? ?] last E; discriminate E. }
  rewrite Hadd.
  cbn [bind es_rowBefore es_rowNow es_rowAfter es_readAhead es_yLast].
  (* the rows after it *)
  set (st1 := mkEdgeScan _ _ _ _ _ _).
  destruct (@edge_scan_rows x0 x1 y0 yEnd Hx (S (S n)) (y0 + 1) st1)
    as (st' & Hfold & Hedges); try reflexivity; try (unfold yEnd; lia).
  { unfold st1. cbn [es_yLast]. lia. }
  { unfold st1, rows_before. cbn [es_edges]. rewrite push_spans by exact Hwf0.
    repeat constructor. simpl. lia. }
  rewrite Hfold. cbn [bind].
  assert (Hall : es_edges st'
                 = fold_left push (edge_rows x0 x1 y0 yEnd y0 (S (S (S n)))) e0).
  { rewrite Hedges. unfold st1. cbn [es_edges].
    rewrite (@edge_rows_border x0 x1 y0 yEnd Hx y0 (S (S n))) by auto. reflexivity. }
  assert (Hwfall : Forall span_wf (edge_rows x0 x1 y0 yEnd y0 (S (S (S n))))).
  { clear -Hx. generalize (S (S (S n))) as m. generalize y0 at 2 as y.
    intros y m. revert y. induction m as [|m IH]; intros y; [constructor|].
    cbn [edge_rows]. apply Forall_app. split; [|apply IH].
    destruct (_ || _); [|destruct (_ <=? _)];
      repeat constructor; unfold span_wf; simpl; lia. }
  exists (es_edges st'). split; [|split].
  - f_equal. unfold normalize. rewrite Hall, fold_push_normalized; reflexivity.
  - rewrite Hall, fold_push_spans by exact Hwfall. reflexivity.
  - rewrite Hall, fold_push_area by exact Hwfall. simpl. lia.
Qed.

Lemma edge_rows_covers (x0 x1 yS yE : Z) (n : nat) :
  x0 <= x1 ->
  forall y px py,
    covers (edge_rows x0 x1 yS yE y n) px py <->
    y <= py < y + Z.of_nat n /\ x0 <= px <= x1 /\
    (py = yS \/ py = yE \/ px = x0 \/ px = x1).
Proof.
  intros Hx. induction n as [|n IH]; intros y px py.
  - simpl. split; [intros H; now apply covers_nil in H|lia].
  - cbn [edge_rows]. rewrite covers_app, IH.
    destruct (Z.eqb_spec y yS); [|destruct (Z.eqb_spec y yE);
      [|destruct (Z.leb_spec (x1 - x0) 1)]]; cbn [orb];
      rewrite ?covers_cons, ?span_contains_iff; cbn [getY getX0 getX1];
      assert (Hnil : covers [] px py <-> False)
        by (split; [apply covers_nil|tauto]);
      rewrite Hnil; lia.
Qed.

Lemma edge_rows_app (x0 x1 yS yE : Z) (n m : nat) (y : Z) :
  edge_rows x0 x1 yS yE y (n + m)
  = edge_rows x0 x1 yS yE y n ++ edge_rows x0 x1 yS yE (y + Z.of_nat n) m.
Proof.
  revert y. induction n as [|n IH]; intros y.
  - simpl. now rewrite Z.add_0_r.
  - cbn [Nat.add edge_rows]. rewrite IH, <- app_assoc.
    replace (y + 1 + Z.of_nat n) with (y + Z.of_nat (S n)) by lia. reflexivity.
Qed.

Lemma edge_rows_middle_area (x0 x1 yS yE : Z) (n : nat) :
  forall y, yS < y -> y + Z.of_nat n <= yE ->
  sum_widths (edge_rows x0 x1 yS yE y n)
  = Z.of_nat n * (if x1 - x0 <=? 1 then x1 - x0 + 1 else 2).
Proof.
  induction n as [|n IH]; intros y Hlo Hhi; [reflexivity|].
  cbn [edge_rows]. rewrite sum_widths_app, IH by lia.
  destruct (Z.eqb_spec y yS); [lia|]. destruct (Z.eqb_spec y yE); [lia|].
  cbn [orb]. destruct (Z.leb_spec (x1 - x0) 1); simpl; unfold getWidth; simpl; lia.
Qed.

Lemma edge_rows_area (x0 x1 yS : Z) (n : nat) :
  sum_widths (edge_rows x0 x1 yS (yS + Z.of_nat n + 1) yS (S (n + 1)))
  = 2 * (x1 - x0 + 1) + Z.of_nat n * (if x1 - x0 <=? 1 then x1 - x0 + 1 else 2).
Proof.
  set (yE := yS + Z.of_nat n + 1).
  change (S (n + 1)) with (1 + (n + 1))%nat.
  rewrite !edge_rows_app, !sum_widths_app.
  rewrite (@edge_rows_middle_area x0 x1 yS yE n) by (unfold yE; lia).
  cbn [edge_rows]. rewrite Z.eqb_refl.
  replace (yS + Z.of_nat 1 + Z.of_nat n) with yE by (unfold yE; lia).
  rewrite Z.eqb_refl, orb_true_r. simpl. unfold getWidth. simpl. lia.
Qed.

(* ------------------------------------------------------------------ *)
(** ** Claims on findEdgePixels *)

(** C6, as stated, fails for a rectangle one pixel wide: every pixel of
    the column is on the perimeter, so the edge footprint of the 1x3
    rectangle has area 3, not 2*1 + 2*(3-2) = 4. *)
Lemma findEdgePixels_single_column :
  exists e,
    findEdgePixels (Footprint_rect (mkBox 0 0 1 3) emptyBox) = Ok e /\
    _spans e = [mkSpan 0 0 0; mkSpan 1 0 0; mkSpan 2 0 0] /\
    _area e <> 2 * 1 + 2 * (3 - 2).
Proof. eexists. split; [reflexivity|]. split; [reflexivity|]. discriminate. Qed.

(** C6 (amended): for every solid rectangular Footprint of width W >= 1
    and height H > 2, findEdgePixels() returns a footprint that covers
    exactly the perimeter pixels of the rectangle; its area is
    2W + 2(H-2) when W >= 2, and H when W = 1. *)
Theorem findEdgePixels_rectangle (x0 y0 W H : Z) (region : Box2I) :
  1 <= W -> 2 < H ->
  exists e,
    findEdgePixels (Footprint_rect (mkBox x0 y0 W H) region) = Ok e /\
    (forall x y, covers (_spans e) x y <-> on_perimeter (mkBox x0 y0 W H) x y) /\
    _area e = if W =? 1 then H else 2 * W + 2 * (H - 2).
Proof.
  intros HW HH.
  destruct (@findEdgePixels_rect x0 y0 W H region) as (e & He & Hs & Ha); try lia.
  exists e. split; [exact He|]. split.
  - intros x y. rewrite Hs, edge_rows_covers by lia.
    unfold on_perimeter. rewrite box_contains_iff. unfold getMaxX, getMaxY.
    cbn [getMinX getMinY getWidthB getHeightB]. lia.
  - rewrite Ha.
    replace (Z.to_nat H) with (S (Z.to_nat (H - 2) + 1)) by lia.
    replace (y0 + H - 1) with (y0 + Z.of_nat (Z.to_nat (H - 2)) + 1) by lia.
    rewrite edge_rows_area.
    replace (x0 + W - 1 - x0) with (W - 1) by lia.
    destruct (Z.eqb_spec W 1) as [->|HW1]; [simpl; lia|].
    destruct (Z.leb_spec (W - 1) 1); [|lia].
    assert (W = 2) as -> by lia. lia.
Qed.

Lemma findEdgePixels_rectangle_witness :
  exists e,
    findEdgePixels (Footprint_rect (mkBox 10 20 4 3) emptyBox) = Ok e /\
    (forall x y, covers (_spans e) x y <-> on_perimeter (mkBox 10 20 4 3) x y) /\
    _area e = 10.
Proof.
  apply (@findEdgePixels_rectangle 10 20 4 3 emptyBox); lia.
Defined.

(* ------------------------------------------------------------------ *)
(** ** The merge of two footprints *)

Lemma gap_head_all (m : Span) (l : list Span) :
  StronglySorted gap l -> Forall span_wf l ->
  match l with [] => True | h :: _ => gap m h end ->
  Forall (gap m) l.
Proof.
  intros Hs Hwf Hh. destruct l as [|h t]; [constructor|].
  inversion Hs as [|? ? _ Hall]; subst. inversion Hwf as [|? ? Hwh _]; subst.
  constructor; [assumption|].
  revert Hall. apply Forall_weaken. intros r Hr. eapply gap_trans; eauto.
Qed.

Lemma StronglySorted_app_r (A : Type) (R : A -> A -> Prop) (l1 l2 : list A) :
  StronglySorted R (l1 ++ l2) -> StronglySorted R l2.
Proof.
  induction l1 as [|h t IH]; simpl; [auto|].
  intros H. inversion H; subst. auto.
Qed.

Lemma continues_false_gap (y x0 x1 : Z) (l : list Span) :
  Forall (later y x0) l -> continues y x1 l = false ->
  match l with [] => True | h :: _ => gap (mkSpan y x0 x1) h end.
Proof.
  destruct l as [|h t]; [auto|]. intros Hl Hc. inversion Hl as [|? ? Hh _]; subst.
  unfold continues in Hc. unfold later in Hh. unfold gap. simpl.
  destruct (Z.eqb_spec (getY h) y); destruct (Z.leb_spec (getX0 h) (x1 + 1));
    cbn in Hc; try discriminate; lia.
Qed.

Lemma absorb_spec (fuel : nat) :
  forall (y x0 x1 : Z) (a b : list Span),
    (length a + length b < fuel)%nat ->
    Forall span_wf a -> Forall span_wf b ->
    Forall (later y x0) a -> Forall (later y x0) b ->
    x0 <= x1 ->
    exists x1' aAbs aRest bAbs bRest,
      absorb fuel y x1 a b = Some (x1', aRest, bRest) /\
      a = aAbs ++ aRest /\ b = bAbs ++ bRest /\
      x1 <= x1' /\
      (forall px py,
         span_contains (mkSpan y x0 x1') px py = true <->
         span_contains (mkSpan y x0 x1) px py = true \/
         covers aAbs px py \/ covers bAbs px py) /\
      continues y x1' aRest = false /\ continues y x1' bRest = false.
Proof.
  induction fuel as [|fuel IH]; intros y x0 x1 a b Hfuel Hwa Hwb Hla Hlb Hx; [lia|].
  cbn [absorb].
  destruct (continues y x1 a) eqn:Ea.
  - destruct a as [|s a']; [discriminate|].
    inversion Hwa as [|? ? Hws Hwa']; subst. inversion Hla as [|? ? Hls Hla']; subst.
    cbn [continues] in Ea. apply andb_true_iff in Ea as [Ey E0].
    apply Z.eqb_eq in Ey. apply Z.leb_le in E0.
    destruct (IH y x0 (Z.max x1 (getX1 s)) a' b) as
      (x1' & aAbs & aRest & bAbs & bRest & E & Eqa & Eqb & Hle & Hcov & Hca & Hcb);
      auto; [cbn [length] in Hfuel; lia|lia|].
    exists x1', (s :: aAbs), aRest, bAbs, bRest.
    repeat split; auto; try (cbn; congruence); try lia.
    + intros H. apply Hcov in H. rewrite covers_cons.
      rewrite !span_contains_iff in *. cbn [getY getX0 getX1] in *.
      unfold span_wf, later in *. intuition lia.
    + intros H. apply Hcov. rewrite covers_cons in H.
      rewrite !span_contains_iff in *. cbn [getY getX0 getX1] in *.
      unfold span_wf, later in *. intuition lia.
  - destruct (continues y x1 b) eqn:Eb.
    + destruct b as [|s b']; [discriminate|].
      inversion Hwb as [|? ? Hws Hwb']; subst. inversion Hlb as [|? ? Hls Hlb']; subst.
      cbn [continues] in Eb. apply andb_true_iff in Eb as [Ey E0].
      apply Z.eqb_eq in Ey. apply Z.leb_le in E0.
      destruct (IH y x0 (Z.max x1 (getX1 s)) a b') as
        (x1' & aAbs & aRest & bAbs & bRest & E & Eqa & Eqb & Hle & Hcov & Hca & Hcb);
        auto; [cbn [length] in Hfuel; lia|lia|].
      exists x1', aAbs, aRest, (s :: bAbs), bRest.
      repeat split; auto; try (cbn; congruence); try lia.
      * intros H. apply Hcov in H. rewrite covers_cons.
        rewrite !span_contains_iff in *. cbn [getY getX0 getX1] in *.
        unfold span_wf, later in *. intuition lia.
      * intros H. apply Hcov. rewrite covers_cons in H.
        rewrite !span_contains_iff in *. cbn [getY getX0 getX1] in *.
        unfold span_wf, later in *. intuition lia.
    + exists x1, [], a, [], b. repeat split; auto; try lia.
      intros [H|[H|H]]; auto; now apply covers_nil in H.
Qed.

Lemma precedes_push (foot : Footprint) (s : Span) (l : list Span) :
  span_wf s -> Forall (gap s) l -> precedes (push foot s) l.
Proof.
  intros Hwf Hl before last E. rewrite push_spans in E by assumption.
  apply app_inj_tail in E as [_ <-]. assumption.
Qed.

Lemma precedes_head (foot : Footprint) (s : Span) (l : list Span) :
  precedes foot (s :: l) ->
  forall before last, _spans foot = before ++ [last] -> gap last s.
Proof. intros H before last E. specialize (H _ _ E). now inversion H. Qed.

Lemma addAllInSeries_spec (l : list Span) :
  forall foot,
    StronglySorted gap l -> Forall span_wf l -> precedes foot l ->
    addAllInSeries foot l = Ok (fold_left push l foot).
Proof.
  unfold addAllInSeries.
  induction l as [|s l IH]; intros foot Hs Hwf Hp; [reflexivity|].
  inversion Hs as [|? ? Hs' Hall]; subst. inversion Hwf as [|? ? Hws Hwl]; subst.
  cbn [foldM fold_left].
  rewrite (@addSpanInSeries_after foot s Hws (precedes_head Hp)). cbn [bind].
  apply IH; auto. now apply precedes_push.
Qed.

Lemma merge_loop_spec (fuel : nat) :
  forall (a b : list Span) (foot : Footprint),
    (length a + length b < fuel)%nat ->
    StronglySorted gap a -> StronglySorted gap b ->
    Forall span_wf a -> Forall span_wf b ->
    precedes foot a -> precedes foot b ->
    exists new,
      merge_loop fuel a b foot = Some (Ok (fold_left push new foot)) /\
      StronglySorted gap new /\ Forall span_wf new /\
      (forall px py, covers new px py <-> covers a px py \/ covers b px py) /\
      (forall m, Forall (gap m) a -> Forall (gap m) b -> Forall (gap m) new).
Proof.
  induction fuel as [|fuel IH]; intros a b foot Hfuel Hsa Hsb Hwa Hwb Hpa Hpb; [lia|].
  cbn [merge_loop].
  destruct a as [|sa a'].
  { (* A is exhausted *)
    exists b. cbn [addAllInSeries foldM bind].
    rewrite addAllInSeries_spec by assumption.
    split; [reflexivity|]. split; [assumption|]. split; [assumption|].
    split; [|auto]. intros px py. split; [intros H; now right|].
    intros [H|H]; [now apply covers_nil in H|assumption]. }
  destruct b as [|sb b'].
  { (* B is exhausted *)
    exists (sa :: a'). rewrite addAllInSeries_spec by assumption.
    cbn [addAllInSeries foldM bind].
    split; [reflexivity|]. split; [assumption|]. split; [assumption|].
    split; [|auto]. intros px py. split; [intros H; now left|].
    intros [H|H]; [assumption|now apply covers_nil in H]. }
  inversion Hsa as [|? ? Hsa' Hga]; subst. inversion Hsb as [|? ? Hsb' Hgb]; subst.
  inversion Hwa as [|? ? Hwsa Hwa']; subst. inversion Hwb as [|? ? Hwsb Hwb']; subst.
  cbn [length] in Hfuel.
  destruct ((getY sa <? getY sb) || (getY sa =? getY sb) && (getX1 sa <? getX0 sb - 1))
    eqn:Ea.
  { (* A is earlier *)
    assert (Hab : gap sa sb).
    { unfold gap. apply orb_true_iff in Ea as [E|E];
        [apply Z.ltb_lt in E; lia|].
      apply andb_true_iff in E as [E1 E2]. apply Z.eqb_eq in E1.
      apply Z.ltb_lt in E2. lia. }
    rewrite (@addSpanInSeries_after foot sa Hwsa (precedes_head Hpa)).
    destruct (IH a' (sb :: b') (push foot sa)) as (new & E & Hsn & Hwn & Hcn & Hmn);
      auto; try (cbn [length]; lia); try (apply precedes_push; auto).
    { apply gap_head_all; auto. }
    exists (sa :: new). cbn [fold_left]. split; [exact E|].
    split; [constructor; [assumption|apply Hmn; auto; apply gap_head_all; auto]|].
    split; [constructor; assumption|]. split.
    - intros px py. rewrite (covers_cons sa new), Hcn, !covers_cons. tauto.
    - intros m Hma Hmb. inversion Hma; subst. constructor; auto. }
  destruct ((getY sb <? getY sa) || (getY sa =? getY sb) && (getX1 sb <? getX0 sa - 1))
    eqn:Eb.
  { (* B is earlier *)
    assert (Hba : gap sb sa).
    { unfold gap. apply orb_true_iff in Eb as [E|E];
        [apply Z.ltb_lt in E; lia|].
      apply andb_true_iff in E as [E1 E2]. apply Z.eqb_eq in E1.
      apply Z.ltb_lt in E2. lia. }
    rewrite (@addSpanInSeries_after foot sb Hwsb (precedes_head Hpb)).
    destruct (IH (sa :: a') b' (push foot sb)) as (new & E & Hsn & Hwn & Hcn & Hmn);
      auto; try (cbn [length]; lia); try (apply precedes_push; auto).
    { apply gap_head_all; auto. }
    exists (sb :: new). cbn [fold_left]. split; [exact E|].
    split; [constructor; [assumption|apply Hmn; auto; apply gap_head_all; auto]|].
    split; [constructor; assumption|]. split.
    - intros px py. rewrite (covers_cons sb new), Hcn, !covers_cons. tauto.
    - intros m Hma Hmb. inversion Hmb; subst. constructor; auto. }
  (* the two spans overlap or touch *)
  apply orb_false_iff in Ea as [Ea1 Ea2]. apply orb_false_iff in Eb as [Eb1 Eb2].
  apply Z.ltb_ge in Ea1, Eb1.
  assert (Ey : getY sa = getY sb) by lia.
  rewrite (proj2 (Z.eqb_eq _ _) Ey) in Ea2, Eb2. cbn [andb] in Ea2, Eb2.
  apply Z.ltb_ge in Ea2, Eb2.
  set (y := getY sa). set (x0 := Z.min (getX0 sa) (getX0 sb)).
  unfold span_wf in Hwsa, Hwsb.
  assert (Hla : Forall (later y x0) a').
  { revert Hga. apply Forall_weaken. unfold gap, later, y, x0. intros; lia. }
  assert (Hlb : Forall (later y x0) b').
  { revert Hgb. apply Forall_weaken. unfold gap, later, y, x0. intros; lia. }
  destruct (@absorb_spec (S (length a' + length b')) y x0
              (Z.max (getX1 sa) (getX1 sb)) a' b')
    as (x1' & aAbs & aRest & bAbs & bRest & E & Eqa & Eqb & Hle & Hcov & Hca & Hcb);
    auto; try lia.
  fold y. rewrite E. subst a' b'.
  set (m := mkSpan y x0 x1').
  assert (Hwm : span_wf m) by (unfold m, span_wf, x0; simpl; lia).
  assert (Hadd : addSpanInSeries foot y x0 x1' = Ok (push foot m)).
  { apply (@addSpanInSeries_after foot m Hwm). intros before last El.
    pose proof (precedes_head Hpa _ _ El) as G1. pose proof (precedes_head Hpb _ _ El) as G2.
    unfold gap, m, x0, y in *. simpl. lia. }
  rewrite Hadd.
  assert (Hsra : StronglySorted gap aRest).
  { now apply StronglySorted_app_r in Hsa'. }
  assert (Hsrb : StronglySorted gap bRest).
  { now apply StronglySorted_app_r in Hsb'. }
  assert (Hwra : Forall span_wf aRest).
  { now apply Forall_app in Hwa'. }
  assert (Hwrb : Forall span_wf bRest).
  { now apply Forall_app in Hwb'. }
  assert (Hlra : Forall (later y x0) aRest).
  { now apply Forall_app in Hla. }
  assert (Hlrb : Forall (later y x0) bRest).
  { now apply Forall_app in Hlb. }
  assert (Hma : Forall (gap m) aRest).
  { apply gap_head_all; auto. now apply continues_false_gap. }
  assert (Hmb : Forall (gap m) bRest).
  { apply gap_head_all; auto. now apply continues_false_gap. }
  destruct (IH aRest bRest (push foot m)) as (new & En & Hsn & Hwn & Hcn & Hmn);
    auto; try (apply precedes_push; auto).
  { rewrite !length_app in Hfuel. lia. }
  exists (m :: new). cbn [fold_left]. split; [exact En|].
  split; [constructor; [assumption|apply Hmn; assumption]|].
  split; [constructor; assumption|]. split.
  - intros px py. rewrite (covers_cons m new), Hcn. unfold m. rewrite Hcov.
    rewrite !covers_cons, !covers_app.
    rewrite !span_contains_iff. cbn [getY getX0 getX1].
    unfold x0, y. intuition lia.
  - intros m' Hm'a Hm'b. inversion Hm'a as [|? ? G1 G1']; subst.
    inversion Hm'b as [|? ? G2 G2']; subst.
    constructor.
    + unfold gap, m, x0, y in *. simpl. lia.
    + apply Hmn.
      * now apply Forall_app in G1'.
      * now apply Forall_app in G2'.
Qed.

(** ** A normalized span list is determined by its pixels *)

Lemma gap_disjoint (s t : Span) (x y : Z) :
  gap s t -> span_contains s x y = true -> span_contains t x y = true -> False.
Proof. unfold gap. rewrite !span_contains_iff. lia. Qed.

Lemma covers_head_start (s : Span) (l : list Span) (t : Span) :
  StronglySorted gap (s :: l) -> Forall span_wf (s :: l) -> In t (s :: l) ->
  starts_le s t.
Proof.
  intros Hs Hwf [<-|Hin].
  - unfold starts_le. lia.
  - inversion Hs as [|? ? _ Hall]; subst. inversion Hwf as [|? ? Hws _]; subst.
    rewrite Forall_forall in Hall. specialize (Hall _ Hin).
    unfold gap, starts_le, span_wf in *. lia.
Qed.

Lemma gap_sorted_head_unique (s1 s2 : Span) (l1 l2 : list Span) :
  StronglySorted gap (s1 :: l1) -> StronglySorted gap (s2 :: l2) ->
  Forall span_wf (s1 :: l1) -> Forall span_wf (s2 :: l2) ->
  (forall x y, covers (s1 :: l1) x y -> covers (s2 :: l2) x y) ->
  (forall x y, covers (s2 :: l2) x y -> covers (s1 :: l1) x y) ->
  starts_le s2 s1 /\ (getY s1 = getY s2 -> getX0 s1 = getX0 s2 -> getX1 s1 <= getX1 s2).
Proof.
  intros Hs1 Hs2 Hw1 Hw2 H12 H21.
  inversion Hw1 as [|? ? Hws1 _]; subst. inversion Hw2 as [|? ? Hws2 _]; subst.
  split.
  - destruct (H12 (getX0 s1) (getY s1)) as (t & Hin & Hc).
    { exists s1. split; [now left|]. apply span_contains_iff. unfold span_wf in Hws1. lia. }
    pose proof (covers_head_start Hs2 Hw2 Hin) as Hst.
    apply span_contains_iff in Hc. unfold starts_le in *. lia.
  - intros Ey E0. destruct (Z_le_gt_dec (getX1 s1) (getX1 s2)) as [|Hgt]; [assumption|].
    exfalso.
    destruct (H12 (getX1 s2 + 1) (getY s1)) as (t & Hin & Hc).
    { exists s1. split; [now left|]. apply span_contains_iff. unfold span_wf in *. lia. }
    apply span_contains_iff in Hc.
    destruct Hin as [<-|Hin]; [lia|].
    inversion Hs2 as [|? ? _ Hall]; subst.
    rewrite Forall_forall in Hall. specialize (Hall _ Hin).
    unfold gap in Hall. lia.
Qed.

Lemma gap_sorted_unique (l1 : list Span) :
  forall l2,
    StronglySorted gap l1 -> StronglySorted gap l2 ->
    Forall span_wf l1 -> Forall span_wf l2 ->
    (forall x y, covers l1 x y <-> covers l2 x y) ->
    l1 = l2.
Proof.
  induction l1 as [|s1 l1 IH]; intros l2 Hs1 Hs2 Hw1 Hw2 Hc.
  - destruct l2 as [|s2 l2]; [reflexivity|]. exfalso.
    inversion Hw2 as [|? ? Hws2 _]; subst.
    apply (@covers_nil (getX0 s2) (getY s2)). apply Hc.
    exists s2. split; [now left|]. apply span_contains_iff. unfold span_wf in Hws2. lia.
  - destruct l2 as [|s2 l2].
    { exfalso. inversion Hw1 as [|? ? Hws1 _]; subst.
      apply (@covers_nil (getX0 s1) (getY s1)). apply Hc.
      exists s1. split; [now left|]. apply span_contains_iff.
      unfold span_wf in Hws1. lia. }
    destruct (gap_sorted_head_unique Hs1 Hs2 Hw1 Hw2) as [Ha Hb];
      try (intros; now apply Hc).
    destruct (gap_sorted_head_unique Hs2 Hs1 Hw2 Hw1) as [Ha' Hb'];
      try (intros; now apply Hc).
    assert (Es : s1 = s2).
    { unfold starts_le in *. destruct s1 as [ya a0 a1], s2 as [yb b0 b1].
      cbn [getY getX0 getX1] in *.
      assert (ya = yb) by lia. subst.
      assert (a0 = b0) by lia. subst.
      assert (a1 = b1) by (specialize (Hb eq_refl eq_refl);
                           specialize (Hb' eq_refl eq_refl); lia).
      now subst. }
    subst s2. f_equal.
    inversion Hs1 as [|? ? Hs1' Hg1]; subst. inversion Hs2 as [|? ? Hs2' Hg2]; subst.
    inversion Hw1 as [|? ? _ Hw1']; subst. inversion Hw2 as [|? ? _ Hw2']; subst.
    apply IH; auto. intros x y.
    rewrite Forall_forall in Hg1, Hg2.
    split; intros (t & Hin & Hct).
    + destruct (proj1 (Hc x y)) as (u & [<-|Hu] & Hcu).
      { exists t. split; [now right|assumption]. }
      * exfalso. eapply gap_disjoint; [apply (Hg1 _ Hin)| |]; eassumption.
      * exists u. auto.
    + destruct (proj2 (Hc x y)) as (u & [<-|Hu] & Hcu).
      { exists t. split; [now right|assumption]. }
      * exfalso. eapply gap_disjoint; [apply (Hg2 _ Hin)| |]; eassumption.
      * exists u. auto.
Qed.

(** ** _mergeFootprints on normalized footprints *)

Lemma normalized_inv_gap (f : Footprint) :
  normalized_inv f -> StronglySorted gap (_spans f).
Proof.
  intros H. apply normalized_gap_sorted; [apply (ni_wf H)|apply (ni_sorted H)|apply (ni_no_touch H)].
Qed.

Lemma precedes_nil (foot : Footprint) (l : list Span) :
  _spans foot = [] -> precedes foot l.
Proof. intros E [|? ?] last E'; rewrite E in E'; discriminate. Qed.

(** What the merge yields once the peaks are settled: the unique
    normalized span list that covers the pixels of both footprints. *)
Lemma merge_spans_spec (a b : Footprint) (peaks : PeakCatalog) :
  normalized_inv a -> normalized_inv b ->
  exists new,
    merge_loop (S (length (_spans a) + length (_spans b))) (_spans a) (_spans b)
               (set_peaks Footprint_default peaks)
    = Some (Ok (fold_left push new (set_peaks Footprint_default peaks))) /\
    StronglySorted gap new /\ Forall span_wf new /\
    (forall x y, covers new x y <-> covers (_spans a) x y \/ covers (_spans b) x y).
Proof.
  intros Ha Hb.
  destruct (@merge_loop_spec (S (length (_spans a) + length (_spans b)))
              (_spans a) (_spans b) (set_peaks Footprint_default peaks))
    as (new & E & Hs & Hw & Hc & _);
    auto using normalized_inv_gap, ni_wf, precedes_nil.
  exists new. auto.
Qed.

(** The merge loop never uses up its fuel, whatever the spans are. *)
Lemma absorb_fuel (fuel : nat) :
  forall y x1 a b,
    (length a + length b < fuel)%nat ->
    exists x1' aRest bRest,
      absorb fuel y x1 a b = Some (x1', aRest, bRest) /\
      (length aRest + length bRest <= length a + length b)%nat.
Proof.
  induction fuel as [|fuel IH]; intros y x1 a b Hf; [lia|].
  cbn [absorb]. destruct (continues y x1 a) eqn:Ea.
  - destruct a as [|s a']; [discriminate|]. cbn [length] in *.
    destruct (IH y (Z.max x1 (getX1 s)) a' b) as (x & ar & br & E & Hl); [lia|].
    rewrite E. exists x, ar, br. split; [reflexivity|lia].
  - destruct (continues y x1 b) eqn:Eb.
    + destruct b as [|s b']; [discriminate|]. cbn [length] in *.
      destruct (IH y (Z.max x1 (getX1 s)) a b') as (x & ar & br & E & Hl); [lia|].
      rewrite E. exists x, ar, br. split; [reflexivity|lia].
    + exists x1, a, b. split; [reflexivity|lia].
Qed.

Lemma merge_loop_fuel (fuel : nat) :
  forall a b foot,
    (length a + length b < fuel)%nat -> merge_loop fuel a b foot <> None.
Proof.
  induction fuel as [|fuel IH]; intros a b foot Hf; [lia|].
  cbn [merge_loop]. destruct a as [|sa a']; [discriminate|].
  destruct b as [|sb b']; [discriminate|]. cbn [length] in Hf.
  destruct (_ || _).
  { destruct (addSpanInSeries _ _ _ _); try discriminate. apply IH. cbn [length]. lia. }
  destruct (_ || _).
  { destruct (addSpanInSeries _ _ _ _); try discriminate. apply IH. cbn [length]. lia. }
  destruct (@absorb_fuel (S (length a' + length b')) (getY sa)
              (Z.max (getX1 sa) (getX1 sb)) a' b') as (x & ar & br & E & Hl); [lia|].
  rewrite E. destruct (addSpanInSeries _ _ _ _); try discriminate. apply IH. lia.
Qed.

Lemma merge_peaks_sym (fresh p q : PeakCatalog) :
  (exists r, merge_peaks fresh p q = Ok r) ->
  exists r', merge_peaks fresh q p = Ok r'.
Proof.
  unfold merge_peaks. intros [r H].
  destruct (records p) as [|? ?], (records q) as [|? ?]; eauto.
  rewrite Nat.eqb_sym. destruct (Nat.eqb _ _); [eauto|discriminate].
Qed.

Lemma merge_peaks_total (fresh p q : PeakCatalog) :
  records p = [] \/ records q = [] \/ getSchema p = getSchema q ->
  exists r, merge_peaks fresh p q = Ok r.
Proof.
  unfold merge_peaks. intros H.
  destruct (records p) as [|? ?], (records q) as [|? ?]; eauto.
  destruct H as [H|[H|H]]; try discriminate.
  rewrite H, Nat.eqb_refl. eauto.
Qed.

Lemma _mergeFootprints_ok (a b : Footprint) (peaks : PeakCatalog) :
  normalized_inv a -> normalized_inv b ->
  merge_peaks (_peaks Footprint_default) (_peaks a) (_peaks b) = Ok peaks ->
  exists r,
    _mergeFootprints a b = Ok r /\
    StronglySorted gap (_spans r) /\ Forall span_wf (_spans r) /\
    (forall x y, covers (_spans r) x y <-> covers (_spans a) x y \/ covers (_spans b) x y) /\
    _area r = sum_widths (_spans r) /\ _normalized r = true.
Proof.
  intros Ha Hb Hp. unfold _mergeFootprints. rewrite Hp. cbn [bind].
  destruct (merge_spans_spec peaks Ha Hb) as (new & E & Hs & Hw & Hc).
  rewrite E. eexists. split; [reflexivity|].
  rewrite fold_push_spans, fold_push_area, fold_push_normalized by auto.
  cbn. auto.
Qed.

Lemma _mergeFootprints_outcome (a b : Footprint) :
  (exists peaks, merge_peaks (_peaks Footprint_default) (_peaks a) (_peaks b) = Ok peaks)
  \/ _mergeFootprints a b = Throw InvalidParameterError.
Proof.
  unfold _mergeFootprints, merge_peaks.
  destruct (records (_peaks a)) as [|? ?], (records (_peaks b)) as [|? ?]; eauto.
  destruct (Nat.eqb _ _); eauto.
Qed.

(* ------------------------------------------------------------------ *)
(** ** Claims on mergeFootprints *)

(** C3: for every pair of footprints a and b that are normalized when the
    core merge starts, if mergeFootprints(a, b) returns a footprint then so
    does mergeFootprints(b, a), with the same area and the same span list,
    before and after normalize(); and mergeFootprints(a, b) does return
    one unless both footprints have peaks and their schemas differ. *)
Theorem mergeFootprints_commutes (a b : Footprint) :
  normalized_inv (normalize a) -> normalized_inv (normalize b) ->
  (forall r1, mergeFootprints a b = Ok r1 ->
     exists r2, mergeFootprints b a = Ok r2 /\
                _area r1 = _area r2 /\
                _spans r1 = _spans r2 /\
                _spans (normalize r1) = _spans (normalize r2)) /\
  (records (_peaks a) = [] \/ records (_peaks b) = [] \/
   getSchema (_peaks a) = getSchema (_peaks b) ->
   exists r1, mergeFootprints a b = Ok r1).
Proof.
  intros Ha Hb. unfold mergeFootprints.
  set (na := normalize a) in *. set (nb := normalize b) in *. split.
  - intros r1 E1.
    destruct (_mergeFootprints_outcome na nb) as [[p Hp]|Hthrow];
      [|rewrite Hthrow in E1; discriminate].
    destruct (merge_peaks_sym _ _ _ (ex_intro _ p Hp)) as [q Hq].
    destruct (_mergeFootprints_ok Ha Hb Hp) as (r & E & Hs & Hw & Hc & Har & Hn).
    destruct (_mergeFootprints_ok Hb Ha Hq) as (r2 & E2 & Hs2 & Hw2 & Hc2 & Har2 & Hn2).
    rewrite E in E1. injection E1 as <-.
    assert (Heq : _spans r = _spans r2).
    { apply gap_sorted_unique; auto. intros x y. rewrite Hc, Hc2. tauto. }
    exists r2. split; [exact E2|]. split; [now rewrite Har, Har2, Heq|].
    split; [exact Heq|]. unfold normalize. now rewrite Hn, Hn2.
  - intros Hpeaks.
    destruct (@merge_peaks_total (_peaks Footprint_default) (_peaks na) (_peaks nb))
      as [p Hp].
    { unfold na, nb, normalize.
      destruct (_normalized a), (_normalized b);
        try destruct (sortSpans (_spans a)); try destruct (sortSpans (_spans b));
        exact Hpeaks. }
    destruct (_mergeFootprints_ok Ha Hb Hp) as (r & E & _). eauto.
Qed.

Lemma mergeFootprints_commutes_witness :
  let a := addSpan (addSpan (addSpan Footprint_default 0 0 3) 0 10 11) 1 0 0 in
  let b := addSpan (addSpan (addSpan Footprint_default 0 4 6) 0 8 8) 2 5 5 in
  exists r1 r2,
    mergeFootprints a b = Ok r1 /\ mergeFootprints b a = Ok r2 /\
    _area r1 = _area r2 /\ _spans r1 = _spans r2.
Proof.
  intros a b.
  assert (Ha : normalized_inv (normalize a)).
  { apply normalize_unflagged_inv; [reflexivity|].
    repeat constructor; unfold span_wf; simpl; lia. }
  assert (Hb : normalized_inv (normalize b)).
  { apply normalize_unflagged_inv; [reflexivity|].
    repeat constructor; unfold span_wf; simpl; lia. }
  destruct (@mergeFootprints_commutes a b Ha Hb) as [Hsame Hret].
  destruct Hret as [r1 E1]; [left; reflexivity|].
  destruct (Hsame r1 E1) as (r2 & E2 & Har & Hsp & _).
  exists r1, r2. auto.
Defined.

(* ------------------------------------------------------------------ *)
(** ** Dilation: the sets of intervals *)

Lemma sub_trans (p q r : Z * Z) : sub p q -> sub q r -> sub p r.
Proof. unfold sub. lia. Qed.

Lemma sub_refl (p : Z * Z) : sub p p.
Proof. unfold sub. lia. Qed.

Lemma pset_insert_in (p q : Z * Z) (l : list (Z * Z)) :
  In q (pset_insert p l) <-> q = p \/ In q l.
Proof.
  induction l as [|h t IH]; simpl; [intuition|].
  destruct (pair_ltb p h) eqn:E1; [simpl; intuition|].
  destruct (pair_ltb h p) eqn:E2; [simpl; rewrite IH; intuition|].
  assert (h = p).
  { unfold pair_ltb in *. destruct h, p. simpl in *.
    apply orb_false_iff in E1 as [A1 B1]. apply orb_false_iff in E2 as [A2 B2].
    apply Z.ltb_ge in A1, A2. assert (z = z1) by lia. subst.
    rewrite Z.eqb_refl in B1, B2. simpl in B1, B2. apply Z.ltb_ge in B1, B2.
    f_equal; lia. }
  subst. simpl. intuition.
Qed.

Lemma pset_insert_first_sorted (p : Z * Z) (l : list (Z * Z)) :
  StronglySorted first_le l -> StronglySorted first_le (pset_insert p l).
Proof.
  induction 1 as [|h t Hs IH Hall]; simpl; [repeat constructor|].
  destruct (pair_ltb p h) eqn:E1.
  - constructor; [now constructor|].
    assert (Hph : first_le p h).
    { unfold pair_ltb, first_le in *. apply orb_true_iff in E1 as [E|E].
      - apply Z.ltb_lt in E. lia.
      - apply andb_true_iff in E as [E _]. apply Z.eqb_eq in E. lia. }
    constructor; [assumption|]. revert Hall. apply Forall_weaken.
    unfold first_le in *. intros; lia.
  - destruct (pair_ltb h p) eqn:E2; [|now constructor].
    constructor; [assumption|].
    apply Forall_forall. intros q Hq. apply pset_insert_in in Hq as [->|Hq].
    + unfold pair_ltb, first_le in *. apply orb_true_iff in E2 as [E|E].
      * apply Z.ltb_lt in E. lia.
      * apply andb_true_iff in E as [E _]. apply Z.eqb_eq in E. lia.
    + rewrite Forall_forall in Hall. auto.
Qed.

Lemma pset_insert_append (p : Z * Z) (l : list (Z * Z)) :
  Forall pair_wf l -> Forall (fun q => pgap q p) l -> pset_insert p l = l ++ [p].
Proof.
  induction l as [|h t IH]; intros Hwf Hg; [reflexivity|].
  inversion Hwf as [|? ? Hwh Hwt]; subst. inversion Hg as [|? ? Hgh Hgt]; subst.
  simpl. unfold pair_ltb, pgap, pair_wf in *.
  destruct (Z.ltb_spec (fst p) (fst h)); [lia|].
  destruct (Z.eqb_spec (fst p) (fst h)); [lia|]. cbn [orb andb].
  destruct (Z.ltb_spec (fst h) (fst p)); [|lia]. cbn [orb].
  f_equal. apply IH; assumption.
Qed.

Lemma pgap_first_sorted (l : list (Z * Z)) :
  row_ok l -> StronglySorted first_le l.
Proof.
  intros [Hs Hwf]. induction Hs as [|h t Hs IH Hall]; constructor.
  - apply IH. now inversion Hwf.
  - inversion Hwf; subst. revert Hall. apply Forall_weaken.
    unfold pgap, first_le, pair_wf in *. intros; lia.
Qed.

Lemma coalesce_run_spec (l : list (Z * Z)) :
  forall (start end_ : Z) (news : list (Z * Z)),
    start <= end_ ->
    StronglySorted first_le l -> Forall (fun p => start <= fst p) l ->
    Forall pair_wf l ->
    row_ok news -> Forall (fun q => snd q + 1 < start) news ->
    exists out,
      coalesce_run start end_ l news = Ok out /\ row_ok out /\
      (forall p, In p news \/ p = (start, end_) \/ In p l ->
                 exists q, In q out /\ sub p q).
Proof.
  induction l as [|p l IH]; intros start end_ news Hse Hsort Hlo Hwf [Hns Hnw] Hnb.
  - exists (news ++ [(start, end_)]). cbn [coalesce_run].
    rewrite pset_insert_append by (try assumption; exact Hnb).
    split; [reflexivity|]. split.
    + split; [apply StronglySorted_snoc; split; [assumption|exact Hnb]|].
      apply Forall_snoc. split; [assumption|exact Hse].
    + intros q Hq. exists q. split; [|apply sub_refl]. apply in_or_app.
      destruct Hq as [H|[->|[]]]; [now left|right; now left].
  - inversion Hsort as [|? ? Hsort' Hfl]; subst. inversion Hlo as [|? ? Hp Hlo']; subst.
    inversion Hwf as [|? ? Hwp Hwl]; subst. cbn [coalesce_run].
    destruct (Z.leb_spec (fst p) (end_ + 1)) as [Hc|Hc].
    + destruct (IH start (Z.max end_ (snd p)) news) as (out & E & Hok & Hcov);
        auto; try lia; [split; assumption|].
      exists out. split; [exact E|]. split; [exact Hok|].
      intros q [H|[->|[<-|H]]].
      * apply Hcov. now left.
      * destruct (Hcov (start, Z.max end_ (snd p))) as (r & Hr & Hsub); [right; now left|].
        exists r. split; [assumption|]. unfold sub in *. simpl in *. lia.
      * destruct (Hcov (start, Z.max end_ (snd p))) as (r & Hr & Hsub); [right; now left|].
        exists r. split; [assumption|]. unfold sub in *. simpl in *. lia.
      * apply Hcov. right. now right.
    + unfold pair_wf in Hwp. destruct (Z.leb_spec (fst p) (snd p + 1)); [|lia].
      rewrite pset_insert_append by (try assumption; exact Hnb).
      assert (Hfl' : Forall (fun q => fst p <= fst q) l).
      { revert Hfl. apply Forall_weaken. unfold first_le. intros; lia. }
      assert (Hok' : row_ok (news ++ [(start, end_)])).
      { split; [apply StronglySorted_snoc; split; [assumption|exact Hnb]|].
        apply Forall_snoc. split; [assumption|exact Hse]. }
      assert (Hnb' : Forall (fun q => snd q + 1 < fst p) (news ++ [(start, end_)])).
      { apply Forall_snoc. split; [|simpl; lia].
        revert Hnb. apply Forall_weaken. intros; lia. }
      destruct (IH (fst p) (snd p) (news ++ [(start, end_)]) Hwp Hsort' Hfl' Hwl Hok' Hnb')
        as (out & E & Hok & Hcov).
      exists out. split; [exact E|]. split; [exact Hok|].
      intros q [H'|[->|[<-|H']]]; apply Hcov.
      * left. apply in_or_app. now left.
      * left. apply in_or_app. right. now left.
      * right. left. now destruct p.
      * right. now right.
Qed.

Lemma coalesce_spec (l : list (Z * Z)) :
  StronglySorted first_le l -> Forall pair_wf l ->
  exists out,
    coalesce l = Ok out /\ row_ok out /\
    (forall p, In p l -> exists q, In q out /\ sub p q).
Proof.
  intros Hs Hwf. destruct l as [|p l].
  - exists []. repeat split; try constructor. intros p [].
  - inversion Hs as [|? ? Hs' Hfl]; subst. inversion Hwf as [|? ? Hwp Hwl]; subst.
    cbn [coalesce]. unfold pair_wf in Hwp.
    destruct (Z.leb_spec (fst p) (snd p + 1)); [|lia].
    destruct (@coalesce_run_spec l (fst p) (snd p) []) as (out & E & Hok & Hcov);
      auto; try (split; constructor); try constructor.
    exists out. split; [exact E|]. split; [exact Hok|].
    intros q [<-|Hq]; apply Hcov; [right; left; now destruct p|right; now right].
Qed.

(** ** Dilation: the map of rows *)

Lemma map_get_set_same (m : list (Z * list (Z * Z))) (y : Z) (v : list (Z * Z)) :
  map_get (map_set m y v) y = v.
Proof.
  induction m as [|[k w] m IH]; simpl.
  - now rewrite Z.eqb_refl.
  - destruct (Z.ltb_spec y k); simpl; [now rewrite Z.eqb_refl|].
    destruct (Z.eqb_spec k y); simpl; [now rewrite Z.eqb_refl|].
    destruct (Z.eqb_spec k y); [contradiction|assumption].
Qed.

Lemma map_get_set_other (m : list (Z * list (Z * Z))) (y y' : Z) (v : list (Z * Z)) :
  y <> y' -> map_get (map_set m y v) y' = map_get m y'.
Proof.
  intros Hne. induction m as [|[k w] m IH]; simpl.
  - destruct (Z.eqb_spec y y'); [contradiction|reflexivity].
  - destruct (Z.ltb_spec y k); simpl.
    + destruct (Z.eqb_spec y y'); [contradiction|reflexivity].
    + destruct (Z.eqb_spec k y); simpl.
      * subst. destruct (Z.eqb_spec y y'); [contradiction|reflexivity].
      * destruct (Z.eqb_spec k y'); [reflexivity|assumption].
Qed.

Lemma map_set_keys (m : list (Z * list (Z * Z))) (y : Z) (v : list (Z * Z)) (e : Z * list (Z * Z)) :
  In e (map_set m y v) -> e = (y, v) \/ In e m.
Proof.
  induction m as [|[k w] m IH]; simpl; [intuition|].
  destruct (Z.ltb_spec y k); simpl; [intuition|].
  destruct (Z.eqb_spec k y); simpl; intuition.
Qed.

Lemma map_set_inv (m : list (Z * list (Z * Z))) (y : Z) (v : list (Z * Z)) :
  map_inv m -> row_ok v -> map_inv (map_set m y v).
Proof.
  intros [Hs Hr] Hv. induction Hs as [|[k w] m Hs IH Hall]; simpl.
  - split; [repeat constructor|constructor; [exact Hv|constructor]].
  - inversion Hr as [|? ? Hrk Hrm]; subst. specialize (IH Hrm).
    destruct (Z.ltb_spec y k).
    + split; [|constructor; assumption].
      constructor; [now constructor|]. constructor; [assumption|].
      revert Hall. apply Forall_weaken. simpl. intros; lia.
    + destruct (Z.eqb_spec k y).
      * subst. split; [constructor; assumption|constructor; assumption].
      * destruct IH as [IHs IHr]. split; [|constructor; assumption].
        constructor; [assumption|].
        apply Forall_forall. intros e He. apply map_set_keys in He as [->|He].
        -- simpl. lia.
        -- rewrite Forall_forall in Hall. auto.
Qed.

Lemma map_get_row_ok (m : list (Z * list (Z * Z))) (y : Z) :
  map_inv m -> row_ok (map_get m y).
Proof.
  intros [_ Hr]. induction m as [|[k w] m IH]; simpl.
  - split; constructor.
  - inversion Hr; subst. destruct (k =? y); auto.
Qed.

Lemma grow_step_spec (span el : Span) (m : list (Z * list (Z * Z))) :
  map_inv m -> span_wf span -> span_wf el ->
  exists m',
    grow_step span m el = Ok m' /\ map_inv m' /\
    (forall y p, map_has m y p -> map_has m' y p) /\
    map_has m' (getY span + getY el) (getX0 span + getX0 el, getX1 span + getX1 el).
Proof.
  intros Hm Hws Hwe. unfold grow_step.
  set (p := (getX0 span + getX0 el, getX1 span + getX1 el)).
  set (yval := getY span + getY el).
  pose proof (map_get_row_ok yval Hm) as Hrow.
  destruct (@coalesce_spec (pset_insert p (map_get m yval))) as (out & E & Hok & Hcov).
  { apply pset_insert_first_sorted. now apply pgap_first_sorted. }
  { apply Forall_forall. intros q Hq. apply pset_insert_in in Hq as [->|Hq].
    - unfold pair_wf, p, span_wf in *. simpl. lia.
    - destruct Hrow as [_ Hw]. rewrite Forall_forall in Hw. auto. }
  rewrite E. cbn [bind]. eexists. split; [reflexivity|].
  split; [now apply map_set_inv|]. split.
  - intros y q (r & Hr & Hsub). unfold map_has.
    destruct (Z.eq_dec yval y) as [<-|Hne].
    + rewrite map_get_set_same.
      destruct (Hcov r) as (r' & Hr' & Hsub'); [apply pset_insert_in; now right|].
      exists r'. split; [assumption|]. eapply sub_trans; eauto.
    + rewrite map_get_set_other by assumption. eauto.
  - unfold map_has. rewrite map_get_set_same.
    apply Hcov. apply pset_insert_in. now left.
Qed.

Lemma grow_span_spec (rows : list Span) (span : Span) :
  forall m,
    map_inv m -> span_wf span -> Forall span_wf rows ->
    exists m',
      foldM (grow_step span) rows m = Ok m' /\ map_inv m' /\
      (forall y p, map_has m y p -> map_has m' y p) /\
      (forall el, In el rows ->
         map_has m' (getY span + getY el) (getX0 span + getX0 el, getX1 span + getX1 el)).
Proof.
  induction rows as [|el rows IH]; intros m Hm Hws Hwr.
  - exists m. split; [reflexivity|]. split; [exact Hm|]. split; [auto|]. intros el [].
  - inversion Hwr as [|? ? Hwe Hwr']; subst. cbn [foldM].
    destruct (grow_step_spec Hm Hws Hwe) as (m1 & E1 & Hm1 & Hk1 & Hn1).
    rewrite E1. cbn [bind].
    destruct (IH m1 Hm1 Hws Hwr') as (m2 & E2 & Hm2 & Hk2 & Hn2).
    exists m2. split; [exact E2|]. split; [exact Hm2|]. split; [auto|].
    intros e [<-|He]; auto.
Qed.

Lemma grow_spans_spec (element : StructuringElement) (l : list Span) :
  forall m,
    map_inv m -> Forall span_wf l -> Forall span_wf (_widths element) ->
    exists m',
      foldM (grow_span element) l m = Ok m' /\ map_inv m' /\
      (forall y p, map_has m y p -> map_has m' y p) /\
      (forall span el, In span l -> In el (_widths element) ->
         map_has m' (getY span + getY el) (getX0 span + getX0 el, getX1 span + getX1 el)).
Proof.
  induction l as [|s l IH]; intros m Hm Hwl Hwe.
  - exists m. split; [reflexivity|]. split; [exact Hm|]. split; [auto|]. intros ? ? [].
  - inversion Hwl as [|? ? Hws Hwl']; subst. cbn [foldM]. unfold grow_span at 1.
    destruct (@grow_span_spec (_widths element) s m Hm Hws Hwe) as (m1 & E1 & Hm1 & Hk1 & Hn1).
    rewrite E1. cbn [bind].
    destruct (IH m1 Hm1 Hwl' Hwe) as (m2 & E2 & Hm2 & Hk2 & Hn2).
    exists m2. split; [exact E2|]. split; [exact Hm2|]. split; [auto|].
    intros span el [<-|Hs] He; auto.
Qed.

(** ** Dilation: the spans that are emitted *)

Lemma StronglySorted_app (A : Type) (R : A -> A -> Prop) (l1 l2 : list A) :
  StronglySorted R l1 -> StronglySorted R l2 ->
  (forall a b, In a l1 -> In b l2 -> R a b) ->
  StronglySorted R (l1 ++ l2).
Proof.
  intros H1 H2 H. induction H1 as [|h t Hs IH Hall]; simpl; [assumption|].
  constructor.
  - apply IH. intros a b Ha Hb. apply H; [now right|assumption].
  - apply Forall_app. split; [assumption|].
    apply Forall_forall. intros b Hb. apply H; [now left|assumption].
Qed.

Lemma map_spans_in (m : list (Z * list (Z * Z))) (t : Span) :
  In t (map_spans m) <->
  exists v, In (getY t, v) m /\ In (getX0 t, getX1 t) v.
Proof.
  unfold map_spans. rewrite in_flat_map. split.
  - intros ([k v] & He & Ht). apply in_map_iff in Ht as ([a b] & <- & Hx).
    exists v. simpl in *. auto.
  - intros (v & He & Hx). exists (getY t, v). split; [assumption|].
    apply in_map_iff. exists (getX0 t, getX1 t). split; [now destruct t|assumption].
Qed.

Lemma row_spans_sorted (k : Z) (v : list (Z * Z)) :
  row_ok v ->
  StronglySorted gap (map (fun x => mkSpan k (fst x) (snd x)) v) /\
  Forall span_wf (map (fun x => mkSpan k (fst x) (snd x)) v).
Proof.
  intros [Hs Hw]. induction Hs as [|h t Hs IH Hall]; simpl.
  - split; constructor.
  - inversion Hw as [|? ? Hwh Hwt]; subst. destruct (IH Hwt) as [IH1 IH2].
    split; constructor; auto.
    apply Forall_map. revert Hall. apply Forall_weaken.
    intros q Hq. right. simpl. split; [reflexivity|exact Hq].
Qed.

Lemma map_spans_sorted (m : list (Z * list (Z * Z))) :
  map_inv m -> StronglySorted gap (map_spans m) /\ Forall span_wf (map_spans m).
Proof.
  intros [Hs Hr]. induction Hs as [|[k v] m Hs IH Hall].
  - split; constructor.
  - inversion Hr as [|? ? Hrk Hrm]; subst. destruct (IH Hrm) as [IH1 IH2].
    destruct (row_spans_sorted k Hrk) as [R1 R2].
    change (map_spans ((k, v) :: m))
      with (map (fun x => mkSpan k (fst x) (snd x)) v ++ map_spans m).
    split; [|apply Forall_app; auto].
    apply StronglySorted_app; auto.
    intros a b Ha Hb. apply in_map_iff in Ha as (x & <- & _).
    apply map_spans_in in Hb as (w & He & _).
    rewrite Forall_forall in Hall. specialize (Hall _ He). left. exact Hall.
Qed.

Lemma map_get_in (m : list (Z * list (Z * Z))) (y : Z) (q : Z * Z) :
  In q (map_get m y) -> exists v, In (y, v) m /\ In q v.
Proof.
  induction m as [|[k w] m IH]; simpl; [intros []|].
  destruct (Z.eqb_spec k y) as [->|_].
  - intros H. exists w. auto.
  - intros H. destruct (IH H) as (v & Hv & Hq). exists v. auto.
Qed.

Lemma map_has_span (m : list (Z * list (Z * Z))) (y : Z) (p : Z * Z) :
  map_has m y p ->
  exists t, In t (map_spans m) /\ getY t = y /\ getX0 t <= fst p /\ snd p <= getX1 t.
Proof.
  intros (q & Hq & Hsub). apply map_get_in in Hq as (v & Hv & Hq).
  exists (mkSpan y (fst q) (snd q)). split; [|exact (conj eq_refl Hsub)].
  apply map_spans_in. exists v. simpl. destruct q. auto.
Qed.

(** What dilation yields: a normalized span list in which every span of
    the footprint, widened by a row of the element and moved to the row it
    reaches, lies inside one span. *)
Lemma growFootprintImpl_spec (foot : Footprint) (element : StructuringElement) :
  Forall span_wf (_spans foot) -> Forall span_wf (_widths element) ->
  exists g,
    growFootprintImpl foot element = Ok g /\
    StronglySorted gap (_spans g) /\ Forall span_wf (_spans g) /\
    (forall span el, In span (_spans foot) -> In el (_widths element) ->
       exists t, In t (_spans g) /\ getY t = getY span + getY el /\
                 getX0 t <= getX0 span + getX0 el /\
                 getX1 span + getX1 el <= getX1 t).
Proof.
  intros Hwf Hwe. unfold growFootprintImpl, Footprint_new.
  change (0 <? 0) with false. cbn [bind].
  destruct (@grow_spans_spec element (_spans foot) []) as (m & E & Hm & _ & Hcov);
    auto; [split; constructor|].
  rewrite E. cbn [bind].
  destruct (map_spans_sorted Hm) as [Hs Hw].
  rewrite addAllInSeries_spec by (auto; now apply precedes_nil). cbn [bind].
  eexists. split; [reflexivity|]. unfold set_peaks. cbn [_spans].
  rewrite fold_push_spans by assumption. cbn [_spans app].
  split; [assumption|]. split; [assumption|].
  intros span el Hspan Hel. destruct (map_has_span (Hcov span el Hspan Hel)) as (t & Ht).
  exists t. exact Ht.
Qed.

(* ------------------------------------------------------------------ *)
(** ** Erosion: the primary runs *)

Lemma span_runs_in (t : Span) (rows : list Span) :
  forall (m0 : Z) (r : PrimaryRun),
    In r (span_runs t m0 rows) <->
    exists (i : nat) (e : Span),
      nth_error rows i = Some e /\
      getX1 e - getX0 e <= getX1 t - getX0 t /\
      r = run_of t (m0 + Z.of_nat i) e.
Proof.
  induction rows as [|e rows IH]; intros m0 r.
  - simpl. split; [intros []|]. intros ([|i] & e & H & _); discriminate.
  - cbn [span_runs]. rewrite in_app_iff, IH. split.
    + intros [H|(i & e' & Hn & Hw & ->)].
      * destruct (Z.leb_spec (getX1 e - getX0 e) (getX1 t - getX0 t)); [|destruct H].
        destruct H as [<-|[]]. exists 0%nat, e. rewrite Z.add_0_r. auto.
      * exists (S i), e'. repeat split; auto. f_equal. lia.
    + intros ([|i] & e' & Hn & Hw & ->).
      * injection Hn as <-. left.
        destruct (Z.leb_spec (getX1 e - getX0 e) (getX1 t - getX0 t)); [|lia].
        left. now rewrite Z.add_0_r.
      * right. exists i, e'. repeat split; auto. f_equal. lia.
Qed.

Lemma primary_runs_in (L rows : list Span) (r : PrimaryRun) :
  In r (flat_map (fun span => span_runs span 0 rows) L) <->
  exists (t : Span) (i : nat) (e : Span),
    In t L /\ nth_error rows i = Some e /\
    getX1 e - getX0 e <= getX1 t - getX0 t /\
    r = run_of t (Z.of_nat i) e.
Proof.
  rewrite in_flat_map. split.
  - intros (t & Ht & Hr). apply span_runs_in in Hr as (i & e & Hn & Hw & ->).
    exists t, i, e. auto.
  - intros (t & i & e & Ht & Hn & Hw & ->). exists t. split; [assumption|].
    apply span_runs_in. exists i, e. auto.
Qed.

Lemma sorted_pairs (A : Type) (R : A -> A -> Prop) (l : list A) (a b : A) :
  StronglySorted R l -> In a l -> In b l -> a = b \/ R a b \/ R b a.
Proof.
  induction 1 as [|h t Hs IH Hall]; intros Ha Hb; [destruct Ha|].
  rewrite Forall_forall in Hall.
  destruct Ha as [<-|Ha], Hb as [<-|Hb]; auto.
Qed.

(** Two runs of the same row and the same [m] come from two spans of one
    row of the footprint: they span the same interval or lie apart. *)
Lemma primary_runs_apart (L rows : list Span) (r1 r2 : PrimaryRun) :
  StronglySorted gap L -> Forall span_wf rows ->
  In r1 (flat_map (fun span => span_runs span 0 rows) L) ->
  In r2 (flat_map (fun span => span_runs span 0 rows) L) ->
  pr_y r1 = pr_y r2 -> pr_m r1 = pr_m r2 ->
  chain r1 r2 \/ chain r2 r1.
Proof.
  intros Hs Hwr H1 H2 Hy Hm.
  apply primary_runs_in in H1 as (t1 & i1 & e1 & Ht1 & Hn1 & Hw1 & ->).
  apply primary_runs_in in H2 as (t2 & i2 & e2 & Ht2 & Hn2 & Hw2 & ->).
  cbn [run_of pr_y pr_m] in Hy, Hm.
  assert (i1 = i2) by lia. subst i2.
  rewrite Hn1 in Hn2. injection Hn2 as <-.
  assert (Hwe : span_wf e1).
  { rewrite Forall_forall in Hwr. apply Hwr. eapply nth_error_In; eauto. }
  unfold span_wf in Hwe. unfold chain, run_of. cbn [pr_xmin pr_xmax].
  destruct (@sorted_pairs _ _ _ _ _ Hs Ht1 Ht2) as [<-|[G|G]]; unfold gap in *; lia.
Qed.

Lemma primary_runs_wf (L rows : list Span) (r : PrimaryRun) :
  In r (flat_map (fun span => span_runs span 0 rows) L) -> run_wf r.
Proof.
  intros H. apply primary_runs_in in H as (t & i & e & _ & _ & Hw & ->).
  unfold run_wf, run_of. simpl. lia.
Qed.

(** ** Erosion: sorting the runs *)

Lemma comparePrimaryRun_false (a b : PrimaryRun) :
  comparePrimaryRun b a = false <-> run_le a b.
Proof.
  unfold comparePrimaryRun, run_le.
  destruct (Z.eqb_spec (pr_y b) (pr_y a)); destruct (Z.eqb_spec (pr_m b) (pr_m a));
    cbn [negb]; rewrite ?Z.ltb_ge, ?Z.ltb_lt; lia.
Qed.

Lemma comparePrimaryRun_true (a b : PrimaryRun) :
  comparePrimaryRun a b = true -> run_le a b.
Proof.
  unfold comparePrimaryRun, run_le.
  destruct (Z.eqb_spec (pr_y a) (pr_y b)); destruct (Z.eqb_spec (pr_m a) (pr_m b));
    cbn [negb]; rewrite ?Z.ltb_lt; lia.
Qed.

Lemma run_le_trans (a b c : PrimaryRun) : run_le a b -> run_le b c -> run_le a c.
Proof. unfold run_le. lia. Qed.

Lemma insertRun_perm (r : PrimaryRun) (l : list PrimaryRun) :
  Permutation (r :: l) (insertRun r l).
Proof.
  induction l as [|h t IH]; simpl; [reflexivity|].
  destruct (comparePrimaryRun r h); [reflexivity|].
  rewrite perm_swap. now constructor.
Qed.

Lemma sortRuns_perm (l : list PrimaryRun) : Permutation l (sortRuns l).
Proof.
  induction l as [|h t IH]; simpl; [constructor|].
  rewrite <- insertRun_perm. now constructor.
Qed.

Lemma insertRun_sorted (r : PrimaryRun) (l : list PrimaryRun) :
  StronglySorted run_le l -> StronglySorted run_le (insertRun r l).
Proof.
  induction 1 as [|h t Hs IH Hall]; simpl.
  - repeat constructor.
  - destruct (comparePrimaryRun r h) eqn:E.
    + constructor; [now constructor|].
      apply comparePrimaryRun_true in E. constructor; [assumption|].
      revert Hall. apply Forall_weaken. intros; eapply run_le_trans; eauto.
    + constructor; [assumption|].
      apply comparePrimaryRun_false in E.
      eapply Permutation_Forall; [apply insertRun_perm|]. now constructor.
Qed.

Lemma sortRuns_sorted (l : list PrimaryRun) : StronglySorted run_le (sortRuns l).
Proof. induction l; simpl; [constructor|now apply insertRun_sorted]. Qed.

Lemma sortRuns_in (l : list PrimaryRun) (r : PrimaryRun) :
  In r (sortRuns l) <-> In r l.
Proof.
  split; apply Permutation_in; [apply Permutation_sym|]; apply sortRuns_perm.
Qed.

Lemma StronglySorted_filter (A : Type) (R : A -> A -> Prop) (f : A -> bool) (l : list A) :
  StronglySorted R l -> StronglySorted R (filter f l).
Proof.
  induction 1 as [|h t Hs IH Hall]; simpl; [constructor|].
  destruct (f h); [|assumption]. constructor; [assumption|].
  apply Forall_forall. intros x Hx. apply filter_In in Hx as [Hx _].
  rewrite Forall_forall in Hall. auto.
Qed.

Lemma StronglySorted_refine (A : Type) (R R' : A -> A -> Prop) (l : list A) :
  StronglySorted R l ->
  (forall a b, In a l -> In b l -> R a b -> R' a b) ->
  StronglySorted R' l.
Proof.
  induction 1 as [|h t Hs IH Hall]; intros H; constructor.
  - apply IH. intros a b Ha Hb. apply H; now right.
  - apply Forall_forall. intros b Hb. rewrite Forall_forall in Hall.
    apply H; [now left|now right|auto].
Qed.

(** The runs of one row and one [m], once sorted, form a chain. *)
Lemma mRange_chain (L rows : list Span) (y m : Z) :
  StronglySorted gap L -> Forall span_wf rows ->
  let P := sortRuns (flat_map (fun span => span_runs span 0 rows) L) in
  StronglySorted chain (mRange (yRange P y) m) /\
  Forall run_wf (mRange (yRange P y) m).
Proof.
  intros Hs Hwr P.
  assert (Hin : forall r, In r (mRange (yRange P y) m) ->
                In r (flat_map (fun span => span_runs span 0 rows) L) /\
                pr_y r = y /\ pr_m r = m).
  { intros r Hr. unfold mRange, yRange in Hr.
    apply filter_In in Hr as [Hr Em]. apply filter_In in Hr as [Hr Ey].
    unfold P in Hr. apply (proj1 (sortRuns_in _ r)) in Hr.
    apply Z.eqb_eq in Em. apply Z.eqb_eq in Ey. repeat split; assumption. }
  split.
  - apply StronglySorted_refine with (R := run_le).
    + unfold mRange, yRange. do 2 apply StronglySorted_filter. apply sortRuns_sorted.
    + intros a b Ha Hb Hle.
      destruct (Hin a Ha) as (Pa & Ya & Ma). destruct (Hin b Hb) as (Pb & Yb & Mb).
      pose proof (primary_runs_wf _ _ _ Pa) as Wa.
      pose proof (primary_runs_wf _ _ _ Pb) as Wb.
      destruct (@primary_runs_apart L rows a b Hs Hwr Pa Pb) as [C|C]; try lia;
        [exact C|].
      unfold chain, run_le, run_wf in *. lia.
  - apply Forall_forall. intros r Hr. destruct (Hin r Hr) as (Pr & _).
    eapply primary_runs_wf; eauto.
Qed.

(** ** Erosion: consolidation and intersection *)

(** Consolidating a chain keeps the interval of every run. *)
Lemma consolidate_chain (m y lo hi : Z) (runs : list PrimaryRun) :
  forall (start_x end_x : Z) (cands : list PrimaryRun),
    StronglySorted chain runs ->
    Forall (fun r => (start_x = pr_xmin r /\ end_x = pr_xmax r) \/ end_x < pr_xmin r) runs ->
    holds cands y lo hi \/ (start_x <= lo /\ hi <= end_x) \/
    Exists (fun r => pr_xmin r <= lo /\ hi <= pr_xmax r) runs ->
    holds (consolidate m y start_x end_x runs cands) y lo hi.
Proof.
  induction runs as [|run runs IH]; intros start_x end_x cands Hs Hcur Hex.
  - cbn [consolidate]. destruct Hex as [(c & Hc & Hrest)|[Hse|Hex]].
    + exists c. split; [apply in_or_app; now left|exact Hrest].
    + exists (mkRun m y start_x end_x). split; [apply in_or_app; right; now left|].
      simpl. lia.
    + inversion Hex.
  - inversion Hs as [|? ? Hs' Hall]; subst. inversion Hcur as [|? ? Hc Hcur']; subst.
    cbn [consolidate]. destruct (Z.ltb_spec end_x (pr_xmin run)) as [Hnew|Hcont].
    + apply IH; [assumption| |].
      * revert Hall. apply Forall_weaken. unfold chain. intros; lia.
      * destruct Hex as [(c & Hc' & Hrest)|[Hse|Hex]].
        -- left. exists c. split; [apply in_or_app; now left|exact Hrest].
        -- left. exists (mkRun m y start_x end_x).
           split; [apply in_or_app; right; now left|]. simpl. lia.
        -- inversion Hex as [? ? Hh|? ? Ht]; subst; [right; left; lia|right; now right].
    + assert (Hsame : start_x = pr_xmin run /\ end_x = pr_xmax run) by lia.
      destruct Hsame as [E1 E2]. rewrite <- E2.
      apply IH; [assumption| |].
      * revert Hall. apply Forall_weaken. unfold chain. intros; lia.
      * destruct Hex as [Hh|[Hse|Hex]]; [now left|right; now left|].
        inversion Hex as [? ? Hh|? ? Ht]; subst; [right; left; lia|right; now right].
Qed.

Lemma intersect_runs_holds (m y lo hi : Z) (good cands : list PrimaryRun) :
  lo <= hi -> holds good y lo hi -> holds cands y lo hi ->
  holds (intersect_runs m y good cands) y lo hi.
Proof.
  intros Hlh (g & Hg & _ & Hg1 & Hg2) (c & Hc & _ & Hc1 & Hc2).
  exists (mkRun m y (Z.max (pr_xmin g) (pr_xmin c)) (Z.min (pr_xmax g) (pr_xmax c))).
  split; [|simpl; lia].
  unfold intersect_runs. apply in_flat_map. exists g. split; [assumption|].
  apply in_flat_map. exists c. split; [assumption|].
  destruct (Z.leb_spec (Z.max (pr_xmin g) (pr_xmin c)) (Z.min (pr_xmax g) (pr_xmax c)));
    [now left|lia].
Qed.

(** One turn of the loop over [m], when the runs of this [m] form a chain
    and one of them spans [lo .. hi]. *)
Lemma good_step_holds (y m lo hi : Z) (rowRuns good : list PrimaryRun) :
  lo <= hi ->
  StronglySorted chain (mRange rowRuns m) ->
  Exists (fun r => pr_xmin r <= lo /\ hi <= pr_xmax r) (mRange rowRuns m) ->
  m = 0 \/ holds good y lo hi ->
  holds (good_step y rowRuns good m) y lo hi.
Proof.
  intros Hlh Hs Hex Hgood. unfold good_step.
  destruct (mRange rowRuns m) as [|first rest] eqn:E; [inversion Hex|].
  inversion Hs as [|? ? Hs' Hall]; subst.
  assert (Hc : holds (consolidate m y (pr_xmin first) (pr_xmax first) rest []) y lo hi).
  { apply consolidate_chain; [assumption| |].
    - revert Hall. apply Forall_weaken. unfold chain. intros; lia.
    - inversion Hex as [? ? Hh|? ? Ht]; subst; [right; left; lia|right; now right]. }
  destruct (Z.eqb_spec m 0) as [->|Hm]; [exact Hc|].
  destruct Hgood as [->|Hg]; [contradiction|].
  now apply intersect_runs_holds.
Qed.

Lemma good_fold_holds (y lo hi : Z) (rowRuns : list PrimaryRun) (n : nat) :
  lo <= hi ->
  forall (m0 : Z) (good : list PrimaryRun),
    0 <= m0 ->
    (forall m, m0 <= m < m0 + Z.of_nat n ->
       StronglySorted chain (mRange rowRuns m) /\
       Exists (fun r => pr_xmin r <= lo /\ hi <= pr_xmax r) (mRange rowRuns m)) ->
    (m0 = 0 /\ n <> 0%nat) \/ holds good y lo hi ->
    holds (fold_left (good_step y rowRuns) (columns m0 n) good) y lo hi.
Proof.
  intros Hlh. induction n as [|n IH]; intros m0 good Hm0 Hrows Hgood.
  - destruct Hgood as [[_ H]|H]; [contradiction|exact H].
  - cbn [columns fold_left]. apply IH; [lia| |].
    + intros m Hm. apply Hrows. lia.
    + right. destruct (Hrows m0 ltac:(lia)) as [Hs Hex].
      apply good_step_holds; auto. destruct Hgood as [[-> _]|H]; auto.
Qed.

(** A list that holds a run for each of the numbers [0 .. n-1] has at
    least [n] elements. *)
Lemma distinct_keys_length (n : nat) :
  forall l : list PrimaryRun,
    (forall i, (i < n)%nat -> exists r, In r l /\ pr_m r = Z.of_nat i) ->
    (n <= length l)%nat.
Proof.
  induction n as [|n IH]; intros l H; [lia|].
  destruct (H n ltac:(lia)) as (r & Hr & Em).
  apply in_split in Hr as (l1 & l2 & ->).
  rewrite length_app. cbn [length].
  assert (n <= length (l1 ++ l2))%nat; [|rewrite length_app in *; lia].
  apply IH. intros i Hi. destruct (H i ltac:(lia)) as (r' & Hr' & Em').
  exists r'. split; [|assumption].
  apply in_app_or in Hr' as [Hr'|[<-|Hr']]; try (apply in_or_app; auto; fail).
  lia.
Qed.

(** ** Erosion: the loop over the rows *)

Lemma addSpan_spans (f : Footprint) (y x0 x1 : Z) :
  _spans (addSpan f y x0 x1) = _spans f ++ [mkSpan y (Z.min x0 x1) (Z.max x0 x1)].
Proof.
  unfold addSpan. destruct (Z.ltb_spec x1 x0); simpl; do 3 f_equal; lia.
Qed.

Lemma add_runs_mono (l : list PrimaryRun) :
  forall (f : Footprint) (px py : Z),
    covers (_spans f) px py ->
    covers (_spans (fold_left (fun f run => addSpan f (pr_y run) (pr_xmin run) (pr_xmax run))
                              l f)) px py.
Proof.
  induction l as [|r l IH]; intros f px py H; [exact H|].
  cbn [fold_left]. apply IH. rewrite addSpan_spans, covers_app. now left.
Qed.

Lemma add_runs_holds (l : list PrimaryRun) (y lo hi : Z) :
  holds l y lo hi ->
  forall (f : Footprint) (px : Z),
    lo <= px <= hi ->
    covers (_spans (fold_left (fun f run => addSpan f (pr_y run) (pr_xmin run) (pr_xmax run))
                              l f)) px y.
Proof.
  intros (c & Hc & Ey & H1 & H2). induction l as [|r l IH]; intros f px Hpx; [destruct Hc|].
  cbn [fold_left]. destruct Hc as [->|Hc]; [|now apply IH].
  apply add_runs_mono. rewrite addSpan_spans, covers_app. right.
  exists (mkSpan (pr_y c) (Z.min (pr_xmin c) (pr_xmax c)) (Z.max (pr_xmin c) (pr_xmax c))).
  split; [now left|]. apply span_contains_iff. simpl. lia.
Qed.

Lemma shrink_row_mono (element : StructuringElement) (P : list PrimaryRun)
    (f : Footprint) (y px py : Z) :
  covers (_spans f) px py -> covers (_spans (shrink_row element P f y)) px py.
Proof.
  intros H. unfold shrink_row.
  destruct (_ <? _); [exact H|]. now apply add_runs_mono.
Qed.

Lemma shrink_rows_mono (element : StructuringElement) (P : list PrimaryRun) (ys : list Z) :
  forall (f : Footprint) (px py : Z),
    covers (_spans f) px py ->
    covers (_spans (fold_left (shrink_row element P) ys f)) px py.
Proof.
  induction ys as [|y ys IH]; intros f px py H; [exact H|].
  cbn [fold_left]. apply IH. now apply shrink_row_mono.
Qed.

Section ErosionTarget.

Variables (L : list Span) (element : StructuringElement).
Hypothesis HL : StronglySorted gap L.
Hypothesis Hrows : Forall span_wf (_widths element).
Hypothesis HM : _yRange element = Z.of_nat (length (_widths element)).
Hypothesis HM1 : 0 < _yRange element.

(** The interval [a .. b] of row [y], such that each row of the element,
    laid on it, fits in one span of [L]. *)
Variables (y a b : Z).
Hypothesis Hab : a <= b.
Hypothesis Hfit :
  forall e, In e (_widths element) ->
    exists t, In t L /\ getY t = y + getY e /\
              getX0 t <= a + getX0 e /\ b + getX1 e <= getX1 t.

Let P : list PrimaryRun :=
  sortRuns (flat_map (fun span => span_runs span 0 (_widths element)) L).

Lemma target_run (m : Z) :
  0 <= m < _yRange element ->
  Exists (fun r => pr_xmin r <= a /\ b <= pr_xmax r) (mRange (yRange P y) m).
Proof.
  intros Hm.
  destruct (nth_error (_widths element) (Z.to_nat m)) as [e|] eqn:En.
  2: { apply nth_error_None in En. lia. }
  destruct (Hfit _ (nth_error_In _ _ En)) as (t & Ht & Ey & H0 & H1).
  apply Exists_exists. exists (run_of t m e). split; [|simpl; lia].
  unfold mRange, yRange. apply filter_In. split; [|simpl; apply Z.eqb_refl].
  apply filter_In. split; [|simpl; apply Z.eqb_eq; lia].
  apply sortRuns_in. apply primary_runs_in. exists t, (Z.to_nat m), e.
  repeat split; auto; [lia|]. f_equal. lia.
Qed.

Lemma target_run_in (m : Z) :
  0 <= m < _yRange element ->
  exists r, In r P /\ pr_y r = y /\ pr_m r = m.
Proof.
  intros Hm. pose proof (target_run Hm) as H.
  apply Exists_exists in H as (r & Hr & _).
  unfold mRange, yRange in Hr. apply filter_In in Hr as [Hr Em].
  apply filter_In in Hr as [Hr Ey]. apply Z.eqb_eq in Em. apply Z.eqb_eq in Ey.
  eauto.
Qed.

Lemma target_row_count : _yRange element <= Z.of_nat (length (yRange P y)).
Proof.
  rewrite HM. apply inj_le. apply distinct_keys_length. intros i Hi.
  destruct (@target_run_in (Z.of_nat i) ltac:(lia)) as (r & Hr & Ey & Em).
  exists r. split; [|exact Em]. unfold yRange. apply filter_In.
  split; [exact Hr|]. now apply Z.eqb_eq.
Qed.

Lemma shrink_row_target (f : Footprint) (px : Z) :
  a <= px <= b -> covers (_spans (shrink_row element P f y)) px y.
Proof.
  intros Hpx. unfold shrink_row.
  pose proof target_row_count as Hcount.
  destruct (Z.ltb_spec (Z.of_nat (length (yRange P y))) (_yRange element)); [lia|].
  apply add_runs_holds with (lo := a) (hi := b); [|exact Hpx].
  apply good_fold_holds; try lia.
  intros m Hm. split.
  - apply (mRange_chain y m HL Hrows).
  - apply target_run. lia.
Qed.

Lemma target_row_visited :
  exists front back P' P'',
    P = front :: P' /\ rev P = back :: P'' /\ pr_y front <= y <= pr_y back.
Proof.
  destruct (@target_run_in 0 ltac:(lia)) as (r0 & Hr0 & Ey & _).
  pose proof (sortRuns_sorted
                (flat_map (fun span => span_runs span 0 (_widths element)) L)) as Hs.
  fold P in Hs.
  destruct P as [|front P'] eqn:EP; [destruct Hr0|].
  destruct (rev (front :: P')) as [|back P''] eqn:ER.
  { apply (f_equal (@length _)) in ER. rewrite length_rev in ER. discriminate. }
  exists front, back, P', P''. split; [reflexivity|]. split; [reflexivity|].
  assert (Hlo : pr_y front <= pr_y r0).
  { inversion Hs as [|? ? _ Hall]; subst. destruct Hr0 as [<-|Hr0]; [lia|].
    rewrite Forall_forall in Hall. specialize (Hall _ Hr0).
    unfold run_le in Hall. lia. }
  assert (Hhi : pr_y r0 <= pr_y back).
  { apply rev_eq_cons in ER. rewrite ER in Hs, Hr0.
    apply StronglySorted_snoc in Hs as [_ Hall].
    apply in_app_or in Hr0 as [Hr0|[<-|[]]]; [|lia].
    rewrite Forall_forall in Hall. specialize (Hall _ Hr0).
    unfold run_le in Hall. lia. }
  lia.
Qed.

(** The erosion of a footprint whose spans are [L] covers the interval. *)
Lemma shrinkFootprintImpl_target (g : Footprint) :
  _spans g = L ->
  exists s,
    shrinkFootprintImpl g element = Ok s /\
    forall px, a <= px <= b -> covers (_spans s) px y.
Proof.
  intros EL. unfold shrinkFootprintImpl, Footprint_new.
  change (0 <? 0) with false. cbn [bind]. rewrite EL. fold P.
  destruct target_row_visited as (front & back & P' & P'' & EP & ER & Hy).
  rewrite EP in ER. rewrite EP. cbn iota. rewrite ER. rewrite <- EP.
  eexists. split; [reflexivity|]. intros px Hpx.
  unfold set_peaks. cbn [_spans]. apply normalize_covers.
  assert (Hin : In y (columns (pr_y front) (Z.to_nat (pr_y back - pr_y front + 1)))).
  { apply in_columns. lia. }
  apply in_split in Hin as (ys1 & ys2 & ->).
  rewrite fold_left_app. cbn [fold_left].
  apply shrink_rows_mono. now apply shrink_row_target.
Qed.

End ErosionTarget.

(* ------------------------------------------------------------------ *)
(** ** Claims on growing and shrinking *)

Lemma diamond_rows_wf (r : Z) :
  Forall span_wf (_widths (StructuringElement_shape DIAMOND r)).
Proof.
  unfold StructuringElement_shape. cbn [_widths].
  apply Forall_forall. intros e He. apply in_map_iff in He as (dy & <- & Hdy).
  apply in_columns in Hdy. unfold span_wf, element_row. simpl. lia.
Qed.

Lemma diamond_yRange (r : Z) :
  0 <= r ->
  _yRange (StructuringElement_shape DIAMOND r)
  = Z.of_nat (length (_widths (StructuringElement_shape DIAMOND r))).
Proof.
  intros Hr. unfold StructuringElement_shape. cbn [_widths _yRange].
  rewrite length_map, length_columns. lia.
Qed.

Lemma sum_widths_pos (l : list Span) :
  l <> [] -> Forall span_wf l -> 0 < sum_widths l.
Proof.
  intros Hne Hwf. destruct l as [|s l]; [contradiction|].
  inversion Hwf as [|? ? Hs Hl]; subst. simpl.
  assert (0 <= sum_widths l).
  { clear -Hl. induction Hl as [|t l Ht _ IH]; simpl; [lia|].
    unfold span_wf, getWidth in *. lia. }
  unfold span_wf, getWidth in *. lia.
Qed.

(** C4: for every normalized non-empty footprint and every radius r > 0,
    growing the footprint by r with the diamond element and shrinking the
    result by r with the same element both return, and every pixel of the
    original footprint is a pixel of the result. *)
Theorem grow_then_shrink_covers (f : Footprint) (r : Z) :
  normalized_inv f -> _spans f <> [] -> 0 < r ->
  exists g s,
    growFootprint f r false = Ok g /\
    shrinkFootprint g r false = Ok s /\
    forall x y, covers (_spans f) x y -> covers (_spans s) x y.
Proof.
  intros Hinv Hne Hr.
  pose proof (ni_wf Hinv) as Hwf.
  pose proof (sum_widths_pos Hne Hwf) as Hpos. rewrite <- (ni_area Hinv) in Hpos.
  set (el := StructuringElement_shape DIAMOND r).
  destruct (@growFootprintImpl_spec f el Hwf (diamond_rows_wf r))
    as (g & Eg & Hgs & Hgw & Hfit).
  assert (Egrow : growFootprint f r false = Ok g).
  { unfold growFootprint. destruct (Z.leb_spec r 0); [lia|].
    destruct (Z.eqb_spec (_area f) 0); [lia|]. exact Eg. }
  assert (Hshrink : forall s0, In s0 (_spans f) ->
            exists s, shrinkFootprint g r false = Ok s /\
                      forall px, getX0 s0 <= px <= getX1 s0 -> covers (_spans s) px (getY s0)).
  { intros s0 Hs0. unfold shrinkFootprint. fold el.
    apply (@shrinkFootprintImpl_target (_spans g) el Hgs (diamond_rows_wf r));
      try reflexivity.
    - apply diamond_yRange. lia.
    - unfold el, StructuringElement_shape. cbn [_yRange]. lia.
    - rewrite Forall_forall in Hwf. apply (Hwf _ Hs0).
    - intros e He. destruct (Hfit s0 e Hs0 He) as (t & Ht & Hy & H0 & H1).
      exists t. auto. }
  destruct (_spans f) as [|s1 rest] eqn:Ef; [contradiction|].
  destruct (Hshrink s1 ltac:(now left)) as (s & Es & _).
  exists g, s. split; [exact Egrow|]. split; [exact Es|].
  intros x y (s0 & Hs0 & Hc). apply span_contains_iff in Hc as [Hx ->].
  destruct (Hshrink s0 Hs0) as (s' & Es' & Hcov).
  rewrite Es in Es'. injection Es' as <-. now apply Hcov.
Qed.

Lemma grow_then_shrink_covers_witness :
  exists g s,
    growFootprint (normalize (addSpan Footprint_default 0 0 3)) 1 false = Ok g /\
    shrinkFootprint g 1 false = Ok s /\
    forall x y, covers (_spans (normalize (addSpan Footprint_default 0 0 3))) x y ->
                covers (_spans s) x y.
Proof.
  apply (@grow_then_shrink_covers (normalize (addSpan Footprint_default 0 0 3)) 1).
  - apply normalize_unflagged_inv; [reflexivity|].
    repeat constructor; unfold span_wf; simpl; lia.
  - simpl. discriminate.
  - lia.
Defined.

(* ------------------------------------------------------------------ *)
(** ** The bounding box kept by addSpan *)

Lemma box_include_bounds (b : Box2I) (x y : Z) :
  0 < getWidthB b -> 0 < getHeightB b ->
  getMinX (box_include b x y) = Z.min (getMinX b) x /\
  getMaxX (box_include b x y) = Z.max (getMaxX b) x /\
  getMinY (box_include b x y) = Z.min (getMinY b) y /\
  getMaxY (box_include b x y) = Z.max (getMaxY b) y /\
  0 < getWidthB (box_include b x y) /\ 0 < getHeightB (box_include b x y).
Proof.
  intros Hw Hh. unfold box_include, isEmpty.
  destruct (Z.eqb_spec (getWidthB b) 0); [lia|]. cbn [andb].
  unfold getMaxX, getMaxY. cbn [getMinX getMinY getWidthB getHeightB].
  destruct (Z.ltb_spec x (getMinX b)); destruct (Z.ltb_spec (getMinX b + getWidthB b - 1) x);
    destruct (Z.ltb_spec y (getMinY b)); destruct (Z.ltb_spec (getMinY b + getHeightB b - 1) y);
    lia.
Qed.

Lemma box_include_empty (x y : Z) : box_include emptyBox x y = mkBox x y 1 1.
Proof. reflexivity. Qed.

(** The box [b] holds every span of [l] and each of its sides is reached:
    [tight_bbox], spelled out with the bounds of the box. *)
Lemma tight_bbox_snoc (b : Box2I) (l : list Span) (y x0 x1 : Z) :
  x0 <= x1 -> tight_bbox b l ->
  tight_bbox (box_include (box_include b x0 y) x1 y) (l ++ [mkSpan y x0 x1]).
Proof.
  intros Hx Ht. destruct l as [|s0 l].
  - simpl in Ht. subst b. rewrite box_include_empty.
    destruct (@box_include_bounds (mkBox x0 y 1 1) x1 y) as (H1 & H2 & H3 & H4 & H5 & H6);
      [simpl; lia|simpl; lia|].
    set (b' := box_include (mkBox x0 y 1 1) x1 y) in *.
    cbn [app tight_bbox]. unfold getMaxX, getMaxY in *.
    cbn [getMinX getMinY getWidthB getHeightB] in *.
    split; [assumption|]. split; [assumption|].
    split; [intros s [<-|[]]; cbn [getY getX0 getX1]; lia|].
    repeat split; exists (mkSpan y x0 x1);
      (split; [now left|cbn [getY getX0 getX1]; lia]).
  - cbn [tight_bbox] in Ht. destruct Ht as (Hw & Hh & Hall & Ha & Hb & Hc & Hd).
    destruct (@box_include_bounds b x0 y Hw Hh) as (A1 & A2 & A3 & A4 & A5 & A6).
    destruct (@box_include_bounds (box_include b x0 y) x1 y A5 A6)
      as (B1 & B2 & B3 & B4 & B5 & B6).
    set (b' := box_include (box_include b x0 y) x1 y) in *.
    change ((s0 :: l) ++ [mkSpan y x0 x1]) with (s0 :: (l ++ [mkSpan y x0 x1])).
    cbn [tight_bbox]. split; [assumption|]. split; [assumption|].
    assert (Hin : forall s, In s (s0 :: l ++ [mkSpan y x0 x1]) <->
                            In s (s0 :: l) \/ s = mkSpan y x0 x1).
    { intros s. change (s0 :: l ++ [mkSpan y x0 x1]) with ((s0 :: l) ++ [mkSpan y x0 x1]).
      rewrite in_app_iff. simpl. intuition congruence. }
    split.
    { intros s Hs. apply Hin in Hs as [Hs| ->].
      - specialize (Hall s Hs). lia.
      - cbn [getY getX0 getX1]. lia. }
    destruct Ha as (sa & Hsa & Ea). destruct Hb as (sb & Hsb & Eb).
    destruct Hc as (sc & Hsc & Ec). destruct Hd as (sd & Hsd & Ed).
    repeat split.
    + destruct (Z.le_gt_cases (getMinX b) x0).
      * exists sa. split; [apply Hin; now left|lia].
      * exists (mkSpan y x0 x1). split; [apply Hin; now right|cbn [getY getX0 getX1]; lia].
    + destruct (Z.le_gt_cases x1 (getMaxX b)).
      * exists sb. split; [apply Hin; now left|lia].
      * exists (mkSpan y x0 x1). split; [apply Hin; now right|cbn [getY getX0 getX1]; lia].
    + destruct (Z.le_gt_cases (getMinY b) y).
      * exists sc. split; [apply Hin; now left|lia].
      * exists (mkSpan y x0 x1). split; [apply Hin; now right|cbn [getY getX0 getX1]; lia].
    + destruct (Z.le_gt_cases y (getMaxY b)).
      * exists sd. split; [apply Hin; now left|lia].
      * exists (mkSpan y x0 x1). split; [apply Hin; now right|cbn [getY getX0 getX1]; lia].
Qed.

Lemma addSpan_counted (f : Footprint) (y x0 x1 : Z) :
  counted f -> counted (addSpan f y x0 x1).
Proof.
  intros [Ha Hb]. unfold addSpan.
  destruct (Z.ltb_spec x1 x0); split; cbn [_spans _area _bbox];
    try (apply tight_bbox_snoc; auto; lia);
    rewrite sum_widths_app, Ha; simpl; lia.
Qed.

Lemma tight_bbox_unique (b b' : Box2I) (l : list Span) :
  tight_bbox b l -> tight_bbox b' l -> b = b'.
Proof.
  destruct l as [|s l]; cbn [tight_bbox]; [congruence|].
  intros (Hw & Hh & Hall & (sa & Hsa & Ea) & (sb & Hsb & Eb) & (sc & Hsc & Ec) & (sd & Hsd & Ed))
         (Hw' & Hh' & Hall' & (sa' & Hsa' & Ea') & (sb' & Hsb' & Eb') & (sc' & Hsc' & Ec')
          & (sd' & Hsd' & Ed')).
  pose proof (Hall _ Hsa') as A1. pose proof (Hall _ Hsb') as A2.
  pose proof (Hall _ Hsc') as A3. pose proof (Hall _ Hsd') as A4.
  pose proof (Hall' _ Hsa) as B1. pose proof (Hall' _ Hsb) as B2.
  pose proof (Hall' _ Hsc) as B3. pose proof (Hall' _ Hsd) as B4.
  destruct b as [mx my w h], b' as [mx' my' w' h'].
  unfold getMaxX, getMaxY in *. cbn [getMinX getMinY getWidthB getHeightB] in *.
  f_equal; lia.
Qed.

Lemma normalized_inv_of_gap (f : Footprint) :
  Forall span_wf (_spans f) -> StronglySorted gap (_spans f) -> counted f ->
  normalized_inv f.
Proof.
  intros Hwf Hs [Ha Hb]. split; auto.
  - now apply gap_sorted_yx.
  - now apply gap_no_touch.
Qed.

Lemma normalized_inv_counted (f : Footprint) : normalized_inv f -> counted f.
Proof. intros H. split; [apply (ni_area H)|apply (ni_bbox H)]. Qed.

Lemma normalize_peaks_region (f : Footprint) :
  _peaks (normalize f) = _peaks f /\ _region (normalize f) = _region f.
Proof.
  unfold normalize. destruct (_normalized f); [auto|].
  destruct (sortSpans (_spans f)); auto.
Qed.

(** On a footprint that satisfies the invariant, normalize() changes
    nothing but the flag. *)
Lemma normalize_canonical (f : Footprint) :
  normalized_inv f -> normalize f = set_normalized f true.
Proof.
  intros Hinv. destruct (_normalized f) eqn:Hflag.
  - rewrite (normalize_flagged _ Hflag). destruct f; simpl in *. now subst.
  - destruct (normalize_unflagged_inv f Hflag (ni_wf Hinv)) as [Hinv' Hflag'].
    destruct (normalize_peaks_region f) as [Hp Hr].
    assert (Hs : _spans (normalize f) = _spans f).
    { apply gap_sorted_unique; try apply normalized_inv_gap; auto;
        try apply (ni_wf Hinv'); try apply (ni_wf Hinv).
      intros x y. apply normalize_covers. }
    assert (Ha : _area (normalize f) = _area f).
    { rewrite (ni_area Hinv'), (ni_area Hinv), Hs. reflexivity. }
    assert (Hb : _bbox (normalize f) = _bbox f).
    { pose proof (ni_bbox Hinv') as H1. rewrite Hs in H1.
      exact (@tight_bbox_unique _ _ _ H1 (ni_bbox Hinv)). }
    destruct (normalize f); simpl in *. unfold set_normalized. now subst.
Qed.

(** ** Loops of addSpan *)

Lemma span_wf_ends (s : Span) :
  span_wf s -> mkSpan (getY s) (Z.min (getX0 s) (getX1 s)) (Z.max (getX0 s) (getX1 s)) = s.
Proof.
  unfold span_wf. intros H. destruct s as [y a b]. simpl in *.
  rewrite Z.min_l, Z.max_r by lia. reflexivity.
Qed.

Lemma fold_addSpan_spans (l : list Span) :
  Forall span_wf l ->
  forall f, _spans (fold_left (fun f s => addSpan f (getY s) (getX0 s) (getX1 s)) l f)
            = _spans f ++ l.
Proof.
  induction 1 as [|s l Hs _ IH]; intros f; cbn [fold_left].
  - now rewrite app_nil_r.
  - rewrite IH, addSpan_spans, (@span_wf_ends s Hs), <- app_assoc. reflexivity.
Qed.

Lemma fold_addSpan_counted (l : list Span) :
  forall f, counted f ->
            counted (fold_left (fun f s => addSpan f (getY s) (getX0 s) (getX1 s)) l f).
Proof.
  induction l as [|s l IH]; intros f Hf; cbn [fold_left]; auto.
  apply IH. now apply addSpan_counted.
Qed.

Lemma fold_addSpan_rest (l : list Span) :
  forall f,
    let g := fold_left (fun f s => addSpan f (getY s) (getX0 s) (getX1 s)) l f in
    _peaks g = _peaks f /\ _region g = _region f /\
    _normalized g = match l with [] => _normalized f | _ :: _ => false end.
Proof.
  induction l as [|s l IH]; intros f; cbn [fold_left]; [auto|].
  destruct (IH (addSpan f (getY s) (getX0 s) (getX1 s))) as (Hp & Hr & Hn).
  cbn zeta. rewrite Hp, Hr, Hn. unfold addSpan.
  destruct (getX1 s <? getX0 s); cbn [_peaks _region _normalized];
    destruct l; auto.
Qed.

Lemma fold_addSpan_bbox (l : list Span) :
  forall f,
    0 < getWidthB (_bbox f) -> 0 < getHeightB (_bbox f) ->
    (forall s, In s l -> box_contains (_bbox f) (getX0 s) (getY s) = true /\
                         box_contains (_bbox f) (getX1 s) (getY s) = true) ->
    _bbox (fold_left (fun f s => addSpan f (getY s) (getX0 s) (getX1 s)) l f) = _bbox f.
Proof.
  induction l as [|s l IH]; intros f Hw Hh Hin; cbn [fold_left]; [reflexivity|].
  destruct (Hin s (or_introl eq_refl)) as [H0 H1].
  assert (E : _bbox (addSpan f (getY s) (getX0 s) (getX1 s)) = _bbox f).
  { unfold addSpan. destruct (getX1 s <? getX0 s); cbn [_bbox];
      rewrite !box_include_inside; auto; rewrite ?box_include_inside; auto. }
  rewrite IH; rewrite E; auto. intros t Ht. apply Hin. now right.
Qed.

Lemma tight_bbox_encloses (b : Box2I) (l : list Span) (s : Span) :
  tight_bbox b l -> Forall span_wf l -> In s l ->
  0 < getWidthB b /\ 0 < getHeightB b /\
  box_contains b (getX0 s) (getY s) = true /\ box_contains b (getX1 s) (getY s) = true.
Proof.
  intros Ht Hwf Hs. destruct l as [|s0 l]; [contradiction|].
  cbn [tight_bbox] in Ht. destruct Ht as (Hw & Hh & Hall & _).
  specialize (Hall s Hs). rewrite Forall_forall in Hwf. specialize (Hwf s Hs).
  unfold span_wf in Hwf. rewrite !box_contains_iff. repeat split; lia.
Qed.

Lemma Footprint_copy_id (f : Footprint) :
  Forall span_wf (_spans f) -> tight_bbox (_bbox f) (_spans f) -> Footprint_copy f = f.
Proof.
  intros Hwf Ht. unfold Footprint_copy.
  set (f0 := mkFootprint [] 0 (_bbox f) (_peaks f) (_region f) true).
  destruct (fold_addSpan_rest (_spans f) f0) as (Hp & Hr & _).
  cbn zeta in Hp, Hr. rewrite Hp, Hr, (@fold_addSpan_spans _ Hwf f0).
  assert (Hb : _bbox (fold_left (fun f s => addSpan f (getY s) (getX0 s) (getX1 s))
                                (_spans f) f0) = _bbox f).
  { destruct (_spans f) as [|s l] eqn:El; [reflexivity|].
    destruct (@tight_bbox_encloses (_bbox f) (s :: l) s Ht Hwf (or_introl eq_refl))
      as (Hw & Hh & _).
    apply (@fold_addSpan_bbox (s :: l) f0); auto.
    intros t Hin. now apply (@tight_bbox_encloses (_bbox f) (s :: l) t Ht Hwf). }
  rewrite Hb. destruct f; reflexivity.
Qed.

(* ------------------------------------------------------------------ *)
(** ** contains *)

Lemma contains_spec (f : Footprint) (x y : Z) :
  contains f x y = true <->
  box_contains (_bbox f) x y = true /\ covers (_spans f) x y.
Proof.
  unfold contains, covers. destruct (box_contains (_bbox f) x y).
  - rewrite existsb_exists. tauto.
  - split; [discriminate|]. intros [H _]. discriminate H.
Qed.

Lemma tight_bbox_covers (b : Box2I) (l : list Span) (x y : Z) :
  tight_bbox b l -> covers l x y -> box_contains b x y = true.
Proof.
  intros Ht (s & Hs & Hc). apply span_contains_iff in Hc as [Hx ->].
  destruct l as [|s0 l]; [contradiction|].
  cbn [tight_bbox] in Ht. destruct Ht as (_ & _ & Hall & _).
  specialize (Hall s Hs). rewrite box_contains_iff. lia.
Qed.

(** X1: on a footprint whose bounding box is the tight box of its spans,
    [contains] answers true exactly for the pixels that lie in some span;
    the test of the bounding box that comes first loses none of them. *)
Theorem contains_iff_covers (f : Footprint) (x y : Z) :
  tight_bbox (_bbox f) (_spans f) ->
  (contains f x y = true <-> covers (_spans f) x y).
Proof.
  intros Ht. rewrite contains_spec. split; [tauto|].
  intros Hc. split; [|assumption]. eapply tight_bbox_covers; eauto.
Qed.

Lemma contains_iff_covers_witness :
  let f := addSpan (addSpan Footprint_default 2 4 6) 1 0 3 in
  contains f 5 2 = true <-> covers (_spans f) 5 2.
Proof.
  intros f. apply (@contains_iff_covers f 5 2).
  apply ct_bbox. unfold f. repeat apply addSpan_counted.
  split; reflexivity.
Defined.

(* ------------------------------------------------------------------ *)
(** ** Footprints built from a list of spans *)

(** X2: the constructor from a list of spans (each with x0 <= x1) stores
    the spans in the order given, with the area the sum of their widths
    and the bounding box tight around them; normalize() then yields a
    footprint that satisfies the invariant and covers the same pixels. *)
Theorem Footprint_fromSpans_counted (l : list Span) (region : Box2I) :
  Forall span_wf l ->
  let f := Footprint_fromSpans l region in
  _spans f = l /\ _area f = sum_widths l /\ tight_bbox (_bbox f) l /\
  _normalized f = false /\
  normalized_inv (normalize f) /\
  (forall x y, covers (_spans (normalize f)) x y <-> covers l x y).
Proof.
  intros Hwf f. unfold f, Footprint_fromSpans.
  set (f0 := mkFootprint [] 0 emptyBox (mkCatalog minimalSchema []) region false).
  assert (H0 : counted f0) by (split; reflexivity).
  pose proof (fold_addSpan_counted l H0) as [Ha Hb].
  pose proof (@fold_addSpan_spans l Hwf f0) as Hs. cbn [_spans app f0] in Hs.
  destruct (fold_addSpan_rest l f0) as (_ & _ & Hn). cbn zeta in Hn.
  assert (Hflag : _normalized (fold_left (fun f s => addSpan f (getY s) (getX0 s) (getX1 s))
                                         l f0) = false).
  { rewrite Hn. destruct l; reflexivity. }
  rewrite Hs in Ha, Hb.
  split; [exact Hs|]. split; [exact Ha|]. split; [exact Hb|]. split; [exact Hflag|].
  split.
  - apply normalize_unflagged_inv; [assumption|now rewrite Hs].
  - intros x y. rewrite normalize_covers, Hs. tauto.
Qed.

Lemma Footprint_fromSpans_counted_witness :
  let f := Footprint_fromSpans [mkSpan 2 4 6; mkSpan 1 0 3; mkSpan 2 0 3] emptyBox in
  _area f = 11 /\ _spans (normalize f) = [mkSpan 1 0 3; mkSpan 2 0 6].
Proof.
  intros f.
  destruct (@Footprint_fromSpans_counted [mkSpan 2 4 6; mkSpan 1 0 3; mkSpan 2 0 3] emptyBox)
    as (_ & Ha & _).
  - repeat constructor; unfold span_wf; simpl; lia.
  - split; [exact Ha|reflexivity].
Defined.

(* ------------------------------------------------------------------ *)
(** ** The rectangle *)

Lemma rect_rows_in (x0 x1 : Z) (n : nat) :
  forall y s, In s (rect_rows x0 x1 y n) <->
              getX0 s = x0 /\ getX1 s = x1 /\ y <= getY s < y + Z.of_nat n.
Proof.
  induction n as [|n IH]; intros y s; cbn [rect_rows In].
  - lia.
  - rewrite IH. split.
    + intros [<-|H]; simpl; lia.
    + intros (H0 & H1 & Hy). destruct (Z.eq_dec (getY s) y) as [E|E].
      * left. destruct s; simpl in *. now subst.
      * right. lia.
Qed.

Lemma rect_rows_sorted (x0 x1 : Z) (n : nat) :
  x0 <= x1 ->
  forall y, StronglySorted gap (rect_rows x0 x1 y n) /\ Forall span_wf (rect_rows x0 x1 y n).
Proof.
  intros Hx. induction n as [|n IH]; intros y; cbn [rect_rows].
  - split; constructor.
  - destruct (IH (y + 1)) as [Hs Hw]. split.
    + constructor; [assumption|]. apply Forall_forall. intros s Hin.
      apply rect_rows_in in Hin. left. simpl. lia.
    + constructor; [exact Hx|assumption].
Qed.

Lemma rect_rows_widths (x0 x1 : Z) (n : nat) :
  forall y, sum_widths (rect_rows x0 x1 y n) = Z.of_nat n * (x1 - x0 + 1).
Proof.
  induction n as [|n IH]; intros y; cbn [rect_rows sum_widths fold_right]; [lia|].
  fold (sum_widths (rect_rows x0 x1 (y + 1) n)). rewrite IH.
  unfold getWidth. cbn [getX0 getX1]. lia.
Qed.

Lemma rect_rows_covers (x0 x1 : Z) (n : nat) (y px py : Z) :
  covers (rect_rows x0 x1 y n) px py <-> x0 <= px <= x1 /\ y <= py < y + Z.of_nat n.
Proof.
  unfold covers. split.
  - intros (s & Hin & Hc). apply rect_rows_in in Hin. apply span_contains_iff in Hc. lia.
  - intros [Hx Hy]. exists (mkSpan py x0 x1). split.
    + apply rect_rows_in. simpl. lia.
    + apply span_contains_iff. simpl. lia.
Qed.

Lemma Footprint_rect_inv (x0 y0 W H : Z) (region : Box2I) :
  0 < W -> 0 < H ->
  normalized_inv (Footprint_rect (mkBox x0 y0 W H) region).
Proof.
  intros HW HH. rewrite Footprint_rect_spec by assumption.
  destruct (@rect_rows_sorted x0 (x0 + W - 1) (Z.to_nat H) ltac:(lia) y0) as [Hs Hw].
  apply normalized_inv_of_gap; cbn [_spans _area _bbox]; auto.
  split; cbn [_spans _area _bbox].
  - rewrite rect_rows_widths, Z2Nat.id by lia. nia.
  - destruct (Z.to_nat H) as [|n] eqn:En; [lia|].
    cbn [rect_rows tight_bbox]. fold (rect_rows x0 (x0 + W - 1) (y0 + 1) n).
    change (mkSpan y0 x0 (x0 + W - 1) :: rect_rows x0 (x0 + W - 1) (y0 + 1) n)
      with (rect_rows x0 (x0 + W - 1) y0 (S n)).
    unfold getMaxX, getMaxY. cbn [getMinX getMinY getWidthB getHeightB].
    split; [assumption|]. split; [assumption|]. split.
    { intros s Hin. apply rect_rows_in in Hin. lia. }
    repeat split.
    + exists (mkSpan y0 x0 (x0 + W - 1)). split; [apply rect_rows_in; simpl; lia|reflexivity].
    + exists (mkSpan y0 x0 (x0 + W - 1)). split; [apply rect_rows_in; simpl; lia|reflexivity].
    + exists (mkSpan y0 x0 (x0 + W - 1)). split; [apply rect_rows_in; simpl; lia|reflexivity].
    + exists (mkSpan (y0 + H - 1) x0 (x0 + W - 1)).
      split; [apply rect_rows_in; simpl; lia|reflexivity].
Qed.

(** X3: the rectangle constructor, given a box of positive width W and
    height H, yields a footprint that satisfies the normalization
    invariant with the flag set, of area W*H, with the box as its bounding
    box, whose pixels are exactly the points of the box. *)
Theorem Footprint_rect_normalized (x0 y0 W H : Z) (region : Box2I) :
  0 < W -> 0 < H ->
  let f := Footprint_rect (mkBox x0 y0 W H) region in
  normalized_inv f /\ _normalized f = true /\ _area f = W * H /\
  _bbox f = mkBox x0 y0 W H /\
  (forall x y, covers (_spans f) x y <-> box_contains (mkBox x0 y0 W H) x y = true).
Proof.
  intros HW HH f. split; [now apply Footprint_rect_inv|].
  unfold f. rewrite Footprint_rect_spec by assumption. cbn [_normalized _area _bbox _spans].
  repeat split; auto.
  - intros Hc. apply rect_rows_covers in Hc. apply box_contains_iff.
    unfold getMaxX, getMaxY. cbn [getMinX getMinY getWidthB getHeightB]. lia.
  - intros Hb. apply box_contains_iff in Hb. apply rect_rows_covers.
    unfold getMaxX, getMaxY in Hb. cbn [getMinX getMinY getWidthB getHeightB] in Hb. lia.
Qed.

Lemma Footprint_rect_normalized_witness :
  let f := Footprint_rect (mkBox 10 20 4 3) emptyBox in
  normalized_inv f /\ _normalized f = true /\ _area f = 4 * 3 /\
  _bbox f = mkBox 10 20 4 3 /\
  (forall x y, covers (_spans f) x y <-> box_contains (mkBox 10 20 4 3) x y = true).
Proof. apply (@Footprint_rect_normalized 10 20 4 3 emptyBox); lia. Defined.

(* ------------------------------------------------------------------ *)
(** ** addSpanInSeries on a span that is in series *)

Lemma gap_sorted_snoc (l : list Span) (last s : Span) :
  StronglySorted gap (l ++ [last]) -> Forall span_wf (l ++ [last]) ->
  gap last s -> StronglySorted gap ((l ++ [last]) ++ [s]).
Proof.
  intros Hs Hwf Hg. apply StronglySorted_snoc. split; [assumption|].
  apply StronglySorted_snoc in Hs as [_ Hall]. apply Forall_snoc in Hwf as [_ Hwl].
  apply Forall_snoc. split; [|assumption].
  revert Hall. apply Forall_weaken. intros t Ht. eapply gap_trans; eauto.
Qed.

Lemma push_counted (e : Footprint) (s : Span) :
  span_wf s -> counted e -> counted (push e s).
Proof.
  intros Hwf He. unfold push.
  destruct (addSpan_counted (getY s) (getX0 s) (getX1 s) He) as [Ha Hb].
  split; assumption.
Qed.

Lemma push_inv (e : Footprint) (s : Span) :
  span_wf s -> normalized_inv e ->
  (forall before last, _spans e = before ++ [last] -> gap last s) ->
  normalized_inv (push e s).
Proof.
  intros Hwf He Hg.
  pose proof (normalized_inv_gap He) as Hs. pose proof (ni_wf He) as Hw.
  apply normalized_inv_of_gap.
  - rewrite push_spans by assumption. apply Forall_snoc. split; assumption.
  - rewrite push_spans by assumption.
    destruct (rev (_spans e)) as [|last before] eqn:Er.
    + apply (f_equal (@rev Span)) in Er. rewrite rev_involutive in Er. rewrite Er.
      repeat constructor.
    + apply rev_eq_cons in Er. rewrite Er in *.
      apply gap_sorted_snoc; auto. eapply Hg; reflexivity.
  - apply push_counted; [assumption|]. now apply normalized_inv_counted.
Qed.

Lemma fold_push_inv (l : list Span) :
  forall e,
    normalized_inv e -> StronglySorted gap l -> Forall span_wf l -> precedes e l ->
    normalized_inv (fold_left push l e).
Proof.
  induction l as [|s l IH]; intros e He Hs Hwf Hp; cbn [fold_left]; [assumption|].
  inversion Hs as [|? ? Hs' Hall]; subst. inversion Hwf as [|? ? Hws Hwl]; subst.
  apply IH; auto.
  - apply push_inv; auto. now apply (@precedes_head e s l).
  - now apply precedes_push.
Qed.

(** The last span of the vector is extended to end at [x1]. *)
Lemma extend_last_inv (before : list Span) (last : Span) (x1 : Z)
    (b : Box2I) (area : Z) :
  Forall span_wf (before ++ [last]) -> StronglySorted gap (before ++ [last]) ->
  area = sum_widths (before ++ [last]) -> tight_bbox b (before ++ [last]) ->
  getX1 last < x1 ->
  let last' := mkSpan (getY last) (getX0 last) x1 in
  Forall span_wf (before ++ [last']) /\ StronglySorted gap (before ++ [last']) /\
  area + (x1 - getX1 last) = sum_widths (before ++ [last']) /\
  tight_bbox (box_include b x1 (getY last)) (before ++ [last']).
Proof.
  intros Hwf Hs Ha Ht Hx last'.
  apply Forall_snoc in Hwf as [Hwb Hwl]. apply StronglySorted_snoc in Hs as [Hsbef Hall].
  unfold span_wf in Hwl.
  split; [apply Forall_snoc; split; [assumption|unfold span_wf, last'; simpl; lia]|].
  split.
  { apply StronglySorted_snoc. split; [assumption|].
    revert Hall. apply Forall_weaken. intros t. unfold gap, last'. simpl. lia. }
  split.
  { rewrite Ha, !sum_widths_app. simpl. unfold getWidth, last'. simpl. lia. }
  assert (Hin : forall s, In s (before ++ [last']) <-> In s before \/ s = last').
  { intros s. rewrite in_app_iff. simpl. intuition congruence. }
  assert (Hin0 : forall s, In s (before ++ [last]) <-> In s before \/ s = last).
  { intros s. rewrite in_app_iff. simpl. intuition congruence. }
  assert (Hne : exists s0 l0, before ++ [last] = s0 :: l0).
  { destruct before; simpl; eauto. }
  destruct Hne as (s0 & l0 & E0). rewrite E0 in Ht. cbn [tight_bbox] in Ht.
  rewrite <- E0 in Ht.
  destruct Ht as (Hw & Hh & Hencl & (sa & Hsa & Ea) & (sb & Hsb & Eb) & (sc & Hsc & Ec)
                  & (sd & Hsd & Ed)).
  destruct (@box_include_bounds b x1 (getY last) Hw Hh) as (B1 & B2 & B3 & B4 & B5 & B6).
  pose proof (Hencl last (proj2 (Hin0 last) (or_intror eq_refl))) as Hl.
  assert (Hne' : exists s1 l1, before ++ [last'] = s1 :: l1).
  { destruct before; simpl; eauto. }
  destruct Hne' as (s1 & l1 & E1). rewrite E1. cbn [tight_bbox]. rewrite <- E1.
  split; [assumption|]. split; [assumption|]. split.
  { intros s Hs. apply Hin in Hs as [Hs| ->].
    - specialize (Hencl s (proj2 (Hin0 s) (or_introl Hs))). lia.
    - unfold last'. simpl. lia. }
  assert (Hkeep : forall s, In s (before ++ [last]) ->
            exists s', In s' (before ++ [last']) /\ getX0 s' = getX0 s /\ getY s' = getY s /\
                       (s <> last -> s' = s)).
  { intros s Hs. apply Hin0 in Hs as [Hs| ->].
    - exists s. split; [apply Hin; now left|auto].
    - exists last'. split; [apply Hin; now right|]. unfold last'. simpl. tauto. }
  repeat split.
  - destruct (Hkeep sa Hsa) as (s' & Hs' & E & _). exists s'. split; [assumption|lia].
  - destruct (Z.le_gt_cases x1 (getMaxX b)).
    + destruct (Hkeep sb Hsb) as (s' & Hs' & _ & _ & Hsame).
      assert (sb <> last) by (intros ->; lia).
      exists sb. rewrite <- (Hsame H0). split; [assumption|]. rewrite (Hsame H0). lia.
    + exists last'. split; [apply Hin; now right|]. unfold last'. simpl. lia.
  - destruct (Hkeep sc Hsc) as (s' & Hs' & _ & E & _). exists s'. split; [assumption|lia].
  - destruct (Hkeep sd Hsd) as (s' & Hs' & _ & E & _). exists s'. split; [assumption|lia].
Qed.

(** X4: on a footprint that satisfies the normalization invariant,
    [addSpanInSeries] of a span (x0 <= x1) that comes after the last one,
    on a later row or on the same row past its end, returns, keeps the
    invariant, and adds exactly the pixels of the span; a span that starts
    one column past the last one extends it in place. *)
Theorem addSpanInSeries_keeps_invariant (f : Footprint) (y x0 x1 : Z) :
  normalized_inv f -> x0 <= x1 ->
  (forall before last, _spans f = before ++ [last] ->
     getY last < y \/ (getY last = y /\ getX1 last < x0)) ->
  exists f',
    addSpanInSeries f y x0 x1 = Ok f' /\ normalized_inv f' /\
    (forall px py, covers (_spans f') px py <->
                   covers (_spans f) px py \/ span_contains (mkSpan y x0 x1) px py = true).
Proof.
  intros Hinv Hx Hlast.
  destruct (rev (_spans f)) as [|last before] eqn:Er.
  - (* no span yet *)
    assert (Es : _spans f = []).
    { apply (f_equal (@rev Span)) in Er. now rewrite rev_involutive in Er. }
    exists (push f (mkSpan y x0 x1)). split; [|split].
    + apply (@addSpanInSeries_after f (mkSpan y x0 x1)); [exact Hx|].
      intros b l E. rewrite Es in E. destruct b; discriminate.
    + apply push_inv; auto. intros b l E. rewrite Es in E. destruct b; discriminate.
    + intros px py. rewrite push_spans by exact Hx. rewrite covers_app, covers_cons.
      pose proof (@covers_nil px py). tauto.
  - apply rev_eq_cons in Er.
    destruct (Hlast _ _ Er) as [Hy|[Hy Hx1]].
    + (* a later row *)
      exists (push f (mkSpan y x0 x1)).
      assert (Hg : forall b l, _spans f = b ++ [l] -> gap l (mkSpan y x0 x1)).
      { intros b l E. rewrite Er in E. apply app_inj_tail in E as [_ <-]. left. simpl. lia. }
      split; [|split].
      * apply (@addSpanInSeries_after f (mkSpan y x0 x1)); [exact Hx|exact Hg].
      * apply push_inv; auto.
      * intros px py. rewrite push_spans by exact Hx. rewrite covers_app, covers_cons.
        pose proof (@covers_nil px py). tauto.
    + destruct (Z.eq_dec x0 (getX1 last + 1)) as [Ec|Ec].
      * (* contiguous: the last span is extended *)
        subst y.
        pose proof (ni_wf Hinv) as Hwf. pose proof (normalized_inv_gap Hinv) as Hs.
        pose proof (ni_area Hinv) as Ha. pose proof (ni_bbox Hinv) as Hb.
        rewrite Er in Hwf, Hs, Ha, Hb.
        destruct (@extend_last_inv (rev before) last x1 (_bbox f) (_area f) Hwf Hs Ha Hb
                    ltac:(lia)) as (Hwf' & Hs' & Ha' & Hb').
        eexists. split; [|split].
        -- unfold addSpanInSeries. destruct (Z.ltb_spec x1 x0); [lia|].
           rewrite Er, rev_app_distr, rev_involutive. cbn [rev app].
           rewrite Z.eqb_refl, Ec, Z.eqb_refl. cbn [andb]. reflexivity.
        -- apply normalized_inv_of_gap; cbn [_spans _area _bbox]; auto.
           split; cbn [_spans _area _bbox].
           ++ rewrite <- Ha'. lia.
           ++ exact Hb'.
        -- intros px py. cbn [_spans]. rewrite Er, !covers_app, !covers_cons.
           pose proof (@covers_nil px py). rewrite !span_contains_iff. simpl.
           apply Forall_snoc in Hwf as [_ Hwl]. unfold span_wf in Hwl. intuition lia.
      * (* after a gap on the same row *)
        exists (push f (mkSpan y x0 x1)).
        assert (Hg : forall b l, _spans f = b ++ [l] -> gap l (mkSpan y x0 x1)).
        { intros b l E. rewrite Er in E. apply app_inj_tail in E as [_ <-].
          right. simpl. lia. }
        split; [|split].
        -- apply (@addSpanInSeries_after f (mkSpan y x0 x1)); [exact Hx|exact Hg].
        -- apply push_inv; auto.
        -- intros px py. rewrite push_spans by exact Hx. rewrite covers_app, covers_cons.
           pose proof (@covers_nil px py). tauto.
Qed.

Lemma addSpanInSeries_keeps_invariant_witness :
  exists f',
    addSpanInSeries (Footprint_rect (mkBox 0 0 4 1) emptyBox) 0 4 6 = Ok f' /\
    normalized_inv f' /\
    (forall px py, covers (_spans f') px py <->
                   covers (_spans (Footprint_rect (mkBox 0 0 4 1) emptyBox)) px py \/
                   span_contains (mkSpan 0 4 6) px py = true).
Proof.
  apply (@addSpanInSeries_keeps_invariant (Footprint_rect (mkBox 0 0 4 1) emptyBox) 0 4 6).
  - apply Footprint_rect_inv; lia.
  - lia.
  - intros before last E. right.
    change (_spans (Footprint_rect (mkBox 0 0 4 1) emptyBox)) with ([] ++ [mkSpan 0 0 3]) in E.
    apply app_inj_tail in E as [_ <-]. simpl. lia.
Defined.

(* ------------------------------------------------------------------ *)
(** ** Copies *)

(** X5: the copy constructor, on a footprint whose spans have x0 <= x1
    and whose bounding box is tight, gives back the footprint itself
    (spans in the same order, area, bounding box, peaks, region and flag);
    [growFootprint] with [nGrow <= 0] returns such a copy. *)
Theorem Footprint_copy_same (f : Footprint) (nGrow : Z) (isotropic : bool) :
  Forall span_wf (_spans f) -> tight_bbox (_bbox f) (_spans f) -> nGrow <= 0 ->
  Footprint_copy f = f /\ growFootprint f nGrow isotropic = Ok f.
Proof.
  intros Hwf Ht Hn. pose proof (@Footprint_copy_id f Hwf Ht) as E.
  split; [exact E|]. unfold growFootprint.
  destruct (Z.leb_spec nGrow 0); [|lia]. cbn [orb]. now rewrite E.
Qed.

Lemma Footprint_copy_same_witness :
  let f := Footprint_rect (mkBox 0 0 4 2) emptyBox in
  Footprint_copy f = f /\ growFootprint f 0 true = Ok f.
Proof.
  intros f.
  assert (Hinv : normalized_inv f) by (apply Footprint_rect_inv; lia).
  apply (@Footprint_copy_same f 0 true); [apply (ni_wf Hinv)|apply (ni_bbox Hinv)|lia].
Defined.



(* ------------------------------------------------------------------ *)
(** ** _checkNormalized *)

Lemma same_spans_refl (l : list Span) : same_spans l l = true.
Proof.
  induction l as [|s l IH]; [reflexivity|]. cbn [same_spans].
  now rewrite !Z.eqb_refl.
Qed.

Lemma same_spans_eq (a : list Span) :
  forall b, length a = length b -> same_spans a b = true -> a = b.
Proof.
  induction a as [|s a IH]; intros [|t b] Hlen H; try discriminate; [reflexivity|].
  cbn [same_spans] in H.
  destruct (Z.eqb_spec (getY s) (getY t)); [|discriminate].
  destruct (Z.eqb_spec (getX0 s) (getX0 t)); [|discriminate].
  destruct (Z.eqb_spec (getX1 s) (getX1 t)); [|discriminate].
  cbn [negb] in H. f_equal.
  - destruct s, t; simpl in *; congruence.
  - apply IH; [simpl in Hlen; congruence|assumption].
Qed.

Lemma Footprint_copy_fields (f : Footprint) :
  Forall span_wf (_spans f) ->
  _spans (Footprint_copy f) = _spans f /\ _area (Footprint_copy f) = _area f /\
  _normalized (Footprint_copy f) = _normalized f.
Proof.
  intros Hwf. unfold Footprint_copy. cbn [_spans _area _normalized].
  now rewrite (@fold_addSpan_spans _ Hwf).
Qed.

(** X7: on a footprint whose flag is unset (spans with x0 <= x1),
    [_checkNormalized] answers true exactly when the spans are sorted by
    (y, x0, x1), adjacent spans of one row do not touch, and the area is
    the sum of the widths; the bounding box is not looked at. *)
Theorem _checkNormalized_unflagged (foot : Footprint) :
  _normalized foot = false -> Forall span_wf (_spans foot) ->
  (_checkNormalized foot = true <->
   sorted_yx (_spans foot) /\ no_touch (_spans foot) /\
   _area foot = sum_widths (_spans foot)).
Proof.
  intros Hflag Hwf.
  destruct (@Footprint_copy_fields foot Hwf) as (Es & Ea & En).
  assert (Hwf0 : Forall span_wf (_spans (Footprint_copy foot))) by now rewrite Es.
  rewrite Hflag in En.
  destruct (normalize_unflagged_inv _ En Hwf0) as [Hinv _].
  assert (Hcov : forall x y, covers (_spans (normalize (Footprint_copy foot))) x y <->
                             covers (_spans foot) x y).
  { intros x y. rewrite normalize_covers, Es. tauto. }
  unfold _checkNormalized. cbn zeta.
  set (copy := normalize (Footprint_copy foot)) in *.
  split.
  - intros H.
    destruct (Z.eqb_spec (_area copy) (_area foot)) as [Eq|]; [|discriminate].
    destruct (Nat.eqb_spec (length (_spans copy)) (length (_spans foot))) as [El|];
      [|discriminate].
    cbn [negb] in H. apply same_spans_eq in H; [|congruence].
    rewrite H. split; [apply (ni_sorted Hinv)|]. split; [apply (ni_no_touch Hinv)|].
    rewrite <- Eq. apply (ni_area Hinv).
  - intros (Hs & Hn & Ha).
    assert (E : _spans copy = _spans foot).
    { apply gap_sorted_unique; auto.
      - now apply normalized_inv_gap.
      - now apply normalized_gap_sorted.
      - apply (ni_wf Hinv). }
    rewrite (ni_area Hinv), E, <- Ha, Z.eqb_refl, Nat.eqb_refl. cbn [negb].
    apply same_spans_refl.
Qed.

Lemma _checkNormalized_unflagged_witness :
  let foot := addSpan (addSpan Footprint_default 2 4 6) 1 0 3 in
  _checkNormalized foot = true <->
  sorted_yx (_spans foot) /\ no_touch (_spans foot) /\ _area foot = sum_widths (_spans foot).
Proof.
  intros foot. apply (@_checkNormalized_unflagged foot); [reflexivity|].
  repeat constructor; unfold span_wf; simpl; lia.
Defined.

(** X8: on a footprint whose flag is set (spans with x0 <= x1),
    [_checkNormalized] answers true whatever the spans, the area and the
    bounding box are: the copy it normalizes carries the flag, so
    normalize() leaves it as it is and the comparison is of the footprint
    with itself. *)
Theorem _checkNormalized_flagged (foot : Footprint) :
  _normalized foot = true -> Forall span_wf (_spans foot) ->
  _checkNormalized foot = true.
Proof.
  intros Hflag Hwf. destruct (@Footprint_copy_fields foot Hwf) as (Es & Ea & En).
  rewrite Hflag in En. unfold _checkNormalized. cbn zeta.
  rewrite (normalize_flagged _ En), Ea, Es, Z.eqb_refl, Nat.eqb_refl. cbn [negb].
  apply same_spans_refl.
Qed.

Lemma _checkNormalized_flagged_witness :
  exists f, flagged_unsorted = Ok f /\ ~ sorted_yx (_spans f) /\ _checkNormalized f = true.
Proof.
  eexists. split; [reflexivity|]. split.
  - cbn. intros H. inversion H as [|? ? _ Hall]; subst.
    inversion Hall as [|? ? Hlt _]; subst. discriminate Hlt.
  - apply _checkNormalized_flagged; [reflexivity|].
    repeat constructor; unfold span_wf; simpl; lia.
Defined.

(* ------------------------------------------------------------------ *)
(** ** Saving and reading the spans *)

Lemma readSpans_write (g f : Footprint) :
  readSpans g (write_spanCat f)
  = fold_left (fun f s => addSpan f (getY s) (getX0 s) (getX1 s)) (_spans f) g.
Proof.
  unfold readSpans, write_spanCat. revert g.
  induction (_spans f) as [|s l IH]; intros g; cbn [map fold_left]; [reflexivity|].
  apply IH.
Qed.

(** X9: saving the spans of a footprint that satisfies the invariant and
    reading them back into a fresh footprint restores the spans in order,
    the area and the bounding box; the flag is left unset unless there is
    no span, and normalize() then only sets it. *)
Theorem readSpans_restores (f : Footprint) :
  normalized_inv f ->
  let g := readSpans Footprint_default (write_spanCat f) in
  _spans g = _spans f /\ _area g = _area f /\ _bbox g = _bbox f /\
  _normalized g = match _spans f with [] => true | _ :: _ => false end /\
  normalize g = set_normalized g true.
Proof.
  intros Hinv g. unfold g. rewrite readSpans_write.
  assert (H0 : counted Footprint_default) by (split; reflexivity).
  pose proof (fold_addSpan_counted (_spans f) H0) as Hc.
  pose proof (@fold_addSpan_spans _ (ni_wf Hinv) Footprint_default) as Hs.
  destruct (fold_addSpan_rest (_spans f) Footprint_default) as (_ & _ & Hn).
  cbn zeta in Hn. cbn [_spans app Footprint_default] in Hs.
  set (h := fold_left (fun f s => addSpan f (getY s) (getX0 s) (getX1 s)) (_spans f)
                      Footprint_default) in *.
  destruct Hc as [Ha Hb]. rewrite Hs in Ha, Hb.
  split; [exact Hs|]. split; [now rewrite Ha, (ni_area Hinv)|].
  split; [exact (@tight_bbox_unique _ _ _ Hb (ni_bbox Hinv))|].
  split; [exact Hn|].
  apply normalize_canonical. apply normalized_inv_of_gap.
  - rewrite Hs. apply (ni_wf Hinv).
  - rewrite Hs. now apply normalized_inv_gap.
  - split; now rewrite Hs.
Qed.

Lemma readSpans_restores_witness :
  let f := Footprint_rect (mkBox 3 4 5 2) emptyBox in
  let g := readSpans Footprint_default (write_spanCat f) in
  _spans g = _spans f /\ _area g = _area f /\ _bbox g = _bbox f /\
  _normalized g = match _spans f with [] => true | _ :: _ => false end /\
  normalize g = set_normalized g true.
Proof.
  intros f. apply (@readSpans_restores f). apply Footprint_rect_inv; lia.
Defined.

(* ------------------------------------------------------------------ *)
(** ** normalize on a footprint that is already in order *)

(** X10: on a footprint that satisfies the invariant, whether its flag is
    set or not, normalize() changes nothing but the flag: spans, area,
    bounding box, peaks and region stay as they are. *)
Theorem normalize_keeps_canonical (f : Footprint) :
  normalized_inv f -> normalize f = set_normalized f true.
Proof. apply normalize_canonical. Qed.

Lemma normalize_keeps_canonical_witness :
  let f := addSpan (addSpan Footprint_default 1 0 3) 2 0 6 in
  normalize f = set_normalized f true.
Proof.
  intros f. apply (@normalize_keeps_canonical f).
  apply normalized_inv_of_gap.
  - repeat constructor; unfold span_wf; simpl; lia.
  - repeat constructor.
  - unfold f. repeat apply addSpan_counted. split; reflexivity.
Defined.

(* ------------------------------------------------------------------ *)
(** ** shift *)

Lemma covers_map_shift (l : list Span) (dx dy x y : Z) :
  covers (map (fun span => mkSpan (getY span + dy) (getX0 span + dx) (getX1 span + dx)) l) x y
  <-> covers l (x - dx) (y - dy).
Proof.
  unfold covers. split.
  - intros (t & Hin & Hc). apply in_map_iff in Hin as (s & <- & Hs).
    exists s. split; [assumption|]. rewrite span_contains_iff in *. simpl in Hc. lia.
  - intros (s & Hs & Hc). eexists. split; [apply in_map; exact Hs|].
    rewrite span_contains_iff in *. simpl. lia.
Qed.

Lemma box_shift_bounds (b : Box2I) (dx dy : Z) :
  0 < getWidthB b -> 0 < getHeightB b ->
  box_shift b dx dy = mkBox (getMinX b + dx) (getMinY b + dy) (getWidthB b) (getHeightB b).
Proof.
  intros Hw Hh. unfold box_shift, isEmpty.
  destruct (Z.eqb_spec (getWidthB b) 0); [lia|reflexivity].
Qed.

Lemma shift_inv (f : Footprint) (dx dy : Z) :
  normalized_inv f -> normalized_inv (shift f dx dy).
Proof.
  intros Hinv. pose proof (normalized_inv_gap Hinv) as Hs. pose proof (ni_wf Hinv) as Hw.
  set (mv := fun span => mkSpan (getY span + dy) (getX0 span + dx) (getX1 span + dx)).
  assert (Hgap : forall a b, gap a b -> gap (mv a) (mv b)).
  { intros a b. unfold gap, mv. simpl. lia. }
  apply normalized_inv_of_gap; cbn [shift _spans]; fold mv.
  - apply Forall_forall. intros t Hin. apply in_map_iff in Hin as (s & <- & Hin).
    rewrite Forall_forall in Hw. specialize (Hw s Hin). unfold span_wf, mv in *. simpl. lia.
  - clear -Hs Hgap. induction Hs as [|s l Hs IH Hall]; cbn [map]; constructor; auto.
    apply Forall_forall. intros t Hin. apply in_map_iff in Hin as (u & <- & Hin).
    rewrite Forall_forall in Hall. auto.
  - split; cbn [shift _spans _area _bbox]; fold mv.
    + rewrite (ni_area Hinv). clear. induction (_spans f) as [|s l IH]; [reflexivity|].
      cbn [map sum_widths fold_right]. fold (sum_widths l). fold (sum_widths (map mv l)).
      rewrite IH. unfold getWidth, mv. simpl. lia.
    + pose proof (ni_bbox Hinv) as Ht.
      destruct (_spans f) as [|s0 l]; cbn [map tight_bbox] in *.
      * rewrite Ht. reflexivity.
      * destruct Ht as (Hbw & Hbh & Hall & (sa & Hsa & Ea) & (sb & Hsb & Eb)
                        & (sc & Hsc & Ec) & (sd & Hsd & Ed)).
        rewrite box_shift_bounds by assumption.
        unfold getMaxX, getMaxY in *. cbn [getMinX getMinY getWidthB getHeightB].
        split; [assumption|]. split; [assumption|].
        assert (Hmv : forall s, In s (s0 :: l) -> In (mv s) (mv s0 :: map mv l)).
        { intros s Hin. change (mv s0 :: map mv l) with (map mv (s0 :: l)).
          now apply in_map. }
        split.
        { intros t Hin. change (mv s0 :: map mv l) with (map mv (s0 :: l)) in Hin.
          apply in_map_iff in Hin as (s & <- & Hin). specialize (Hall s Hin).
          unfold mv. simpl. lia. }
        repeat split.
        -- exists (mv sa). split; [auto|unfold mv; simpl; lia].
        -- exists (mv sb). split; [auto|unfold mv; simpl; lia].
        -- exists (mv sc). split; [auto|unfold mv; simpl; lia].
        -- exists (mv sd). split; [auto|unfold mv; simpl; lia].
Qed.

(** X11: [shift(dx, dy)] keeps the normalization invariant, the area and
    the flag, and moves the pixel set: (x, y) is covered afterwards
    exactly when (x - dx, y - dy) was covered before. *)
Theorem shift_translates (f : Footprint) (dx dy : Z) :
  normalized_inv f ->
  normalized_inv (shift f dx dy) /\
  _area (shift f dx dy) = _area f /\
  _normalized (shift f dx dy) = _normalized f /\
  (forall x y, covers (_spans (shift f dx dy)) x y <-> covers (_spans f) (x - dx) (y - dy)).
Proof.
  intros Hinv. split; [now apply shift_inv|]. split; [reflexivity|]. split; [reflexivity|].
  intros x y. apply covers_map_shift.
Qed.

Lemma shift_translates_witness :
  let f := Footprint_rect (mkBox 0 0 4 2) emptyBox in
  normalized_inv (shift f 10 (-3)) /\
  _area (shift f 10 (-3)) = _area f /\
  _normalized (shift f 10 (-3)) = _normalized f /\
  (forall x y, covers (_spans (shift f 10 (-3))) x y <->
               covers (_spans f) (x - 10) (y - (-3))).
Proof.
  intros f. apply (@shift_translates f 10 (-3)). apply Footprint_rect_inv; lia.
Defined.

Lemma shift_spans_compose (l : list Span) (dx dy dx' dy' : Z) :
  map (fun span => mkSpan (getY span + dy') (getX0 span + dx') (getX1 span + dx'))
      (map (fun span => mkSpan (getY span + dy) (getX0 span + dx) (getX1 span + dx)) l)
  = map (fun span => mkSpan (getY span + (dy + dy')) (getX0 span + (dx + dx'))
                            (getX1 span + (dx + dx'))) l.
Proof.
  rewrite map_map. apply map_ext. intros s. simpl. f_equal; lia.
Qed.

(** X12: two shifts in a row are the shift by the sum of the offsets, for
    every footprint; shifting back by (-dx, -dy) restores the footprint in
    every member. *)
Theorem shift_composes (f : Footprint) (dx dy dx' dy' : Z) :
  shift (shift f dx dy) dx' dy' = shift f (dx + dx') (dy + dy') /\
  shift (shift f dx dy) (- dx) (- dy) = f.
Proof.
  assert (Hc : forall a b a' b', shift (shift f a b) a' b' = shift f (a + a') (b + b')).
  { intros a b a' b'. unfold shift. cbn [_spans _area _bbox _peaks _region _normalized].
    rewrite shift_spans_compose. f_equal.
    unfold box_shift. destruct (isEmpty (_bbox f)) eqn:Ee; [now rewrite Ee|].
    unfold isEmpty in *. cbn [getMinX getMinY getWidthB getHeightB]. rewrite Ee.
    f_equal; lia. }
  split; [apply Hc|]. rewrite Hc, !Z.add_opp_diag_r.
  unfold shift. destruct f as [sp a b p r n]. cbn [_spans _area _bbox _peaks _region _normalized].
  f_equal.
  - rewrite <- (map_id sp) at 2. apply map_ext. intros [y x0 x1]. simpl.
    now rewrite !Z.add_0_r.
  - unfold box_shift. destruct (isEmpty b); [reflexivity|].
    destruct b. simpl. now rewrite !Z.add_0_r.
Qed.

(* ------------------------------------------------------------------ *)
(** ** clipTo *)

Lemma ClipSpansPredicate_false (bbox : Box2I) (s : Span) :
  ClipSpansPredicate bbox s = false <->
  getMinY bbox <= getY s <= getMaxY bbox /\ getX0 s <= getMaxX bbox /\ getMinX bbox <= getX1 s.
Proof.
  unfold ClipSpansPredicate. cbn zeta. rewrite !orb_false_iff, !Z.ltb_ge. lia.
Qed.

Lemma clip_spans_covers (bbox : Box2I) (l : list Span) (x y : Z) :
  covers (map (fun span => mkSpan (getY span) (Z.max (getX0 span) (getMinX bbox))
                                  (Z.min (getX1 span) (getMaxX bbox)))
              (filter (fun span => negb (ClipSpansPredicate bbox span)) l)) x y
  <-> covers l x y /\ box_contains bbox x y = true.
Proof.
  unfold covers. rewrite box_contains_iff. split.
  - intros (t & Hin & Hc). apply in_map_iff in Hin as (s & <- & Hin).
    apply filter_In in Hin as [Hin Hk]. apply negb_true_iff in Hk.
    apply ClipSpansPredicate_false in Hk. apply span_contains_iff in Hc. simpl in Hc.
    split; [|lia]. exists s. split; [assumption|]. apply span_contains_iff. lia.
  - intros [(s & Hin & Hc) Hb]. apply span_contains_iff in Hc.
    eexists. split.
    + apply in_map. apply filter_In. split; [exact Hin|].
      apply negb_true_iff. apply ClipSpansPredicate_false. lia.
    + apply span_contains_iff. simpl. lia.
Qed.

Lemma clipTo_covers (f : Footprint) (bbox : Box2I) (x y : Z) :
  covers (_spans (clipTo f bbox)) x y <->
  covers (_spans f) x y /\ box_contains bbox x y = true.
Proof.
  rewrite <- clip_spans_covers. unfold clipTo. cbn zeta.
  destruct (map _ (filter _ (_spans f))) as [|t l] eqn:E.
  - cbn [_spans]. tauto.
  - rewrite normalize_covers. cbn [_spans]. tauto.
Qed.

(** X13: [clipTo(bbox)] leaves exactly the pixels of the footprint that lie
    in the box, drops the peaks outside it, and, for spans with x0 <= x1
    and a box that is empty or of positive size, returns a footprint that
    satisfies the normalization invariant with its flag set. *)
Theorem clipTo_intersects (f : Footprint) (bbox : Box2I) :
  Forall span_wf (_spans f) -> box_wf bbox ->
  normalized_inv (clipTo f bbox) /\ _normalized (clipTo f bbox) = true /\
  (forall x y, covers (_spans (clipTo f bbox)) x y <->
               covers (_spans f) x y /\ box_contains bbox x y = true) /\
  (forall p, In p (records (_peaks (clipTo f bbox))) <->
             In p (records (_peaks f)) /\ box_contains bbox (getIx p) (getIy p) = true).
Proof.
  intros Hwf Hbox.
  assert (Hpix : forall x y, covers (_spans (clipTo f bbox)) x y <->
                             covers (_spans f) x y /\ box_contains bbox x y = true)
    by (intros; apply clipTo_covers).
  assert (Hpeaks : forall p, In p (records (_peaks (clipTo f bbox))) <->
             In p (records (_peaks f)) /\ box_contains bbox (getIx p) (getIy p) = true).
  { intros p. unfold clipTo. cbn zeta.
    destruct (map _ (filter _ (_spans f))) as [|t l];
      [|rewrite (proj1 (normalize_peaks_region _))]; cbn [_peaks records];
      rewrite filter_In; unfold ClipPeaksPredicate; rewrite negb_involutive; tauto. }
  assert (Hclipped : Forall span_wf
            (map (fun span => mkSpan (getY span) (Z.max (getX0 span) (getMinX bbox))
                                     (Z.min (getX1 span) (getMaxX bbox)))
                 (filter (fun span => negb (ClipSpansPredicate bbox span)) (_spans f)))).
  { apply Forall_forall. intros t Hin. apply in_map_iff in Hin as (s & <- & Hin).
    apply filter_In in Hin as [Hin Hk]. apply negb_true_iff in Hk.
    apply ClipSpansPredicate_false in Hk. rewrite Forall_forall in Hwf.
    specialize (Hwf s Hin). unfold span_wf in *. simpl.
    destruct Hbox as [->|[Hw Hh]].
    - unfold getMaxY in Hk. simpl in Hk. lia.
    - unfold getMaxX in *. lia. }
  assert (Hboth : normalized_inv (clipTo f bbox) /\ _normalized (clipTo f bbox) = true).
  { unfold clipTo. cbn zeta.
    destruct (map _ (filter _ (_spans f))) as [|t l] eqn:E.
    - split; [|reflexivity]. split; cbn [_spans _area _bbox]; try reflexivity.
      + constructor.
      + constructor.
      + intros i p n Hp. destruct i; discriminate.
    - apply normalize_unflagged_inv; [reflexivity|]. cbn [_spans]. exact Hclipped. }
  tauto.
Qed.

Lemma clipTo_intersects_witness :
  let f := Footprint_rect (mkBox 0 0 6 4) emptyBox in
  _spans (clipTo f (mkBox 2 1 10 2)) = [mkSpan 1 2 5; mkSpan 2 2 5] /\
  normalized_inv (clipTo f (mkBox 2 1 10 2)).
Proof.
  intros f. split; [reflexivity|].
  apply (@clipTo_intersects f (mkBox 2 1 10 2)).
  - apply (@ni_wf f). apply Footprint_rect_inv; lia.
  - right. simpl. lia.
Defined.

(* ------------------------------------------------------------------ *)
(** ** The merged footprint *)

Lemma _mergeFootprints_inv (a b r : Footprint) :
  normalized_inv a -> normalized_inv b -> _mergeFootprints a b = Ok r ->
  normalized_inv r /\ _normalized r = true /\
  (forall x y, covers (_spans r) x y <-> covers (_spans a) x y \/ covers (_spans b) x y).
Proof.
  intros Ha Hb E. unfold _mergeFootprints in E.
  destruct (merge_peaks (_peaks Footprint_default) (_peaks a) (_peaks b)) as [p| |];
    try discriminate. cbn [bind] in E.
  destruct (merge_spans_spec p Ha Hb) as (new & Em & Hs & Hw & Hc).
  rewrite Em in E. injection E as <-.
  set (e := set_peaks Footprint_default p).
  assert (He : normalized_inv e).
  { split; cbn; try reflexivity; try constructor. intros i s t Hs'. destruct i; discriminate. }
  split; [|split].
  - apply fold_push_inv; auto. now apply precedes_nil.
  - now apply fold_push_normalized.
  - intros x y. rewrite fold_push_spans by assumption. cbn [e set_peaks _spans app].
    apply Hc.
Qed.

(** X14: when both footprints are normalized as the core merge starts and
    mergeFootprints returns a footprint, that footprint satisfies the
    normalization invariant, carries the flag, and covers exactly the
    pixels covered by either argument. *)
Theorem mergeFootprints_union (a b r : Footprint) :
  normalized_inv (normalize a) -> normalized_inv (normalize b) ->
  mergeFootprints a b = Ok r ->
  normalized_inv r /\ _normalized r = true /\
  (forall x y, covers (_spans r) x y <-> covers (_spans a) x y \/ covers (_spans b) x y).
Proof.
  intros Ha Hb E. unfold mergeFootprints in E.
  destruct (_mergeFootprints_inv Ha Hb E) as (Hi & Hn & Hc).
  split; [exact Hi|]. split; [exact Hn|].
  intros x y. rewrite Hc, !normalize_covers. tauto.
Qed.

Lemma mergeFootprints_union_witness :
  let a := addSpan (addSpan (addSpan Footprint_default 0 0 3) 0 10 11) 1 0 0 in
  let b := addSpan (addSpan (addSpan Footprint_default 0 4 6) 0 8 8) 2 5 5 in
  exists r, mergeFootprints a b = Ok r /\
    _spans r = [mkSpan 0 0 6; mkSpan 0 8 8; mkSpan 0 10 11; mkSpan 1 0 0; mkSpan 2 5 5] /\
    normalized_inv r.
Proof.
  intros a b. eexists. split; [reflexivity|]. split; [reflexivity|].
  eapply (@mergeFootprints_union a b); [| |reflexivity].
  - apply normalize_unflagged_inv; [reflexivity|].
    repeat constructor; unfold span_wf; simpl; lia.
  - apply normalize_unflagged_inv; [reflexivity|].
    repeat constructor; unfold span_wf; simpl; lia.
Defined.

(* ------------------------------------------------------------------ *)
(** ** Loops that change the pixels under a footprint *)

Ltac bool_prop :=
  repeat match goal with
  | H : _ && _ = true |- _ => apply andb_true_iff in H; destruct H
  | H : _ || _ = false |- _ => apply orb_false_iff in H; destruct H
  | H : negb _ = true |- _ => apply negb_true_iff in H
  | H : negb _ = false |- _ => apply negb_false_iff in H
  | H : (_ =? _) = true |- _ => apply Z.eqb_eq in H
  | H : (_ =? _) = false |- _ => apply Z.eqb_neq in H
  | H : (_ <=? _) = true |- _ => apply Z.leb_le in H
  | H : (_ <=? _) = false |- _ => apply Z.leb_gt in H
  | H : (_ <? _) = true |- _ => apply Z.ltb_lt in H
  | H : (_ <? _) = false |- _ => apply Z.ltb_ge in H
  end.

Lemma same_frame_refl (a : Raster) : same_frame a a.
Proof. unfold same_frame. auto. Qed.

Lemma same_frame_trans (a b c : Raster) : same_frame a b -> same_frame b c -> same_frame a c.
Proof. unfold same_frame. intuition congruence. Qed.

Lemma same_frame_in_raster (a b : Raster) (c r : Z) :
  same_frame a b -> in_raster a c r = in_raster b c r.
Proof. intros (_ & _ & Hw & Hh). unfold in_raster. now rewrite Hw, Hh. Qed.

Lemma in_raster_iff (m : Raster) (c r : Z) :
  in_raster m c r = true <-> 0 <= c < img_width m /\ 0 <= r < img_height m.
Proof.
  unfold in_raster. rewrite !andb_true_iff, !Z.leb_le, !Z.ltb_lt. lia.
Qed.

Lemma raster_store_spec (mask : Raster) (c y v : Z) :
  in_raster mask c y = true ->
  exists m, raster_store mask c y v = Ok m /\ same_frame m mask /\
            forall c' r, img_pix m c' r
                         = if (c' =? c) && (r =? y) then v else img_pix mask c' r.
Proof.
  intros Hin. unfold raster_store. rewrite Hin. eexists. split; [reflexivity|].
  split; [unfold same_frame; auto|]. reflexivity.
Qed.

Lemma map_columns_spec (g : Z -> Z) (n : nat) :
  forall (mask : Raster) (y c0 : Z),
    0 <= c0 -> c0 + Z.of_nat n <= img_width mask -> 0 <= y < img_height mask ->
    exists m,
      map_columns g mask y (columns c0 n) = Ok m /\ same_frame m mask /\
      forall c r, img_pix m c r
                  = if (r =? y) && (c0 <=? c) && (c <? c0 + Z.of_nat n)
                    then g (img_pix mask c r) else img_pix mask c r.
Proof.
  induction n as [|n IH]; intros mask y c0 Hc0 Hn Hy.
  - exists mask. split; [reflexivity|]. split; [apply same_frame_refl|].
    intros c r. destruct (r =? y), (c0 <=? c) eqn:E1, (c <? c0 + Z.of_nat 0) eqn:E2;
      cbn [andb]; try reflexivity. bool_prop. lia.
  - cbn [columns map_columns].
    destruct (@raster_store_spec mask c0 y (g (img_pix mask c0 y))) as (m1 & E1 & F1 & P1).
    { apply in_raster_iff. lia. }
    rewrite E1. cbn [bind].
    destruct F1 as (Fx & Fy & Fw & Fh).
    destruct (IH m1 y (c0 + 1)) as (m & E & F & P); try lia.
    exists m. split; [exact E|]. split.
    { eapply same_frame_trans; [exact F|]. unfold same_frame. auto. }
    intros c r. rewrite P, !P1.
    destruct (Z.eqb_spec r y); destruct (Z.leb_spec (c0 + 1) c);
      destruct (Z.ltb_spec c (c0 + 1 + Z.of_nat n)); destruct (Z.eqb_spec c c0);
      destruct (Z.leb_spec c0 c); destruct (Z.ltb_spec c (c0 + Z.of_nat (S n)));
      cbn [andb]; try reflexivity; try lia; subst; reflexivity.
Qed.

Lemma clampColumn_reach (w x0 x1 : Z) :
  x0 <= x1 -> x0 < w -> 0 <= x1 ->
  clampColumn w x0 = Z.max 0 x0 /\ clampColumn w x1 = Z.min (w - 1) x1.
Proof.
  intros H1 H2 H3. unfold clampColumn.
  destruct (Z.ltb_spec x0 0); destruct (Z.leb_spec w x0);
    destruct (Z.ltb_spec x1 0); destruct (Z.leb_spec w x1); lia.
Qed.

Lemma map_span_spec (g : Z -> Z) (x0 y0 : Z) (mask : Raster) (s : Span) :
  0 <= img_width mask -> span_wf s ->
  (y0 <= getY s < y0 + img_height mask -> getX0 s < x0 + img_width mask /\ x0 <= getX1 s) ->
  exists m,
    map_span g x0 y0 mask s = Ok m /\ same_frame m mask /\
    forall c r, img_pix m c r
                = if in_raster mask c r && span_contains s (c + x0) (r + y0)
                  then g (img_pix mask c r) else img_pix mask c r.
Proof.
  intros Hw0 Hwf Hreach. unfold span_wf in Hwf. unfold map_span. cbn zeta.
  destruct ((getY s - y0 <? 0) || (img_height mask <=? getY s - y0)) eqn:Erow.
  - exists mask. split; [reflexivity|]. split; [apply same_frame_refl|].
    intros c r. destruct (in_raster mask c r && span_contains s (c + x0) (r + y0)) eqn:E;
      [|reflexivity].
    exfalso. bool_prop. apply in_raster_iff in H. apply span_contains_iff in H0.
    apply orb_true_iff in Erow as [Hr|Hr]; bool_prop; lia.
  - bool_prop. destruct Hreach as [R0 R1]; [lia|].
    destruct (@clampColumn_reach (img_width mask) (getX0 s - x0) (getX1 s - x0))
      as [C0 C1]; try lia.
    rewrite C0, C1.
    destruct (Z.ltb_spec (Z.min (img_width mask - 1) (getX1 s - x0) + 1)
                         (Z.max 0 (getX0 s - x0))); [lia|].
    destruct (@map_columns_spec g
                (Z.to_nat (Z.min (img_width mask - 1) (getX1 s - x0) + 1
                           - Z.max 0 (getX0 s - x0)))
                mask (getY s - y0) (Z.max 0 (getX0 s - x0)))
      as (m & E & F & P); try lia.
    exists m. split; [exact E|]. split; [exact F|].
    intros c r. rewrite P.
    destruct (in_raster mask c r && span_contains s (c + x0) (r + y0)) eqn:E1.
    + bool_prop. apply in_raster_iff in H2. apply span_contains_iff in H3.
      destruct (Z.eqb_spec r (getY s - y0)); [|lia].
      destruct (Z.leb_spec (Z.max 0 (getX0 s - x0)) c); [|lia].
      match goal with |- context [?a <? ?b] => destruct (Z.ltb_spec a b) end; [|lia].
      reflexivity.
    + match goal with |- (if ?b then _ else _) = _ => destruct b eqn:E2 end; [|reflexivity].
      exfalso. bool_prop.
      assert (in_raster mask c r = true) by (apply in_raster_iff; lia).
      assert (span_contains s (c + x0) (r + y0) = true) by (apply span_contains_iff; lia).
      rewrite H5, H6 in E1. discriminate.
Qed.

Lemma map_spans_spec (g : Z -> Z) (x0 y0 : Z) (l : list Span) :
  forall mask,
    0 <= img_width mask -> Forall span_wf l ->
    reaches x0 y0 (img_width mask) (img_height mask) l ->
    (forall p, g (g p) = g p) \/ StronglySorted gap l ->
    exists m,
      foldM (map_span g x0 y0) l mask = Ok m /\ same_frame m mask /\
      forall c r, img_pix m c r
                  = if in_raster mask c r &&
                       existsb (fun s => span_contains s (c + x0) (r + y0)) l
                    then g (img_pix mask c r) else img_pix mask c r.
Proof.
  induction l as [|s l IH]; intros mask Hw0 Hwf Hreach Hg.
  - exists mask. split; [reflexivity|]. split; [apply same_frame_refl|].
    intros c r. cbn [existsb]. now rewrite andb_false_r.
  - inversion Hwf as [|? ? Hs Hl]; subst. inversion Hreach as [|? ? Rs Rl]; subst.
    destruct (@map_span_spec g x0 y0 mask s Hw0 Hs Rs) as (m1 & E1 & F1 & P1).
    pose proof F1 as (Fx & Fy & Fw & Fh).
    assert (Hw1 : 0 <= img_width m1) by lia.
    assert (Rl1 : reaches x0 y0 (img_width m1) (img_height m1) l).
    { unfold reaches. now rewrite Fw, Fh. }
    assert (Hg1 : (forall p, g (g p) = g p) \/ StronglySorted gap l).
    { destruct Hg as [Hg|Hg]; [now left|right]. now inversion Hg. }
    destruct (IH m1 Hw1 Hl Rl1 Hg1) as (m & E & F & P).
    exists m. cbn [foldM]. rewrite E1. cbn [bind].
    split; [exact E|]. split; [eapply same_frame_trans; eauto|].
    intros c r. rewrite P, P1, (same_frame_in_raster c r F1). cbn [existsb].
    destruct (in_raster mask c r); cbn [andb]; [|reflexivity].
    destruct (span_contains s (c + x0) (r + y0)) eqn:Es;
      destruct (existsb (fun s => span_contains s (c + x0) (r + y0)) l) eqn:El;
      cbn [orb]; try reflexivity.
    destruct Hg as [Hg|Hg]; [apply Hg|]. exfalso.
    apply existsb_exists in El as (t & Ht & Hc).
    inversion Hg as [|? ? _ Hall]; subst. rewrite Forall_forall in Hall.
    exact (@gap_disjoint s t _ _ (Hall t Ht) Es Hc).
Qed.

Lemma existsb_covers (l : list Span) (x y : Z) :
  existsb (fun s => span_contains s x y) l = true <-> covers l x y.
Proof. unfold covers. apply existsb_exists. Qed.

(** ** setMaskFromFootprint and clearMaskFromFootprint *)

Lemma map_columns_frame (g : Z -> Z) (cols : list Z) :
  forall mask y m, map_columns g mask y cols = Ok m -> same_frame m mask.
Proof.
  induction cols as [|c cols IH]; intros mask y m E; cbn [map_columns] in E.
  - injection E as <-. apply same_frame_refl.
  - unfold raster_store in E at 1. destruct (in_raster mask c y); [|discriminate].
    cbn [bind] in E. apply IH in E. eapply same_frame_trans; [exact E|].
    unfold same_frame. auto.
Qed.

Lemma map_span_frame (g : Z -> Z) (x0 y0 : Z) (mask m : Raster) (s : Span) :
  map_span g x0 y0 mask s = Ok m -> same_frame m mask.
Proof.
  unfold map_span. cbn zeta. intros E.
  destruct (_ || _); [injection E as <-; apply same_frame_refl|].
  destruct (_ <? _); [discriminate|]. eapply map_columns_frame; eauto.
Qed.

Lemma setMask_spans_map (bitmask : Z) (l : list Span) :
  forall mask,
    setMask_spans mask bitmask l
    = foldM (map_span (fun p => Z.lor p bitmask) (img_x0 mask) (img_y0 mask)) l mask.
Proof.
  assert (Hcols : forall cols m y,
            or_columns m y bitmask cols = map_columns (fun p => Z.lor p bitmask) m y cols).
  { induction cols as [|c cols IH]; intros m y; cbn [or_columns map_columns]; [reflexivity|].
    destruct (raster_store m c y (Z.lor (img_pix m c y) bitmask)); cbn [bind]; auto. }
  induction l as [|s l IH]; intros mask; cbn [setMask_spans foldM]; [reflexivity|].
  assert (E : setMask_span mask bitmask s
              = map_span (fun p => Z.lor p bitmask) (img_x0 mask) (img_y0 mask) mask s).
  { unfold setMask_span, map_span. cbn zeta.
    destruct (_ || _); [reflexivity|]. destruct (_ <? _); [reflexivity|]. apply Hcols. }
  rewrite E.
  destruct (map_span (fun p => Z.lor p bitmask) (img_x0 mask) (img_y0 mask) mask s)
    as [m1| |] eqn:E1; cbn [bind]; try reflexivity.
  rewrite IH. destruct (map_span_frame _ _ _ _ _ E1) as (Fx & Fy & _).
  now rewrite Fx, Fy.
Qed.

Lemma clearMask_spans_map (bitmask : Z) (l : list Span) :
  forall mask,
    foldM (fun m span => clearMask_span m bitmask span) l mask
    = foldM (map_span (fun p => Z.land p (Z.lnot bitmask)) (img_x0 mask) (img_y0 mask)) l mask.
Proof.
  assert (Hcols : forall cols m y,
            clear_columns m y bitmask cols
            = map_columns (fun p => Z.land p (Z.lnot bitmask)) m y cols).
  { induction cols as [|c cols IH]; intros m y; cbn [clear_columns map_columns];
      [reflexivity|].
    destruct (raster_store m c y (Z.land (img_pix m c y) (Z.lnot bitmask))); cbn [bind]; auto. }
  induction l as [|s l IH]; intros mask; cbn [foldM]; [reflexivity|].
  assert (E : clearMask_span mask bitmask s
              = map_span (fun p => Z.land p (Z.lnot bitmask)) (img_x0 mask) (img_y0 mask)
                         mask s).
  { unfold clearMask_span, map_span. cbn zeta.
    destruct (_ || _); [reflexivity|]. destruct (_ <? _); [reflexivity|]. apply Hcols. }
  rewrite E.
  destruct (map_span (fun p => Z.land p (Z.lnot bitmask)) (img_x0 mask) (img_y0 mask) mask s)
    as [m1| |] eqn:E1; cbn [bind]; try reflexivity.
  rewrite IH. destruct (map_span_frame _ _ _ _ _ E1) as (Fx & Fy & _).
  now rewrite Fx, Fy.
Qed.

Lemma lor_idem (b p : Z) : Z.lor (Z.lor p b) b = Z.lor p b.
Proof. now rewrite <- Z.lor_assoc, Z.lor_diag. Qed.

Lemma land_lnot_idem (b p : Z) :
  Z.land (Z.land p (Z.lnot b)) (Z.lnot b) = Z.land p (Z.lnot b).
Proof. now rewrite <- Z.land_assoc, Z.land_diag. Qed.

Lemma land_lor_lnot (b p : Z) : Z.land (Z.lor p b) (Z.lnot b) = Z.land p (Z.lnot b).
Proof.
  apply Z.bits_inj'. intros n Hn.
  rewrite !Z.land_spec, Z.lor_spec, Z.lnot_spec by assumption.
  destruct (Z.testbit p n), (Z.testbit b n); reflexivity.
Qed.

(** What a pixel holds after [g] has been stored under the spans [l]. *)
Lemma covered_pixel (g : Z -> Z) (l : list Span) (mask m : Raster) (x0 y0 : Z) :
  (forall c r, img_pix m c r
               = if in_raster mask c r &&
                    existsb (fun s => span_contains s (c + x0) (r + y0)) l
                 then g (img_pix mask c r) else img_pix mask c r) ->
  forall col row,
    (in_raster mask col row = true -> covers l (col + x0) (row + y0) ->
     img_pix m col row = g (img_pix mask col row)) /\
    (~ (in_raster mask col row = true /\ covers l (col + x0) (row + y0)) ->
     img_pix m col row = img_pix mask col row).
Proof.
  intros P col row. rewrite P. split.
  - intros Hin Hc. apply existsb_covers in Hc. now rewrite Hin, Hc.
  - intros Hn. destruct (in_raster mask col row) eqn:Hin; cbn [andb]; [|reflexivity].
    destruct (existsb _ l) eqn:Hc; [|reflexivity].
    exfalso. apply Hn. split; [reflexivity|]. now apply existsb_covers.
Qed.

(** X15: when no span of the footprint lies on a row of the mask wholly
    to the left or to the right of it, [setMaskFromFootprint] returns the
    bitmask and leaves a mask of the same origin and size in which each
    pixel under a span holds its old value OR the bitmask and every other
    pixel holds its old value. *)
Theorem setMaskFromFootprint_sets_covered (mask : Raster) (foot : Footprint) (bitmask : Z) :
  raster_wf mask -> Forall span_wf (_spans foot) ->
  reaches (img_x0 mask) (img_y0 mask) (img_width mask) (img_height mask) (_spans foot) ->
  exists m,
    setMaskFromFootprint mask foot bitmask = Ok (m, bitmask) /\ same_frame m mask /\
    forall col row,
      (in_raster mask col row = true ->
       covers (_spans foot) (col + img_x0 mask) (row + img_y0 mask) ->
       img_pix m col row = Z.lor (img_pix mask col row) bitmask) /\
      (~ (in_raster mask col row = true /\
          covers (_spans foot) (col + img_x0 mask) (row + img_y0 mask)) ->
       img_pix m col row = img_pix mask col row).
Proof.
  intros [Hw _] Hwf Hr.
  destruct (@map_spans_spec (fun p => Z.lor p bitmask) (img_x0 mask) (img_y0 mask)
              (_spans foot) mask Hw Hwf Hr) as (m & E & F & P).
  { left. intros p. apply lor_idem. }
  exists m. unfold setMaskFromFootprint. rewrite setMask_spans_map, E. cbn [bind].
  split; [reflexivity|]. split; [exact F|].
  apply (covered_pixel (fun p => Z.lor p bitmask) _ _ _ _ _ P).
Qed.

Lemma setMaskFromFootprint_sets_covered_witness :
  exists m,
    setMaskFromFootprint blank_3x1 (addSpan Footprint_default 0 (-5) 1) 4 = Ok (m, 4) /\
    same_frame m blank_3x1 /\
    forall col row,
      (in_raster blank_3x1 col row = true ->
       covers (_spans (addSpan Footprint_default 0 (-5) 1))
              (col + img_x0 blank_3x1) (row + img_y0 blank_3x1) ->
       img_pix m col row = Z.lor (img_pix blank_3x1 col row) 4) /\
      (~ (in_raster blank_3x1 col row = true /\
          covers (_spans (addSpan Footprint_default 0 (-5) 1))
                 (col + img_x0 blank_3x1) (row + img_y0 blank_3x1)) ->
       img_pix m col row = img_pix blank_3x1 col row).
Proof.
  apply (@setMaskFromFootprint_sets_covered blank_3x1 (addSpan Footprint_default 0 (-5) 1) 4).
  - unfold raster_wf. simpl. lia.
  - repeat constructor; unfold span_wf; simpl; lia.
  - repeat constructor; simpl; lia.
Defined.

(** X16: under the same condition [clearMaskFromFootprint] returns the
    bitmask and leaves each pixel under a span with the bits of the
    bitmask cleared ([old & ~bitmask]) and every other pixel as it was. *)
Theorem clearMaskFromFootprint_clears_covered (mask : Raster) (foot : Footprint)
    (bitmask : Z) :
  raster_wf mask -> Forall span_wf (_spans foot) ->
  reaches (img_x0 mask) (img_y0 mask) (img_width mask) (img_height mask) (_spans foot) ->
  exists m,
    clearMaskFromFootprint mask foot bitmask = Ok (m, bitmask) /\ same_frame m mask /\
    forall col row,
      (in_raster mask col row = true ->
       covers (_spans foot) (col + img_x0 mask) (row + img_y0 mask) ->
       img_pix m col row = Z.land (img_pix mask col row) (Z.lnot bitmask)) /\
      (~ (in_raster mask col row = true /\
          covers (_spans foot) (col + img_x0 mask) (row + img_y0 mask)) ->
       img_pix m col row = img_pix mask col row).
Proof.
  intros [Hw _] Hwf Hr.
  destruct (@map_spans_spec (fun p => Z.land p (Z.lnot bitmask)) (img_x0 mask) (img_y0 mask)
              (_spans foot) mask Hw Hwf Hr) as (m & E & F & P).
  { left. intros p. apply land_lnot_idem. }
  exists m. unfold clearMaskFromFootprint. rewrite clearMask_spans_map, E. cbn [bind].
  split; [reflexivity|]. split; [exact F|].
  apply (covered_pixel (fun p => Z.land p (Z.lnot bitmask)) _ _ _ _ _ P).
Qed.

Lemma clearMaskFromFootprint_clears_covered_witness :
  exists m,
    clearMaskFromFootprint mask_010 (addSpan Footprint_default 0 0 2) 1 = Ok (m, 1) /\
    img_pix m 1 0 = 0.
Proof.
  destruct (@clearMaskFromFootprint_clears_covered mask_010 (addSpan Footprint_default 0 0 2) 1)
    as (m & E & _ & P).
  - unfold raster_wf. simpl. lia.
  - repeat constructor; unfold span_wf; simpl; lia.
  - repeat constructor; simpl; lia.
  - exists m. split; [exact E|].
    destruct (P 1 0) as [H _]. rewrite H; [reflexivity|reflexivity|].
    exists (mkSpan 0 0 2). split; [now left|reflexivity].
Defined.

(** X17: setting a bitmask under a footprint and then clearing it under
    the same footprint both return, and leave each pixel under a span with
    the bits of the bitmask cleared and every other pixel as it was before
    the two calls: on a mask that had none of the bits set under the
    footprint, the two calls restore every pixel. *)
Theorem set_then_clear_mask (mask : Raster) (foot : Footprint) (bitmask : Z) :
  raster_wf mask -> Forall span_wf (_spans foot) ->
  reaches (img_x0 mask) (img_y0 mask) (img_width mask) (img_height mask) (_spans foot) ->
  exists m1 m2,
    setMaskFromFootprint mask foot bitmask = Ok (m1, bitmask) /\
    clearMaskFromFootprint m1 foot bitmask = Ok (m2, bitmask) /\
    forall col row,
      (in_raster mask col row = true ->
       covers (_spans foot) (col + img_x0 mask) (row + img_y0 mask) ->
       img_pix m2 col row = Z.land (img_pix mask col row) (Z.lnot bitmask)) /\
      (~ (in_raster mask col row = true /\
          covers (_spans foot) (col + img_x0 mask) (row + img_y0 mask)) ->
       img_pix m2 col row = img_pix mask col row).
Proof.
  intros [Hw Hh] Hwf Hr.
  destruct (@map_spans_spec (fun p => Z.lor p bitmask) (img_x0 mask) (img_y0 mask)
              (_spans foot) mask Hw Hwf Hr) as (m1 & E1 & F1 & P1).
  { left. intros p. apply lor_idem. }
  pose proof F1 as (Fx & Fy & Fw & Fh).
  assert (Hr1 : reaches (img_x0 m1) (img_y0 m1) (img_width m1) (img_height m1) (_spans foot))
    by now rewrite Fx, Fy, Fw, Fh.
  destruct (@map_spans_spec (fun p => Z.land p (Z.lnot bitmask)) (img_x0 m1) (img_y0 m1)
              (_spans foot) m1 ltac:(lia) Hwf Hr1) as (m2 & E2 & F2 & P2).
  { left. intros p. apply land_lnot_idem. }
  exists m1, m2. unfold setMaskFromFootprint, clearMaskFromFootprint.
  rewrite setMask_spans_map, E1. cbn [bind]. rewrite clearMask_spans_map, E2. cbn [bind].
  split; [reflexivity|]. split; [reflexivity|].
  apply (covered_pixel (fun p => Z.land p (Z.lnot bitmask)) (_spans foot) mask m2
                       (img_x0 mask) (img_y0 mask)).
  intros c r. rewrite P2, P1, (same_frame_in_raster c r F1), Fx, Fy.
  destruct (in_raster mask c r && existsb _ (_spans foot)); [|reflexivity].
  apply land_lor_lnot.
Qed.

Lemma set_then_clear_mask_witness :
  exists m1 m2,
    setMaskFromFootprint blank_3x1 (addSpan Footprint_default 0 0 1) 4 = Ok (m1, 4) /\
    clearMaskFromFootprint m1 (addSpan Footprint_default 0 0 1) 4 = Ok (m2, 4) /\
    map (fun c => img_pix m1 c 0) [0; 1; 2] = [4; 4; 0] /\
    map (fun c => img_pix m2 c 0) [0; 1; 2] = [0; 0; 0].
Proof.
  destruct (@set_then_clear_mask blank_3x1 (addSpan Footprint_default 0 0 1) 4)
    as (m1 & m2 & E1 & E2 & _).
  - unfold raster_wf. simpl. lia.
  - repeat constructor; unfold span_wf; simpl; lia.
  - repeat constructor; simpl; lia.
  - exists m1, m2. split; [exact E1|]. split; [exact E2|].
    vm_compute in E1. injection E1 as <-. vm_compute in E2. injection E2 as <-.
    split; reflexivity.
Defined.

(* ------------------------------------------------------------------ *)
(** ** overlapsMask *)

Lemma or_pixels_spec (mask : Raster) (y : Z) (n : nat) :
  forall (c0 bitmask : Z),
    0 <= c0 -> c0 + Z.of_nat n <= img_width mask -> 0 <= y < img_height mask ->
    exists b,
      or_pixels mask y (columns c0 n) bitmask = Ok b /\
      forall k, Z.testbit b k
                = Z.testbit bitmask k ||
                  existsb (fun c => Z.testbit (img_pix mask c y) k) (columns c0 n).
Proof.
  induction n as [|n IH]; intros c0 bitmask Hc0 Hn Hy.
  - exists bitmask. split; [reflexivity|]. intros k. cbn. now rewrite orb_false_r.
  - cbn [columns or_pixels]. unfold raster_read.
    replace (in_raster mask c0 y) with true by (symmetry; apply in_raster_iff; lia).
    cbn [bind]. destruct (IH (c0 + 1) (Z.lor bitmask (img_pix mask c0 y))) as (b & E & P);
      try lia.
    exists b. split; [exact E|]. intros k. rewrite P, Z.lor_spec. cbn [existsb].
    now rewrite orb_assoc.
Qed.

Lemma overlaps_span_spec (mask : Raster) (bitmask : Z) (s : Span) :
  0 <= img_width mask -> span_wf s ->
  (img_y0 mask <= getY s < img_y0 mask + img_height mask ->
   getX0 s < img_x0 mask + img_width mask /\ img_x0 mask <= getX1 s) ->
  exists b,
    overlaps_span mask bitmask s = Ok b /\
    forall k, Z.testbit b k = true <->
              Z.testbit bitmask k = true \/
              exists col row, in_raster mask col row = true /\
                              span_contains s (col + img_x0 mask) (row + img_y0 mask) = true /\
                              Z.testbit (img_pix mask col row) k = true.
Proof.
  intros Hw0 Hwf Hreach. unfold span_wf in Hwf. unfold overlaps_span. cbn zeta.
  destruct ((getY s - img_y0 mask <? 0) || (img_height mask <=? getY s - img_y0 mask))
    eqn:Erow.
  - exists bitmask. split; [reflexivity|]. intros k. split; [now left|].
    intros [H|(col & row & Hin & Hc & _)]; [assumption|]. exfalso.
    apply in_raster_iff in Hin. apply span_contains_iff in Hc.
    apply orb_true_iff in Erow as [Hr|Hr]; bool_prop; lia.
  - bool_prop. destruct Hreach as [R0 R1]; [lia|].
    destruct (@clampColumn_reach (img_width mask) (getX0 s - img_x0 mask)
                                 (getX1 s - img_x0 mask)) as [C0 C1]; try lia.
    rewrite C0, C1.
    set (cx0 := Z.max 0 (getX0 s - img_x0 mask)).
    set (cx1 := Z.min (img_width mask - 1) (getX1 s - img_x0 mask)).
    destruct (Z.ltb_spec (cx1 + 1) cx0); [lia|].
    destruct (@or_pixels_spec mask (getY s - img_y0 mask) (Z.to_nat (cx1 + 1 - cx0))
                              cx0 bitmask) as (b & E & P); try lia.
    exists b. split; [exact E|]. intros k. rewrite P, orb_true_iff, existsb_exists.
    split; (intros [Hb|Hex]; [now left|right]).
    + destruct Hex as (c & Hc & Hk). apply in_columns in Hc.
      exists c, (getY s - img_y0 mask). split; [apply in_raster_iff; lia|].
      split; [apply span_contains_iff; lia|exact Hk].
    + destruct Hex as (col & row & Hin & Hc & Hk).
      apply in_raster_iff in Hin. apply span_contains_iff in Hc.
      exists col. split; [apply in_columns; lia|].
      replace (getY s - img_y0 mask) with row by lia. exact Hk.
Qed.

Lemma overlaps_spans_spec (mask : Raster) (l : list Span) :
  0 <= img_width mask -> Forall span_wf l ->
  reaches (img_x0 mask) (img_y0 mask) (img_width mask) (img_height mask) l ->
  forall bitmask,
  exists b,
    foldM (overlaps_span mask) l bitmask = Ok b /\
    forall k, Z.testbit b k = true <->
              Z.testbit bitmask k = true \/
              exists col row, in_raster mask col row = true /\
                              covers l (col + img_x0 mask) (row + img_y0 mask) /\
                              Z.testbit (img_pix mask col row) k = true.
Proof.
  intros Hw0 Hwf Hr. induction l as [|s l IH]; intros bitmask.
  - exists bitmask. split; [reflexivity|]. intros k. split; [now left|].
    intros [H|(col & row & _ & Hc & _)]; [assumption|]. now apply covers_nil in Hc.
  - inversion Hwf as [|? ? Hs Hl]; subst. inversion Hr as [|? ? Rs Rl]; subst.
    destruct (@overlaps_span_spec mask bitmask s Hw0 Hs Rs) as (b1 & E1 & P1).
    destruct (IH Hl Rl b1) as (b & E & P).
    exists b. cbn [foldM]. rewrite E1. cbn [bind]. split; [exact E|].
    intros k. rewrite P, P1. split.
    + intros [[H|(col & row & Hin & Hc & Hk)]|(col & row & Hin & Hc & Hk)]; [now left| |];
        right; exists col, row; (split; [assumption|]); (split; [|assumption]);
        apply covers_cons; auto.
    + intros [H|(col & row & Hin & Hc & Hk)]; [now left; left|].
      apply covers_cons in Hc as [Hc|Hc].
      * left. right. exists col, row. auto.
      * right. exists col, row. auto.
Qed.

(** X18: when no span of the footprint lies on a row of the mask wholly
    to the left or to the right of it, [overlapsMask] returns the bitwise
    OR of the mask pixels under the footprint: a bit is set in the result
    exactly when it is set in some pixel of the mask under some span. *)
Theorem overlapsMask_ors_covered (f : Footprint) (mask : Raster) :
  raster_wf mask -> Forall span_wf (_spans f) ->
  reaches (img_x0 mask) (img_y0 mask) (img_width mask) (img_height mask) (_spans f) ->
  exists b,
    overlapsMask f mask = Ok b /\
    forall k, Z.testbit b k = true <->
              exists col row, in_raster mask col row = true /\
                              covers (_spans f) (col + img_x0 mask) (row + img_y0 mask) /\
                              Z.testbit (img_pix mask col row) k = true.
Proof.
  intros [Hw _] Hwf Hr.
  destruct (@overlaps_spans_spec mask (_spans f) Hw Hwf Hr 0) as (b & E & P).
  exists b. split; [exact E|]. intros k. rewrite P, Z.bits_0.
  split; [intros [H|H]; [discriminate|exact H]|now right].
Qed.

Lemma overlapsMask_ors_covered_witness :
  overlapsMask (addSpan Footprint_default 0 0 1) mask_010 = Ok 1.
Proof.
  destruct (@overlapsMask_ors_covered (addSpan Footprint_default 0 0 1) mask_010)
    as (b & E & _).
  - unfold raster_wf. simpl. lia.
  - repeat constructor; unfold span_wf; simpl; lia.
  - repeat constructor; simpl; lia.
  - reflexivity.
Defined.

(* ------------------------------------------------------------------ *)
(** ** copyWithinFootprint *)

Lemma copy_columns_spec (input : Raster) (yInput yOutput : Z) (n : nat) :
  forall (output : Raster) (xs : Z),
    0 <= yInput < img_height input -> 0 <= yOutput < img_height output ->
    (0 < Z.of_nat n ->
     img_x0 input <= xs /\ xs + Z.of_nat n <= img_x0 input + img_width input /\
     img_x0 output <= xs /\ xs + Z.of_nat n <= img_x0 output + img_width output) ->
    exists out,
      copy_columns input output yInput yOutput (columns xs n) = Ok out /\
      same_frame out output /\
      forall c r, img_pix out c r
                  = if (r =? yOutput) && (xs <=? c + img_x0 output) &&
                       (c + img_x0 output <? xs + Z.of_nat n)
                    then img_pix input (c + img_x0 output - img_x0 input) yInput
                    else img_pix output c r.
Proof.
  induction n as [|n IH]; intros output xs Hyi Hyo Hin.
  - exists output. split; [reflexivity|]. split; [apply same_frame_refl|].
    intros c r. destruct (r =? yOutput), (xs <=? c + img_x0 output) eqn:E1,
      (c + img_x0 output <? xs + Z.of_nat 0) eqn:E2; cbn [andb]; try reflexivity.
    bool_prop. lia.
  - destruct Hin as (Hi0 & Hi1 & Ho0 & Ho1); [lia|].
    cbn [columns copy_columns]. unfold raster_read.
    replace (in_raster input (xs - img_x0 input) yInput) with true
      by (symmetry; apply in_raster_iff; lia).
    cbn [bind].
    destruct (@raster_store_spec output (xs - img_x0 output) yOutput
                (img_pix input (xs - img_x0 input) yInput)) as (m1 & E1 & F1 & P1).
    { apply in_raster_iff. lia. }
    rewrite E1. cbn [bind]. pose proof F1 as (Fx & Fy & Fw & Fh).
    destruct (IH m1 (xs + 1)) as (out & E & F & P); try lia.
    exists out. split; [exact E|]. split; [eapply same_frame_trans; eauto|].
    intros c r. rewrite P, P1, Fx.
    destruct (Z.eqb_spec r yOutput); destruct (Z.leb_spec (xs + 1) (c + img_x0 output));
      destruct (Z.ltb_spec (c + img_x0 output) (xs + 1 + Z.of_nat n));
      destruct (Z.eqb_spec c (xs - img_x0 output));
      destruct (Z.leb_spec xs (c + img_x0 output));
      destruct (Z.ltb_spec (c + img_x0 output) (xs + Z.of_nat (S n)));
      cbn [andb]; try reflexivity; try lia.
    subst. f_equal. lia.
Qed.

Lemma copy_span_spec (input output : Raster) (sp : Span) :
  exists out,
    copy_span input output sp = Ok out /\ same_frame out output /\
    forall c r, img_pix out c r
                = if shared input output c r &&
                     span_contains sp (c + img_x0 output) (r + img_y0 output)
                  then img_pix input (c + img_x0 output - img_x0 input)
                                     (r + img_y0 output - img_y0 input)
                  else img_pix output c r.
Proof.
  unfold copy_span. cbn zeta.
  set (yInput := getY sp - img_y0 input). set (yOutput := getY sp - img_y0 output).
  destruct ((yInput <? 0) || (img_height input <=? yInput) ||
            (yOutput <? 0) || (img_height output <=? yOutput)) eqn:Erow.
  - exists output. split; [reflexivity|]. split; [apply same_frame_refl|].
    intros c r. destruct (shared input output c r && _) eqn:E; [|reflexivity].
    exfalso. unfold shared in E. bool_prop.
    apply in_raster_iff in H. apply in_raster_iff in H1. apply span_contains_iff in H0.
    unfold yInput, yOutput in Erow.
    repeat (apply orb_true_iff in Erow as [Erow|Erow]); bool_prop; lia.
  - bool_prop.
    set (xStart := Z.max (getX0 sp) (Z.max (img_x0 input) (img_x0 output))).
    set (xStop := Z.min (getX1 sp)
                        (Z.min (img_width input + img_x0 input)
                               (img_width output + img_x0 output) - 1)).
    assert (Hxs : xStart = Z.max (getX0 sp) (Z.max (img_x0 input) (img_x0 output)))
      by reflexivity.
    assert (Hxe : xStop = Z.min (getX1 sp)
                                (Z.min (img_width input + img_x0 input)
                                       (img_width output + img_x0 output) - 1))
      by reflexivity.
    clearbody xStart xStop.
    destruct (@copy_columns_spec input yInput yOutput (Z.to_nat (xStop - xStart + 1))
                output xStart) as (out & E & F & P); try lia.
    exists out. split; [exact E|]. split; [exact F|].
    intros c r. rewrite P.
    destruct (shared input output c r &&
              span_contains sp (c + img_x0 output) (r + img_y0 output)) eqn:E1.
    + unfold shared in E1. bool_prop.
      apply in_raster_iff in H3. apply in_raster_iff in H5. apply span_contains_iff in H4.
      destruct (Z.eqb_spec r yOutput); [|unfold yOutput in *; lia].
      destruct (Z.leb_spec xStart (c + img_x0 output)); [|lia].
      match goal with |- context [?a <? ?b] => destruct (Z.ltb_spec a b) end; [|lia].
      cbn [andb]. f_equal. unfold yInput. lia.
    + match goal with |- (if ?b then _ else _) = _ => destruct b eqn:E2 end; [|reflexivity].
      exfalso. bool_prop. unfold shared in E1.
      assert (in_raster output c r = true) by (apply in_raster_iff; unfold yOutput in *; lia).
      assert (in_raster input (c + img_x0 output - img_x0 input)
                        (r + img_y0 output - img_y0 input) = true)
        by (apply in_raster_iff; unfold yInput, yOutput in *; lia).
      assert (span_contains sp (c + img_x0 output) (r + img_y0 output) = true)
        by (apply span_contains_iff; unfold yOutput in *; lia).
      rewrite H6, H7, H8 in E1. discriminate.
Qed.

Lemma copy_spans_spec (input : Raster) (l : list Span) :
  forall output,
  exists out,
    foldM (copy_span input) l output = Ok out /\ same_frame out output /\
    forall c r, img_pix out c r
                = if shared input output c r &&
                     existsb (fun s => span_contains s (c + img_x0 output) (r + img_y0 output)) l
                  then img_pix input (c + img_x0 output - img_x0 input)
                                     (r + img_y0 output - img_y0 input)
                  else img_pix output c r.
Proof.
  induction l as [|s l IH]; intros output.
  - exists output. split; [reflexivity|]. split; [apply same_frame_refl|].
    intros c r. cbn [existsb]. now rewrite andb_false_r.
  - destruct (copy_span_spec input output s) as (m1 & E1 & F1 & P1).
    destruct (IH m1) as (out & E & F & P). pose proof F1 as (Fx & Fy & Fw & Fh).
    exists out. cbn [foldM]. rewrite E1. cbn [bind]. split; [exact E|].
    split; [eapply same_frame_trans; eauto|].
    intros c r. rewrite P, P1. unfold shared.
    rewrite (same_frame_in_raster c r F1), Fx, Fy. cbn [existsb].
    destruct (in_raster output c r && in_raster input _ _); cbn [andb]; [|reflexivity].
    destruct (span_contains s (c + img_x0 output) (r + img_y0 output));
      destruct (existsb _ l); reflexivity.
Qed.

(** X19: [copyWithinFootprint] never reads or writes outside either
    image, whatever the footprint and the two images are.  It leaves an
    output image of the same origin and size in which a pixel holds the
    value of the input pixel at the same position of the parent frame when
    that position is under a span and inside both images, and its old
    value otherwise. *)
Theorem copyWithinFootprint_copies_covered (foot : Footprint) (input output : Raster) :
  exists out,
    copyWithinFootprint foot input output = Ok out /\ same_frame out output /\
    forall col row,
      (shared input output col row = true ->
       covers (_spans foot) (col + img_x0 output) (row + img_y0 output) ->
       img_pix out col row
       = pixel_at input (col + img_x0 output) (row + img_y0 output)) /\
      (~ (shared input output col row = true /\
          covers (_spans foot) (col + img_x0 output) (row + img_y0 output)) ->
       img_pix out col row = img_pix output col row).
Proof.
  destruct (copy_spans_spec input (_spans foot) output) as (out & E & F & P).
  exists out. split; [exact E|]. split; [exact F|].
  intros col row. rewrite P. unfold pixel_at. split.
  - intros Hs Hc. apply existsb_covers in Hc. now rewrite Hs, Hc.
  - intros Hn. destruct (shared input output col row) eqn:Hs; cbn [andb]; [|reflexivity].
    destruct (existsb _ (_spans foot)) eqn:Hc; [|reflexivity].
    exfalso. apply Hn. split; [reflexivity|]. now apply existsb_covers.
Qed.

(* ------------------------------------------------------------------ *)
(** ** insertIntoImage *)

Lemma set_insert_in (v w : Z) (l : list Z) : In w (set_insert v l) <-> w = v \/ In w l.
Proof.
  induction l as [|h t IH]; cbn [set_insert].
  - simpl. intuition.
  - destruct (Z.ltb_spec v h); [simpl; intuition|].
    destruct (Z.eqb_spec v h); [subst; simpl; intuition|].
    simpl. rewrite IH. intuition.
Qed.

Lemma insert_columns_spec (T : PixelType) (ov : bool) (id mask : Z) (n : nat) :
  forall (im : Raster) (ids : option (list Z)) (y c0 : Z),
    0 <= c0 -> c0 + Z.of_nat n <= img_width im -> 0 <= y < img_height im ->
    exists im' ids',
      insert_columns T ov im id mask ids y (columns c0 n) = Ok (im', ids') /\
      map_columns (ins T ov id mask) im y (columns c0 n) = Ok im' /\
      forall v, in_ids ids' v <->
                in_ids ids v \/
                (ov = true /\ ids <> None /\
                 exists c, c0 <= c < c0 + Z.of_nat n /\
                           v = Z.land (img_pix im c y) (Z.lnot mask) /\ v <> 0).
Proof.
  induction n as [|n IH]; intros im ids y c0 Hc0 Hn Hy.
  - exists im, ids. split; [reflexivity|]. split; [reflexivity|].
    intros v. split; [now left|]. intros [H|(_ & _ & c & Hc & _)]; [assumption|lia].
  - cbn [columns insert_columns map_columns].
    assert (Hin : in_raster im c0 y = true) by (apply in_raster_iff; lia).
    destruct ov.
    + set (val := Z.land (img_pix im c0 y) (Z.lnot mask)).
      set (ids1 := match ids with
                   | Some l => if negb (val =? 0) then Some (set_insert val l) else ids
                   | None => None
                   end).
      destruct (@raster_store_spec im c0 y (pix_store T (Z.land (img_pix im c0 y) mask + id))
                  Hin) as (m1 & E1 & F1 & P1).
      rewrite E1. cbn [bind]. unfold ins at 1. rewrite E1. cbn [bind].
      pose proof F1 as (Fx & Fy & Fw & Fh).
      destruct (IH m1 ids1 y (c0 + 1)) as (im' & ids' & E & Em & Hids); try lia.
      exists im', ids'. split; [exact E|]. split; [exact Em|].
      intros v. rewrite Hids.
      assert (H1 : in_ids ids1 v <->
                   in_ids ids v \/ (ids <> None /\ v = val /\ v <> 0)).
      { unfold ids1. destruct ids as [l|]; cbn [in_ids].
        - destruct (Z.eqb_spec val 0); cbn [negb in_ids].
          + split; [now left|]. intros [H|[_ [-> H]]]; [assumption|contradiction].
          + rewrite set_insert_in. split.
            * intros [->|H]; [right; repeat split; auto; discriminate|now left].
            * intros [H|[_ [-> _]]]; auto.
        - split; [now left|]. intros [[]|(H & _)]. now apply H. }
      assert (H2 : ids1 <> None <-> ids <> None).
      { unfold ids1. destruct ids as [l|]; [|tauto].
        destruct (negb (val =? 0)); split; intros _; discriminate. }
      rewrite H1, H2. split.
      * intros [[H|[Hn0 [-> Hv]]]|[_ [Hn0 [c [Hc [-> Hv]]]]]].
        -- now left.
        -- right. repeat split; auto. exists c0. repeat split; auto; lia.
        -- right. repeat split; auto. exists c. rewrite P1 in Hv |- *.
           destruct (Z.eqb_spec c c0); [lia|]. cbn [andb] in *. repeat split; auto; lia.
      * intros [H|[_ [Hn0 [c [Hc [-> Hv]]]]]]; [now left; left|].
        destruct (Z.eq_dec c c0) as [->|Hne].
        -- left. right. auto.
        -- right. repeat split; auto. exists c. rewrite P1.
           destruct (Z.eqb_spec c c0); [contradiction|]. cbn [andb]. repeat split; auto; lia.
    + destruct (@raster_store_spec im c0 y (pix_store T (img_pix im c0 y + id)) Hin)
        as (m1 & E1 & F1 & P1).
      rewrite E1. cbn [bind]. unfold ins at 1. rewrite E1. cbn [bind].
      pose proof F1 as (Fx & Fy & Fw & Fh).
      destruct (IH m1 ids y (c0 + 1)) as (im' & ids' & E & Em & Hids); try lia.
      exists im', ids'. split; [exact E|]. split; [exact Em|].
      intros v. rewrite Hids. split; (intros [H|(H & _)]; [now left|discriminate]).
Qed.

Lemma insert_columns_none (T : PixelType) (ov : bool) (id mask : Z) (cols : list Z) :
  forall (im : Raster) (ids : option (list Z)) (y : Z) (o : Raster * option (list Z)),
    insert_columns T ov im id mask ids y cols = Ok o -> (snd o = None <-> ids = None).
Proof.
  induction cols as [|c cols IH]; intros im ids y o; cbn [insert_columns].
  - intros [= <-]. reflexivity.
  - destruct ov.
    + destruct (raster_store im c y _); cbn [bind]; try discriminate.
      intros E. apply IH in E. rewrite E. destruct ids as [l|]; [|tauto].
      destruct (negb _); split; discriminate.
    + destruct (raster_store im c y _); cbn [bind]; try discriminate. apply IH.
Qed.

Lemma insert_spans_spec (T : PixelType) (ov : bool) (id mask x0 y0 : Z) (l : list Span) :
  forall (im : Raster) (ids : option (list Z)),
    0 <= img_width im -> Forall span_wf l ->
    reaches x0 y0 (img_width im) (img_height im) l -> StronglySorted gap l ->
    exists im' ids',
      insert_spans T ov im id mask ids (img_width im) (img_height im) x0 y0 l
      = Ok (im', ids') /\
      foldM (map_span (ins T ov id mask) x0 y0) l im = Ok im' /\
      forall v, in_ids ids' v <->
                in_ids ids v \/
                (ov = true /\ ids <> None /\
                 exists col row, in_raster im col row = true /\
                                 covers l (col + x0) (row + y0) /\
                                 v = Z.land (img_pix im col row) (Z.lnot mask) /\ v <> 0).
Proof.
  induction l as [|s l IH]; intros im ids Hw0 Hwf Hr Hs.
  - exists im, ids. split; [reflexivity|]. split; [reflexivity|].
    intros v. split; [now left|].
    intros [H|(_ & _ & col & row & _ & Hc & _)]; [assumption|]. now apply covers_nil in Hc.
  - inversion Hwf as [|? ? Hws Hwl]; subst. inversion Hr as [|? ? Rs Rl]; subst.
    inversion Hs as [|? ? Hsl Hall]; subst. unfold span_wf in Hws.
    cbn [insert_spans foldM]. unfold map_span at 1. cbn zeta.
    destruct ((getY s - y0 <? 0) || (img_height im <=? getY s - y0)) eqn:Erow.
    + cbn [bind]. destruct (IH im ids Hw0 Hwl Rl Hsl) as (im' & ids' & E & Em & Hids).
      exists im', ids'. split; [exact E|]. split; [exact Em|].
      intros v. rewrite Hids. split; (intros [H|(Ho & Hn0 & col & row & Hin & Hc & Hv)];
        [now left|right; repeat split; auto; exists col, row; repeat split; auto;
                  try apply Hv]).
      * apply covers_cons. now right.
      * apply covers_cons in Hc as [Hc|Hc]; [|assumption]. exfalso.
        apply in_raster_iff in Hin. apply span_contains_iff in Hc.
        apply orb_true_iff in Erow as [Hr0|Hr0]; bool_prop; lia.
    + bool_prop. destruct Rs as [R0 R1]; [lia|].
      destruct (@clampColumn_reach (img_width im) (getX0 s - x0) (getX1 s - x0))
        as [C0 C1]; try lia.
      rewrite C0, C1.
      set (sx0 := Z.max 0 (getX0 s - x0)).
      assert (Esx0 : (if getX0 s - x0 <? 0 then 0 else getX0 s - x0) = sx0).
      { unfold sx0. destruct (Z.ltb_spec (getX0 s - x0) 0); lia. }
      rewrite Esx0.
      set (cx1 := Z.min (img_width im - 1) (getX1 s - x0)).
      assert (Esw : (if img_width im <=? getX1 s - x0 then img_width im - sx0
                     else getX1 s - x0 - sx0 + 1) = cx1 + 1 - sx0).
      { unfold cx1. destruct (Z.leb_spec (img_width im) (getX1 s - x0)); lia. }
      rewrite Esw.
      assert (Hsx : sx0 = Z.max 0 (getX0 s - x0)) by reflexivity.
      assert (Hcx : cx1 = Z.min (img_width im - 1) (getX1 s - x0)) by reflexivity.
      clearbody sx0 cx1.
      destruct (Z.ltb_spec (cx1 + 1 - sx0) 0); [lia|].
      destruct (Z.ltb_spec (cx1 + 1) sx0); [lia|].
      destruct (@insert_columns_spec T ov id mask (Z.to_nat (cx1 + 1 - sx0)) im ids
                  (getY s - y0) sx0) as (m1 & ids1 & E1 & Em1 & Hids1); try lia.
      rewrite E1, Em1. cbn [bind fst snd].
      pose proof (@map_columns_frame _ _ _ _ _ Em1) as F1.
      pose proof F1 as (Fx & Fy & Fw & Fh).
      destruct (@map_columns_spec (ins T ov id mask) (Z.to_nat (cx1 + 1 - sx0)) im
                  (getY s - y0) sx0) as (m1' & Em1' & _ & P1); try lia.
      rewrite Em1 in Em1'. injection Em1' as <-.
      assert (Rl1 : reaches x0 y0 (img_width m1) (img_height m1) l)
        by (unfold reaches; now rewrite Fw, Fh).
      destruct (IH m1 ids1 ltac:(lia) Hwl Rl1 Hsl) as (im' & ids' & E & Em & Hids).
      rewrite Fw, Fh in E.
      exists im', ids'. split; [exact E|]. split; [exact Em|].
      intros v. rewrite Hids, Hids1.
      assert (Hnone : ids1 <> None <-> ids <> None).
      { pose proof (@insert_columns_none _ _ _ _ _ _ _ _ _ E1) as Hn. cbn [snd] in Hn. tauto. }
      rewrite Hnone. split.
      * intros [[Hv0|(Ho & Hn0 & c & Hc & Hv)]|(Ho & Hn0 & col & row & Hin & Hc & Hv)].
        -- now left.
        -- right. repeat split; auto. exists c, (getY s - y0).
           split; [apply in_raster_iff; lia|]. split; [|exact Hv].
           apply covers_cons. left. apply span_contains_iff. lia.
        -- right. repeat split; auto. exists col, row.
           rewrite (same_frame_in_raster col row F1) in Hin.
           split; [exact Hin|]. split; [apply covers_cons; now right|].
           rewrite P1 in Hv.
           match type of Hv with context [if ?b then _ else _] => destruct b eqn:Eb end;
             [|exact Hv].
           exfalso. bool_prop. destruct Hc as (t & Ht & Hct).
           rewrite Forall_forall in Hall.
           apply (@gap_disjoint s t (col + x0) (row + y0) (Hall t Ht)); [|exact Hct].
           apply span_contains_iff. apply in_raster_iff in Hin. lia.
      * intros [Hv0|(Ho & Hn0 & col & row & Hin & Hc & Hv)]; [now left; left|].
        apply covers_cons in Hc as [Hc|Hc].
        -- left. right. repeat split; auto. apply span_contains_iff in Hc.
           apply in_raster_iff in Hin. exists col. split; [lia|].
           replace (getY s - y0) with row by lia. exact Hv.
        -- right. repeat split; auto. exists col, row.
           rewrite (same_frame_in_raster col row F1).
           split; [exact Hin|]. split; [exact Hc|]. rewrite P1.
           match goal with |- context [if ?b then _ else _] => destruct b eqn:Eb end;
             [|exact Hv].
           exfalso. bool_prop. destruct Hc as (t & Ht & Hct).
           rewrite Forall_forall in Hall.
           apply (@gap_disjoint s t (col + x0) (row + y0) (Hall t Ht)); [|exact Hct].
           apply span_contains_iff. apply in_raster_iff in Hin. lia.
Qed.

Lemma doInsertIntoImage_spec (T : PixelType) (ov : bool) (f : Footprint) (idImage : Raster)
    (id mask : Z) (oldIds : option (list Z)) (region : Box2I) :
  normalized_inv f -> raster_wf idImage -> Z.land id mask = 0 ->
  getWidthB (host_region f region) = img_width idImage ->
  getHeightB (host_region f region) = img_height idImage ->
  reaches (getMinX (host_region f region)) (getMinY (host_region f region))
          (getWidthB (host_region f region)) (getHeightB (host_region f region))
          (_spans f) ->
  exists im ids',
    doInsertIntoImage T ov (_region f) (_spans f) idImage id region mask oldIds
    = Ok (im, ids') /\
    same_frame im idImage /\
    (forall col row,
       (in_raster idImage col row = true ->
        covers (_spans f) (col + getMinX (host_region f region))
                          (row + getMinY (host_region f region)) ->
        img_pix im col row = ins T ov id mask (img_pix idImage col row)) /\
       (~ (in_raster idImage col row = true /\
           covers (_spans f) (col + getMinX (host_region f region))
                             (row + getMinY (host_region f region))) ->
        img_pix im col row = img_pix idImage col row)) /\
    (forall v, in_ids ids' v <->
               in_ids oldIds v \/
               (ov = true /\ oldIds <> None /\
                exists col row,
                  in_raster idImage col row = true /\
                  covers (_spans f) (col + getMinX (host_region f region))
                                    (row + getMinY (host_region f region)) /\
                  v = Z.land (img_pix idImage col row) (Z.lnot mask) /\ v <> 0)).
Proof.
  intros Hinv [Hw0 _] Hid Hw Hh Hr.
  unfold doInsertIntoImage. cbn zeta. fold (host_region f region).
  set (r := host_region f region) in *.
  rewrite Hw, Hh, !Z.eqb_refl, Hid. cbn [negb orb Z.eqb].
  rewrite Hw, Hh in Hr.
  destruct (@insert_spans_spec T ov id mask (getMinX r) (getMinY r) (_spans f) idImage oldIds
              Hw0 (ni_wf Hinv) Hr (normalized_inv_gap Hinv)) as (im & ids' & E & Em & Hids).
  destruct (@map_spans_spec (ins T ov id mask) (getMinX r) (getMinY r) (_spans f) idImage
              Hw0 (ni_wf Hinv) Hr) as (im2 & Em2 & F & P).
  { right. now apply normalized_inv_gap. }
  rewrite Em in Em2. injection Em2 as <-.
  exists im, ids'. split; [exact E|]. split; [exact F|]. split; [|exact Hids].
  apply (covered_pixel (ins T ov id mask) _ _ _ _ _ P).
Qed.



(** X21: the overload of three arguments of [insertIntoImage], for an
    image of the size of the region and a normalized footprint none of
    whose spans lies wholly beside the region on one of its rows, returns
    and adds the id, as stored in the pixel type, to each pixel under a
    span exactly once; every other pixel is unchanged. *)
Theorem insertIntoImage3_adds_id (T : PixelType) (f : Footprint) (idImage : Raster)
    (id : Z) (region : Box2I) :
  normalized_inv f -> raster_wf idImage ->
  getWidthB (host_region f region) = img_width idImage ->
  getHeightB (host_region f region) = img_height idImage ->
  reaches (getMinX (host_region f region)) (getMinY (host_region f region))
          (getWidthB (host_region f region)) (getHeightB (host_region f region))
          (_spans f) ->
  exists im,
    insertIntoImage3 T f idImage id region = Ok im /\ same_frame im idImage /\
    forall col row,
      (in_raster idImage col row = true ->
       covers (_spans f) (col + getMinX (host_region f region))
                         (row + getMinY (host_region f region)) ->
       img_pix im col row = pix_store T (img_pix idImage col row + id)) /\
      (~ (in_raster idImage col row = true /\
          covers (_spans f) (col + getMinX (host_region f region))
                            (row + getMinY (host_region f region))) ->
       img_pix im col row = img_pix idImage col row).
Proof.
  intros Hinv Hwf Hw Hh Hr. unfold insertIntoImage3.
  destruct (@doInsertIntoImage_spec T false f idImage id 0 None region Hinv Hwf
              (Z.land_0_r id) Hw Hh Hr) as (im & ids' & E & F & P & _).
  exists im. rewrite E. cbn [bind fst]. split; [reflexivity|]. split; [exact F|exact P].
Qed.

Lemma insertIntoImage3_adds_id_witness :
  exists im,
    insertIntoImage3 uint16_t one_pixel_footprint one_pixel_image 7 emptyBox = Ok im /\
    img_pix im 0 0 = 7.
Proof.
  destruct (@insertIntoImage3_adds_id uint16_t one_pixel_footprint one_pixel_image 7 emptyBox)
    as (im & E & _).
  - apply Footprint_rect_inv; lia.
  - unfold raster_wf. simpl. lia.
  - reflexivity.
  - reflexivity.
  - change (host_region one_pixel_footprint emptyBox) with (mkBox 0 0 1 1).
    change (_spans one_pixel_footprint) with [mkSpan 0 0 0].
    constructor; [simpl; lia|constructor].
  - exists im. split; [exact E|]. vm_compute in E. injection E as <-. reflexivity.
Defined.

(* ------------------------------------------------------------------ *)
(** ** setMaskFromFootprintList *)

Lemma setMask_spans_app (bitmask : Z) (l1 l2 : list Span) :
  forall mask,
    setMask_spans mask bitmask (l1 ++ l2)
    = (m <- setMask_spans mask bitmask l1 ;; setMask_spans m bitmask l2).
Proof.
  induction l1 as [|s l1 IH]; intros mask; cbn [app setMask_spans]; [reflexivity|].
  destruct (setMask_span mask bitmask s); cbn [bind]; auto.
Qed.

Lemma setMaskFromFootprintList_spans (bitmask : Z) (footprints : list Footprint) :
  forall mask,
    setMaskFromFootprintList mask footprints bitmask
    = (m <- setMask_spans mask bitmask (flat_map (@_spans) footprints) ;; Ok (m, bitmask)).
Proof.
  unfold setMaskFromFootprintList.
  induction footprints as [|foot l IH]; intros mask; cbn [foldM flat_map]; [reflexivity|].
  rewrite setMask_spans_app. unfold setMaskFromFootprint at 1.
  destruct (setMask_spans mask bitmask (_spans foot)); cbn [bind fst]; auto.
Qed.

(** X22: [setMaskFromFootprintList] sets the bitmask under the union of
    the footprints: when no span of any of them lies on a row of the mask
    wholly to the left or to the right of it, each pixel under a span of
    some footprint of the list holds its old value OR the bitmask, and
    every other pixel its old value. *)
Theorem setMaskFromFootprintList_sets_union (mask : Raster) (footprints : list Footprint)
    (bitmask : Z) :
  raster_wf mask ->
  Forall (fun foot => Forall span_wf (_spans foot) /\
                      reaches (img_x0 mask) (img_y0 mask) (img_width mask) (img_height mask)
                              (_spans foot)) footprints ->
  exists m,
    setMaskFromFootprintList mask footprints bitmask = Ok (m, bitmask) /\
    same_frame m mask /\
    forall col row,
      (in_raster mask col row = true ->
       (exists foot, In foot footprints /\
                     covers (_spans foot) (col + img_x0 mask) (row + img_y0 mask)) ->
       img_pix m col row = Z.lor (img_pix mask col row) bitmask) /\
      (~ (in_raster mask col row = true /\
          exists foot, In foot footprints /\
                       covers (_spans foot) (col + img_x0 mask) (row + img_y0 mask)) ->
       img_pix m col row = img_pix mask col row).
Proof.
  intros [Hw _] Hall.
  assert (Hwf : Forall span_wf (flat_map (@_spans) footprints)).
  { apply Forall_forall. intros s Hin. apply in_flat_map in Hin as (foot & Hf & Hs).
    rewrite Forall_forall in Hall. destruct (Hall foot Hf) as [H _].
    rewrite Forall_forall in H. auto. }
  assert (Hr : reaches (img_x0 mask) (img_y0 mask) (img_width mask) (img_height mask)
                       (flat_map (@_spans) footprints)).
  { apply Forall_forall. intros s Hin. apply in_flat_map in Hin as (foot & Hf & Hs).
    rewrite Forall_forall in Hall. destruct (Hall foot Hf) as [_ H].
    unfold reaches in H. rewrite Forall_forall in H. auto. }
  assert (Hcov : forall x y, covers (flat_map (@_spans) footprints) x y <->
                             exists foot, In foot footprints /\ covers (_spans foot) x y).
  { intros x y. unfold covers. split.
    - intros (s & Hin & Hc). apply in_flat_map in Hin as (foot & Hf & Hs). eauto.
    - intros (foot & Hf & s & Hs & Hc). exists s. split; [|assumption].
      apply in_flat_map. eauto. }
  destruct (@map_spans_spec (fun p => Z.lor p bitmask) (img_x0 mask) (img_y0 mask)
              (flat_map (@_spans) footprints) mask Hw Hwf Hr) as (m & E & F & P).
  { left. intros p. apply lor_idem. }
  exists m. rewrite setMaskFromFootprintList_spans, setMask_spans_map, E. cbn [bind].
  split; [reflexivity|]. split; [exact F|].
  intros col row.
  destruct (covered_pixel (fun p => Z.lor p bitmask) _ _ _ _ _ P col row) as [H1 H2].
  split.
  - intros Hin Hex. apply H1; [assumption|]. now apply Hcov.
  - intros Hn. apply H2. intros [Hin Hc]. apply Hn. split; [assumption|]. now apply Hcov.
Qed.

Lemma setMaskFromFootprintList_sets_union_witness :
  exists m,
    setMaskFromFootprintList blank_3x1
      [addSpan Footprint_default 0 0 0; addSpan Footprint_default 0 2 5] 2 = Ok (m, 2) /\
    map (fun c => img_pix m c 0) [0; 1; 2] = [2; 0; 2].
Proof.
  destruct (@setMaskFromFootprintList_sets_union blank_3x1
              [addSpan Footprint_default 0 0 0; addSpan Footprint_default 0 2 5] 2)
    as (m & E & _).
  - unfold raster_wf. simpl. lia.
  - repeat constructor; unfold span_wf; simpl; lia.
  - exists m. split; [exact E|]. vm_compute in E. injection E as <-. reflexivity.
Defined.

(* ------------------------------------------------------------------ *)
(** ** Dilation yields nothing but moved pixels *)

Lemma coalesce_run_sound (P : Z -> Prop) (l : list (Z * Z)) :
  forall (start end_ : Z) (news out : list (Z * Z)),
    within P (start, end_) -> Forall (within P) l -> Forall (within P) news ->
    coalesce_run start end_ l news = Ok out -> Forall (within P) out.
Proof.
  induction l as [|p l IH]; intros start end_ news out Hrun Hl Hnews E;
    cbn [coalesce_run] in E.
  - injection E as <-. apply Forall_forall. intros q Hq.
    apply pset_insert_in in Hq as [->|Hq]; [assumption|].
    rewrite Forall_forall in Hnews. auto.
  - inversion Hl as [|? ? Hp Hl']; subst.
    destruct (Z.leb_spec (fst p) (end_ + 1)).
    + eapply (IH start (Z.max end_ (snd p)) news out); [|exact Hl'|exact Hnews|exact E].
      intros x Hx. cbn [fst snd] in Hx.
      destruct (Z.le_gt_cases x end_); [apply Hrun; cbn [fst snd]; lia|apply Hp; lia].
    + destruct (fst p <=? snd p + 1); [|discriminate].
      eapply (IH (fst p) (snd p) (pset_insert (start, end_) news) out);
        [|exact Hl'| |exact E].
      * destruct p; exact Hp.
      * apply Forall_forall. intros q Hq.
        apply pset_insert_in in Hq as [->|Hq]; [assumption|].
        rewrite Forall_forall in Hnews. auto.
Qed.

Lemma coalesce_sound (P : Z -> Prop) (l out : list (Z * Z)) :
  Forall (within P) l -> coalesce l = Ok out -> Forall (within P) out.
Proof.
  intros Hl E. destruct l as [|p l]; cbn [coalesce] in E.
  - injection E as <-. constructor.
  - destruct (fst p <=? snd p + 1); [|discriminate].
    inversion Hl as [|? ? Hp Hl']; subst.
    apply (@coalesce_run_sound P l (fst p) (snd p) [] out);
      [destruct p; exact Hp|exact Hl'|constructor|exact E].
Qed.

Lemma grow_step_sound (Q : Z -> Z -> Prop) (span el : Span)
    (m m' : list (Z * list (Z * Z))) :
  map_sound Q m ->
  within (fun x => Q x (getY span + getY el))
         (getX0 span + getX0 el, getX1 span + getX1 el) ->
  grow_step span m el = Ok m' -> map_sound Q m'.
Proof.
  intros Hm Hnew E. unfold grow_step in E.
  destruct (coalesce _) as [out| |] eqn:Ec; try discriminate. cbn [bind] in E.
  injection E as <-. intros y q Hq.
  destruct (Z.eq_dec (getY span + getY el) y) as [<-|Hne].
  - rewrite map_get_set_same in Hq.
    assert (Hout : Forall (within (fun x => Q x (getY span + getY el))) out).
    { apply (@coalesce_sound (fun x => Q x (getY span + getY el)) _ out) in Ec; auto.
      apply Forall_forall. intros p Hp. apply pset_insert_in in Hp as [->|Hp]; auto. }
    rewrite Forall_forall in Hout. auto.
  - rewrite map_get_set_other in Hq by assumption. auto.
Qed.

Lemma grow_span_sound (Q : Z -> Z -> Prop) (span : Span) (rows : list Span) :
  forall m m',
    map_sound Q m ->
    (forall el, In el rows ->
       within (fun x => Q x (getY span + getY el))
              (getX0 span + getX0 el, getX1 span + getX1 el)) ->
    foldM (grow_step span) rows m = Ok m' -> map_sound Q m'.
Proof.
  induction rows as [|el rows IH]; intros m m' Hm Hrows E; cbn [foldM] in E.
  - now injection E as <-.
  - destruct (grow_step span m el) as [m1| |] eqn:E1; try discriminate. cbn [bind] in E.
    eapply IH; [| |exact E].
    + eapply grow_step_sound; [exact Hm| |exact E1]. apply Hrows. now left.
    + intros el' Hel. apply Hrows. now right.
Qed.

Lemma grow_spans_sound (Q : Z -> Z -> Prop) (element : StructuringElement) (l : list Span) :
  forall m m',
    map_sound Q m ->
    (forall span el, In span l -> In el (_widths element) ->
       within (fun x => Q x (getY span + getY el))
              (getX0 span + getX0 el, getX1 span + getX1 el)) ->
    foldM (grow_span element) l m = Ok m' -> map_sound Q m'.
Proof.
  induction l as [|span l IH]; intros m m' Hm Hl E; cbn [foldM] in E.
  - now injection E as <-.
  - destruct (grow_span element m span) as [m1| |] eqn:E1; try discriminate.
    cbn [bind] in E. eapply IH; [| |exact E].
    + unfold grow_span in E1. eapply grow_span_sound; [exact Hm| |exact E1].
      intros el Hel. apply Hl; [now left|assumption].
    + intros span' el Hs Hel. apply Hl; [now right|assumption].
Qed.

Lemma map_get_unique (m : list (Z * list (Z * Z))) (y : Z) (v : list (Z * Z)) :
  StronglySorted (fun e1 e2 => fst e1 < fst e2) m -> In (y, v) m -> map_get m y = v.
Proof.
  induction 1 as [|[k w] m Hs IH Hall]; intros Hin; [contradiction|].
  cbn [map_get]. destruct Hin as [E|Hin].
  - injection E as -> ->. now rewrite Z.eqb_refl.
  - rewrite Forall_forall in Hall. specialize (Hall _ Hin). cbn [fst] in Hall.
    destruct (Z.eqb_spec k y); [lia|]. auto.
Qed.

Lemma fold_push_rest (l : list Span) :
  forall e, _peaks (fold_left push l e) = _peaks e /\
            _region (fold_left push l e) = _region e.
Proof.
  induction l as [|s l IH]; intros e; cbn [fold_left]; [auto|].
  destruct (IH (push e s)) as [Hp Hr]. rewrite Hp, Hr.
  unfold push, addSpan. destruct (_ <? _); auto.
Qed.

Lemma empty_footprint_inv (peaks : PeakCatalog) (region : Box2I) (n : bool) :
  normalized_inv (mkFootprint [] 0 emptyBox peaks region n).
Proof.
  split; cbn; try reflexivity; try constructor.
  intros i s t Hs. destruct i; discriminate.
Qed.

Lemma growFootprintImpl_dilates (foot : Footprint) (element : StructuringElement) :
  Forall span_wf (_spans foot) -> Forall span_wf (_widths element) ->
  exists g,
    growFootprintImpl foot element = Ok g /\
    normalized_inv g /\ _normalized g = true /\
    _peaks g = _peaks foot /\ _region g = _region foot /\
    (forall x y, covers (_spans g) x y <-> dilated (_spans foot) (_widths element) x y).
Proof.
  intros Hwf Hwe. unfold growFootprintImpl, Footprint_new.
  change (0 <? 0) with false. cbn [bind].
  destruct (@grow_spans_spec element (_spans foot) []) as (m & E & Hm & _ & Hcov);
    auto; [split; constructor|].
  assert (Hsound : map_sound (dilated (_spans foot) (_widths element)) m).
  { apply (@grow_spans_sound (dilated (_spans foot) (_widths element)) element
             (_spans foot) [] m); [intros y q []| |exact E].
    intros span el Hs He x Hx. cbn [fst snd] in Hx. exists span, el. auto. }
  rewrite E. cbn [bind].
  destruct (map_spans_sorted Hm) as [Hs Hw].
  set (f0 := mkFootprint [] 0 emptyBox (mkCatalog minimalSchema []) (_region foot) true).
  pose proof (empty_footprint_inv (mkCatalog minimalSchema []) (_region foot) true) as Hf0.
  fold f0 in Hf0.
  rewrite addAllInSeries_spec by (auto; now apply precedes_nil). cbn [bind].
  eexists. split; [reflexivity|].
  assert (Hinv : normalized_inv (fold_left push (map_spans m) f0)).
  { apply fold_push_inv; auto. now apply precedes_nil. }
  destruct (fold_push_rest (map_spans m) f0) as [_ Hreg].
  split; [destruct Hinv as [H1 H2 H3 H4 H5]; split; assumption|].
  split; [cbn [set_peaks _normalized]; now apply fold_push_normalized|].
  split; [reflexivity|]. split; [exact Hreg|].
  intros x y. cbn [set_peaks _spans]. rewrite fold_push_spans by assumption.
  cbn [f0 _spans app]. split.
  - intros (t & Ht & Hc). apply span_contains_iff in Hc as [Hx ->].
    apply map_spans_in in Ht as (v & Hv & Hin).
    destruct Hm as [Hkeys _]. rewrite <- (@map_get_unique m (getY t) v Hkeys Hv) in Hin.
    apply (Hsound _ _ Hin). cbn [fst snd]. lia.
  - intros (span & el & Hspan & Hel & -> & Hx).
    destruct (map_has_span (Hcov span el Hspan Hel)) as (t & Ht & Hy & H0 & H1).
    exists t. split; [assumption|]. apply span_contains_iff. cbn [fst snd] in *. lia.
Qed.

(** ** Growing with the diamond *)

Lemma diamond_rows_in (r : Z) (el : Span) :
  0 <= r ->
  (In el (_widths (StructuringElement_shape DIAMOND r)) <->
   exists dy, - r <= dy <= r /\ el = mkSpan dy (- (r - Z.abs dy)) (r - Z.abs dy)).
Proof.
  intros Hr. unfold StructuringElement_shape. cbn [_widths]. rewrite in_map_iff.
  split.
  - intros (dy & <- & Hin). apply in_columns in Hin. exists dy. split; [lia|reflexivity].
  - intros (dy & Hdy & ->). exists dy. split; [reflexivity|]. apply in_columns. lia.
Qed.

Lemma dilated_diamond (l : list Span) (r x y : Z) :
  Forall span_wf l -> 0 <= r ->
  (dilated l (_widths (StructuringElement_shape DIAMOND r)) x y <->
   exists px py, covers l px py /\ Z.abs (x - px) + Z.abs (y - py) <= r).
Proof.
  intros Hwf Hr. rewrite Forall_forall in Hwf. split.
  - intros (span & el & Hs & Hel & -> & Hx).
    apply diamond_rows_in in Hel as (dy & Hdy & ->); [|assumption].
    cbn [getY getX0 getX1] in *. specialize (Hwf _ Hs). unfold span_wf in Hwf.
    exists (Z.max (getX0 span) (Z.min x (getX1 span))), (getY span). split.
    + exists span. split; [assumption|]. apply span_contains_iff. lia.
    + lia.
  - intros (px & py & (span & Hs & Hc) & Hd). apply span_contains_iff in Hc as [Hx ->].
    exists span, (mkSpan (y - getY span) (- (r - Z.abs (y - getY span)))
                         (r - Z.abs (y - getY span))).
    split; [assumption|]. split.
    + apply diamond_rows_in; [assumption|]. exists (y - getY span). split; [lia|reflexivity].
    + cbn [getY getX0 getX1]. lia.
Qed.

Lemma normalized_empty_area (f : Footprint) :
  normalized_inv f -> _area f = 0 -> _spans f = [].
Proof.
  intros Hinv Ha. destruct (_spans f) as [|s l] eqn:E; [reflexivity|].
  assert (Hne : _spans f <> []) by (rewrite E; discriminate).
  pose proof (@sum_widths_pos (_spans f) Hne (ni_wf Hinv)) as Hpos.
  rewrite <- (ni_area Hinv) in Hpos. lia.
Qed.

(** X23: growing a footprint that satisfies the invariant by [nGrow >= 0]
    with the Manhattan metric returns a footprint that satisfies the
    invariant whose pixels are exactly those within Manhattan distance
    [nGrow] of a pixel of the footprint. *)
Theorem growFootprint_manhattan (f : Footprint) (nGrow : Z) :
  normalized_inv f -> 0 <= nGrow ->
  exists g,
    growFootprint f nGrow false = Ok g /\ normalized_inv g /\
    (forall x y, covers (_spans g) x y <->
                 exists px py, covers (_spans f) px py /\
                               Z.abs (x - px) + Z.abs (y - py) <= nGrow).
Proof.
  intros Hinv Hn. unfold growFootprint.
  destruct ((nGrow <=? 0) || (_area f =? 0)) eqn:Ecase.
  - exists f. rewrite (@Footprint_copy_id f (ni_wf Hinv) (ni_bbox Hinv)).
    split; [reflexivity|]. split; [assumption|].
    intros x y. apply orb_true_iff in Ecase as [Hc|Hc]; bool_prop.
    + split.
      * intros H. exists x, y. split; [assumption|lia].
      * intros (px & py & H & Hd). replace x with px by lia. replace y with py by lia.
        assumption.
    + rewrite (normalized_empty_area Hinv Hc). split.
      * intros H. now apply covers_nil in H.
      * intros (px & py & H & _). now apply covers_nil in H.
  - destruct (@growFootprintImpl_dilates f (StructuringElement_shape DIAMOND nGrow)
                (ni_wf Hinv) (diamond_rows_wf nGrow)) as (g & E & Hg & _ & _ & _ & Hc).
    exists g. split; [exact E|]. split; [exact Hg|].
    intros x y. rewrite Hc. apply dilated_diamond; [apply (ni_wf Hinv)|assumption].
Qed.

Lemma growFootprint_manhattan_witness :
  exists g,
    growFootprint (Footprint_rect (mkBox 0 0 2 1) emptyBox) 1 false = Ok g /\
    _spans g = [mkSpan (-1) 0 1; mkSpan 0 (-1) 2; mkSpan 1 0 1].
Proof.
  destruct (@growFootprint_manhattan (Footprint_rect (mkBox 0 0 2 1) emptyBox) 1)
    as (g & E & _).
  - apply Footprint_rect_inv; lia.
  - lia.
  - exists g. split; [exact E|]. vm_compute in E. injection E as <-. reflexivity.
Defined.

(** ** Growing in chosen directions *)

Lemma dirs_rows_in (left right up down : Z) (el : Span) :
  In el (_widths (StructuringElement_dirs left right up down)) <->
  (exists dy, 1 <= dy <= up /\ el = mkSpan dy 0 0) \/
  (exists k, 1 <= k <= down /\ el = mkSpan (- k) 0 0) \/
  el = mkSpan 0 (- left) right.
Proof.
  unfold StructuringElement_dirs. cbn [_widths]. rewrite !in_app_iff, !in_map_iff.
  cbn [In]. split.
  - intros [(dy & <- & Hin)|[(k & <- & Hin)|[ <- | [] ]]]; [left|right; left|right; right].
    + apply in_columns in Hin. exists dy. split; [lia|reflexivity].
    + apply in_columns in Hin. exists k. split; [lia|reflexivity].
    + reflexivity.
  - intros [(dy & Hdy & ->)|[(k & Hk & ->)| -> ]]; [left|right; left|right; right; now left].
    + exists dy. split; [reflexivity|]. apply in_columns. lia.
    + exists k. split; [reflexivity|]. apply in_columns. lia.
Qed.

Lemma dirs_rows_wf (left right up down : Z) :
  0 <= left -> 0 <= right ->
  Forall span_wf (_widths (StructuringElement_dirs left right up down)).
Proof.
  intros Hl Hr. apply Forall_forall. intros el Hin.
  apply dirs_rows_in in Hin as [(dy & _ & ->)|[(k & _ & ->)| -> ]];
    unfold span_wf; simpl; lia.
Qed.

Lemma dilated_dirs (l : list Span) (left right up down x y : Z) :
  Forall span_wf l -> 0 <= left -> 0 <= right ->
  (dilated l (_widths (StructuringElement_dirs left right up down)) x y <->
   exists px py, covers l px py /\
                 ((y = py /\ px - left <= x <= px + right) \/
                  (x = px /\ (1 <= y - py <= up \/ 1 <= py - y <= down)))).
Proof.
  intros Hwf Hl Hr. rewrite Forall_forall in Hwf. split.
  - intros (span & el & Hs & Hel & -> & Hx). specialize (Hwf _ Hs). unfold span_wf in Hwf.
    apply dirs_rows_in in Hel as [(dy & Hdy & ->)|[(k & Hk & ->)| -> ]];
      cbn [getY getX0 getX1] in *.
    + exists x, (getY span). split; [|right; lia].
      exists span. split; [assumption|]. apply span_contains_iff. lia.
    + exists x, (getY span). split; [|right; lia].
      exists span. split; [assumption|]. apply span_contains_iff. lia.
    + exists (Z.max (getX0 span) (Z.min x (getX1 span))), (getY span). split; [|left; lia].
      exists span. split; [assumption|]. apply span_contains_iff. lia.
  - intros (px & py & (span & Hs & Hc) & Hd). apply span_contains_iff in Hc as [Hx ->].
    destruct Hd as [[-> Hd]|[-> [Hd|Hd]]].
    + exists span, (mkSpan 0 (- left) right). split; [assumption|].
      split; [apply dirs_rows_in; now right; right|]. cbn [getY getX0 getX1]. lia.
    + exists span, (mkSpan (y - getY span) 0 0). split; [assumption|].
      split; [apply dirs_rows_in; left; exists (y - getY span); split; [lia|reflexivity]|].
      cbn [getY getX0 getX1]. lia.
    + exists span, (mkSpan (- (getY span - y)) 0 0). split; [assumption|].
      split; [apply dirs_rows_in; right; left; exists (getY span - y);
              split; [lia|reflexivity]|].
      cbn [getY getX0 getX1]. lia.
Qed.

(** X24: growing a footprint that satisfies the invariant in chosen
    directions returns a footprint that satisfies the invariant whose
    pixels are exactly those reached from a pixel of the footprint by
    moving up to [nGrow] columns left or right along its row, when those
    directions are chosen, or up to [nGrow] rows up or down along its
    column: the footprint grows as a cross, not as a box, and with
    [nGrow <= 0] not at all. *)
Theorem growFootprint_dirs_cross (f : Footprint) (nGrow : Z) (left right up down : bool) :
  normalized_inv f ->
  let n := Z.max 0 nGrow in
  exists g,
    growFootprint_dirs f nGrow left right up down = Ok g /\ normalized_inv g /\
    (forall x y, covers (_spans g) x y <->
       exists px py, covers (_spans f) px py /\
         ((y = py /\ px - (if left then n else 0) <= x <= px + (if right then n else 0)) \/
          (x = px /\ (1 <= y - py <= (if up then n else 0) \/
                      1 <= py - y <= (if down then n else 0))))).
Proof.
  intros Hinv n. unfold growFootprint_dirs.
  destruct ((nGrow <=? 0) || (_area f =? 0)) eqn:Ecase.
  - exists f. rewrite (@Footprint_copy_id f (ni_wf Hinv) (ni_bbox Hinv)).
    split; [reflexivity|]. split; [assumption|].
    intros x y. apply orb_true_iff in Ecase as [Hc|Hc]; bool_prop.
    + assert (n = 0) as -> by (unfold n; lia). split.
      * intros H. exists x, y. split; [assumption|]. left. destruct left, right; lia.
      * intros (px & py & H & Hd).
        assert (x = px /\ y = py) as [-> ->]
          by (destruct left, right, up, down; lia).
        assumption.
    + rewrite (normalized_empty_area Hinv Hc). split.
      * intros H. now apply covers_nil in H.
      * intros (px & py & H & _). now apply covers_nil in H.
  - bool_prop. assert (n = nGrow) as -> by (unfold n; lia).
    assert (Hl : 0 <= (if left then nGrow else 0)) by (destruct left; lia).
    assert (Hr : 0 <= (if right then nGrow else 0)) by (destruct right; lia).
    destruct (@growFootprintImpl_dilates f
                (StructuringElement_dirs (if left then nGrow else 0)
                   (if right then nGrow else 0) (if up then nGrow else 0)
                   (if down then nGrow else 0))
                (ni_wf Hinv) (@dirs_rows_wf _ _ _ _ Hl Hr)) as (g & E & Hg & _ & _ & _ & Hc).
    exists g. split; [exact E|]. split; [exact Hg|].
    intros x y. rewrite Hc. apply dilated_dirs; [apply (ni_wf Hinv)|assumption|assumption].
Qed.

Lemma growFootprint_dirs_cross_witness :
  exists g,
    growFootprint_dirs (Footprint_rect (mkBox 0 0 2 1) emptyBox) 1 true false true false
    = Ok g /\
    _spans g = [mkSpan 0 (-1) 1; mkSpan 1 0 1].
Proof.
  destruct (@growFootprint_dirs_cross (Footprint_rect (mkBox 0 0 2 1) emptyBox) 1
              true false true false) as (g & E & _).
  - apply Footprint_rect_inv; lia.
  - exists g. split; [exact E|]. vm_compute in E. injection E as <-. reflexivity.
Defined.

(* ------------------------------------------------------------------ *)
(** ** Erosion: what the result holds *)

(** Consolidating a chain brings in no interval of its own. *)
Lemma consolidate_in (m y : Z) (runs : list PrimaryRun) :
  forall (start_x end_x : Z) (cands : list PrimaryRun) (c : PrimaryRun),
    StronglySorted chain runs ->
    Forall (fun r => (start_x = pr_xmin r /\ end_x = pr_xmax r) \/ end_x < pr_xmin r) runs ->
    In c (consolidate m y start_x end_x runs cands) ->
    In c cands \/ c = mkRun m y start_x end_x \/
    exists r, In r runs /\ c = mkRun m y (pr_xmin r) (pr_xmax r).
Proof.
  induction runs as [|run runs IH]; intros start_x end_x cands c Hs Hcur Hin.
  - cbn [consolidate] in Hin. apply in_app_or in Hin as [H|[<-|[]]]; auto.
  - inversion Hs as [|? ? Hs' Hall]; subst. inversion Hcur as [|? ? Hc Hcur']; subst.
    cbn [consolidate] in Hin. destruct (Z.ltb_spec end_x (pr_xmin run)) as [Hnew|Hcont].
    + apply IH in Hin; [|assumption|].
      * destruct Hin as [H|[->|(r & Hr & ->)]].
        -- apply in_app_or in H as [H|[<-|[]]]; auto.
        -- right; right. exists run. split; [now left|reflexivity].
        -- right; right. exists r. split; [now right|reflexivity].
      * revert Hall. apply Forall_weaken. unfold chain. intros; lia.
    + assert (Hsame : start_x = pr_xmin run /\ end_x = pr_xmax run) by lia.
      destruct Hsame as [E1 E2]. rewrite <- E2 in Hin.
      apply IH in Hin; [|assumption|assumption].
      destruct Hin as [H|[->|(r & Hr & ->)]]; auto.
      right; right. exists r. split; [now right|reflexivity].
Qed.

Lemma good_step_in (y m : Z) (rowRuns good : list PrimaryRun) (g : PrimaryRun) :
  StronglySorted chain (mRange rowRuns m) -> Forall run_wf (mRange rowRuns m) ->
  In g (good_step y rowRuns good m) ->
  pr_y g = y /\ run_wf g /\
  (exists r, In r (mRange rowRuns m) /\ pr_xmin r <= pr_xmin g /\ pr_xmax g <= pr_xmax r) /\
  (m = 0 \/ exists g0, In g0 good /\ pr_xmin g0 <= pr_xmin g /\ pr_xmax g <= pr_xmax g0).
Proof.
  intros Hs Hw Hin. unfold good_step in Hin.
  destruct (mRange rowRuns m) as [|first rest] eqn:E; [destruct Hin|].
  inversion Hs as [|? ? Hs' Hall]; subst.
  assert (Hc : forall c, In c (consolidate m y (pr_xmin first) (pr_xmax first) rest []) ->
                 exists r, In r (first :: rest) /\ c = mkRun m y (pr_xmin r) (pr_xmax r)).
  { intros c Hc. apply consolidate_in in Hc; [|assumption|].
    - destruct Hc as [[]|[->|(r & Hr & ->)]].
      + exists first. split; [now left|reflexivity].
      + exists r. split; [now right|reflexivity].
    - revert Hall. apply Forall_weaken. unfold chain. intros; lia. }
  rewrite Forall_forall in Hw.
  destruct (Z.eqb_spec m 0) as [Hm|Hm].
  - destruct (Hc _ Hin) as (r & Hr & ->). specialize (Hw _ Hr). unfold run_wf in *.
    cbn [pr_y pr_xmin pr_xmax]. split; [reflexivity|]. split; [exact Hw|].
    split; [exists r; split; [assumption|lia]|now left].
  - unfold intersect_runs in Hin. apply in_flat_map in Hin as (g0 & Hg0 & Hin).
    apply in_flat_map in Hin as (c & Hcin & Hin).
    destruct (Z.leb_spec (Z.max (pr_xmin g0) (pr_xmin c)) (Z.min (pr_xmax g0) (pr_xmax c)))
      as [Hle|Hgt]; [|destruct Hin].
    destruct Hin as [<-|[]]. destruct (Hc _ Hcin) as (r & Hr & ->).
    unfold run_wf. cbn [pr_y pr_xmin pr_xmax] in *. split; [reflexivity|]. split; [exact Hle|].
    split; [exists r; split; [assumption|lia]|].
    right. exists g0. split; [assumption|lia].
Qed.

Lemma good_fold_in (y : Z) (rowRuns : list PrimaryRun) (n : nat) :
  forall (m0 : Z) (good : list PrimaryRun),
    0 <= m0 ->
    (forall m, m0 <= m < m0 + Z.of_nat n ->
       StronglySorted chain (mRange rowRuns m) /\ Forall run_wf (mRange rowRuns m)) ->
    Forall (row_inv rowRuns y m0) good ->
    Forall (row_inv rowRuns y (m0 + Z.of_nat n))
           (fold_left (good_step y rowRuns) (columns m0 n) good).
Proof.
  induction n as [|n IH]; intros m0 good Hm0 Hrows Hgood.
  - cbn [columns fold_left]. replace (m0 + Z.of_nat 0) with m0 by lia. exact Hgood.
  - cbn [columns fold_left]. replace (m0 + Z.of_nat (S n)) with ((m0 + 1) + Z.of_nat n) by lia.
    apply IH; [lia|intros m Hm; apply Hrows; lia|].
    destruct (Hrows m0 ltac:(lia)) as [Hs Hw].
    apply Forall_forall. intros g Hg.
    destruct (@good_step_in y m0 rowRuns good g Hs Hw Hg)
      as (Ey & Wg & (r & Hr & Hr0 & Hr1) & Hprev).
    split; [exact Ey|]. split; [exact Wg|].
    intros m Hm. destruct (Z.eq_dec m m0) as [->|Hne].
    + exists r. auto.
    + destruct Hprev as [->|(g0 & Hg0 & H0 & H1)]; [lia|].
      rewrite Forall_forall in Hgood. destruct (Hgood _ Hg0) as (_ & _ & Hall).
      destruct (Hall m ltac:(lia)) as (r' & Hr' & Hlo & Hhi).
      exists r'. split; [assumption|lia].
Qed.

Lemma add_runs_covers (l : list PrimaryRun) :
  forall (f : Footprint) (px py : Z),
    Forall run_wf l ->
    covers (_spans (fold_left (fun f run => addSpan f (pr_y run) (pr_xmin run) (pr_xmax run))
                              l f)) px py ->
    covers (_spans f) px py \/
    exists c, In c l /\ pr_y c = py /\ pr_xmin c <= px <= pr_xmax c.
Proof.
  induction l as [|r l IH]; intros f px py Hwf H; [now left|].
  inversion Hwf as [|? ? Hr Hl]; subst. cbn [fold_left] in H.
  apply IH in H; [|assumption]. destruct H as [H|(c & Hc & Hy & Hx)].
  - rewrite addSpan_spans, covers_app in H. destruct H as [H|(s & [<-|[]] & Hc)]; [now left|].
    right. exists r. split; [now left|]. apply span_contains_iff in Hc.
    unfold run_wf in Hr. cbn [getY getX0 getX1] in Hc. lia.
  - right. exists c. split; [now right|]. auto.
Qed.

Lemma shrink_row_sound (L : list Span) (element : StructuringElement) (f : Footprint)
    (y px py : Z) :
  StronglySorted gap L -> Forall span_wf (_widths element) ->
  let P := sortRuns (flat_map (fun span => span_runs span 0 (_widths element)) L) in
  covers (_spans (shrink_row element P f y)) px py ->
  covers (_spans f) px py \/
  (py = y /\
   forall m, 0 <= m < _yRange element ->
     exists r, In r (mRange (yRange P y) m) /\ pr_xmin r <= px <= pr_xmax r).
Proof.
  intros HL Hrows P H. unfold shrink_row in H.
  destruct (Z.of_nat (length (yRange P y)) <? _yRange element); [now left|].
  assert (Hgood : Forall (row_inv (yRange P y) y (0 + Z.of_nat (Z.to_nat (_yRange element))))
            (fold_left (good_step y (yRange P y))
                       (columns 0 (Z.to_nat (_yRange element))) [])).
  { apply good_fold_in; [lia| |constructor].
    intros m _. exact (@mRange_chain L (_widths element) y m HL Hrows). }
  apply add_runs_covers in H.
  - destruct H as [H|(c & Hc & Ey & Hx)]; [now left|]. right.
    rewrite Forall_forall in Hgood. destruct (Hgood _ Hc) as (Ey' & _ & Hall).
    split; [congruence|]. intros m Hm. destruct (Hall m ltac:(lia)) as (r & Hr & Hlo & Hhi).
    exists r. split; [assumption|lia].
  - revert Hgood. apply Forall_impl. intros g (_ & Hw & _). exact Hw.
Qed.

Lemma shrink_rows_sound (L : list Span) (element : StructuringElement) (ys : list Z) :
  StronglySorted gap L -> Forall span_wf (_widths element) ->
  let P := sortRuns (flat_map (fun span => span_runs span 0 (_widths element)) L) in
  forall (f : Footprint) (px py : Z),
    covers (_spans (fold_left (shrink_row element P) ys f)) px py ->
    covers (_spans f) px py \/
    (forall m, 0 <= m < _yRange element ->
       exists r, In r (mRange (yRange P py) m) /\ pr_xmin r <= px <= pr_xmax r).
Proof.
  intros HL Hrows P. induction ys as [|y ys IH]; intros f px py H; [now left|].
  cbn [fold_left] in H. apply IH in H as [H|H]; [|now right].
  apply (@shrink_row_sound L element f y px py HL Hrows) in H as [H|[-> H]];
    [now left|now right].
Qed.

Lemma primary_run_fits (L rows : list Span) (e : Span) (x y : Z) :
  let P := sortRuns (flat_map (fun span => span_runs span 0 rows) L) in
  In e rows ->
  (forall m, 0 <= m < Z.of_nat (length rows) ->
     exists r, In r (mRange (yRange P y) m) /\ pr_xmin r <= x <= pr_xmax r) ->
  fits L e x y.
Proof.
  intros P He H. apply In_nth_error in He as (i & Hi).
  assert (Hlt : (i < length rows)%nat) by (apply nth_error_Some; congruence).
  destruct (H (Z.of_nat i) ltac:(lia)) as (r & Hr & Hx).
  unfold mRange, yRange in Hr. apply filter_In in Hr as [Hr Em].
  apply filter_In in Hr as [Hr Ey]. apply Z.eqb_eq in Em. apply Z.eqb_eq in Ey.
  unfold P in Hr. apply (proj1 (sortRuns_in _ r)) in Hr.
  apply primary_runs_in in Hr as (t & i' & e' & Ht & Hn & Hw & ->).
  cbn [run_of pr_m pr_y pr_xmin pr_xmax] in *.
  assert (i' = i) by lia. subst i'. rewrite Hi in Hn. injection Hn as <-.
  exists t. split; [assumption|]. lia.
Qed.

(** Every pixel of the erosion is one on which each row of the element
    fits in a span of the footprint. *)
Lemma shrinkFootprintImpl_sound (element : StructuringElement) (g s : Footprint) :
  StronglySorted gap (_spans g) -> Forall span_wf (_widths element) ->
  _yRange element = Z.of_nat (length (_widths element)) ->
  shrinkFootprintImpl g element = Ok s ->
  forall x y, covers (_spans s) x y ->
              forall e, In e (_widths element) -> fits (_spans g) e x y.
Proof.
  intros HL Hrows HM E x y Hc e He.
  unfold shrinkFootprintImpl, Footprint_new in E. change (0 <? 0) with false in E.
  cbn [bind] in E.
  remember (sortRuns (flat_map (fun span => span_runs span 0 (_widths element)) (_spans g)))
    as P eqn:EP.
  destruct P as [|front P']; [discriminate|].
  destruct (rev (front :: P')) as [|back P'']; [discriminate|].
  injection E as <-. unfold set_peaks in Hc. cbn [_spans] in Hc.
  apply (proj1 (normalize_covers _ _ _)) in Hc. rewrite EP in Hc.
  apply (@shrink_rows_sound (_spans g) element _ HL Hrows) in Hc as [Hc|Hc].
  - cbn [_spans] in Hc. now apply covers_nil in Hc.
  - apply (@primary_run_fits (_spans g) (_widths element) e x y He). rewrite <- HM. exact Hc.
Qed.

(** ** Erosion: the result is normalized *)

Lemma add_runs_flag (l : list PrimaryRun) :
  forall f : Footprint,
    Forall span_wf (_spans f) -> (_normalized f = true -> normalized_inv f) ->
    let f' := fold_left (fun f run => addSpan f (pr_y run) (pr_xmin run) (pr_xmax run)) l f in
    Forall span_wf (_spans f') /\ (_normalized f' = true -> normalized_inv f') /\
    _region f' = _region f.
Proof.
  induction l as [|r l IH]; intros f Hwf Hn; [cbn; auto|].
  cbn [fold_left]. destruct (IH (addSpan f (pr_y r) (pr_xmin r) (pr_xmax r))) as (H1 & H2 & H3).
  - now apply addSpan_spans_wf.
  - unfold addSpan. destruct (pr_xmax r <? pr_xmin r); discriminate.
  - split; [exact H1|]. split; [exact H2|]. rewrite H3.
    unfold addSpan. destruct (pr_xmax r <? pr_xmin r); reflexivity.
Qed.

Lemma shrink_rows_flag (element : StructuringElement) (P : list PrimaryRun) (ys : list Z) :
  forall f : Footprint,
    Forall span_wf (_spans f) -> (_normalized f = true -> normalized_inv f) ->
    let f' := fold_left (shrink_row element P) ys f in
    Forall span_wf (_spans f') /\ (_normalized f' = true -> normalized_inv f') /\
    _region f' = _region f.
Proof.
  induction ys as [|y ys IH]; intros f Hwf Hn; [cbn; auto|].
  cbn [fold_left].
  assert (Hrow : Forall span_wf (_spans (shrink_row element P f y)) /\
                 (_normalized (shrink_row element P f y) = true ->
                  normalized_inv (shrink_row element P f y)) /\
                 _region (shrink_row element P f y) = _region f).
  { unfold shrink_row. destruct (_ <? _); [auto|]. now apply add_runs_flag. }
  destruct Hrow as (H1 & H2 & H3).
  destruct (IH _ H1 H2) as (H4 & H5 & H6).
  split; [exact H4|]. split; [exact H5|]. now rewrite H6.
Qed.

Lemma normalize_inv_of_flag (f : Footprint) :
  Forall span_wf (_spans f) -> (_normalized f = true -> normalized_inv f) ->
  normalized_inv (normalize f) /\ _normalized (normalize f) = true.
Proof.
  intros Hwf Hn. destruct (_normalized f) eqn:E.
  - rewrite (normalize_flagged _ E). auto.
  - now apply normalize_unflagged_inv.
Qed.

(** Whatever [shrinkFootprintImpl] returns satisfies the invariant. *)
Lemma shrinkFootprintImpl_inv (element : StructuringElement) (g s : Footprint) :
  shrinkFootprintImpl g element = Ok s ->
  normalized_inv s /\ _normalized s = true /\ _region s = _region g.
Proof.
  intros E. unfold shrinkFootprintImpl, Footprint_new in E. change (0 <? 0) with false in E.
  cbn [bind] in E.
  destruct (sortRuns _) as [|front P'] eqn:EP; [discriminate|].
  destruct (rev (front :: P')) as [|back P'']; [discriminate|].
  injection E as <-.
  match goal with
  | |- context [fold_left ?step ?ys ?f0] =>
      destruct (@shrink_rows_flag element (front :: P') ys f0) as (H1 & H2 & H3)
  end.
  - constructor.
  - intros _. apply empty_footprint_inv.
  - destruct (@normalize_inv_of_flag _ H1 H2) as [Hinv Hflag].
    destruct (normalize_peaks_region
                (fold_left (shrink_row element (front :: P'))
                   (columns (pr_y front) (Z.to_nat (pr_y back - pr_y front + 1)))
                   (mkFootprint [] 0 emptyBox (mkCatalog minimalSchema []) (_region g) true)))
      as [_ Hreg].
    split; [|split].
    + destruct Hinv as [A B C D F]. split; assumption.
    + exact Hflag.
    + unfold set_peaks. cbn [_region]. rewrite Hreg. exact H3.
Qed.

(** ** Erosion with the diamond *)

(** In a sorted list of spans that do not touch, a run of covered pixels of
    one row lies in one span. *)
Lemma covered_run_one_span (l : list Span) (y lo : Z) (n : nat) :
  StronglySorted gap l ->
  (forall px, lo <= px <= lo + Z.of_nat n -> covers l px y) ->
  exists t, In t l /\ getY t = y /\ getX0 t <= lo /\ lo + Z.of_nat n <= getX1 t.
Proof.
  intros Hs. induction n as [|n IH]; intros H.
  - destruct (H lo ltac:(lia)) as (t & Ht & Hc). apply span_contains_iff in Hc.
    exists t. split; [assumption|]. lia.
  - destruct IH as (t & Ht & Ey & H0 & H1); [intros px Hpx; apply H; lia|].
    destruct (H (lo + Z.of_nat (S n)) ltac:(lia)) as (t' & Ht' & Hc').
    apply span_contains_iff in Hc'.
    destruct (@sorted_pairs _ _ _ _ _ Hs Ht Ht') as [<-|[G|G]];
      [exists t; split; [assumption|lia]
      |exfalso; unfold gap in G; lia
      |exfalso; unfold gap in G; lia].
Qed.

Lemma eroded_diamond (l : list Span) (r x y : Z) :
  StronglySorted gap l -> 0 <= r ->
  ((forall e, In e (_widths (StructuringElement_shape DIAMOND r)) -> fits l e x y) <->
   (forall px py, Z.abs (x - px) + Z.abs (y - py) <= r -> covers l px py)).
Proof.
  intros Hs Hr. split.
  - intros H px py Hd.
    destruct (H (mkSpan (py - y) (- (r - Z.abs (py - y))) (r - Z.abs (py - y))))
      as (t & Ht & Ey & H0 & H1).
    { apply diamond_rows_in; [assumption|]. exists (py - y). split; [lia|reflexivity]. }
    cbn [getY getX0 getX1] in *. exists t. split; [assumption|].
    apply span_contains_iff. lia.
  - intros H e He. apply diamond_rows_in in He as (dy & Hdy & ->); [|assumption].
    destruct (@covered_run_one_span l (y + dy) (x - (r - Z.abs dy))
                (Z.to_nat (2 * (r - Z.abs dy))) Hs) as (t & Ht & Ey & H0 & H1).
    + intros px Hpx. apply H. lia.
    + exists t. split; [assumption|]. cbn [getY getX0 getX1]. lia.
Qed.

Lemma diamond_runs_nonempty (l : list Span) (r : Z) :
  0 <= r -> Forall span_wf l -> l <> [] ->
  sortRuns (flat_map (fun span =>
                        span_runs span 0 (_widths (StructuringElement_shape DIAMOND r))) l)
  <> [].
Proof.
  intros Hr Hwf Hne. destruct l as [|t l]; [contradiction|].
  inversion Hwf as [|? ? Ht _]; subst.
  assert (Hin : In (run_of t (Z.of_nat 0) (mkSpan (- r) 0 0))
                   (sortRuns (flat_map (fun span =>
                      span_runs span 0 (_widths (StructuringElement_shape DIAMOND r)))
                      (t :: l)))).
  { apply sortRuns_in. apply primary_runs_in. exists t, 0%nat, (mkSpan (- r) 0 0).
    split; [now left|]. split; [|split; [cbn [getX0 getX1]; unfold span_wf in Ht; lia
                                        |reflexivity]].
    unfold StructuringElement_shape. cbn [_widths].
    destruct (Z.to_nat (r - - r + 1)) as [|n] eqn:En; [lia|].
    cbn [columns map nth_error]. f_equal. unfold element_row. f_equal; lia. }
  intros E. rewrite E in Hin. destruct Hin.
Qed.

(** X25: shrinking a footprint that satisfies the invariant and has spans by
    [nShrink >= 0] with the Manhattan metric returns a footprint that
    satisfies the invariant whose pixels are exactly those whose whole
    Manhattan ball of radius [nShrink] lies in the footprint. *)
Theorem shrinkFootprint_manhattan (f : Footprint) (nShrink : Z) :
  normalized_inv f -> _spans f <> [] -> 0 <= nShrink ->
  exists s,
    shrinkFootprint f nShrink false = Ok s /\ normalized_inv s /\
    (forall x y, covers (_spans s) x y <->
                 forall px py, Z.abs (x - px) + Z.abs (y - py) <= nShrink ->
                               covers (_spans f) px py).
Proof.
  intros Hinv Hne Hr.
  pose proof (normalized_inv_gap Hinv) as HL.
  set (el := StructuringElement_shape DIAMOND nShrink).
  assert (HM : _yRange el = Z.of_nat (length (_widths el))) by now apply diamond_yRange.
  assert (HM1 : 0 < _yRange el) by (unfold el, StructuringElement_shape; cbn [_yRange]; lia).
  assert (Hok : exists s, shrinkFootprint f nShrink false = Ok s).
  { unfold shrinkFootprint. fold el. unfold shrinkFootprintImpl, Footprint_new.
    change (0 <? 0) with false. cbn [bind].
    pose proof (@diamond_runs_nonempty (_spans f) nShrink Hr (ni_wf Hinv) Hne) as Hruns.
    fold el in Hruns.
    destruct (sortRuns _) as [|front P'] eqn:EP; [contradiction|].
    destruct (rev (front :: P')) as [|back P''] eqn:ER.
    { apply (f_equal (@length _)) in ER. rewrite length_rev in ER. discriminate. }
    eexists. reflexivity. }
  destruct Hok as (s & Es). exists s. split; [exact Es|].
  unfold shrinkFootprint in Es. fold el in Es.
  split; [apply (@shrinkFootprintImpl_inv el f s Es)|].
  intros x y. rewrite <- (@eroded_diamond (_spans f) nShrink x y HL Hr). fold el. split.
  - intros Hc e He.
    exact (@shrinkFootprintImpl_sound el f s HL (diamond_rows_wf nShrink) HM Es x y Hc e He).
  - intros Hfit.
    destruct (@shrinkFootprintImpl_target (_spans f) el HL (diamond_rows_wf nShrink) HM HM1
                y x x ltac:(lia) Hfit f eq_refl) as (s' & Es' & Hcov).
    rewrite Es in Es'. injection Es' as <-. apply Hcov. lia.
Qed.

Lemma shrinkFootprint_manhattan_witness :
  exists s,
    shrinkFootprint (Footprint_rect (mkBox 0 0 3 3) emptyBox) 1 false = Ok s /\
    _spans s = [mkSpan 1 1 1].
Proof.
  destruct (@shrinkFootprint_manhattan (Footprint_rect (mkBox 0 0 3 3) emptyBox) 1)
    as (s & E & _).
  - apply Footprint_rect_inv; lia.
  - discriminate.
  - lia.
  - exists s. split; [exact E|]. vm_compute in E. injection E as <-. reflexivity.
Defined.

(** X26: with the Manhattan metric and [nShrink >= 0], shrinking is
    undefined exactly for a footprint with no spans: the first and last
    primary runs are read from an empty vector. *)
Theorem shrinkFootprint_undefined_iff (f : Footprint) (nShrink : Z) :
  Forall span_wf (_spans f) -> 0 <= nShrink ->
  (shrinkFootprint f nShrink false = Undefined <-> _spans f = []).
Proof.
  intros Hwf Hr. unfold shrinkFootprint, shrinkFootprintImpl, Footprint_new.
  change (0 <? 0) with false. cbn [bind]. split.
  - intros E. destruct (_spans f) as [|t l] eqn:Ef; [reflexivity|]. exfalso.
    assert (Hne : t :: l <> []) by discriminate.
    pose proof (@diamond_runs_nonempty (t :: l) nShrink Hr Hwf Hne) as Hruns.
    destruct (sortRuns _) as [|front P'] eqn:EP; [contradiction|].
    destruct (rev (front :: P')) as [|back P''] eqn:ER; [|discriminate].
    apply (f_equal (@length _)) in ER. rewrite length_rev in ER. discriminate.
  - intros ->. reflexivity.
Qed.

Lemma shrinkFootprint_undefined_iff_witness :
  shrinkFootprint Footprint_default 1 false = Undefined <-> _spans Footprint_default = [].
Proof.
  apply (@shrinkFootprint_undefined_iff Footprint_default 1); [constructor|lia].
Defined.

(* ------------------------------------------------------------------ *)
(** ** Growing and shrinking with the circle *)

Lemma sqrt_le_iff (d n : Z) : 0 <= d -> 0 <= n -> (d <= Z.sqrt n <-> d * d <= n).
Proof.
  intros Hd Hn. pose proof (Z.sqrt_spec n Hn) as Hs. cbv zeta in Hs.
  pose proof (Z.sqrt_nonneg n) as H0. split; intros H; nia.
Qed.

Lemma square_le_abs (d r : Z) : 0 <= r -> d * d <= r * r -> - r <= d <= r.
Proof. intros Hr H. nia. Qed.

Lemma squares_zero (a b : Z) : a * a + b * b <= 0 -> a = 0 /\ b = 0.
Proof. intros H. nia. Qed.

Lemma circle_rows_in (r : Z) (el : Span) :
  0 <= r ->
  (In el (_widths (StructuringElement_shape CIRCLE r)) <->
   exists dy, - r <= dy <= r /\
              el = mkSpan dy (- Z.sqrt (r * r - dy * dy)) (Z.sqrt (r * r - dy * dy))).
Proof.
  intros Hr. unfold StructuringElement_shape. cbn [_widths]. rewrite in_map_iff.
  split.
  - intros (dy & <- & Hin). apply in_columns in Hin. exists dy. split; [lia|reflexivity].
  - intros (dy & Hdy & ->). exists dy. split; [reflexivity|]. apply in_columns. lia.
Qed.

Lemma circle_rows_wf (r : Z) :
  Forall span_wf (_widths (StructuringElement_shape CIRCLE r)).
Proof.
  unfold StructuringElement_shape. cbn [_widths].
  apply Forall_forall. intros e He. apply in_map_iff in He as (dy & <- & Hdy).
  unfold span_wf, element_row. cbn [getX0 getX1].
  pose proof (Z.sqrt_nonneg (r * r - dy * dy)). lia.
Qed.

Lemma circle_yRange (r : Z) :
  0 <= r ->
  _yRange (StructuringElement_shape CIRCLE r)
  = Z.of_nat (length (_widths (StructuringElement_shape CIRCLE r))).
Proof.
  intros Hr. unfold StructuringElement_shape. cbn [_widths _yRange].
  rewrite length_map, length_columns. lia.
Qed.

Lemma dilated_circle (l : list Span) (r x y : Z) :
  Forall span_wf l -> 0 <= r ->
  (dilated l (_widths (StructuringElement_shape CIRCLE r)) x y <->
   exists px py, covers l px py /\
                 (x - px) * (x - px) + (y - py) * (y - py) <= r * r).
Proof.
  intros Hwf Hr. rewrite Forall_forall in Hwf. split.
  - intros (span & el & Hs & Hel & -> & Hx).
    apply circle_rows_in in Hel as (dy & Hdy & ->); [|assumption].
    cbn [getY getX0 getX1] in *. specialize (Hwf _ Hs). unfold span_wf in Hwf.
    assert (Hn : 0 <= r * r - dy * dy) by nia.
    pose proof (Z.sqrt_spec _ Hn) as Hsq. cbv zeta in Hsq.
    pose proof (Z.sqrt_nonneg (r * r - dy * dy)) as H0.
    set (s := Z.sqrt (r * r - dy * dy)) in *.
    exists (Z.max (getX0 span) (Z.min x (getX1 span))), (getY span). split.
    + exists span. split; [assumption|]. apply span_contains_iff. lia.
    + set (d := x - Z.max (getX0 span) (Z.min x (getX1 span))).
      assert (Hd : - s <= d <= s) by (unfold d; lia).
      replace (getY span + dy - getY span) with dy by lia.
      assert (d * d <= s * s) by nia. lia.
  - intros (px & py & (span & Hs & Hc) & Hd). apply span_contains_iff in Hc as [Hx ->].
    pose proof (Z.square_nonneg (x - px)) as Hsqx.
    assert (Hdy : - r <= y - getY span <= r).
    { apply square_le_abs; [assumption|]. lia. }
    set (dy := y - getY span) in *.
    exists span, (mkSpan dy (- Z.sqrt (r * r - dy * dy)) (Z.sqrt (r * r - dy * dy))).
    split; [assumption|]. split.
    + apply circle_rows_in; [assumption|]. exists dy. split; [lia|reflexivity].
    + cbn [getY getX0 getX1]. split; [unfold dy; lia|].
      assert (Hn : 0 <= r * r - dy * dy) by nia.
      assert (Hs' : Z.abs (x - px) <= Z.sqrt (r * r - dy * dy)).
      { apply sqrt_le_iff; [lia|assumption|]. nia. }
      lia.
Qed.

Lemma eroded_circle (l : list Span) (r x y : Z) :
  StronglySorted gap l -> 0 <= r ->
  ((forall e, In e (_widths (StructuringElement_shape CIRCLE r)) -> fits l e x y) <->
   (forall px py, (x - px) * (x - px) + (y - py) * (y - py) <= r * r -> covers l px py)).
Proof.
  intros Hs Hr. split.
  - intros H px py Hd.
    pose proof (Z.square_nonneg (x - px)) as Hsqx.
    assert (Hdy : - r <= py - y <= r).
    { apply square_le_abs; [assumption|].
      replace ((py - y) * (py - y)) with ((y - py) * (y - py)) by ring. lia. }
    set (dy := py - y) in *.
    destruct (H (mkSpan dy (- Z.sqrt (r * r - dy * dy)) (Z.sqrt (r * r - dy * dy))))
      as (t & Ht & Ey & H0 & H1).
    { apply circle_rows_in; [assumption|]. exists dy. split; [lia|reflexivity]. }
    cbn [getY getX0 getX1] in *. exists t. split; [assumption|].
    apply span_contains_iff.
    assert (Hn : 0 <= r * r - dy * dy) by nia.
    assert (Hs' : Z.abs (x - px) <= Z.sqrt (r * r - dy * dy)).
    { apply sqrt_le_iff; [lia|assumption|]. unfold dy. nia. }
    unfold dy in *. lia.
  - intros H e He. apply circle_rows_in in He as (dy & Hdy & ->); [|assumption].
    assert (Hn : 0 <= r * r - dy * dy) by nia.
    pose proof (Z.sqrt_spec _ Hn) as Hsq. cbv zeta in Hsq.
    pose proof (Z.sqrt_nonneg (r * r - dy * dy)) as H0.
    set (s := Z.sqrt (r * r - dy * dy)) in *.
    destruct (@covered_run_one_span l (y + dy) (x - s) (Z.to_nat (2 * s)) Hs)
      as (t & Ht & Ey & H1 & H2).
    + intros px Hpx. apply H.
      assert (Hd : - s <= x - px <= s) by lia.
      replace (y - (y + dy)) with (- dy) by lia.
      assert ((x - px) * (x - px) <= s * s) by nia. nia.
    + exists t. split; [assumption|]. cbn [getY getX0 getX1]. lia.
Qed.

Lemma circle_runs_nonempty (l : list Span) (r : Z) :
  0 <= r -> Forall span_wf l -> l <> [] ->
  sortRuns (flat_map (fun span =>
                        span_runs span 0 (_widths (StructuringElement_shape CIRCLE r))) l)
  <> [].
Proof.
  intros Hr Hwf Hne. destruct l as [|t l]; [contradiction|].
  inversion Hwf as [|? ? Ht _]; subst.
  assert (Hin : In (run_of t (Z.of_nat 0) (mkSpan (- r) 0 0))
                   (sortRuns (flat_map (fun span =>
                      span_runs span 0 (_widths (StructuringElement_shape CIRCLE r)))
                      (t :: l)))).
  { apply sortRuns_in. apply primary_runs_in. exists t, 0%nat, (mkSpan (- r) 0 0).
    split; [now left|]. split; [|split; [cbn [getX0 getX1]; unfold span_wf in Ht; lia
                                        |reflexivity]].
    unfold StructuringElement_shape. cbn [_widths].
    destruct (Z.to_nat (r - - r + 1)) as [|n] eqn:En; [lia|].
    cbn [columns map nth_error]. f_equal. unfold element_row.
    replace (r * r - - r * - r) with 0 by lia. reflexivity. }
  intros E. rewrite E in Hin. destruct Hin.
Qed.

(** X27: growing a footprint that satisfies the invariant isotropically by
    [nGrow >= 0] returns a footprint that satisfies the invariant whose
    pixels are exactly those within Euclidean distance [nGrow] of a pixel
    of the footprint. *)
Theorem growFootprint_euclidean (f : Footprint) (nGrow : Z) :
  normalized_inv f -> 0 <= nGrow ->
  exists g,
    growFootprint f nGrow true = Ok g /\ normalized_inv g /\
    (forall x y, covers (_spans g) x y <->
                 exists px py, covers (_spans f) px py /\
                               (x - px) * (x - px) + (y - py) * (y - py) <= nGrow * nGrow).
Proof.
  intros Hinv Hn. unfold growFootprint.
  destruct ((nGrow <=? 0) || (_area f =? 0)) eqn:Ecase.
  - exists f. rewrite (@Footprint_copy_id f (ni_wf Hinv) (ni_bbox Hinv)).
    split; [reflexivity|]. split; [assumption|].
    intros x y. apply orb_true_iff in Ecase as [Hc|Hc]; bool_prop.
    + assert (nGrow = 0) as -> by lia. split.
      * intros H. exists x, y. split; [assumption|]. rewrite !Z.sub_diag. reflexivity.
      * intros (px & py & H & Hd). apply squares_zero in Hd as [Hx Hy].
        replace x with px by lia. replace y with py by lia. assumption.
    + rewrite (normalized_empty_area Hinv Hc). split.
      * intros H. now apply covers_nil in H.
      * intros (px & py & H & _). now apply covers_nil in H.
  - destruct (@growFootprintImpl_dilates f (StructuringElement_shape CIRCLE nGrow)
                (ni_wf Hinv) (circle_rows_wf nGrow)) as (g & E & Hg & _ & _ & _ & Hc).
    exists g. split; [exact E|]. split; [exact Hg|].
    intros x y. rewrite Hc. apply dilated_circle; [apply (ni_wf Hinv)|assumption].
Qed.

Lemma growFootprint_euclidean_witness :
  exists g,
    growFootprint (Footprint_rect (mkBox 0 0 1 1) emptyBox) 2 true = Ok g /\
    _spans g = [mkSpan (-2) 0 0; mkSpan (-1) (-1) 1; mkSpan 0 (-2) 2; mkSpan 1 (-1) 1;
                mkSpan 2 0 0].
Proof.
  destruct (@growFootprint_euclidean (Footprint_rect (mkBox 0 0 1 1) emptyBox) 2)
    as (g & E & _).
  - apply Footprint_rect_inv; lia.
  - lia.
  - exists g. split; [exact E|]. vm_compute in E. injection E as <-. reflexivity.
Defined.

(** X28: shrinking a footprint that satisfies the invariant and has spans
    isotropically by [nShrink >= 0] returns a footprint that satisfies the
    invariant whose pixels are exactly those whose whole Euclidean disc of
    radius [nShrink] lies in the footprint. *)
Theorem shrinkFootprint_euclidean (f : Footprint) (nShrink : Z) :
  normalized_inv f -> _spans f <> [] -> 0 <= nShrink ->
  exists s,
    shrinkFootprint f nShrink true = Ok s /\ normalized_inv s /\
    (forall x y, covers (_spans s) x y <->
                 forall px py,
                   (x - px) * (x - px) + (y - py) * (y - py) <= nShrink * nShrink ->
                   covers (_spans f) px py).
Proof.
  intros Hinv Hne Hr.
  pose proof (normalized_inv_gap Hinv) as HL.
  set (el := StructuringElement_shape CIRCLE nShrink).
  assert (HM : _yRange el = Z.of_nat (length (_widths el))) by now apply circle_yRange.
  assert (HM1 : 0 < _yRange el) by (unfold el, StructuringElement_shape; cbn [_yRange]; lia).
  assert (Hok : exists s, shrinkFootprint f nShrink true = Ok s).
  { unfold shrinkFootprint. fold el. unfold shrinkFootprintImpl, Footprint_new.
    change (0 <? 0) with false. cbn [bind].
    pose proof (@circle_runs_nonempty (_spans f) nShrink Hr (ni_wf Hinv) Hne) as Hruns.
    fold el in Hruns.
    destruct (sortRuns _) as [|front P'] eqn:EP; [contradiction|].
    destruct (rev (front :: P')) as [|back P''] eqn:ER.
    { apply (f_equal (@length _)) in ER. rewrite length_rev in ER. discriminate. }
    eexists. reflexivity. }
  destruct Hok as (s & Es). exists s. split; [exact Es|].
  unfold shrinkFootprint in Es. fold el in Es.
  split; [apply (@shrinkFootprintImpl_inv el f s Es)|].
  intros x y. rewrite <- (@eroded_circle (_spans f) nShrink x y HL Hr). fold el. split.
  - intros Hc e He.
    exact (@shrinkFootprintImpl_sound el f s HL (circle_rows_wf nShrink) HM Es x y Hc e He).
  - intros Hfit.
    destruct (@shrinkFootprintImpl_target (_spans f) el HL (circle_rows_wf nShrink) HM HM1
                y x x ltac:(lia) Hfit f eq_refl) as (s' & Es' & Hcov).
    rewrite Es in Es'. injection Es' as <-. apply Hcov. lia.
Qed.

Lemma shrinkFootprint_euclidean_witness :
  exists s,
    shrinkFootprint (Footprint_rect (mkBox 0 0 5 5) emptyBox) 2 true = Ok s /\
    _spans s = [mkSpan 2 2 2].
Proof.
  destruct (@shrinkFootprint_euclidean (Footprint_rect (mkBox 0 0 5 5) emptyBox) 2)
    as (s & E & _).
  - apply Footprint_rect_inv; lia.
  - discriminate.
  - lia.
  - exists s. split; [exact E|]. vm_compute in E. injection E as <-. reflexivity.
Defined.

(* ------------------------------------------------------------------ *)
(** ** clipToNonzero *)

Lemma scan_left_ok (img : Raster) (row : Z) (n : nat) :
  forall leftx,
    (forall x, leftx <= x < leftx + Z.of_nat n ->
               in_raster img (x - img_x0 img) row = true) ->
    exists l, scan_left img row leftx n = Ok l /\ leftx <= l <= leftx + Z.of_nat n /\
      (forall x, leftx <= x < l -> img_pix img (x - img_x0 img) row = 0) /\
      (l < leftx + Z.of_nat n -> img_pix img (l - img_x0 img) row <> 0).
Proof.
  induction n as [|n IH]; intros leftx Hin.
  - exists leftx. cbn [scan_left]. split; [reflexivity|]. split; [lia|].
    split; intros; lia.
  - cbn [scan_left]. unfold raster_read. rewrite (Hin leftx) by lia. cbn [bind].
    destruct (Z.eqb_spec (img_pix img (leftx - img_x0 img) row) 0) as [E|E]; cbn [negb].
    + destruct (IH (leftx + 1)) as (l & El & Hl & Hz & Hnz).
      { intros x Hx. apply Hin. lia. }
      exists l. split; [exact El|]. split; [lia|]. split.
      * intros x Hx. destruct (Z.eq_dec x leftx) as [->|]; [exact E|apply Hz; lia].
      * intros H. apply Hnz. lia.
    + exists leftx. split; [reflexivity|]. split; [lia|].
      split; [intros; lia|intros _; exact E].
Qed.

Lemma scan_right_ok (img : Raster) (row : Z) (n : nat) :
  forall rightx,
    (forall x, rightx - Z.of_nat n < x <= rightx ->
               in_raster img (x - img_x0 img) row = true) ->
    exists r, scan_right img row rightx n = Ok r /\ rightx - Z.of_nat n <= r <= rightx /\
      (forall x, r < x <= rightx -> img_pix img (x - img_x0 img) row = 0) /\
      (rightx - Z.of_nat n < r -> img_pix img (r - img_x0 img) row <> 0).
Proof.
  induction n as [|n IH]; intros rightx Hin.
  - exists rightx. cbn [scan_right]. split; [reflexivity|]. split; [lia|].
    split; intros; lia.
  - cbn [scan_right]. unfold raster_read. rewrite (Hin rightx) by lia. cbn [bind].
    destruct (Z.eqb_spec (img_pix img (rightx - img_x0 img) row) 0) as [E|E]; cbn [negb].
    + destruct (IH (rightx - 1)) as (r & Er & Hr & Hz & Hnz).
      { intros x Hx. apply Hin. lia. }
      exists r. split; [exact Er|]. split; [lia|]. split.
      * intros x Hx. destruct (Z.eq_dec x rightx) as [->|]; [exact E|apply Hz; lia].
      * intros H. apply Hnz. lia.
    + exists rightx. split; [reflexivity|]. split; [lia|].
      split; [intros; lia|intros _; exact E].
Qed.

(** The scan from the left reads only pixels of the image, or is undefined. *)
Lemma scan_left_cases (img : Raster) (row : Z) (n : nat) :
  forall leftx,
    scan_left img row leftx n = Undefined \/
    exists l, scan_left img row leftx n = Ok l /\ leftx <= l <= leftx + Z.of_nat n /\
              (forall x, leftx <= x < l -> in_raster img (x - img_x0 img) row = true).
Proof.
  induction n as [|n IH]; intros leftx.
  - right. exists leftx. cbn [scan_left]. split; [reflexivity|]. split; [lia|]. intros; lia.
  - cbn [scan_left]. unfold raster_read.
    destruct (in_raster img (leftx - img_x0 img) row) eqn:Ein; cbn [bind]; [|now left].
    destruct (negb (img_pix img (leftx - img_x0 img) row =? 0)).
    + right. exists leftx. split; [reflexivity|]. split; [lia|]. intros; lia.
    + destruct (IH (leftx + 1)) as [E|(l & El & Hl & Hr)]; [now left|].
      right. exists l. split; [exact El|]. split; [lia|].
      intros x Hx. destruct (Z.eq_dec x leftx) as [->|]; [exact Ein|apply Hr; lia].
Qed.

Lemma span_in_raster_all (img : Raster) (s : Span) (x : Z) :
  span_in_raster img s = true -> getX0 s <= x <= getX1 s ->
  in_raster img (x - img_x0 img) (getY s - img_y0 img) = true.
Proof.
  unfold span_in_raster. rewrite andb_true_iff, !in_raster_iff. lia.
Qed.

(** One span that lies in the image: it is dropped when all its pixels are
    zero, and else cut down to its first and last pixels that are not. *)
Lemma clip_span_ok (img : Raster) (acc : Footprint) (s : Span) :
  span_wf s -> span_in_raster img s = true -> normalized_inv acc ->
  (forall t, In t (_spans acc) -> gap t s) ->
  exists g,
    clip_span img acc s = Ok g /\ normalized_inv g /\
    (_normalized acc = true -> _normalized g = true) /\
    _peaks g = _peaks acc /\ _region g = _region acc /\
    (forall t, In t (_spans g) ->
               In t (_spans acc) \/
               (getY t = getY s /\ getX0 s <= getX0 t /\ getX1 t <= getX1 s)) /\
    (forall x y, covers (_spans g) x y <->
                 covers (_spans acc) x y \/ nonzero_between img s x y).
Proof.
  intros Hwf Hin Hinv Hgap. unfold span_wf in Hwf. unfold clip_span. cbv zeta.
  destruct (@scan_left_ok img (getY s - img_y0 img) (Z.to_nat (getX1 s - getX0 s + 1))
              (getX0 s)) as (l & El & Hl & Hlz & Hlnz).
  { intros x Hx. apply span_in_raster_all; [assumption|lia]. }
  rewrite El. cbn [bind].
  destruct (Z.ltb_spec (getX1 s) l) as [Hall|Hsome].
  - (* every pixel is zero: the span is dropped *)
    exists acc. split; [reflexivity|]. split; [assumption|]. split; [auto|].
    split; [reflexivity|]. split; [reflexivity|]. split; [auto|].
    intros x y. split; [now left|]. intros [H|(-> & a & b & Ha & Hb & Hna & _)]; [exact H|].
    exfalso. apply Hna. unfold pixel_at. apply Hlz. lia.
  - destruct (@scan_right_ok img (getY s - img_y0 img) (Z.to_nat (getX1 s - l + 1))
                (getX1 s)) as (r & Er & Hr & Hrz & Hrnz).
    { intros x Hx. apply span_in_raster_all; [assumption|lia]. }
    rewrite Er. cbn [bind].
    assert (Hnl : img_pix img (l - img_x0 img) (getY s - img_y0 img) <> 0)
      by (apply Hlnz; lia).
    assert (Hlr : l <= r).
    { destruct (Z.le_gt_cases l r) as [H|H]; [exact H|].
      exfalso. apply Hnl. apply Hrz. lia. }
    assert (Hnr : img_pix img (r - img_x0 img) (getY s - img_y0 img) <> 0)
      by (apply Hrnz; lia).
    set (t := mkSpan (getY s) l r).
    assert (Hwt : span_wf t) by (unfold span_wf, t; cbn [getX0 getX1]; lia).
    assert (Hgt : forall before last, _spans acc = before ++ [last] -> gap last t).
    { intros before last E. assert (Hg : gap last s).
      { apply Hgap. rewrite E. apply in_or_app. right. now left. }
      unfold gap, t in *. cbn [getY getX0 getX1]. lia. }
    exists (push acc t).
    split; [exact (@addSpanInSeries_after acc t Hwt Hgt)|].
    split; [now apply push_inv|]. split; [intros _; apply push_normalized|].
    split; [unfold push, addSpan; destruct (_ <? _); reflexivity|].
    split; [unfold push, addSpan; destruct (_ <? _); reflexivity|].
    rewrite push_spans by assumption. split.
    + intros t' Ht'. apply in_app_or in Ht' as [H|[<-|[]]]; [now left|right].
      unfold t. cbn [getY getX0 getX1]. lia.
    + intros x y. rewrite covers_app, covers_cons.
      pose proof (@covers_nil x y) as Hnil.
      assert (Hiff : span_contains t x y = true <-> nonzero_between img s x y);
        [|tauto].
      rewrite span_contains_iff. unfold t, nonzero_between, pixel_at.
      cbn [getY getX0 getX1]. split.
      * intros [Hx ->]. split; [reflexivity|]. exists l, r. repeat split; try lia; assumption.
      * intros (-> & a & b & Ha & Hb & Hna & Hnb). split; [|reflexivity].
        assert (Hla : l <= a).
        { destruct (Z.le_gt_cases l a) as [Hle|Hlt]; [exact Hle|].
          exfalso. apply Hna. apply Hlz. lia. }
        assert (Hbr : b <= r).
        { destruct (Z.le_gt_cases b r) as [Hle|Hlt]; [exact Hle|].
          exfalso. apply Hnb. apply Hrz. lia. }
        lia.
Qed.

(** One span with an end outside the image: a pixel that is not in the
    image is read. *)
Lemma clip_span_outside (img : Raster) (acc : Footprint) (s : Span) :
  span_wf s -> span_in_raster img s = false -> clip_span img acc s = Undefined.
Proof.
  intros Hwf Hout. unfold span_wf in Hwf. unfold clip_span. cbv zeta.
  destruct (in_raster img (getX0 s - img_x0 img) (getY s - img_y0 img)) eqn:E0.
  - assert (E1 : in_raster img (getX1 s - img_x0 img) (getY s - img_y0 img) = false).
    { unfold span_in_raster in Hout. rewrite E0 in Hout. exact Hout. }
    destruct (@scan_left_cases img (getY s - img_y0 img)
                (Z.to_nat (getX1 s - getX0 s + 1)) (getX0 s)) as [E|(l & El & Hl & Hr)].
    + rewrite E. reflexivity.
    + rewrite El. cbn [bind]. destruct (Z.ltb_spec (getX1 s) l) as [Hall|Hsome].
      * rewrite (Hr (getX1 s)) in E1 by lia. discriminate.
      * destruct (Z.to_nat (getX1 s - l + 1)) as [|n] eqn:En; [lia|].
        cbn [scan_right]. unfold raster_read. rewrite E1. reflexivity.
  - destruct (Z.to_nat (getX1 s - getX0 s + 1)) as [|n] eqn:En; [lia|].
    cbn [scan_left]. unfold raster_read. rewrite E0. reflexivity.
Qed.

Lemma clip_spans_spec (img : Raster) (rest : list Span) :
  forall acc,
    StronglySorted gap rest -> Forall span_wf rest ->
    normalized_inv acc -> _normalized acc = true ->
    (forall t, In t (_spans acc) -> Forall (gap t) rest) ->
    if forallb (span_in_raster img) rest then
      exists g,
        foldM (clip_span img) rest acc = Ok g /\ normalized_inv g /\ _normalized g = true /\
        _peaks g = _peaks acc /\ _region g = _region acc /\
        (forall x y, covers (_spans g) x y <->
                     covers (_spans acc) x y \/
                     exists s, In s rest /\ nonzero_between img s x y)
    else foldM (clip_span img) rest acc = Undefined.
Proof.
  induction rest as [|s rest IH]; intros acc Hs Hwf Hinv Hflag Hgap.
  - cbn [forallb foldM]. exists acc. split; [reflexivity|]. split; [assumption|].
    split; [assumption|]. split; [reflexivity|]. split; [reflexivity|].
    intros x y. split; [now left|]. intros [H|(s & [] & _)]. exact H.
  - inversion Hs as [|? ? Hs' Hall]; subst. inversion Hwf as [|? ? Hws Hwl]; subst.
    cbn [forallb foldM]. destruct (span_in_raster img s) eqn:Es; cbn [andb].
    + destruct (@clip_span_ok img acc s Hws Es Hinv) as (g1 & E1 & Hi1 & Hf1 & Hp1 & Hr1 & Hin1 & Hc1).
      { intros t Ht. specialize (Hgap t Ht). now inversion Hgap. }
      rewrite E1. cbn [bind].
      assert (Hgap1 : forall t, In t (_spans g1) -> Forall (gap t) rest).
      { intros t Ht. destruct (Hin1 t Ht) as [H|(Ey & H0 & H1)].
        - specialize (Hgap t H). now inversion Hgap.
        - revert Hall. apply Forall_weaken. unfold gap. intros; lia. }
      specialize (IH g1 Hs' Hwl Hi1 (Hf1 Hflag) Hgap1).
      destruct (forallb (span_in_raster img) rest).
      * destruct IH as (g & Eg & Hi & Hf & Hp & Hr & Hc).
        exists g. split; [exact Eg|]. split; [exact Hi|]. split; [exact Hf|].
        split; [congruence|]. split; [congruence|].
        intros x y. rewrite Hc, Hc1. split.
        -- intros [[H|H]|(s' & Hs'' & H)]; [now left|right; exists s; split; [now left|exact H]|].
           right. exists s'. split; [now right|exact H].
        -- intros [H|(s' & [<-|Hs''] & H)]; [left; now left|left; now right|].
           right. exists s'. split; assumption.
      * exact IH.
    + rewrite (@clip_span_outside img acc s Hws Es). reflexivity.
Qed.

Lemma clipToNonzero_spec (f : Footprint) (img : Raster) :
  normalized_inv f ->
  if forallb (span_in_raster img) (_spans f) then
    exists g,
      clipToNonzero f img = Ok g /\ normalized_inv g /\ _normalized g = true /\
      _peaks g = _peaks f /\ _region g = _region f /\
      (forall x y, covers (_spans g) x y <->
                   exists s, In s (_spans f) /\ nonzero_between img s x y)
  else clipToNonzero f img = Undefined.
Proof.
  intros Hinv. unfold clipToNonzero. cbv zeta. rewrite (normalize_canonical Hinv).
  cbn [set_normalized _spans _peaks _region _normalized].
  pose proof (@clip_spans_spec img (_spans f)
                (mkFootprint [] 0 emptyBox (_peaks f) (_region f) true)
                (normalized_inv_gap Hinv) (ni_wf Hinv)
                (empty_footprint_inv (_peaks f) (_region f) true) eq_refl) as H.
  cbn [_spans _peaks _region] in H. specialize (H ltac:(intros t [])).
  destruct (forallb (span_in_raster img) (_spans f)).
  - destruct H as (g & Eg & Hi & Hf & Hp & Hr & Hc). exists g.
    rewrite Eg. cbn [bind]. rewrite (normalize_flagged _ Hf).
    split; [reflexivity|]. split; [exact Hi|]. split; [exact Hf|].
    split; [exact Hp|]. split; [exact Hr|].
    intros x y. rewrite Hc. pose proof (@covers_nil x y). tauto.
  - rewrite H. reflexivity.
Qed.

(** X29: on a footprint that satisfies the invariant and whose spans lie in
    the image, [clipToNonzero] returns a footprint that satisfies the
    invariant, with the peaks and the region untouched, whose pixels are
    those of each span from its first to its last pixel where the image is
    not zero: zero pixels at the ends of a span go, those between two
    pixels that are not zero stay. *)
Theorem clipToNonzero_trims (f : Footprint) (img : Raster) :
  normalized_inv f ->
  (forall s, In s (_spans f) -> span_in_raster img s = true) ->
  exists g,
    clipToNonzero f img = Ok g /\ normalized_inv g /\ _normalized g = true /\
    _peaks g = _peaks f /\ _region g = _region f /\
    (forall x y, covers (_spans g) x y <->
                 exists s, In s (_spans f) /\ nonzero_between img s x y).
Proof.
  intros Hinv Hin. pose proof (@clipToNonzero_spec f img Hinv) as H.
  apply forallb_forall in Hin. rewrite Hin in H. exact H.
Qed.

Lemma clipToNonzero_trims_witness :
  exists g,
    clipToNonzero (Footprint_rect (mkBox 0 0 5 1) emptyBox)
                  (mkRaster 0 0 5 1 (fun c _ => if (c =? 1) || (c =? 3) then 7 else 0))
    = Ok g /\
    _spans g = [mkSpan 0 1 3].
Proof.
  destruct (@clipToNonzero_trims (Footprint_rect (mkBox 0 0 5 1) emptyBox)
              (mkRaster 0 0 5 1 (fun c _ => if (c =? 1) || (c =? 3) then 7 else 0)))
    as (g & E & _).
  - apply Footprint_rect_inv; lia.
  - intros s [<-|[]]. reflexivity.
  - exists g. split; [exact E|]. vm_compute in E. injection E as <-. reflexivity.
Defined.

(** X30: [clipToNonzero] does not clip to the image: on a footprint that
    satisfies the invariant and has a span with an end outside the image,
    it reads a pixel that is not in the image, which is undefined. *)
Theorem clipToNonzero_outside_undefined (f : Footprint) (img : Raster) (s : Span) :
  normalized_inv f -> In s (_spans f) -> span_in_raster img s = false ->
  clipToNonzero f img = Undefined.
Proof.
  intros Hinv Hs Hout. pose proof (@clipToNonzero_spec f img Hinv) as H.
  destruct (forallb (span_in_raster img) (_spans f)) eqn:E; [|exact H].
  rewrite forallb_forall in E. rewrite (E s Hs) in Hout. discriminate.
Qed.

Lemma clipToNonzero_outside_undefined_witness :
  clipToNonzero (Footprint_rect (mkBox 0 0 5 1) emptyBox)
                (mkRaster 0 0 4 1 (fun _ _ => 7))
  = Undefined.
Proof.
  apply (@clipToNonzero_outside_undefined (Footprint_rect (mkBox 0 0 5 1) emptyBox)
           (mkRaster 0 0 4 1 (fun _ _ => 7)) (mkSpan 0 0 4)).
  - apply Footprint_rect_inv; lia.
  - now left.
  - reflexivity.
Defined.
